(** * Silo transaction core: absent ranges, transaction states and commit

    A shallow embedding of [txn_impl.h]: the absent-range bookkeeping of a
    transaction context ([key_in_absent_set], [add_absent_range]), the
    transaction state machine ([abort_impl]) and the commit protocol
    ([commit]).  Keys and payloads are byte strings ordered
    lexicographically, as [std::string] orders them. *)

From Stdlib Require Import String Ascii List ZArith Lia Bool Arith PeanoNat.
From Stdlib Require Import Orders OrdersEx Sorted Permutation Mergesort.
Import ListNotations.

(* ================================================================== *)
(** * Part I: definitions *)
(* ================================================================== *)

(** ** Keys

    [string_type] is [std::string]; its relational operators compare
    bytes as unsigned characters, a proper prefix being smaller.  That is
    the order of [String_as_OT.compare]. *)

Module Key.

Definition string_type := string.

Definition compare (x y : string_type) : comparison := String_as_OT.compare x y.

  (** [x < y] *)
Definition ltb (x y : string_type) : bool :=
    match compare x y with Lt => true | _ => false end.

  (** [x <= y], that is [!(y < x)] *)
Definition leb (x y : string_type) : bool := negb (ltb y x).

  (** [x == y] *)
Definition eqb (x y : string_type) : bool := String.eqb x y.

  (** [std::min(x, y)]: [y] when [y < x], else [x]. *)
Definition min (x y : string_type) : string_type := if ltb y x then y else x.

Definition lt (x y : string_type) : Prop := compare x y = Lt.
Definition le (x y : string_type) : Prop := lt x y \/ x = y.

End Key.

(** ** Key ranges *)

(** Modelled from the spec: [key_range_t] and its helpers are declared in
    [txn.h], which is not among the sources.  The fields [a], [has_b] and
    [b] are the ones [add_absent_range] reads and writes: a range is
    [[a, b)] when [has_b] holds and [[a, +infinity)] otherwise. *)
Record key_range_t : Type := mk_key_range
  { a : Key.string_type;
    has_b : bool;
    b : Key.string_type }.

(** Modelled from the spec: the constructor [key_range_t(a)] of an
    open-ended range; the unused upper bound is the empty string. *)
Definition key_range_open (lo : Key.string_type) : key_range_t :=
  mk_key_range lo false EmptyString.

(** Modelled from the spec: the constructor [key_range_t(a, b)] of a
    bounded range. *)
Definition key_range_bounded (lo hi : Key.string_type) : key_range_t :=
  mk_key_range lo true hi.

(** Modelled from the spec: [key_range_t::is_empty_range].  The spec names
    the boundary case, [lo == hi] with an upper bound present; a bounded
    range whose upper bound does not exceed its lower bound holds no key
    either, and is empty as well. *)
Definition is_empty_range (r : key_range_t) : bool :=
  has_b r && Key.leb (b r) (a r).

(** Modelled from the spec: [key_range_t::key_in_range], the key falls in
    the range. *)
Definition key_in_range (r : key_range_t) (k : Key.string_type) : bool :=
  Key.leb (a r) k && (negb (has_b r) || Key.ltb k (b r)).

(** Modelled from the spec: [key_range_t::contains], [that] is fully
    contained in [r]. *)
Definition contains (r that : key_range_t) : bool :=
  if Key.ltb (a that) (a r) then false
  else if negb (has_b r) then true
  else if negb (has_b that) then false
  else Key.leb (b that) (b r).

(** Modelled from the spec: [key_range_search_less_cmp], the comparator
    handed to [std::upper_bound]: the key lies below the range's upper
    bound. *)
Definition key_range_search_less_cmp (k : Key.string_type) (range : key_range_t) : bool :=
  negb (has_b range) || Key.ltb k (b range).

(** ** [std::upper_bound]

    The binary search of the standard library: [first] and [len] delimit
    the window still to be searched, and the window is halved until it is
    empty.  The window shrinks at every round, so [length l] rounds
    suffice and the fuel never runs out before [len] reaches 0. *)
Section UpperBound.

Context {A B : Type}.
Variable comp : B -> A -> bool.

Fixpoint upper_bound_loop (fuel : nat) (l : list A) (val : B)
           (first len : nat) : nat :=
    match fuel with
    | O => first
    | S fuel' =>
        if Nat.eqb len 0 then first
        else
          let half := len / 2 in
          let middle := first + half in
          match nth_error l middle with
          | Some m =>
              if comp val m
              then upper_bound_loop fuel' l val first half
              else upper_bound_loop fuel' l val (S middle) (len - half - 1)
          | None => first
          end
    end.

  (** The result is an offset from [begin()]; [length l] stands for
      [end()]. *)
Definition upper_bound (l : list A) (val : B) : nat :=
    upper_bound_loop (length l) l val 0 (length l).

  (** The first offset whose element satisfies [comp val], by a left to
      right scan: what [upper_bound] returns on a partitioned sequence. *)
Fixpoint first_true (l : list A) (val : B) : nat :=
    match l with
    | [] => 0
    | x :: l' => if comp val x then 0 else S (first_true l' val)
    end.

End UpperBound.

(** ** The absent-range set of a transaction context *)

Definition absent_range_vec := list key_range_t.

(** [txn_context::key_in_absent_set] *)
Definition key_in_absent_set (absent_range_set : absent_range_vec)
           (k : Key.string_type) : bool :=
  let it := upper_bound key_range_search_less_cmp absent_range_set k in
  match nth_error absent_range_set it with
  | None => false
  | Some r => key_in_range r k
  end.

(** The [for] loop of [add_absent_range] that looks to the right of [it]:
    [rest] is the part of the vector from [it1] on. *)
Fixpoint scan_right (range_b : Key.string_type) (rest : list key_range_t)
         (it1 : nat) : nat :=
  match rest with
  | [] => it1
  | r :: rest' =>
      if Key.leb range_b (a r) || negb (has_b r) || Key.leb range_b (b r)
      then it1
      else scan_right range_b rest' (S it1)
  end.

(** [txn_context::add_absent_range]; the result is the new value of
    [absent_range_set]. *)
Definition add_absent_range (range : key_range_t)
           (absent_range_set : absent_range_vec) : absent_range_vec :=
  if is_empty_range range then absent_range_set
  else
    let it := upper_bound key_range_search_less_cmp absent_range_set (a range) in
    match nth_error absent_range_set it with
    | None =>
        (* it == absent_range_set.end() *)
        match rev absent_range_set with
        | back :: _ =>
            if Key.eqb (b back) (a range)
            then removelast absent_range_set
                   ++ [mk_key_range (a back) (has_b range) (b range)]
            else absent_range_set ++ [range]
        | [] => absent_range_set ++ [range]
        end
    | Some cur =>
        if contains cur range then absent_range_set
        else
          let prev := nth_error absent_range_set (it - 1) in
          let merge_left :=
            negb (Nat.eqb it 0) &&
            match prev with
            | Some p => Key.eqb (b p) (a range)
            | None => false
            end in
          let new_absent_range_set :=
            firstn (if merge_left then it - 1 else it) absent_range_set in
          let left_key :=
            match merge_left, prev with
            | true, Some p => a p
            | _, _ => Key.min (a cur) (a range)
            end in
          if has_b range then
            if negb (has_b cur) || Key.leb (b range) (b cur) then
              if Key.ltb (b range) (a cur) then
                new_absent_range_set
                  ++ [key_range_bounded left_key (b range)]
                  ++ skipn it absent_range_set
              else
                new_absent_range_set
                  ++ [mk_key_range left_key (has_b cur) (b cur)]
                  ++ skipn (S it) absent_range_set
            else
              let it1 := scan_right (b range) (skipn (S it) absent_range_set) (S it) in
              match nth_error absent_range_set it1 with
              | None =>
                  new_absent_range_set ++ [key_range_bounded left_key (b range)]
              | Some r1 =>
                  if Key.leb (a r1) (b range) then
                    new_absent_range_set
                      ++ [mk_key_range left_key (has_b r1) (b r1)]
                      ++ skipn (S it1) absent_range_set
                  else
                    new_absent_range_set
                      ++ [key_range_bounded left_key (b range)]
                      ++ skipn it1 absent_range_set
              end
          else
            new_absent_range_set ++ [key_range_open left_key]
    end.

(** ** The invariant of an absent-range set *)

(** Some key is in both ranges. *)
Definition overlaps (r1 r2 : key_range_t) : Prop :=
  exists k, key_in_range r1 k = true /\ key_in_range r2 k = true.

(** Sorted by lower bound and pairwise non-overlapping; every range of
    the set holds a key (empty ranges are never stored). *)
Definition sorted_disjoint (l : absent_range_vec) : Prop :=
  Forall (fun r => is_empty_range r = false) l /\
  StronglySorted (fun r1 r2 => Key.le (a r1) (a r2)) l /\
  ForallOrdPairs (fun r1 r2 => ~ overlaps r1 r2) l.

(** The same invariant as a check that runs: from the lower limit [lo]
    on, every range starts at or after the end of the one before, is not
    empty, and only the last one may be open-ended. *)
Fixpoint valid_from (lo : Key.string_type) (l : absent_range_vec) : bool :=
  match l with
  | [] => true
  | r :: l' =>
      Key.leb lo (a r) && negb (is_empty_range r) &&
      (if has_b r then valid_from (b r) l'
       else match l' with [] => true | _ => false end)
  end.

Definition valid_range_set (l : absent_range_vec) : bool :=
  valid_from EmptyString l.

(** Some range of the vector holds the key. *)
Definition covered (l : absent_range_vec) (k : Key.string_type) : Prop :=
  exists q, In q l /\ key_in_range q k = true.

(** The set after a sequence of insertions, the first range first. *)
Definition add_absent_ranges (ranges : list key_range_t)
           (l : absent_range_vec) : absent_range_vec :=
  fold_left (fun s range => add_absent_range range s) ranges l.

(** No range of the vector ends where the next one starts. *)
Fixpoint gaps (l : absent_range_vec) : bool :=
  match l with
  | x :: (y :: _) as l' => negb (Key.eqb (b x) (a y)) && gaps l'
  | _ => true
  end.

(** The upper bound of the last range of [l], or [lo] for the empty
    vector: the limit from which whatever follows [l] must start. *)
Fixpoint upper (lo : Key.string_type) (l : absent_range_vec) : Key.string_type :=
  match l with
  | [] => lo
  | r :: l' => upper (b r) l'
  end.

(** The two sides of the partition [upper_bound] searches for: the
    ranges that end at or below [k], and the ranges that reach above it. *)
Definition below (k : Key.string_type) (r : key_range_t) : Prop :=
  key_range_search_less_cmp k r = false.
Definition above (k : Key.string_type) (r : key_range_t) : Prop :=
  key_range_search_less_cmp k r = true.

(** ** The cases of [add_absent_range]

    The branches of [add_absent_range], read off the code with the
    vector cut at the position [upper_bound] returns: [l1] holds the
    ranges below [range.a], [cur] is [*it] and [post] what follows. *)

(** A range the loop over [it1] steps over: it lies wholly below
    [range.b]. *)
Definition swallowed (range_b : Key.string_type) (r : key_range_t) : Prop :=
  Key.lt (a r) range_b /\ has_b r = true /\ Key.lt (b r) range_b.

(** The range at which the loop over [it1] breaks. *)
Definition stops (range_b : Key.string_type) (r : key_range_t) : Prop :=
  Key.le range_b (a r) \/ has_b r = false \/ Key.le range_b (b r).

(** [merge_left], [new_absent_range_set] and [left_key]. *)
Inductive left_part (range cur : key_range_t) (l1 : absent_range_vec)
  : absent_range_vec -> Key.string_type -> Prop :=
| LP_merge (l0 : absent_range_vec) (p : key_range_t) :
    l1 = l0 ++ [p] -> b p = a range ->
    left_part range cur l1 l0 (a p)
| LP_keep :
    (l1 = [] \/ exists l0 p, l1 = l0 ++ [p] /\ b p <> a range) ->
    left_part range cur l1 l1 (Key.min (a cur) (a range)).

(** The upper end of the range that is pushed, and the ranges kept after
    it. *)
Inductive right_part (range cur : key_range_t) (post : absent_range_vec)
  : bool -> Key.string_type -> absent_range_vec -> Prop :=
| RP_open :
    has_b range = false ->
    right_part range cur post false EmptyString []
| RP_gap :
    has_b range = true ->
    has_b cur = false \/ Key.le (b range) (b cur) ->
    Key.lt (b range) (a cur) ->
    right_part range cur post true (b range) (cur :: post)
| RP_cur :
    has_b range = true ->
    has_b cur = false \/ Key.le (b range) (b cur) ->
    Key.le (a cur) (b range) ->
    right_part range cur post (has_b cur) (b cur) post
| RP_end :
    has_b range = true -> has_b cur = true -> Key.lt (b cur) (b range) ->
    Forall (swallowed (b range)) post ->
    right_part range cur post true (b range) []
| RP_join (p1 : absent_range_vec) (r1 : key_range_t) (p2 : absent_range_vec) :
    has_b range = true -> has_b cur = true -> Key.lt (b cur) (b range) ->
    post = p1 ++ r1 :: p2 ->
    Forall (swallowed (b range)) p1 -> stops (b range) r1 ->
    Key.le (a r1) (b range) ->
    right_part range cur post (has_b r1) (b r1) p2
| RP_stop (p1 : absent_range_vec) (r1 : key_range_t) (p2 : absent_range_vec) :
    has_b range = true -> has_b cur = true -> Key.lt (b cur) (b range) ->
    post = p1 ++ r1 :: p2 ->
    Forall (swallowed (b range)) p1 ->
    Key.lt (b range) (a r1) ->
    right_part range cur post true (b range) (r1 :: p2).

Inductive add_cases (range : key_range_t) (l : absent_range_vec)
  : absent_range_vec -> Prop :=
| AC_empty :
    is_empty_range range = true ->
    add_cases range l l
| AC_push :
    is_empty_range range = false ->
    Forall (below (a range)) l ->
    (l = [] \/ exists l0 back, l = l0 ++ [back] /\ b back <> a range) ->
    add_cases range l (l ++ [range])
| AC_extend (l0 : absent_range_vec) (back : key_range_t) :
    is_empty_range range = false ->
    l = l0 ++ [back] ->
    Forall (below (a range)) l ->
    b back = a range ->
    add_cases range l (l0 ++ [mk_key_range (a back) (has_b range) (b range)])
| AC_contained (l1 : absent_range_vec) (cur : key_range_t) (post : absent_range_vec) :
    is_empty_range range = false ->
    l = l1 ++ cur :: post ->
    Forall (below (a range)) l1 -> above (a range) cur ->
    contains cur range = true ->
    add_cases range l l
| AC_merge (l1 : absent_range_vec) (cur : key_range_t) (post : absent_range_vec)
    (new_set : absent_range_vec) (left_key : Key.string_type)
    (qh : bool) (qb : Key.string_type) (post' : absent_range_vec) :
    is_empty_range range = false ->
    l = l1 ++ cur :: post ->
    Forall (below (a range)) l1 -> above (a range) cur ->
    contains cur range = false ->
    left_part range cur l1 new_set left_key ->
    right_part range cur post qh qb post' ->
    add_cases range l (new_set ++ mk_key_range left_key qh qb :: post').

(** Keys of the unit tests: one decimal digit. *)
Definition digit_key (n : nat) : Key.string_type :=
  String (ascii_of_nat (48 + n)) EmptyString.

(** ** Transactions: data *)

(** Resolution state of a transaction ([transaction_base::txn_state]). *)
Inductive txn_state : Type :=
| TXN_EMBRYO
| TXN_ACTIVE
| TXN_ABRT
| TXN_COMMITED.

(** Modelled from the spec: [abort_reason] is declared in [txn.h], which
    is not among the sources.  These are the reasons [commit] assigns,
    and the user abort of the spec's taxonomy. *)
Inductive abort_reason : Type :=
| ABORT_REASON_USER
| ABORT_REASON_NODE_SCAN_READ_VERSION_CHANGED
| ABORT_REASON_WRITE_NODE_INTERFERENCE
| ABORT_REASON_READ_NODE_INTEREFERENCE
| ABORT_REASON_READ_ABSENCE_INTEREFERENCE.

(** The exceptions [abort_impl] and [commit] throw. *)
Inductive exception : Type :=
| transaction_unusable_exception
| transaction_abort_exception (why : abort_reason).

(** Transaction ids, tuple header words and node versions are 64-bit
    unsigned integers; [dbtuple *], [txn_btree *] and
    [btree::node_opaque_t *] are addresses.  All are carried as [Z]. *)
Definition tid_t := Z.
Definition version_t := Z.
Definition pointer := Z.

Definition uint64_wrap (x : Z) : Z := x mod 2 ^ 64.

(** Modelled from the spec: the two transaction flags, bits of the
    [flags] word, declared in [txn.h]. *)
Definition TXN_FLAG_LOW_LEVEL_SCAN : Z := 1.
Definition TXN_FLAG_READ_ONLY : Z := 2.

(** [flags & flag], tested as a condition. *)
Definition has_flag (flags flag : Z) : bool := negb (Z.land flags flag =? 0)%Z.

(** Kind of an absent-set record. *)
Inductive absent_record_type : Type :=
| ABSENT_REC_READ
| ABSENT_REC_WRITE
| ABSENT_REC_INSERT.

Record read_record_t : Type := mk_read_record
  { t : tid_t;
    holds_lock : bool }.

Record absent_record_t : Type := mk_absent_record
  { type : absent_record_type;
    tuple : pointer }.

Record write_record_t : Type := mk_write_record
  { r : Key.string_type;
    insert : bool }.

(** The small maps of a context are kept as the sequence of their
    entries, in the order the iterators visit them; [find] returns the
    first entry of a key. *)
Section Alist.

Context {K V : Type}.
Variable eqb : K -> K -> bool.

Fixpoint alist_find (k : K) (l : list (K * V)) : option V :=
    match l with
    | [] => None
    | (k', v) :: l' => if eqb k k' then Some v else alist_find k l'
    end.

  (** [it = m.find(k); if (it != m.end()) it->second = f(it->second)] *)
Fixpoint alist_update (k : K) (f : V -> V) (l : list (K * V)) : list (K * V) :=
    match l with
    | [] => []
    | (k', v) :: l' =>
        if eqb k k' then (k', f v) :: l' else (k', v) :: alist_update k f l'
    end.

End Alist.

Definition read_set_map := list (pointer * read_record_t).
Definition absent_set_map := list (Key.string_type * absent_record_t).
Definition write_set_map := list (Key.string_type * write_record_t).
Definition node_scan_map := list (pointer * Z).

Record txn_context : Type := mk_txn_context
  { read_set : read_set_map;
    absent_set : absent_set_map;
    write_set : write_set_map;
    node_scan : node_scan_map;
    absent_range_set : absent_range_vec }.

Definition ctx_map_type := list (pointer * txn_context).

Record transaction : Type := mk_transaction
  { state : txn_state;
    reason : abort_reason;
    flags : Z;
    ctx_map : ctx_map_type }.

(** What [commit] remembers of a tuple it writes; [info_r] and
    [info_insert] are the fields [r] and [insert] of [dbtuple_info]. *)
Record dbtuple_info : Type := mk_dbtuple_info
  { btr : pointer;
    key : Key.string_type;
    locked : bool;
    info_r : Key.string_type;
    info_insert : bool }.

Definition dbtuple_pair := (pointer * dbtuple_info)%type.
Definition dbtuple_vec := list dbtuple_pair.

(** ** [abort_impl] *)

(** [abort_trap] only counts the reason, and [clear] does nothing. *)
Definition abort_impl (why : abort_reason) (tx : transaction)
  : transaction + exception :=
  match state tx with
  | TXN_EMBRYO | TXN_ACTIVE =>
      inl (mk_transaction TXN_ABRT why (flags tx) (ctx_map tx))
  | TXN_ABRT => inl tx
  | TXN_COMMITED => inr transaction_unusable_exception
  end.

(** ** Sorting the write tuples

    [std::sort] with [LNodeComp], which orders the pairs by tuple
    address.  The order in which [std::sort] leaves pairs of equal
    address is not specified, and nothing below depends on the order the
    merge sort used here leaves them in. *)
Module LNodeComp <: TotalLeBool.
Definition t := dbtuple_pair.
Definition leb (x y : t) : bool := (fst x <=? fst y)%Z.
Theorem leb_total : forall x y, leb x y = true \/ leb y x = true.
  Proof. intros x y; unfold leb; lia. Qed.
End LNodeComp.

Module LNodeSort := Sort LNodeComp.

Definition std_sort (v : dbtuple_vec) : dbtuple_vec := LNodeSort.sort v.

(** ** The collaborators of [commit]

    [commit] runs against the concurrency protocol ([cast()]), the
    ordered index ([underlying_btree]) and the tuples ([dbtuple]), none of
    which is among the sources.  They are taken as interfaces over a
    world [W]: every call maps the world to a result and the next world,
    so that what a call observes may depend on everything that happened
    before it, other threads included. *)

(** The protocol capabilities ([Protocol<Traits>]). *)
Class Protocol (W : Type) : Type :=
  { consistent_snapshot_tid : W -> (bool * tid_t) * W;
    can_read_tid : tid_t -> W -> bool * W;
    gen_commit_tid : dbtuple_vec -> W -> tid_t * W;
    on_tid_finish : tid_t -> W -> W;
    on_dbtuple_spill : pointer -> Key.string_type -> pointer -> W -> W;
    on_logical_delete : pointer -> Key.string_type -> pointer -> W -> W }.

(** The ordered index and the tuples.  [btree_search] returns the value
    found, [btree_insert_if_absent] the leaf node and its version when
    the insert succeeds, [btree_insert] whether the key was new and the
    value it replaced, [write_record_at] the spill flag and the
    replacement tuple (0 for none).  [absent_range_validation] is
    [search_range_call] driven by the [absent_range_validation_callback]
    of the context, and returns [c.failed()]. *)
Class Storage (W : Type) : Type :=
  { is_mostly_append : pointer -> bool;
    btree_search : pointer -> Key.string_type -> W -> option pointer * W;
    btree_insert_if_absent :
      pointer -> Key.string_type -> pointer -> W -> option (pointer * Z) * W;
    btree_insert :
      pointer -> Key.string_type -> pointer -> W -> (bool * pointer) * W;
    ExtractVersionNumber : pointer -> W -> Z * W;
    absent_range_validation :
      pointer -> txn_context -> key_range_t -> W -> bool * W;
    IsLatest : version_t -> bool;
    IsDeleting : version_t -> bool;
    alloc_first : bool -> Key.string_type -> W -> pointer * W;
    release_no_rcu : pointer -> W -> W;
    tuple_lock : pointer -> bool -> W -> version_t * W;
    tuple_unlock : pointer -> W -> W;
    tuple_version : pointer -> W -> tid_t * W;
    tuple_set_version : pointer -> tid_t -> W -> W;
    mark_modifying : pointer -> W -> W;
    is_latest_version : pointer -> tid_t -> W -> bool * W;
    stable_is_latest_version : pointer -> tid_t -> W -> bool * W;
    latest_value_is_nil : pointer -> W -> bool * W;
    stable_latest_value_is_nil : pointer -> W -> bool * W;
    write_record_at :
      pointer -> tid_t -> Key.string_type -> W -> (bool * pointer) * W }.

(** The calls [commit] makes, with what they returned, in the order it
    makes them. *)
Inductive event : Type :=
| EvConsistentSnapshotTid (res : bool * tid_t)
| EvCanReadTid (tid : tid_t) (res : bool)
| EvGenCommitTid (tuples : dbtuple_vec) (res : tid_t)
| EvOnTidFinish (tid : tid_t)
| EvOnDbtupleSpill (tree : pointer) (k : Key.string_type) (p : pointer)
| EvOnLogicalDelete (tree : pointer) (k : Key.string_type) (p : pointer)
| EvSearch (tree : pointer) (k : Key.string_type) (res : option pointer)
| EvInsertIfAbsent (tree : pointer) (k : Key.string_type) (p : pointer)
    (res : option (pointer * Z))
| EvInsert (tree : pointer) (k : Key.string_type) (p : pointer)
    (res : bool * pointer)
| EvExtractVersionNumber (node : pointer) (res : Z)
| EvAbsentRangeValidation (tree : pointer) (range : key_range_t) (res : bool)
| EvAllocFirst (p : pointer)
| EvReleaseNoRcu (p : pointer)
| EvLock (p : pointer) (res : version_t)
| EvUnlock (p : pointer)
| EvTupleVersion (p : pointer) (res : tid_t)
| EvSetVersion (p : pointer) (tid : tid_t)
| EvMarkModifying (p : pointer)
| EvIsLatestVersion (p : pointer) (tid : tid_t) (res : bool)
| EvStableIsLatestVersion (p : pointer) (tid : tid_t) (res : bool)
| EvLatestValueIsNil (p : pointer) (res : bool)
| EvStableLatestValueIsNil (p : pointer) (res : bool)
| EvWriteRecordAt (p : pointer) (tid : tid_t) (res : bool * pointer).

(** The transaction, the locals of [commit], the world and the calls made
    so far. *)
Record frame (W : Type) : Type := mk_frame
  { txn : transaction;
    dbtuples : dbtuple_vec;
    commit_tid : bool * tid_t;
    world : W;
    trace : list event }.

Arguments mk_frame {W} _ _ _ _ _.
Arguments txn {W} _.
Arguments dbtuples {W} _.
Arguments commit_tid {W} _.
Arguments world {W} _.
Arguments trace {W} _.

(** How a piece of [commit] ends: it falls through, it jumps to
    [do_abort], or the retry loop of the write resolution is cut off
    after the given number of rounds. *)
Inductive outcome (A : Type) : Type :=
| Ok (x : A)
| Jump
| OutOfFuel.

Arguments Ok {A} _.
Arguments Jump {A}.
Arguments OutOfFuel {A}.

(** What a call of [commit] yields. *)
Inductive commit_result : Type :=
| Returned (ok : bool)
| Threw (e : exception)
| CutOff.

Section Commit.

Context {W : Type} {PR : Protocol W} {ST : Storage W}.

Definition M (A : Type) : Type := frame W -> outcome A * frame W.

Definition ret {A : Type} (x : A) : M A := fun f => (Ok x, f).

Definition bind {A B : Type} (m : M A) (k : A -> M B) : M B :=
  fun f =>
    match m f with
    | (Ok x, f') => k x f'
    | (Jump, f') => (Jump, f')
    | (OutOfFuel, f') => (OutOfFuel, f')
    end.

Notation "x <- m ;; k" := (bind m (fun x => k))
  (at level 61, m at next level, right associativity).
Notation "m ;;; k" := (bind m (fun _ => k))
  (at level 61, right associativity).

(** A call that returns a value, and a call that returns nothing. *)
Definition call {A : Type} (op : W -> A * W) (ev : A -> event) : M A :=
  fun f =>
    let res := op (world f) in
    (Ok (fst res),
     mk_frame (txn f) (dbtuples f) (commit_tid f) (snd res)
       (trace f ++ [ev (fst res)])).

Definition call_ (op : W -> W) (ev : event) : M unit :=
  fun f =>
    (Ok tt, mk_frame (txn f) (dbtuples f) (commit_tid f) (op (world f))
              (trace f ++ [ev])).

(** [abort_trap((reason = why)); goto do_abort;] *)
Definition abort_goto {A : Type} (why : abort_reason) : M A :=
  fun f =>
    (Jump,
     mk_frame (mk_transaction (state (txn f)) why (flags (txn f)) (ctx_map (txn f)))
       (dbtuples f) (commit_tid f) (world f) (trace f)).

Definition get_txn : M transaction := fun f => (Ok (txn f), f).
Definition get_dbtuples : M dbtuple_vec := fun f => (Ok (dbtuples f), f).

Definition set_dbtuples (v : dbtuple_vec) : M unit :=
  fun f => (Ok tt, mk_frame (txn f) v (commit_tid f) (world f) (trace f)).

Definition set_commit_tid (c : bool * tid_t) : M unit :=
  fun f => (Ok tt, mk_frame (txn f) (dbtuples f) c (world f) (trace f)).

Definition set_ctx_map (m : ctx_map_type) : M unit :=
  fun f =>
    (Ok tt,
     mk_frame (mk_transaction (state (txn f)) (reason (txn f)) (flags (txn f)) m)
       (dbtuples f) (commit_tid f) (world f) (trace f)).

Fixpoint for_each {A : Type} (l : list A) (body : A -> M unit) : M unit :=
  match l with
  | [] => ret tt
  | x :: l' => body x ;;; for_each l' body
  end.

(** The context [outer_it] points to is the [i]-th of [ctx_map]; it is
    changed in place. *)
Fixpoint update_nth {A : Type} (i : nat) (g : A -> A) (l : list A) : list A :=
  match l, i with
  | [], _ => []
  | x :: l', O => g x :: l'
  | x :: l', S i' => x :: update_nth i' g l'
  end.

Definition modify_ctx (i : nat) (g : txn_context -> txn_context) : M unit :=
  tx <- get_txn ;;
  set_ctx_map (update_nth i (fun e => (fst e, g (snd e))) (ctx_map tx)).

(** [read_it = read_set.find(p); if (read_it != end) read_it->second.holds_lock = true] *)
Definition mark_read_set (i : nat) (p : pointer) : M unit :=
  modify_ctx i (fun ctx =>
    mk_txn_context
      (alist_update Z.eqb p (fun rr => mk_read_record (t rr) true) (read_set ctx))
      (absent_set ctx) (write_set ctx) (node_scan ctx) (absent_range_set ctx)).

(** [if (!absent_set.empty()) { absent_it = absent_set.find(k); if
    (absent_it != end) { absent_it->second.type = ty; absent_it->second.tuple = p; } }] *)
Definition mark_absent_set (i : nat) (k : Key.string_type)
           (ty : absent_record_type) (p : pointer) : M unit :=
  modify_ctx i (fun ctx =>
    match absent_set ctx with
    | [] => ctx
    | _ :: _ =>
        mk_txn_context (read_set ctx)
          (alist_update Key.eqb k (fun _ => mk_absent_record ty p) (absent_set ctx))
          (write_set ctx) (node_scan ctx) (absent_range_set ctx)
    end).

(** The [TXN_FLAG_LOW_LEVEL_SCAN] block after a successful
    [insert_if_absent]: [insert_info] is [(node, version)]. *)
Definition update_node_scan (i : nat) (node : pointer) (version : Z) : M unit :=
  tx <- get_txn ;;
  if has_flag (flags tx) TXN_FLAG_LOW_LEVEL_SCAN then
    match nth_error (ctx_map tx) i with
    | Some (_, ctx) =>
        match alist_find Z.eqb node (node_scan ctx) with
        | Some v =>
            if negb (v =? version)%Z
            then abort_goto ABORT_REASON_WRITE_NODE_INTERFERENCE
            else
              modify_ctx i (fun ctx =>
                mk_txn_context (read_set ctx) (absent_set ctx) (write_set ctx)
                  (alist_update Z.eqb node (fun v => uint64_wrap (v + 1))
                     (node_scan ctx))
                  (absent_range_set ctx))
        | None => ret tt
        end
    | None => ret tt
    end
  else ret tt.

Definition emplace_back (e : dbtuple_pair) : M unit :=
  v <- get_dbtuples ;; set_dbtuples (v ++ [e]).

(** The branch taken when [search] finds the tuple [v] of the key. *)
Definition search_succeeded (i : nat) (tree : pointer) (k : Key.string_type)
           (writerec : write_record_t) (v : pointer) : M unit :=
  emplace_back (v, mk_dbtuple_info tree k false (r writerec) false) ;;;
  mark_read_set i v ;;;
  mark_absent_set i k ABSENT_REC_WRITE v.

(** What follows a successful [insert_if_absent] of the fresh [tuple];
    [insert_info] is [(node, version)]. *)
Definition insert_succeeded (i : nat) (tree : pointer) (k : Key.string_type)
           (writerec : write_record_t) (tuple : pointer)
           (node : pointer) (version : Z) : M unit :=
  update_node_scan i node version ;;;
  emplace_back (tuple, mk_dbtuple_info tree k true (r writerec) true) ;;;
  mark_read_set i tuple ;;;
  mark_absent_set i k ABSENT_REC_INSERT tuple.

(** The body of the loop over the write set, from the label [retry] on:
    one round per [fuel].  The event counters are not modelled. *)
Fixpoint find_write_node (fuel : nat) (i : nat) (tree : pointer)
         (k : Key.string_type) (writerec : write_record_t)
         (try_insert_path : bool) : M unit :=
  match fuel with
  | O => fun f => (OutOfFuel, f)
  | S fuel' =>
      found <- (if try_insert_path then ret None
                else call (btree_search tree k) (EvSearch tree k)) ;;
      match found with
      | Some v => search_succeeded i tree k writerec v
      | None =>
          tuple <- call (alloc_first (negb (is_mostly_append tree)) (r writerec))
                     EvAllocFirst ;;
          _ <- call (tuple_lock tuple true) (EvLock tuple) ;;
          insert_info <- call (btree_insert_if_absent tree k tuple)
                           (EvInsertIfAbsent tree k tuple) ;;
          match insert_info with
          | None =>
              call_ (tuple_unlock tuple) (EvUnlock tuple) ;;;
              call_ (release_no_rcu tuple) (EvReleaseNoRcu tuple) ;;;
              find_write_node fuel' i tree k writerec false
          | Some (node, version) =>
              insert_succeeded i tree k writerec tuple node version
          end
      end
  end.

(** Phase A, [find_write_nodes]. *)
Definition find_write_nodes (fuel : nat) : M unit :=
  tx <- get_txn ;;
  for_each (combine (seq 0 (length (ctx_map tx))) (ctx_map tx))
    (fun e =>
       let '(i, (tree, ctx)) := e in
       for_each (write_set ctx)
         (fun w => find_write_node fuel i tree (fst w) (snd w) (insert (snd w)))).

(** The three conditions under which a freshly locked tuple cannot be
    written; [can_read_tid] is only asked when the header word is fine. *)
Definition write_interference (p : pointer) (v : version_t) : M bool :=
  if IsDeleting v || negb (IsLatest v) then ret true
  else
    tid <- call (tuple_version p) (EvTupleVersion p) ;;
    ok <- call (can_read_tid tid) (EvCanReadTid tid) ;;
    ret (negb ok).

Definition set_locked (e : dbtuple_pair) : dbtuple_pair :=
  (fst e, mk_dbtuple_info (btr (snd e)) (key (snd e)) true
            (info_r (snd e)) (info_insert (snd e))).

(** The loop that locks the tuples: [done] are the entries the iterator
    has passed, [todo] the ones ahead. *)
Fixpoint lock_nodes (done todo : dbtuple_vec) : M unit :=
  match todo with
  | [] => ret tt
  | e :: rest =>
      if locked (snd e) then lock_nodes (done ++ [e]) rest
      else
        v <- call (tuple_lock (fst e) true) (EvLock (fst e)) ;;
        set_dbtuples (done ++ set_locked e :: rest) ;;;
        bad <- write_interference (fst e) v ;;
        if bad then abort_goto ABORT_REASON_WRITE_NODE_INTERFERENCE
        else lock_nodes (done ++ [set_locked e]) rest
  end.

(** Phase B, [lock_write_nodes]. *)
Definition lock_write_nodes : M unit :=
  v <- get_dbtuples ;;
  set_dbtuples (std_sort v) ;;;
  lock_nodes [] (std_sort v) ;;;
  v' <- get_dbtuples ;;
  tid <- call (gen_commit_tid v') (EvGenCommitTid v') ;;
  set_commit_tid (true, tid).

(** The check of one read-set entry. *)
Definition read_check (e : pointer * read_record_t) : M bool :=
  if holds_lock (snd e)
  then call (is_latest_version (fst e) (t (snd e)))
            (EvIsLatestVersion (fst e) (t (snd e)))
  else call (stable_is_latest_version (fst e) (t (snd e)))
            (EvStableIsLatestVersion (fst e) (t (snd e))).

Definition validate_read_set (rs : read_set_map) : M unit :=
  for_each rs (fun e =>
    ok <- read_check e ;;
    if ok then ret tt else abort_goto ABORT_REASON_READ_NODE_INTEREFERENCE).

(** The check of one absent-set entry. *)
Definition absent_check (tree : pointer) (e : Key.string_type * absent_record_t)
  : M unit :=
  match type (snd e) with
  | ABSENT_REC_INSERT => ret tt
  | ABSENT_REC_WRITE =>
      nil <- call (latest_value_is_nil (tuple (snd e)))
               (EvLatestValueIsNil (tuple (snd e))) ;;
      if nil then ret tt else abort_goto ABORT_REASON_READ_ABSENCE_INTEREFERENCE
  | ABSENT_REC_READ =>
      found <- call (btree_search tree (fst e)) (EvSearch tree (fst e)) ;;
      match found with
      | None => ret tt
      | Some v =>
          nil <- call (stable_latest_value_is_nil v) (EvStableLatestValueIsNil v) ;;
          if nil then ret tt
          else abort_goto ABORT_REASON_READ_ABSENCE_INTEREFERENCE
      end
  end.

Definition validate_absent_set (tree : pointer) (abs : absent_set_map) : M unit :=
  for_each abs (absent_check tree).

(** The check of the scanned nodes, the fast way and the slow way. *)
Definition validate_scans (tree : pointer) (ctx : txn_context) : M unit :=
  tx <- get_txn ;;
  if has_flag (flags tx) TXN_FLAG_LOW_LEVEL_SCAN then
    for_each (node_scan ctx) (fun e =>
      v <- call (ExtractVersionNumber (fst e)) (EvExtractVersionNumber (fst e)) ;;
      if negb (v =? snd e)%Z
      then abort_goto ABORT_REASON_NODE_SCAN_READ_VERSION_CHANGED
      else ret tt)
  else
    for_each (absent_range_set ctx) (fun range =>
      failed <- call (absent_range_validation tree ctx range)
                  (EvAbsentRangeValidation tree range) ;;
      if failed then abort_goto ABORT_REASON_WRITE_NODE_INTERFERENCE
      else ret tt).

(** Phase C, [read_validation]. *)
Definition read_validation : M unit :=
  tx <- get_txn ;;
  for_each (ctx_map tx) (fun e =>
    validate_read_set (read_set (snd e)) ;;;
    validate_absent_set (fst e) (absent_set (snd e)) ;;;
    validate_scans (fst e) (snd e)).

(** [lock_guard<dbtuple> guard(p, true)] around [body]: a null pointer is
    neither locked nor unlocked. *)
Definition lock_guard (p : pointer) (body : M unit) : M unit :=
  (if (p =? 0)%Z then ret tt
   else _ <- call (tuple_lock p true) (EvLock p) ;; ret tt) ;;;
  body ;;;
  (if (p =? 0)%Z then ret tt else call_ (tuple_unlock p) (EvUnlock p)).

Definition is_empty_string (s : Key.string_type) : bool :=
  match s with EmptyString => true | _ => false end.

(** The body of the loop that writes the records. *)
Definition write_record (tid : tid_t) (e : dbtuple_pair) : M unit :=
  let p := fst e in
  let info := snd e in
  (if info_insert info then
     call_ (mark_modifying p) (EvMarkModifying p) ;;;
     call_ (tuple_set_version p tid) (EvSetVersion p tid)
   else
     res <- call (write_record_at p tid (info_r info)) (EvWriteRecordAt p tid) ;;
     lock_guard (snd res)
       ((if negb (snd res =? 0)%Z then
           _ <- call (btree_insert (btr info) (key info) (snd res))
                  (EvInsert (btr info) (key info) (snd res)) ;;
           ret tt
         else ret tt) ;;;
        let latest := if negb (snd res =? 0)%Z then snd res else p in
        (if fst res
         then call_ (on_dbtuple_spill (btr info) (key info) latest)
                (EvOnDbtupleSpill (btr info) (key info) latest)
         else ret tt) ;;;
        (if is_empty_string (info_r info)
         then call_ (on_logical_delete (btr info) (key info) latest)
                (EvOnLogicalDelete (btr info) (key info) latest)
         else ret tt))) ;;;
  call_ (tuple_unlock p) (EvUnlock p).

(** Phase D, [write_records]. *)
Definition write_records : M unit :=
  fun f => for_each (dbtuples f) (write_record (snd (commit_tid f))) f.

Definition vec_empty {A : Type} (v : list A) : bool :=
  match v with [] => true | _ :: _ => false end.

(** What [commit] does once the writes are resolved: phases B, C and D,
    unless the transaction is read-only on a consistent snapshot. *)
Definition commit_after_find (snapshot_tid_t : bool * tid_t) : M unit :=
  v <- get_dbtuples ;;
  if negb (fst snapshot_tid_t) || negb (vec_empty v) then
    (if negb (vec_empty v) then lock_write_nodes else ret tt) ;;;
    read_validation ;;;
    v' <- get_dbtuples ;;
    if negb (vec_empty v') then write_records else ret tt
  else ret tt.

(** [commit] from the snapshot to the last write; a [Jump] is the
    [goto do_abort]. *)
Definition commit_body (fuel : nat) : M unit :=
  snapshot_tid_t <- call consistent_snapshot_tid EvConsistentSnapshotTid ;;
  find_write_nodes fuel ;;;
  commit_after_find snapshot_tid_t.

(** The end of [commit] on success. *)
Definition commit_finish (f : frame W) : frame W :=
  let f1 :=
    mk_frame
      (mk_transaction TXN_COMMITED (reason (txn f)) (flags (txn f)) (ctx_map (txn f)))
      (dbtuples f) (commit_tid f) (world f) (trace f) in
  if fst (commit_tid f)
  then snd (call_ (on_tid_finish (snd (commit_tid f)))
              (EvOnTidFinish (snd (commit_tid f))) f1)
  else f1.

(** [if (it->second.locked) it->first->unlock();] *)
Definition unlock_if_locked (e : dbtuple_pair) : M unit :=
  if locked (snd e) then call_ (tuple_unlock (fst e)) (EvUnlock (fst e))
  else ret tt.

(** The label [do_abort]. *)
Definition do_abort (f : frame W) : frame W :=
  let f1 := snd (for_each (dbtuples f) unlock_if_locked f) in
  let f2 :=
    mk_frame
      (mk_transaction TXN_ABRT (reason (txn f1)) (flags (txn f1)) (ctx_map (txn f1)))
      (dbtuples f1) (commit_tid f1) (world f1) (trace f1) in
  if fst (commit_tid f2)
  then snd (call_ (on_tid_finish (snd (commit_tid f2)))
              (EvOnTidFinish (snd (commit_tid f2))) f2)
  else f2.

(** The frame [commit] starts from. *)
Definition commit_begin (tx : transaction) (w : W) : frame W :=
  mk_frame tx [] (false, 0%Z) w [].

(** The result of a [commit] that aborts for [why]. *)
Definition aborted (doThrow : bool) (why : abort_reason) : commit_result :=
  if doThrow then Threw (transaction_abort_exception why) else Returned false.

(** [transaction::commit].  The frame it returns holds the transaction
    and the world after the call, and the calls it made. *)
Definition commit (fuel : nat) (doThrow : bool) (tx : transaction) (w : W)
  : commit_result * frame W :=
  match state tx with
  | TXN_COMMITED => (Returned true, commit_begin tx w)
  | TXN_ABRT => (aborted doThrow (reason tx), commit_begin tx w)
  | TXN_EMBRYO | TXN_ACTIVE =>
      match commit_body fuel (commit_begin tx w) with
      | (Ok _, f) => (Returned true, commit_finish f)
      | (Jump, f) => (aborted doThrow (reason (txn (do_abort f))), do_abort f)
      | (OutOfFuel, f) => (CutOff, f)
      end
  end.

(** ** What the phases may leave in the trace *)

(** The entries the lock phase still has to lock, and the vector once
    all of them are locked. *)
Definition unlocked (e : dbtuple_pair) : bool := negb (locked (snd e)).

Definition lock_all (v : dbtuple_vec) : dbtuple_vec :=
  map (fun e => if locked (snd e) then e else set_locked e) v.

(** A read-set check that failed, and an absent-set check that failed. *)
Definition failed_read_check (ev : event) : bool :=
  match ev with
  | EvIsLatestVersion _ _ false => true
  | EvStableIsLatestVersion _ _ false => true
  | _ => false
  end.

Definition failed_absent_check (ev : event) : bool :=
  match ev with
  | EvLatestValueIsNil _ false => true
  | EvStableLatestValueIsNil _ false => true
  | _ => false
  end.

(** The calls of the read-set and absent-set validation. *)
Definition validation_check (ev : event) : bool :=
  match ev with
  | EvIsLatestVersion _ _ _ => true
  | EvStableIsLatestVersion _ _ _ => true
  | EvLatestValueIsNil _ _ => true
  | EvStableLatestValueIsNil _ _ => true
  | _ => false
  end.


(** The lock phase over the tuples still to lock, in order: the calls it
    makes, and whether it ends in an abort.  A tuple whose header word
    shows DELETING or lacks LATEST, or whose tid cannot be read, ends the
    run. *)
Inductive lock_run : list pointer -> list event -> bool -> Prop :=
| lock_run_nil : lock_run [] [] false
| lock_run_ok (p : pointer) (ps : list pointer) (v : version_t) (tid : tid_t)
    (evs : list event) (ab : bool) :
    IsDeleting v || negb (IsLatest v) = false ->
    lock_run ps evs ab ->
    lock_run (p :: ps)
      (EvLock p v :: EvTupleVersion p tid :: EvCanReadTid tid true :: evs) ab
| lock_run_header (p : pointer) (ps : list pointer) (v : version_t) :
    IsDeleting v || negb (IsLatest v) = true ->
    lock_run (p :: ps) [EvLock p v] true
| lock_run_tid (p : pointer) (ps : list pointer) (v : version_t) (tid : tid_t) :
    IsDeleting v || negb (IsLatest v) = false ->
    lock_run (p :: ps)
      [EvLock p v; EvTupleVersion p tid; EvCanReadTid tid false] true.

(** The call that checks a read-set entry, with its answer. *)
Definition read_check_event (e : pointer * read_record_t) (res : bool) : event :=
  if holds_lock (snd e)
  then EvIsLatestVersion (fst e) (t (snd e)) res
  else EvStableIsLatestVersion (fst e) (t (snd e)) res.

(** The validation of a read set: one check per entry, in order, up to
    the first that fails. *)
Inductive read_run : read_set_map -> list event -> bool -> Prop :=
| read_run_nil : read_run [] [] false
| read_run_ok (e : pointer * read_record_t) (rs : read_set_map)
    (evs : list event) (ab : bool) :
    read_run rs evs ab ->
    read_run (e :: rs) (read_check_event e true :: evs) ab
| read_run_fail (e : pointer * read_record_t) (rs : read_set_map) :
    read_run (e :: rs) [read_check_event e false] true.

(** The validation of an absent set against the index [tree]. *)
Inductive absent_run (tree : pointer)
  : absent_set_map -> list event -> bool -> Prop :=
| absent_run_nil : absent_run tree [] [] false
| absent_run_insert (e : Key.string_type * absent_record_t)
    (abs : absent_set_map) (evs : list event) (ab : bool) :
    type (snd e) = ABSENT_REC_INSERT ->
    absent_run tree abs evs ab ->
    absent_run tree (e :: abs) evs ab
| absent_run_write (e : Key.string_type * absent_record_t)
    (abs : absent_set_map) (evs : list event) (ab : bool) :
    type (snd e) = ABSENT_REC_WRITE ->
    absent_run tree abs evs ab ->
    absent_run tree (e :: abs) (EvLatestValueIsNil (tuple (snd e)) true :: evs) ab
| absent_run_write_fail (e : Key.string_type * absent_record_t)
    (abs : absent_set_map) :
    type (snd e) = ABSENT_REC_WRITE ->
    absent_run tree (e :: abs) [EvLatestValueIsNil (tuple (snd e)) false] true
| absent_run_miss (e : Key.string_type * absent_record_t)
    (abs : absent_set_map) (evs : list event) (ab : bool) :
    type (snd e) = ABSENT_REC_READ ->
    absent_run tree abs evs ab ->
    absent_run tree (e :: abs) (EvSearch tree (fst e) None :: evs) ab
| absent_run_hit (e : Key.string_type * absent_record_t) (v : pointer)
    (abs : absent_set_map) (evs : list event) (ab : bool) :
    type (snd e) = ABSENT_REC_READ ->
    absent_run tree abs evs ab ->
    absent_run tree (e :: abs)
      (EvSearch tree (fst e) (Some v) :: EvStableLatestValueIsNil v true :: evs) ab
| absent_run_hit_fail (e : Key.string_type * absent_record_t) (v : pointer)
    (abs : absent_set_map) :
    type (snd e) = ABSENT_REC_READ ->
    absent_run tree (e :: abs)
      [EvSearch tree (fst e) (Some v); EvStableLatestValueIsNil v false] true.

(** What a validation loop leaves of the frame. *)
Definition validated (why : abort_reason) (ab : bool) (f : frame W)
           (res : outcome unit) (f' : frame W) : Prop :=
  dbtuples f' = dbtuples f /\ commit_tid f' = commit_tid f /\
  state (txn f') = state (txn f) /\ flags (txn f') = flags (txn f) /\
  ctx_map (txn f') = ctx_map (txn f) /\
  (if ab then res = Jump /\ reason (txn f') = why
   else res = Ok tt /\ txn f' = txn f).

(** A piece of [commit] is quiet for the events [bad] and the reason
    [why] when it neither makes a [bad] call nor jumps with [why]; it
    tracks them when it jumps with [why] exactly if it made a [bad]
    call. *)
Definition quiet (bad : event -> bool) (why : abort_reason) {A : Type}
           (m : M A) : Prop :=
  forall f res f',
    m f = (res, f') ->
    exists evs,
      trace f' = trace f ++ evs /\ existsb bad evs = false /\
      (res = Jump -> reason (txn f') <> why).

Definition tracks (bad : event -> bool) (why : abort_reason) {A : Type}
           (m : M A) : Prop :=
  forall f res f',
    m f = (res, f') ->
    exists evs,
      trace f' = trace f ++ evs /\
      match res with
      | Jump => reason (txn f') = why <-> existsb bad evs = true
      | _ => existsb bad evs = false
      end.

End Commit.

(** ** [local_search_str]

    The result, and the value left in [v].  The event counters are not
    modelled. *)
Definition local_search_str (ctx : txn_context) (tx : transaction)
           (k v : Key.string_type) : bool * Key.string_type :=
  match (match write_set ctx with
         | [] => None
         | _ :: _ => alist_find Key.eqb k (write_set ctx)
         end) with
  | Some w => (true, r w)
  | None =>
      match (match absent_set ctx with
             | [] => None
             | _ :: _ => alist_find Key.eqb k (absent_set ctx)
             end) with
      | Some _ => (true, EmptyString)
      | None =>
          if negb (has_flag (flags tx) TXN_FLAG_LOW_LEVEL_SCAN)
             && key_in_absent_set (absent_range_set ctx) k
          then (true, EmptyString)
          else (false, v)
      end
  end.

(** ** Debugging output *)

(** [transaction_state_to_cstr] *)
Definition transaction_state_to_cstr (s : txn_state) : string :=
  match s with
  | TXN_EMBRYO => "TXN_EMBRYO"
  | TXN_ACTIVE => "TXN_ACTIVE"
  | TXN_ABRT => "TXN_ABRT"
  | TXN_COMMITED => "TXN_COMMITED"
  end.

(** [transaction_flags_to_str]: [oss] is the output stream so far. *)
Definition transaction_flags_to_str (flags : Z) : string :=
  let '(oss, first) :=
    if has_flag flags TXN_FLAG_LOW_LEVEL_SCAN
    then ("TXN_FLAG_LOW_LEVEL_SCAN"%string, false)
    else (EmptyString, true) in
  if has_flag flags TXN_FLAG_READ_ONLY then
    if first then (oss ++ "TXN_FLAG_READ_ONLY")%string
    else (oss ++ " | TXN_FLAG_READ_ONLY")%string
  else oss.

(** ** The write tuples of Phase A

    The index, the key and the payload of the write tuples, and of the
    write-set entries in the order Phase A visits them. *)
Definition written (v : dbtuple_vec)
  : list (pointer * Key.string_type * Key.string_type) :=
  map (fun e => (btr (snd e), key (snd e), info_r (snd e))) v.

Definition to_write (m : ctx_map_type)
  : list (pointer * Key.string_type * Key.string_type) :=
  flat_map
    (fun e => map (fun w => (fst e, fst w, r (snd w))) (write_set (snd e))) m.

(** ** The locks a commit holds

    What a call does to the lock of the tuple [p], the locks a trace
    leaves on [p], and the entries of the write tuples that are marked
    as locked and point to [p]. *)
Definition lock_delta (p : pointer) (ev : event) : Z :=
  match ev with
  | EvLock q _ => if (q =? p)%Z then 1%Z else 0%Z
  | EvUnlock q => if (q =? p)%Z then (-1)%Z else 0%Z
  | _ => 0%Z
  end.

Definition locks_held (p : pointer) (tr : list event) : Z :=
  fold_right (fun ev n => (lock_delta p ev + n)%Z) 0%Z tr.

Definition marked_locked (p : pointer) (v : dbtuple_vec) : Z :=
  fold_right
    (fun e n => ((if (fst e =? p)%Z && locked (snd e) then 1 else 0) + n)%Z)
    0%Z v.

(** The locks on [p] that no entry of the write tuples accounts for. *)
Definition owed {W : Type} (p : pointer) (f : frame W) : Z :=
  (locks_held p (trace f) - marked_locked p (dbtuples f))%Z.

(** A piece of [commit] that touches neither the write tuples, nor the
    flags, nor any lock; with [strict], it also falls through. *)
Definition still {W : Type} {A : Type} (strict : bool)
           (m : frame W -> outcome A * frame W) : Prop :=
  forall f res f',
    m f = (res, f') ->
    (strict = true -> exists x, res = Ok x) /\
    res <> OutOfFuel /\
    dbtuples f' = dbtuples f /\
    flags (txn f') = flags (txn f) /\
    forall p, locks_held p (trace f') = locks_held p (trace f).

(** From one frame to a later one: the flags are the same and no lock
    is unaccounted for; and: the tuple [q], inserted into an index, holds
    one lock more than the write tuples account for. *)
Definition lock_kept {W : Type} (f f' : frame W) : Prop :=
  flags (txn f') = flags (txn f) /\
  forall p, owed p f' = owed p f.

Definition lock_left {W : Type} (f f' : frame W) : Prop :=
  has_flag (flags (txn f)) TXN_FLAG_LOW_LEVEL_SCAN = true /\
  exists q tree k info,
    In (EvInsertIfAbsent tree k q (Some info)) (trace f') /\
    forall p, owed p f' = (owed p f + (if (q =? p)%Z then 1 else 0))%Z.

Definition lock_phase {W : Type} {A : Type} (f : frame W)
           (res : outcome A) (f' : frame W) : Prop :=
  match res with
  | Ok _ => lock_kept f f'
  | Jump => lock_left f f'
  | OutOfFuel => True
  end.

(** ** The scan callbacks of the benchmarks ([bench.h]) *)

Definition kv_pair : Type := (string * string)%type.

(** [abstract_ordered_index::scan_callback]: [invoke] takes the key and
    the value (each a buffer with its length, a string here) and tells
    whether the scan goes on. *)
Class scan_callback (C : Type) : Type :=
  { invoke : C -> string -> string -> bool * C }.

(** Modelled from the spec: the scan visitor is a capability
    [invoke(key_bytes, value_bytes)] that answers whether to continue; a
    scan hands it the pairs it finds, in order, until it answers
    [false].  The scans themselves are not among the sources. *)
Fixpoint scan {C : Type} `{scan_callback C} (cb : C) (items : list kv_pair) : C :=
  match items with
  | [] => cb
  | kv :: rest =>
      let res := invoke cb (fst kv) (snd kv) in
      if fst res then scan (snd res) rest else snd res
  end.

(** Whether the condition [inv] holds at every [invoke] of that scan. *)
Fixpoint scan_keeps {C : Type} `{scan_callback C} (inv : C -> bool)
         (cb : C) (items : list kv_pair) : bool :=
  match items with
  | [] => true
  | kv :: rest =>
      inv cb &&
      (let res := invoke cb (fst kv) (snd kv) in
       if fst res then scan_keeps inv (snd res) rest else true)
  end.

(** The cast [size_t(limit)] of an [ssize_t]. *)
Definition size_t (x : Z) : Z := uint64_wrap x.

Module limit_callback.

(** [limit] is an [ssize_t], [n] a [size_t]. *)
Record t : Type := mk
  { values : list kv_pair;
    limit : Z;
    n : Z }.

(** The constructor; [None] when its [ALWAYS_ASSERT] fails. *)
Definition new (limit : Z) : option t :=
  if (limit =? -1)%Z || (0 <? limit)%Z then Some (mk [] limit 0%Z) else None.

(** The condition of the [INVARIANT] at the head of [invoke]. *)
Definition invariant (cb : t) : bool :=
  (limit cb =? -1)%Z || (n cb <? size_t (limit cb))%Z.

(** [invoke]: [++n] is only evaluated when [limit] is not [-1]. *)
Definition invoke (cb : t) (key value : string) : bool * t :=
  let values' := values cb ++ [(key, value)] in
  if (limit cb =? -1)%Z then (true, mk values' (limit cb) (n cb))
  else
    let n' := uint64_wrap (n cb + 1) in
    ((n' <? size_t (limit cb))%Z, mk values' (limit cb) n').

End limit_callback.

#[export] Instance limit_callback_scan : scan_callback limit_callback.t :=
  { invoke := limit_callback.invoke }.

Module static_limit_callback.

(** [values] is the array [kv_pair values[N]], [n] a [size_t]. *)
Record t (N : Z) : Type := mk
  { values : list kv_pair;
    n : Z }.

Arguments mk {N} _ _.
Arguments values {N} _.
Arguments n {N} _.

(** The constructor: [N] default-constructed pairs. *)
Definition new (N : Z) : t N :=
  mk (repeat (EmptyString, EmptyString) (Z.to_nat N)) 0%Z.

(** The condition of the [INVARIANT] at the head of [invoke]. *)
Definition invariant {N : Z} (cb : t N) : bool := (n cb <? N)%Z.

(** [values[n] = ...]: a write past the end of the array has no defined
    behaviour; here it changes nothing. *)
Fixpoint store (i : nat) (x : kv_pair) (l : list kv_pair) : list kv_pair :=
  match l, i with
  | [], _ => []
  | _ :: l', O => x :: l'
  | y :: l', S i' => y :: store i' x l'
  end.

Definition invoke {N : Z} (cb : t N) (key value : string) : bool * t N :=
  let values' := store (Z.to_nat (n cb)) (key, value) (values cb) in
  let n' := uint64_wrap (n cb + 1) in
  ((n' <? N)%Z, mk values' n').

Definition size {N : Z} (cb : t N) : Z := n cb.

End static_limit_callback.

#[export] Instance static_limit_callback_scan (N : Z)
  : scan_callback (static_limit_callback.t N) :=
  { invoke := static_limit_callback.invoke }.

(** ** [get_txn_counters]

    The [std::map<std::string, uint64_t>] it returns, as the partial
    function from its keys: [ret[k]] reads as 0 where [k] is missing,
    and writing through [ret[k]] adds the key. *)
Definition counters : Type := string -> option Z.

Definition counter_at (ret : counters) (k : string) : Z :=
  match ret k with Some v => v | None => 0%Z end.

Definition counter_assign (k : string) (v : Z) (ret : counters) : counters :=
  fun k' => if String.eqb k' k then Some v else ret k'.

(** [ret[k] = std::max(ret[k], size)] and [ret[k]++]. *)
Definition counter_max (k : string) (size : nat) (ret : counters) : counters :=
  counter_assign k (Z.max (counter_at ret k) (Z.of_nat size)) ret.

Definition counter_incr (k : string) (ret : counters) : counters :=
  counter_assign k (uint64_wrap (counter_at ret k + 1)) ret.

Section TxnCounters.

(** [is_small_type()] of the four small maps, whose implementation is
    not among the sources. *)
Variable read_set_is_small_type : read_set_map -> bool.
Variable absent_set_is_small_type : absent_set_map -> bool.
Variable write_set_is_small_type : write_set_map -> bool.
Variable node_scan_is_small_type : node_scan_map -> bool.

(** The body of the loop over [ctx_map]. *)
Definition count_context (ret : counters) (ctx : txn_context) : counters :=
  let ret := counter_max "max_read_set_size" (length (read_set ctx)) ret in
  let ret := if negb (read_set_is_small_type (read_set ctx))
             then counter_incr "n_read_set_large_instances" ret else ret in
  let ret := counter_max "max_absent_set_size" (length (absent_set ctx)) ret in
  let ret := if negb (absent_set_is_small_type (absent_set ctx))
             then counter_incr "n_absent_set_large_instances" ret else ret in
  let ret := counter_max "max_write_set_size" (length (write_set ctx)) ret in
  let ret := if negb (write_set_is_small_type (write_set ctx))
             then counter_incr "n_write_set_large_instances" ret else ret in
  let ret := counter_max "max_absent_range_set_size"
               (length (absent_range_set ctx)) ret in
  let ret := counter_max "max_node_scan_size" (length (node_scan ctx)) ret in
  if negb (node_scan_is_small_type (node_scan ctx))
  then counter_incr "n_node_scan_large_instances" ret else ret.

Definition get_txn_counters (tx : transaction) : counters :=
  fold_left (fun ret e => count_context ret (snd e)) (ctx_map tx)
    (counter_assign "num_txn_contexts" (Z.of_nat (length (ctx_map tx)))
       (fun _ => None)).

(** One round of the loop raises the key [k] to the size [size] gives
    the context; and: it counts under [k] the contexts [large] holds
    of. *)
Definition max_key (k : string) (size : txn_context -> nat) : Prop :=
  forall ret ctx,
    count_context ret ctx k
    = Some (Z.max (counter_at ret k) (Z.of_nat (size ctx))).

Definition large_key (k : string) (large : txn_context -> bool) : Prop :=
  forall ret ctx,
    count_context ret ctx k
    = if large ctx then Some (uint64_wrap (counter_at ret k + 1)) else ret k.

End TxnCounters.

(** The largest of the sizes [size] gives the contexts, and how many
    contexts have a large map [large]. *)
Definition largest (size : txn_context -> nat) (m : ctx_map_type) : nat :=
  fold_right (fun e n => Nat.max (size (snd e)) n) 0%nat m.

Definition large_instances (large : txn_context -> bool) (m : ctx_map_type)
  : nat :=
  length (filter (fun e => large (snd e)) m).

(** ** The commit tid and the writes

    The calls that generate and finish a commit tid, the calls that
    change a tuple or an index entry in Phase D, and the writes that
    carry the tid [tid]. *)
Definition tid_event (ev : event) : bool :=
  match ev with
  | EvGenCommitTid _ _ | EvOnTidFinish _ => true
  | _ => false
  end.

Definition write_event (ev : event) : bool :=
  match ev with
  | EvMarkModifying _ | EvSetVersion _ _ | EvWriteRecordAt _ _ _
  | EvInsert _ _ _ _ | EvOnDbtupleSpill _ _ _ | EvOnLogicalDelete _ _ _ => true
  | _ => false
  end.

Definition plain_event (ev : event) : bool :=
  negb (tid_event ev) && negb (write_event ev).

Definition written_with (tid : tid_t) (ev : event) : bool :=
  negb (tid_event ev) &&
  match ev with
  | EvSetVersion _ t | EvWriteRecordAt _ t _ => (t =? tid)%Z
  | _ => true
  end.

(** A piece of [commit] that leaves the commit tid alone and only makes
    calls that [allowed] holds of. *)
Definition emits {W : Type} {A : Type} (allowed : event -> bool)
           (m : frame W -> outcome A * frame W) : Prop :=
  forall f res f',
    m f = (res, f') ->
    commit_tid f' = commit_tid f /\
    exists evs, trace f' = trace f ++ evs /\ forallb allowed evs = true.
(** What [commit_body] has called when it is through, and the commit
    tid it holds. *)
Inductive body_trace (tr : list event) (c : bool * tid_t) (wrote : bool)
  : Prop :=
| body_plain :
    forallb plain_event tr = true -> c = (false, 0%Z) ->
    body_trace tr c wrote
| body_tid evs1 v tid evs2 :
    tr = evs1 ++ EvGenCommitTid v tid :: evs2 ->
    forallb plain_event evs1 = true ->
    forallb (written_with tid) evs2 = true ->
    (wrote = false -> forallb plain_event evs2 = true) ->
    c = (true, tid) ->
    body_trace tr c wrote.


(** ** The validation of the scans

    The fast way: one [ExtractVersionNumber] per scanned node, in
    order, up to the first that differs from the recorded version.  The
    slow way: one range validation per absent range, up to the first
    that fails. *)
Inductive scan_run : node_scan_map -> list event -> bool -> Prop :=
| scan_run_nil : scan_run [] [] false
| scan_run_ok (e : pointer * Z) (ns : node_scan_map)
    (evs : list event) (ab : bool) :
    scan_run ns evs ab ->
    scan_run (e :: ns) (EvExtractVersionNumber (fst e) (snd e) :: evs) ab
| scan_run_fail (e : pointer * Z) (ns : node_scan_map) (v : Z) :
    v <> snd e ->
    scan_run (e :: ns) [EvExtractVersionNumber (fst e) v] true.

Inductive range_run (tree : pointer)
  : absent_range_vec -> list event -> bool -> Prop :=
| range_run_nil : range_run tree [] [] false
| range_run_ok (range : key_range_t) (l : absent_range_vec)
    (evs : list event) (ab : bool) :
    range_run tree l evs ab ->
    range_run tree (range :: l)
      (EvAbsentRangeValidation tree range false :: evs) ab
| range_run_fail (range : key_range_t) (l : absent_range_vec) :
    range_run tree (range :: l) [EvAbsentRangeValidation tree range true] true.

(** ** The whole of [commit]

    The calls of Phase A; the calls of Phase D for the commit tid
    [tid], with the unlocks of [do_abort]; and the unlocks alone. *)
Definition resolve_event (ev : event) : bool :=
  match ev with
  | EvSearch _ _ _ | EvAllocFirst _ | EvLock _ _ | EvInsertIfAbsent _ _ _ _
  | EvUnlock _ | EvReleaseNoRcu _ => true
  | _ => false
  end.

Definition finish_event (tid : tid_t) (ev : event) : bool :=
  match ev with
  | EvMarkModifying _ | EvInsert _ _ _ _ | EvOnDbtupleSpill _ _ _
  | EvOnLogicalDelete _ _ _ | EvLock _ _ | EvUnlock _ => true
  | EvSetVersion _ t | EvWriteRecordAt _ t _ => (t =? tid)%Z
  | _ => false
  end.

Definition unlock_event (ev : event) : bool :=
  match ev with EvUnlock _ => true | _ => false end.

(** The validation of one context: its read set, then its absent set,
    then its scans, the fast way with [low] and the slow way without,
    up to the first check that fails; [None] when all pass, else the
    abort reason. *)
Inductive context_run (low : bool) (tree : pointer) (ctx : txn_context)
  : list event -> option abort_reason -> Prop :=
| context_run_read (evs : list event) :
    read_run (read_set ctx) evs true ->
    context_run low tree ctx evs (Some ABORT_REASON_READ_NODE_INTEREFERENCE)
| context_run_absent (evs1 evs2 : list event) :
    read_run (read_set ctx) evs1 false ->
    absent_run tree (absent_set ctx) evs2 true ->
    context_run low tree ctx (evs1 ++ evs2)
      (Some ABORT_REASON_READ_ABSENCE_INTEREFERENCE)
| context_run_scan (evs1 evs2 evs3 : list event) (ab : bool) :
    read_run (read_set ctx) evs1 false ->
    absent_run tree (absent_set ctx) evs2 false ->
    (if low then scan_run (node_scan ctx) evs3 ab
     else range_run tree (absent_range_set ctx) evs3 ab) ->
    context_run low tree ctx (evs1 ++ evs2 ++ evs3)
      (if ab
       then Some (if low then ABORT_REASON_NODE_SCAN_READ_VERSION_CHANGED
                  else ABORT_REASON_WRITE_NODE_INTERFERENCE)
       else None).

(** Phase C: the contexts one after the other, up to the first that
    fails. *)
Inductive validation_run (low : bool)
  : ctx_map_type -> list event -> option abort_reason -> Prop :=
| validation_run_nil : validation_run low [] [] None
| validation_run_ok (e : pointer * txn_context) (m : ctx_map_type)
    (evs1 evs2 : list event) (r : option abort_reason) :
    context_run low (fst e) (snd e) evs1 None ->
    validation_run low m evs2 r ->
    validation_run low (e :: m) (evs1 ++ evs2) r
| validation_run_fail (e : pointer * txn_context) (m : ctx_map_type)
    (evs : list event) (why : abort_reason) :
    context_run low (fst e) (snd e) evs (Some why) ->
    validation_run low (e :: m) evs (Some why).

(** The call that generates the commit tid and the call that finishes
    it, when there is one: [o] holds the tuples [gen_commit_tid] got
    and the tid it returned. *)
Definition gen_events (o : option (dbtuple_vec * tid_t)) : list event :=
  match o with Some (v, tid) => [EvGenCommitTid v tid] | None => [] end.

Definition fin_events (o : option (dbtuple_vec * tid_t)) : list event :=
  match o with Some (_, tid) => [EvOnTidFinish tid] | None => [] end.

(** A commit tid is generated exactly when Phase A left tuples to
    write, for these tuples sorted and all locked. *)
Definition tid_for (vA : dbtuple_vec) (o : option (dbtuple_vec * tid_t))
  : Prop :=
  match o with
  | None => vA = []
  | Some (v, _) => vA <> [] /\ v = lock_all (std_sort vA)
  end.

Definition locked_tuples (o : option (dbtuple_vec * tid_t)) : dbtuple_vec :=
  match o with Some (v, _) => v | None => [] end.

Definition writes_for (o : option (dbtuple_vec * tid_t)) (evs : list event)
  : Prop :=
  match o with
  | None => evs = []
  | Some (_, tid) => forallb (finish_event tid) evs = true
  end.

Section CommitShape.

Context {W : Type} {PR : Protocol W} {ST : Storage W}.

(** What Phase C leaves of the frame. *)
Definition checked (r : option abort_reason) (f : frame W)
           (res : outcome unit) (f' : frame W) : Prop :=
  dbtuples f' = dbtuples f /\ commit_tid f' = commit_tid f /\
  state (txn f') = state (txn f) /\ flags (txn f') = flags (txn f) /\
  ctx_map (txn f') = ctx_map (txn f) /\
  match r with
  | Some why => res = Jump /\ reason (txn f') = why
  | None => res = Ok tt /\ txn f' = txn f
  end.

(** Phase B on the tuples [vA] of Phase A: nothing without tuples, else
    the lock run over the tuples not yet locked, in sorted order. *)
Inductive lock_phase_run (vA : dbtuple_vec) : list event -> bool -> Prop :=
| lock_phase_none : vA = [] -> lock_phase_run vA [] false
| lock_phase_some (evs : list event) (ab : bool) :
    vA <> [] ->
    lock_run (map fst (filter unlocked (std_sort vA))) evs ab ->
    lock_phase_run vA evs ab.

(** The ways [commit] ends on a live transaction, with the calls it
    has made: [s] is the snapshot, [m0] the contexts it starts with,
    [m] the contexts and [why] the reason it leaves. *)
Inductive commit_ends (low doThrow : bool) (s : bool * tid_t)
          (m0 m : ctx_map_type) (why : abort_reason)
  : commit_result -> list event -> Prop :=
| commit_ends_fast (evsA : list event) :
    fst s = true -> to_write m0 = [] ->
    forallb resolve_event evsA = true ->
    commit_ends low doThrow s m0 m why (Returned true)
      (EvConsistentSnapshotTid s :: evsA)
| commit_ends_abort_resolve (evsA unl : list event) :
    forallb resolve_event evsA = true ->
    forallb unlock_event unl = true ->
    why = ABORT_REASON_WRITE_NODE_INTERFERENCE ->
    commit_ends low doThrow s m0 m why (aborted doThrow why)
      (EvConsistentSnapshotTid s :: evsA ++ unl)
| commit_ends_abort_lock (evsA : list event) (vA : dbtuple_vec)
    (evsB unl : list event) :
    forallb resolve_event evsA = true ->
    written vA = to_write m0 ->
    lock_phase_run vA evsB true ->
    forallb unlock_event unl = true ->
    why = ABORT_REASON_WRITE_NODE_INTERFERENCE ->
    commit_ends low doThrow s m0 m why (aborted doThrow why)
      (EvConsistentSnapshotTid s :: evsA ++ evsB ++ unl)
| commit_ends_abort_validation (evsA : list event) (vA : dbtuple_vec)
    (evsB : list event) (o : option (dbtuple_vec * tid_t))
    (evsC : list event) :
    forallb resolve_event evsA = true ->
    written vA = to_write m0 ->
    lock_phase_run vA evsB false ->
    tid_for vA o ->
    validation_run low m evsC (Some why) ->
    commit_ends low doThrow s m0 m why (aborted doThrow why)
      (EvConsistentSnapshotTid s :: evsA ++ evsB ++ gen_events o ++ evsC
         ++ map (fun e => EvUnlock (fst e)) (locked_tuples o)
         ++ fin_events o)
| commit_ends_done (evsA : list event) (vA : dbtuple_vec)
    (evsB : list event) (o : option (dbtuple_vec * tid_t))
    (evsC evsD : list event) :
    forallb resolve_event evsA = true ->
    written vA = to_write m0 ->
    lock_phase_run vA evsB false ->
    tid_for vA o ->
    validation_run low m evsC None ->
    writes_for o evsD ->
    commit_ends low doThrow s m0 m why (Returned true)
      (EvConsistentSnapshotTid s :: evsA ++ evsB ++ gen_events o ++ evsC
         ++ evsD ++ fin_events o).

End CommitShape.

(** What the validation of an absent set has asked about the entry [e]
    of the index [tree] when it let the entry pass. *)
Definition absent_entry_passed (tree : pointer)
           (e : Key.string_type * absent_record_t) (evs : list event) : Prop :=
  match type (snd e) with
  | ABSENT_REC_INSERT => True
  | ABSENT_REC_WRITE => In (EvLatestValueIsNil (tuple (snd e)) true) evs
  | ABSENT_REC_READ =>
      In (EvSearch tree (fst e) None) evs \/
      exists v, In (EvSearch tree (fst e) (Some v)) evs /\
                In (EvStableLatestValueIsNil v true) evs
  end.

(** ** The resolution of one write

    How a write of Phase A is resolved: the key was found at the tuple
    [v], or the fresh tuple was inserted at the node with the
    version. *)
Inductive resolved : Type :=
| Found (v : pointer)
| Inserted (tuple node : pointer) (version : Z).

(** The calls of the rounds for the key [k] of the index [tree], from
    the label [retry] on.  A round first searches the key, unless it is
    on the insert path.  When the search misses, or on the insert
    path, it allocates a tuple, locks it and tries to insert it; when
    the insert fails it unlocks and releases the tuple and goes round
    again, off the insert path. *)
Inductive write_run (tree : pointer) (k : Key.string_type)
  : bool -> list event -> resolved -> Prop :=
| write_run_found (v : pointer) :
    write_run tree k false [EvSearch tree k (Some v)] (Found v)
| write_run_insert (try_insert_path : bool) (p : pointer) (hdr : version_t)
    (node : pointer) (version : Z) :
    write_run tree k try_insert_path
      ((if try_insert_path then [] else [EvSearch tree k None])
         ++ [EvAllocFirst p; EvLock p hdr;
             EvInsertIfAbsent tree k p (Some (node, version))])
      (Inserted p node version)
| write_run_retry (try_insert_path : bool) (p : pointer) (hdr : version_t)
    (evs : list event) (res : resolved) :
    write_run tree k false evs res ->
    write_run tree k try_insert_path
      ((if try_insert_path then [] else [EvSearch tree k None])
         ++ [EvAllocFirst p; EvLock p hdr; EvInsertIfAbsent tree k p None;
             EvUnlock p; EvReleaseNoRcu p]
         ++ evs)
      res.

(** ** What Phase A changes in the contexts

    Phase A changes a context in place in three ways: it sets the
    [holds_lock] flag of the read entry of a tuple it writes, it
    re-marks the absent entry of a key it writes as WRITE or INSERT
    with the tuple to write, and it bumps the recorded version of a
    node it inserted into.  No entry comes or goes, the tuple and the
    tid of a read entry stay, and an absent entry that is not re-marked
    stays as it was. *)
Definition marked_read (e e' : pointer * read_record_t) : Prop :=
  fst e = fst e' /\ t (snd e) = t (snd e').

Definition marked_absent (e e' : Key.string_type * absent_record_t) : Prop :=
  fst e = fst e' /\ (snd e = snd e' \/ type (snd e') <> ABSENT_REC_READ).

Definition marked_context (c c' : txn_context) : Prop :=
  Forall2 marked_read (read_set c) (read_set c') /\
  Forall2 marked_absent (absent_set c) (absent_set c') /\
  write_set c = write_set c' /\
  absent_range_set c = absent_range_set c'.

Definition marked (m m' : ctx_map_type) : Prop :=
  Forall2 (fun e e' => fst e = fst e' /\ marked_context (snd e) (snd e')) m m'.

(** A command that changes the contexts of the transaction in these
    ways only. *)
Definition only_marks {W : Type} {A : Type} (c : M (W := W) A) : Prop :=
  forall f res f',
    c f = (res, f') -> marked (ctx_map (txn f)) (ctx_map (txn f')).

(** ** A world for examples

    A world that answers every call from a fixed table: the header word
    every [lock] observes, whether tids can be read, what the validation
    predicates say, what [search] and [insert_if_absent] return, and the
    address of the next tuple.  Bit 1 of a header word is DELETING and
    bit 2 is LATEST here. *)
Record toy_world : Type := mk_toy_world
  { toy_header : version_t;
    toy_readable : bool;
    toy_latest : bool;
    toy_nil : bool;
    toy_found : option pointer;
    toy_inserted : option (pointer * Z);
    toy_next : pointer }.

#[export] Instance toy_protocol : Protocol toy_world :=
  { consistent_snapshot_tid := fun w => ((false, 0%Z), w);
    can_read_tid := fun _ w => (toy_readable w, w);
    gen_commit_tid := fun _ w => (42%Z, w);
    on_tid_finish := fun _ w => w;
    on_dbtuple_spill := fun _ _ _ w => w;
    on_logical_delete := fun _ _ _ w => w }.

#[export] Instance toy_storage : Storage toy_world :=
  { is_mostly_append := fun _ => false;
    btree_search := fun _ _ w => (toy_found w, w);
    btree_insert_if_absent := fun _ _ _ w => (toy_inserted w, w);
    btree_insert := fun _ _ _ w => ((false, 0%Z), w);
    ExtractVersionNumber := fun _ w => (0%Z, w);
    absent_range_validation := fun _ _ _ w => (false, w);
    IsLatest := fun v => Z.testbit v 2;
    IsDeleting := fun v => Z.testbit v 1;
    alloc_first := fun _ _ w =>
      (toy_next w,
       mk_toy_world (toy_header w) (toy_readable w) (toy_latest w) (toy_nil w)
         (toy_found w) (toy_inserted w) (toy_next w + 8)%Z);
    release_no_rcu := fun _ w => w;
    tuple_lock := fun _ _ w => (toy_header w, w);
    tuple_unlock := fun _ w => w;
    tuple_version := fun _ w => (7%Z, w);
    tuple_set_version := fun _ _ w => w;
    mark_modifying := fun _ w => w;
    is_latest_version := fun _ _ w => (toy_latest w, w);
    stable_is_latest_version := fun _ _ w => (toy_latest w, w);
    latest_value_is_nil := fun _ w => (toy_nil w, w);
    stable_latest_value_is_nil := fun _ w => (toy_nil w, w);
    write_record_at := fun _ _ _ w => ((false, 0%Z), w) }.

(** A world where nothing interferes, and the transactions and frames of
    the examples. *)
Definition toy_calm : toy_world :=
  mk_toy_world 4%Z true true true None None 1000%Z.

Definition toy_context (rs : read_set_map) (abs : absent_set_map)
           (ws : write_set_map) (ns : node_scan_map) : txn_context :=
  mk_txn_context rs abs ws ns [].

Definition toy_txn (fl : Z) (ctx : txn_context) : transaction :=
  mk_transaction TXN_ACTIVE ABORT_REASON_USER fl [(100%Z, ctx)].

Definition toy_frame (v : dbtuple_vec) (w : toy_world) : frame toy_world :=
  mk_frame (toy_txn 0%Z (toy_context [] [] [] [])) v (false, 0%Z) w [].

(** A protocol for the same world that hands out a consistent snapshot. *)
Definition snapshot_protocol : Protocol toy_world :=
  {| consistent_snapshot_tid := fun w => ((true, 17%Z), w);
     can_read_tid := fun _ w => (toy_readable w, w);
     gen_commit_tid := fun _ w => (42%Z, w);
     on_tid_finish := fun _ w => w;
     on_dbtuple_spill := fun _ _ _ w => w;
     on_logical_delete := fun _ _ _ w => w |}.

(** A storage for the same world where another transaction wins the
    race for a key: [insert_if_absent] fails, and from then on [search]
    finds the tuple 55. *)
Definition racing_storage : Storage toy_world :=
  {| is_mostly_append := fun _ => false;
     btree_search := fun _ _ w => (toy_found w, w);
     btree_insert_if_absent := fun _ _ _ w =>
       (None,
        mk_toy_world (toy_header w) (toy_readable w) (toy_latest w) (toy_nil w)
          (Some 55%Z) (toy_inserted w) (toy_next w));
     btree_insert := fun _ _ _ w => ((false, 0%Z), w);
     ExtractVersionNumber := fun _ w => (0%Z, w);
     absent_range_validation := fun _ _ _ w => (false, w);
     IsLatest := fun v => Z.testbit v 2;
     IsDeleting := fun v => Z.testbit v 1;
     alloc_first := fun _ _ w =>
       (toy_next w,
        mk_toy_world (toy_header w) (toy_readable w) (toy_latest w) (toy_nil w)
          (toy_found w) (toy_inserted w) (toy_next w + 8)%Z);
     release_no_rcu := fun _ w => w;
     tuple_lock := fun _ _ w => (toy_header w, w);
     tuple_unlock := fun _ w => w;
     tuple_version := fun _ w => (7%Z, w);
     tuple_set_version := fun _ _ w => w;
     mark_modifying := fun _ w => w;
     is_latest_version := fun _ _ w => (toy_latest w, w);
     stable_is_latest_version := fun _ _ w => (toy_latest w, w);
     latest_value_is_nil := fun _ w => (toy_nil w, w);
     stable_latest_value_is_nil := fun _ w => (toy_nil w, w);
     write_record_at := fun _ _ _ w => ((false, 0%Z), w) |}.

(* ================================================================== *)
(** * Part II: theorems *)
(* ================================================================== *)

(** ** The order on keys *)

Module KeyFacts.

Set Implicit Arguments.

Lemma lt_irrefl x : ~ Key.lt x x.
  Proof. exact (StrictOrder_Irreflexive (R := String_as_OT.lt) x). Qed.

Lemma lt_trans x y z : Key.lt x y -> Key.lt y z -> Key.lt x z.
  Proof. exact (StrictOrder_Transitive (R := String_as_OT.lt) x y z). Qed.

Lemma trichotomy x y : Key.lt x y \/ x = y \/ Key.lt y x.
  Proof.
    destruct (String_as_OT.compare_spec x y) as [E|L|G]; auto.
  Qed.

Lemma lt_le_trans x y z : Key.lt x y -> Key.le y z -> Key.lt x z.
  Proof. intros H [L|E]; [eapply lt_trans; eauto | subst; auto]. Qed.

Lemma le_lt_trans x y z : Key.le x y -> Key.lt y z -> Key.lt x z.
  Proof. intros [L|E] H; [eapply lt_trans; eauto | subst; auto]. Qed.

Lemma le_trans x y z : Key.le x y -> Key.le y z -> Key.le x z.
  Proof.
    intros [L|E] H; [left; eapply lt_le_trans; eauto | subst; auto].
  Qed.

Lemma le_refl x : Key.le x x.
  Proof. right; reflexivity. Qed.

Lemma le_antisym x y : Key.le x y -> Key.le y x -> x = y.
  Proof.
    intros [L|E] [L'|E']; auto.
    exfalso; exact (@lt_irrefl _ (lt_trans L L')).
  Qed.

Lemma not_lt_le x y : ~ Key.lt x y -> Key.le y x.
  Proof.
    intros H; destruct (trichotomy x y) as [L|[E|G]];
      [contradiction | right; auto | left; auto].
  Qed.

Lemma not_le_lt x y : ~ Key.le x y -> Key.lt y x.
  Proof.
    intros H; destruct (trichotomy x y) as [L|[E|G]]; auto;
      exfalso; apply H; [left | right]; auto.
  Qed.

Lemma le_not_lt x y : Key.le x y -> ~ Key.lt y x.
  Proof. intros H L; exact (@lt_irrefl _ (le_lt_trans H L)). Qed.

Lemma ltb_true x y : Key.ltb x y = true <-> Key.lt x y.
  Proof.
    unfold Key.ltb, Key.lt; destruct (Key.compare x y); split; congruence.
  Qed.

Lemma ltb_false x y : Key.ltb x y = false <-> Key.le y x.
  Proof.
    split; intros H.
    - apply not_lt_le; intros L; apply ltb_true in L; congruence.
    - destruct (Key.ltb x y) eqn:E; auto.
      apply ltb_true in E; exfalso; exact (le_not_lt H E).
  Qed.

Lemma leb_true x y : Key.leb x y = true <-> Key.le x y.
  Proof.
    unfold Key.leb; rewrite negb_true_iff; apply ltb_false.
  Qed.

Lemma leb_false x y : Key.leb x y = false <-> Key.lt y x.
  Proof.
    unfold Key.leb; rewrite negb_false_iff; apply ltb_true.
  Qed.

Lemma eqb_true x y : Key.eqb x y = true <-> x = y.
  Proof. apply String.eqb_eq. Qed.

Lemma eqb_false x y : Key.eqb x y = false <-> x <> y.
  Proof. apply String.eqb_neq. Qed.

Lemma le_empty x : Key.le EmptyString x.
  Proof. destruct x; [right | left]; reflexivity. Qed.

Lemma neq_le_lt x y : x <> y -> Key.le x y -> Key.lt x y.
  Proof. intros N [L|E]; [auto | contradiction]. Qed.

Unset Implicit Arguments.

End KeyFacts.

(** Order goals over keys are settled by saturation: every comparison in
    the context is turned into [Key.lt] or [Key.le], the goal is negated,
    and the transitive closure is searched for a strict cycle. *)

Ltac key_bool_hyps :=
  repeat match goal with
    | H : Key.ltb _ _ = true |- _ => apply KeyFacts.ltb_true in H
    | H : Key.ltb _ _ = false |- _ => apply KeyFacts.ltb_false in H
    | H : Key.leb _ _ = true |- _ => apply KeyFacts.leb_true in H
    | H : Key.leb _ _ = false |- _ => apply KeyFacts.leb_false in H
    | H : Key.eqb _ _ = true |- _ => apply KeyFacts.eqb_true in H
    | H : Key.eqb _ _ = false |- _ => apply KeyFacts.eqb_false in H
    | H : true = Key.ltb _ _ |- _ => symmetry in H
    | H : false = Key.ltb _ _ |- _ => symmetry in H
    | H : true = Key.leb _ _ |- _ => symmetry in H
    | H : false = Key.leb _ _ |- _ => symmetry in H
    end.

Ltac key_new H :=
  let T := type of H in
  lazymatch goal with
  | _ : T |- _ => fail
  | _ => pose proof H
  end.

Ltac key_saturate :=
  repeat match goal with
    | H : @eq Key.string_type ?x ?y |- _ =>
        first [ key_new (or_intror (Key.lt x y) H : Key.le x y)
              | key_new (or_intror (Key.lt y x) (eq_sym H) : Key.le y x) ]
    | H : @eq string ?x ?y |- _ =>
        first [ key_new (or_intror (Key.lt x y) H : Key.le x y)
              | key_new (or_intror (Key.lt y x) (eq_sym H) : Key.le y x) ]
    | H1 : ?x <> ?y, H2 : Key.le ?x ?y |- _ => key_new (KeyFacts.neq_le_lt H1 H2)
    | H1 : ?y <> ?x, H2 : Key.le ?x ?y |- _ =>
        key_new (KeyFacts.neq_le_lt (not_eq_sym H1) H2)
    | H1 : Key.lt ?x ?y, H2 : Key.lt ?y ?z |- _ => key_new (KeyFacts.lt_trans H1 H2)
    | H1 : Key.lt ?x ?y, H2 : Key.le ?y ?z |- _ => key_new (KeyFacts.lt_le_trans H1 H2)
    | H1 : Key.le ?x ?y, H2 : Key.lt ?y ?z |- _ => key_new (KeyFacts.le_lt_trans H1 H2)
    | H1 : Key.le ?x ?y, H2 : Key.le ?y ?z |- _ => key_new (KeyFacts.le_trans H1 H2)
    end.

Ltac key_absurd :=
  key_saturate;
  match goal with
  | H : Key.lt ?x ?x |- _ => exact (False_ind _ (@KeyFacts.lt_irrefl _ H))
  end.

Ltac key_goal :=
  lazymatch goal with
  | |- Key.ltb _ _ = true => apply KeyFacts.ltb_true; key_goal
  | |- Key.ltb _ _ = false => apply KeyFacts.ltb_false; key_goal
  | |- Key.leb _ _ = true => apply KeyFacts.leb_true; key_goal
  | |- Key.leb _ _ = false => apply KeyFacts.leb_false; key_goal
  | |- Key.eqb _ _ = true => apply KeyFacts.eqb_true; key_goal
  | |- Key.eqb _ _ = false => apply KeyFacts.eqb_false; key_goal
  | |- Key.lt _ _ => apply KeyFacts.not_le_lt; intro; key_absurd
  | |- Key.le _ _ => apply KeyFacts.not_lt_le; intro; key_absurd
  | |- ~ _ => intro; key_bool_hyps; key_absurd
  | |- @eq Key.string_type _ _ => apply KeyFacts.le_antisym; key_goal
  | |- @eq string _ _ => apply KeyFacts.le_antisym; key_goal
  | |- _ => first [ reflexivity | exfalso; key_absurd ]
  end.

Ltac key_order :=
  unfold Key.min in *; cbn [a b has_b key_range_open key_range_bounded] in *;
  key_bool_hyps;
  repeat match goal with
    | |- context [if Key.ltb ?x ?y then _ else _] =>
        let E := fresh "E" in destruct (Key.ltb x y) eqn:E; key_bool_hyps
    | H : context [if Key.ltb ?x ?y then _ else _] |- _ =>
        let E := fresh "E" in destruct (Key.ltb x y) eqn:E; key_bool_hyps
    end;
  cbn [a b has_b] in *;
  key_goal.


(** ** [upper_bound] on a partitioned sequence *)

Section UpperBoundFacts.

Context {A B : Type}.
Variable comp : B -> A -> bool.
Variable val : B.

  (** The window invariant of the binary search: everything left of the
      window fails [comp val], everything right of it satisfies it. *)
Lemma upper_bound_loop_window (l1 l2 : list A) :
    Forall (fun x => comp val x = false) l1 ->
    Forall (fun x => comp val x = true) l2 ->
    forall fuel first len,
      len <= fuel ->
      first <= length l1 <= first + len ->
      first + len <= length (l1 ++ l2) ->
      upper_bound_loop comp fuel (l1 ++ l2) val first len = length l1.
  Proof.
    intros F1 F2; induction fuel as [|fuel IH]; intros first len Hf Hw Hl.
    - simpl; lia.
    - cbn [upper_bound_loop]. destruct (Nat.eqb_spec len 0) as [E|E]; [lia|].
      assert (Hd : len / 2 < len) by (apply Nat.div_lt; lia).
      destruct (nth_error (l1 ++ l2) (first + len / 2)) as [m|] eqn:Hn.
      2:{ apply nth_error_None in Hn; lia. }
      destruct (Nat.lt_ge_cases (first + len / 2) (length l1)) as [Hlt|Hge].
      + rewrite nth_error_app1 in Hn by exact Hlt.
        apply nth_error_In in Hn.
        rewrite Forall_forall in F1. rewrite (F1 _ Hn).
        apply IH; lia.
      + rewrite nth_error_app2 in Hn by exact Hge.
        apply nth_error_In in Hn.
        rewrite Forall_forall in F2. rewrite (F2 _ Hn).
        apply IH; lia.
  Qed.

Lemma upper_bound_partition (l1 l2 : list A) :
    Forall (fun x => comp val x = false) l1 ->
    Forall (fun x => comp val x = true) l2 ->
    upper_bound comp (l1 ++ l2) val = length l1.
  Proof.
    intros F1 F2; unfold upper_bound.
    apply upper_bound_loop_window; auto; try lia.
    rewrite length_app; lia.
  Qed.

Lemma first_true_partition (l1 l2 : list A) :
    Forall (fun x => comp val x = false) l1 ->
    match l2 with [] => True | x :: _ => comp val x = true end ->
    first_true comp (l1 ++ l2) val = length l1.
  Proof.
    induction 1 as [|x l1 Hx F IH]; intros H2; simpl.
    - destruct l2; simpl; [reflexivity | rewrite H2; reflexivity].
    - rewrite Hx, IH; auto.
  Qed.

End UpperBoundFacts.

(** ** Valid range sets *)

Lemma below_iff k r :
  below k r <-> has_b r = true /\ Key.le (b r) k.
Proof.
  unfold below, key_range_search_less_cmp; destruct (has_b r); simpl.
  - rewrite KeyFacts.ltb_false; tauto.
  - split; [discriminate | intros [H _]; discriminate].
Qed.

Lemma above_iff k r :
  above k r <-> has_b r = false \/ Key.lt k (b r).
Proof.
  unfold above, key_range_search_less_cmp; destruct (has_b r); simpl.
  - rewrite KeyFacts.ltb_true; split; [auto | intros [H|H]; [discriminate | auto]].
  - tauto.
Qed.

Lemma nonempty_iff r :
  is_empty_range r = false <-> has_b r = false \/ Key.lt (a r) (b r).
Proof.
  unfold is_empty_range; destruct (has_b r); simpl.
  - rewrite KeyFacts.leb_false; split; [auto | intros [H|H]; [discriminate | auto]].
  - tauto.
Qed.

Lemma key_in_range_iff r k :
  key_in_range r k = true <->
  Key.le (a r) k /\ (has_b r = false \/ Key.lt k (b r)).
Proof.
  unfold key_in_range. rewrite andb_true_iff, KeyFacts.leb_true.
  destruct (has_b r); simpl.
  - rewrite KeyFacts.ltb_true. split; intros [H1 H2]; split; auto.
    destruct H2; [discriminate | auto].
  - split; intros [H1 H2]; split; auto.
Qed.

Lemma valid_from_cons lo r l :
  valid_from lo (r :: l) = true <->
  Key.le lo (a r) /\ is_empty_range r = false /\
  (has_b r = true /\ valid_from (b r) l = true \/ has_b r = false /\ l = []).
Proof.
  cbn [valid_from]. rewrite !andb_true_iff, negb_true_iff, KeyFacts.leb_true.
  destruct (has_b r); split.
  - intros [[H1 H2] H3]; split; [|split]; auto.
  - intros [H1 [H2 [[_ H3]|[H3 _]]]]; [auto | discriminate].
  - intros [[H1 H2] H3]; split; [|split]; auto.
    right; split; auto. destruct l; [auto | discriminate].
  - intros [H1 [H2 [[H3 _]|[_ H3]]]]; [discriminate|].
    subst l; auto.
Qed.

Lemma valid_from_head lo lo' r l :
  valid_from lo (r :: l) = true -> Key.le lo' (a r) ->
  valid_from lo' (r :: l) = true.
Proof.
  rewrite !valid_from_cons; intros [_ H] H'; split; auto.
Qed.

Lemma valid_from_weaken lo lo' l :
  valid_from lo l = true -> Key.le lo' lo -> valid_from lo' l = true.
Proof.
  destruct l as [|r l]; [reflexivity|].
  intros H H'; eapply valid_from_head; [exact H|].
  apply valid_from_cons in H; destruct H as [H _]; key_order.
Qed.

Lemma valid_from_tail lo r l :
  valid_from lo (r :: l) = true -> valid_from (a r) l = true.
Proof.
  intros H; apply valid_from_cons in H.
  destruct H as [_ [N [[Hb V]|[_ E]]]]; [|subst; reflexivity].
  eapply valid_from_weaken; [exact V|].
  apply nonempty_iff in N; destruct N as [N|N]; [congruence | key_order].
Qed.

Lemma valid_from_Forall lo l :
  valid_from lo l = true ->
  Forall (fun r => Key.le lo (a r) /\ is_empty_range r = false) l.
Proof.
  revert lo; induction l as [|r l IH]; intros lo H; constructor.
  - apply valid_from_cons in H; tauto.
  - pose proof (valid_from_tail _ _ _ H) as T.
    apply valid_from_cons in H; destruct H as [H _].
    apply IH in T. eapply Forall_impl; [|exact T].
    cbn beta; intros x [H1 H2]; split; [key_order | auto].
Qed.

Lemma valid_from_above lo l k :
  valid_from lo l = true -> Key.le k lo -> Forall (above k) l.
Proof.
  intros H Hk; apply valid_from_Forall in H.
  eapply Forall_impl; [|exact H]. cbn beta.
  intros r [H1 H2]. apply above_iff. apply nonempty_iff in H2.
  destruct H2 as [H2|H2]; [left; auto | right; key_order].
Qed.

(** The comparator of [upper_bound] partitions a valid range set. *)
Lemma valid_from_partition lo l k :
  valid_from lo l = true ->
  exists l1 l2, l = l1 ++ l2 /\ Forall (below k) l1 /\ Forall (above k) l2.
Proof.
  revert lo; induction l as [|r l IH]; intros lo H.
  - exists [], []; auto.
  - destruct (key_range_search_less_cmp k r) eqn:C.
    + change (above k r) in C.
      exists [], (r :: l); repeat split; auto.
      constructor; [exact C|].
      apply valid_from_cons in H. destruct H as [_ [_ [[Hb V]|[_ E]]]].
      * apply above_iff in C; destruct C as [C|C]; [congruence|].
        eapply valid_from_above; [exact V|]; key_order.
      * subst; constructor.
    + change (below k r) in C.
      apply valid_from_cons in H. destruct H as [_ [_ [[Hb V]|[Hb _]]]].
      * destruct (IH _ V) as (l1 & l2 & E & F1 & F2).
        exists (r :: l1), l2; subst l; repeat split; auto.
      * apply below_iff in C; destruct C; congruence.
Qed.

Lemma upper_app lo l1 l2 : upper lo (l1 ++ l2) = upper (upper lo l1) l2.
Proof. revert lo; induction l1; simpl; auto. Qed.

Lemma valid_from_app lo l1 r l2 :
  valid_from lo (l1 ++ r :: l2) =
  valid_from lo l1 && forallb has_b l1 && valid_from (upper lo l1) (r :: l2).
Proof.
  revert lo; induction l1 as [|x l1 IH]; intros lo.
  - reflexivity.
  - change ((x :: l1) ++ r :: l2) with (x :: (l1 ++ r :: l2)).
    cbn [valid_from forallb upper].
    destruct (has_b x) eqn:Hx.
    + rewrite IH.
      destruct (Key.leb lo (a x)), (negb (is_empty_range x)),
        (valid_from (b x) l1), (forallb has_b l1); reflexivity.
    + rewrite andb_false_r; cbn [andb].
      destruct l1; cbn [app]; apply andb_false_r.
Qed.

Lemma valid_from_prefix lo l1 l2 :
  valid_from lo (l1 ++ l2) = true -> valid_from lo l1 = true.
Proof.
  destruct l2 as [|r l2]; [rewrite app_nil_r; auto|].
  rewrite valid_from_app, !andb_true_iff; tauto.
Qed.

Lemma below_upper k lo l :
  Forall (below k) l -> Key.le lo k -> Key.le (upper lo l) k.
Proof.
  intros F; revert lo; induction F as [|r l Hr F IH]; intros lo H; simpl; auto.
  apply IH. apply below_iff in Hr; tauto.
Qed.

Lemma below_has_b k l : Forall (below k) l -> forallb has_b l = true.
Proof.
  induction 1 as [|r l Hr F IH]; simpl; auto.
  apply below_iff in Hr; destruct Hr as [Hr _]; rewrite Hr; auto.
Qed.

(** ** Cutting a vector at an offset *)

Lemma nth_error_mid {A} (l1 : list A) x l2 n :
  n = length l1 -> nth_error (l1 ++ x :: l2) n = Some x.
Proof.
  intros ->. rewrite nth_error_app2 by lia. rewrite Nat.sub_diag. reflexivity.
Qed.

Lemma nth_error_end {A} (l : list A) n :
  n = length l -> nth_error l n = None.
Proof. intros ->. apply nth_error_None. lia. Qed.

Lemma firstn_mid {A} (l1 l2 : list A) n :
  n = length l1 -> firstn n (l1 ++ l2) = l1.
Proof.
  intros ->. rewrite firstn_app, Nat.sub_diag, firstn_all. simpl.
  apply app_nil_r.
Qed.

Lemma skipn_mid {A} (l1 l2 : list A) n :
  n = length l1 -> skipn n (l1 ++ l2) = l2.
Proof.
  intros ->. rewrite skipn_app, Nat.sub_diag, skipn_all. reflexivity.
Qed.

Lemma skipn_S_mid {A} (l1 : list A) x l2 n :
  n = length l1 -> skipn (S n) (l1 ++ x :: l2) = l2.
Proof.
  intros ->. replace (l1 ++ x :: l2) with ((l1 ++ [x]) ++ l2)
    by (rewrite <- app_assoc; reflexivity).
  apply skipn_mid. rewrite length_app; simpl; lia.
Qed.

Lemma list_last_cases {A} (l : list A) :
  l = [] \/ exists l0 x, l = l0 ++ [x].
Proof.
  destruct l as [|y l]; [left; reflexivity | right].
  destruct (@exists_last _ (y :: l)) as (l0 & x & E); [discriminate|].
  exists l0, x; exact E.
Qed.

Lemma scan_right_spec range_b post n :
  let it1 := scan_right range_b post n in
  exists p1 p2,
    post = p1 ++ p2 /\ Forall (swallowed range_b) p1 /\
    it1 = n + length p1 /\
    match p2 with [] => True | r1 :: _ => stops range_b r1 end.
Proof.
  revert n; induction post as [|r post IH]; intros n; cbn [scan_right].
  - exists [], []; simpl; repeat split; auto.
  - destruct (Key.leb range_b (a r)) eqn:E1; cbn [orb].
    { exists [], (r :: post); simpl; repeat split; auto.
      left; key_order. }
    destruct (has_b r) eqn:E2; cbn [negb orb].
    2:{ exists [], (r :: post); simpl; repeat split; auto.
        right; left; exact E2. }
    destruct (Key.leb range_b (b r)) eqn:E3.
    { exists [], (r :: post); simpl; repeat split; auto.
      right; right; key_order. }
    destruct (IH (S n)) as (p1 & p2 & Hp & F & Hi & Hs).
    exists (r :: p1), p2; simpl; repeat split; auto.
    + rewrite Hp; reflexivity.
    + constructor; auto. repeat split; auto; key_order.
    + rewrite Hi; lia.
Qed.

(** ** [add_absent_range] by cases *)

Lemma left_part_ok range cur l1 post :
  let it := length l1 in
  let prev := nth_error (l1 ++ cur :: post) (it - 1) in
  let merge_left :=
    negb (Nat.eqb it 0) &&
    match prev with
    | Some p => Key.eqb (b p) (a range)
    | None => false
    end in
  left_part range cur l1
    (firstn (if merge_left then it - 1 else it) (l1 ++ cur :: post))
    (match merge_left, prev with
     | true, Some p => a p
     | _, _ => Key.min (a cur) (a range)
     end).
Proof.
  destruct (list_last_cases l1) as [->|(l0 & p & ->)]; cbv zeta.
  - cbn [length Nat.eqb negb andb firstn]. apply LP_keep. left; reflexivity.
  - replace (length (l0 ++ [p]) - 1) with (length l0)
      by (rewrite length_app; simpl; lia).
    replace (Nat.eqb (length (l0 ++ [p])) 0) with false
      by (rewrite length_app, Nat.add_comm; reflexivity).
    assert (Hn : nth_error ((l0 ++ [p]) ++ cur :: post) (length l0) = Some p)
      by (rewrite <- app_assoc; apply nth_error_mid; reflexivity).
    rewrite !Hn. cbn [negb andb].
    destruct (Key.eqb (b p) (a range)) eqn:Eb.
    + rewrite <- app_assoc. rewrite (firstn_mid l0 _ _ eq_refl).
      apply LP_merge; [reflexivity | key_order].
    + rewrite (firstn_mid (l0 ++ [p]) _ _ eq_refl).
      apply LP_keep. right. exists l0, p; split; [reflexivity | key_order].
Qed.

Lemma add_absent_range_cases lo range l :
  valid_from lo l = true ->
  add_cases range l (add_absent_range range l).
Proof.
  intros V. unfold add_absent_range.
  destruct (is_empty_range range) eqn:NE; [apply AC_empty; exact NE|].
  destruct (valid_from_partition lo l (a range) V) as (l1 & l2 & E & F1 & F2).
  subst l. cbv zeta.
  rewrite (upper_bound_partition key_range_search_less_cmp (a range) l1 l2 F1 F2).
  destruct l2 as [|cur post].
  - rewrite app_nil_r in *. rewrite (nth_error_end l1 _ eq_refl).
    destruct (list_last_cases l1) as [->|(l0 & back & ->)].
    + cbn [rev]. apply AC_push; auto.
    + rewrite rev_app_distr; cbn [rev app].
      destruct (Key.eqb (b back) (a range)) eqn:Eb.
      * rewrite removelast_last.
        apply AC_extend; auto. key_order.
      * apply AC_push; auto. right; exists l0, back; split; auto. key_order.
  - rewrite (nth_error_mid l1 cur post _ eq_refl).
    assert (A : above (a range) cur) by (inversion F2; auto).
    destruct (contains cur range) eqn:C.
    { eapply AC_contained; eauto. }
    pose proof (left_part_ok range cur l1 post) as HL. cbv zeta in HL.
    revert HL.
    generalize (firstn
       (if negb (Nat.eqb (length l1) 0) &&
           match nth_error (l1 ++ cur :: post) (length l1 - 1) with
           | Some p => Key.eqb (b p) (a range)
           | None => false
           end
        then length l1 - 1 else length l1) (l1 ++ cur :: post)) as new_set.
    generalize (match
         negb (Nat.eqb (length l1) 0) &&
         match nth_error (l1 ++ cur :: post) (length l1 - 1) with
         | Some p => Key.eqb (b p) (a range)
         | None => false
         end,
         nth_error (l1 ++ cur :: post) (length l1 - 1)
       with
       | true, Some p => a p
       | _, _ => Key.min (a cur) (a range)
       end) as left_key.
    intros left_key new_set HL.
    rewrite (skipn_mid l1 (cur :: post) _ eq_refl).
    rewrite (skipn_S_mid l1 cur post _ eq_refl).
    destruct (has_b range) eqn:Hr.
    2:{ eapply AC_merge; eauto. apply RP_open; exact Hr. }
    destruct (negb (has_b cur) || Key.leb (b range) (b cur)) eqn:C1.
    + assert (C1' : has_b cur = false \/ Key.le (b range) (b cur)).
      { apply orb_true_iff in C1. destruct C1 as [C1|C1];
          [left; apply negb_true_iff; exact C1 | right; key_order]. }
      destruct (Key.ltb (b range) (a cur)) eqn:C2.
      * eapply AC_merge; eauto. apply RP_gap; auto. key_order.
      * eapply AC_merge; eauto. apply RP_cur; auto. key_order.
    + apply orb_false_iff in C1. destruct C1 as [C1 C1'].
      apply negb_false_iff in C1.
      destruct (scan_right_spec (b range) post (S (length l1)))
        as (p1 & p2 & Hp & F & Hi & Hs).
      cbv zeta in Hi. rewrite Hi. subst post.
      assert (Hlen : S (length l1) + length p1 = length (l1 ++ cur :: p1))
        by (rewrite length_app; simpl; lia).
      replace (l1 ++ cur :: p1 ++ p2) with ((l1 ++ cur :: p1) ++ p2)
        by (rewrite <- app_assoc; reflexivity).
      destruct p2 as [|r1 p2].
      * rewrite app_nil_r. rewrite (nth_error_end _ _ Hlen).
        eapply AC_merge; eauto.
        apply RP_end; auto; key_order.
      * rewrite (nth_error_mid _ r1 p2 _ Hlen).
        rewrite (skipn_mid _ (r1 :: p2) _ Hlen).
        rewrite (skipn_S_mid _ r1 p2 _ Hlen).
        destruct (Key.leb (a r1) (b range)) eqn:C3.
        -- eapply AC_merge with (l1 := l1) (cur := cur) (post := p1 ++ r1 :: p2);
             [ exact NE | rewrite <- app_assoc; reflexivity | exact F1
             | exact A | exact C | exact HL | ].
           eapply RP_join; eauto; key_order.
        -- eapply AC_merge with (l1 := l1) (cur := cur) (post := p1 ++ r1 :: p2);
             [ exact NE | rewrite <- app_assoc; reflexivity | exact F1
             | exact A | exact C | exact HL | ].
           eapply RP_stop; eauto; key_order.
Qed.

Lemma valid_from_app_iff lo l1 r l2 :
  valid_from lo (l1 ++ r :: l2) = true <->
  valid_from lo l1 = true /\ forallb has_b l1 = true /\
  valid_from (upper lo l1) (r :: l2) = true.
Proof. rewrite valid_from_app, !andb_true_iff. tauto. Qed.

Lemma valid_from_tail_cases lo r l :
  valid_from lo (r :: l) = true ->
  if has_b r then valid_from (b r) l = true else l = [].
Proof.
  intros H; apply valid_from_cons in H.
  destruct H as [_ [_ [[Hb V]|[Hb E]]]]; rewrite Hb; auto.
Qed.

Lemma valid_from_build lo lk qh qb post :
  Key.le lo lk ->
  (qh = false \/ Key.lt lk qb) ->
  (if qh then valid_from qb post = true else post = []) ->
  valid_from lo (mk_key_range lk qh qb :: post) = true.
Proof.
  intros H1 H2 H3. apply valid_from_cons. cbn [a b has_b].
  split; [exact H1|]. split; [apply nonempty_iff; exact H2|].
  destruct qh; [left | right]; auto.
Qed.

(** The left part of a merge: what is kept is valid, and the left key
    lies between the kept ranges and both [range.a] and [cur.a]. *)
Lemma left_part_valid range cur l1 post new_set left_key :
  valid_range_set (l1 ++ cur :: post) = true ->
  Forall (below (a range)) l1 ->
  left_part range cur l1 new_set left_key ->
  valid_range_set new_set = true /\ forallb has_b new_set = true /\
  Key.le (upper EmptyString new_set) left_key /\
  Key.le left_key (a range) /\ Key.le left_key (a cur).
Proof.
  unfold valid_range_set. intros V F1 HL.
  apply valid_from_app_iff in V. destruct V as (V1 & B1 & V2).
  pose proof V2 as V2'. apply valid_from_cons in V2'. destruct V2' as [Hc _].
  destruct HL as [l0 p E Eb | _].
  - subst l1. apply valid_from_app_iff in V1. destruct V1 as (V0 & B0 & Vp).
    apply valid_from_cons in Vp. destruct Vp as [Hp [Np _]].
    rewrite upper_app in Hc. cbn [upper] in Hc.
    apply Forall_app in F1. destruct F1 as [_ Fp].
    inversion Fp as [|? ? Bp _]; subst. apply below_iff in Bp.
    apply nonempty_iff in Np.
    destruct Bp as [Bp _]. destruct Np as [Np|Np]; [congruence|].
    repeat split; auto; key_order.
  - pose proof (below_upper (a range) EmptyString l1 F1 (KeyFacts.le_empty _)).
    repeat split; auto; key_order.
Qed.

Lemma add_cases_valid range l l' :
  valid_range_set l = true -> add_cases range l l' ->
  valid_range_set l' = true.
Proof.
  intros V H.
  destruct H as [ NE | NE F HB | l0 back NE E F Eb | l1 cur post NE E F1 A C
                | l1 cur post new_set left_key qh qb post' NE E F1 A C HL HR ];
    auto.
  - (* push_back *)
    unfold valid_range_set. apply valid_from_app_iff.
    split; [exact V|]. split; [eapply below_has_b; eauto|].
    apply valid_from_cons.
    split; [apply below_upper; [exact F | apply KeyFacts.le_empty]|].
    split; [exact NE|].
    destruct (has_b range); [left | right]; auto.
  - (* the last range is extended *)
    subst l. unfold valid_range_set in *.
    apply valid_from_app_iff in V. destruct V as (V0 & B0 & Vb).
    apply valid_from_app_iff. split; [exact V0|]. split; [exact B0|].
    apply valid_from_cons in Vb. destruct Vb as [Hb [Nb _]].
    apply Forall_app in F. destruct F as [_ Fb].
    inversion Fb as [|? ? Bb _]; subst. apply below_iff in Bb.
    destruct Bb as [Bb _].
    apply nonempty_iff in Nb. destruct Nb as [Nb|Nb]; [congruence|].
    apply nonempty_iff in NE.
    apply valid_from_build; auto.
    + destruct NE as [NE|NE]; [left; exact NE | right; key_order].
    + destruct (has_b range); reflexivity.
  - (* merge *)
    subst l.
    destruct (left_part_valid _ _ _ _ _ _ V F1 HL) as (Vn & Bn & Hu & Hra & Hca).
    unfold valid_range_set in *.
    apply valid_from_app_iff in V. destruct V as (V1 & B1 & V2).
    apply valid_from_app_iff. split; [exact Vn|]. split; [exact Bn|].
    pose proof V2 as Vc. apply valid_from_cons in Vc.
    destruct Vc as [Hc [Nc _]].
    pose proof (valid_from_tail_cases _ _ _ V2) as Tc.
    apply nonempty_iff in NE. apply nonempty_iff in Nc.
    destruct HR as [ Hr | Hr Hb Hlt | Hr Hb Hle | Hr Hcb Hlt Fs
                   | p1 r1 p2 Hr Hcb Hlt Ep Fs St Hle
                   | p1 r1 p2 Hr Hcb Hlt Ep Fs Hgt ].
    + apply valid_from_build; auto.
    + destruct NE as [NE|NE]; [congruence|].
      apply valid_from_build; auto; [right; key_order|].
      eapply valid_from_head; [exact V2 | key_order].
    + apply valid_from_build; auto.
      destruct Nc as [Nc|Nc]; [left; exact Nc | right; key_order].
    + destruct NE as [NE|NE]; [congruence|].
      apply valid_from_build; auto. right; key_order.
    + destruct NE as [NE|NE]; [congruence|].
      subst post. rewrite Hcb in Tc.
      apply valid_from_app_iff in Tc. destruct Tc as (_ & _ & Vr).
      pose proof Vr as Vr'. apply valid_from_cons in Vr'.
      destruct Vr' as [_ [Nr _]]. apply nonempty_iff in Nr.
      apply valid_from_build; auto.
      * destruct (has_b r1) eqn:H1; [right | left; reflexivity].
        destruct Nr as [Nr|Nr]; [congruence|].
        destruct St as [St|[St|St]]; [key_order | congruence | key_order].
      * exact (valid_from_tail_cases _ _ _ Vr).
    + destruct NE as [NE|NE]; [congruence|].
      subst post. rewrite Hcb in Tc.
      apply valid_from_app_iff in Tc. destruct Tc as (_ & _ & Vr).
      apply valid_from_build; auto; [right; key_order|].
      eapply valid_from_head; [exact Vr | key_order].
Qed.

Lemma add_absent_range_valid range l :
  valid_range_set l = true ->
  valid_range_set (add_absent_range range l) = true.
Proof.
  intros V. eapply add_cases_valid; [exact V|].
  eapply add_absent_range_cases; exact V.
Qed.

(** ** The invariant and its check agree *)

Lemma nonempty_holds_lower r :
  is_empty_range r = false -> key_in_range r (a r) = true.
Proof.
  intros N. apply nonempty_iff in N. apply key_in_range_iff.
  split; [apply KeyFacts.le_refl | exact N].
Qed.

Lemma valid_from_sorted_disjoint lo l :
  valid_from lo l = true -> sorted_disjoint l.
Proof.
  revert lo; induction l as [|r l IH]; intros lo V.
  - repeat split; constructor.
  - pose proof (valid_from_tail _ _ _ V) as T.
    destruct (IH _ T) as (N & S & D).
    pose proof V as V'. apply valid_from_cons in V'.
    destruct V' as [_ [Nr Tr]].
    split; [constructor; auto|]. split.
    + constructor; [exact S|].
      apply valid_from_Forall in T.
      eapply Forall_impl; [|exact T]. cbn beta. tauto.
    + constructor; [|exact D].
      destruct Tr as [[Hb Vb]|[_ ->]]; [|constructor].
      apply valid_from_Forall in Vb.
      eapply Forall_impl; [|exact Vb]. cbn beta.
      intros r' [Hle _] (k & K1 & K2).
      apply key_in_range_iff in K1. apply key_in_range_iff in K2.
      destruct K1 as [_ [K1|K1]]; [congruence|].
      destruct K2 as [K2 _]. key_order.
Qed.

Lemma sorted_disjoint_valid l :
  sorted_disjoint l -> valid_range_set l = true.
Proof.
  unfold valid_range_set.
  induction l as [|r l IH]; intros (N & S & D); [reflexivity|].
  inversion N as [|? ? Nr Nl]; subst.
  inversion S as [|? ? Sl Sr]; subst.
  inversion D as [|? ? Dr Dl]; subst.
  assert (V : valid_from EmptyString l = true) by (apply IH; repeat split; auto).
  apply valid_from_cons.
  split; [apply KeyFacts.le_empty|]. split; [exact Nr|].
  destruct l as [|r' l'].
  { destruct (has_b r); [left | right]; auto. }
  inversion Nl as [|? ? Nr' _]; subst.
  inversion Sr as [|? ? Hle _]; subst.
  inversion Dr as [|? ? Hd _]; subst.
  assert (K' : key_in_range r' (a r') = true) by (apply nonempty_holds_lower; auto).
  destruct (has_b r) eqn:Hb.
  - left; split; [reflexivity|].
    eapply valid_from_head; [exact V|].
    apply KeyFacts.not_lt_le. intros Hlt. apply Hd.
    exists (a r'). split; [|exact K'].
    apply key_in_range_iff. split; [exact Hle | right; exact Hlt].
  - exfalso. apply Hd. exists (a r'). split; [|exact K'].
    apply key_in_range_iff. split; [exact Hle | left; exact Hb].
Qed.

Lemma sorted_disjoint_iff l :
  sorted_disjoint l <-> valid_range_set l = true.
Proof.
  split; [apply sorted_disjoint_valid | apply valid_from_sorted_disjoint].
Qed.

(** ** Ranges around a position of a valid set *)

Lemma valid_split lo l1 r l2 :
  valid_from lo (l1 ++ r :: l2) = true ->
  Forall (fun x => has_b x = true /\ Key.le (b x) (a r) /\ Key.lt (a x) (b x)) l1 /\
  is_empty_range r = false /\
  (if has_b r
   then Forall (fun x => Key.le (b r) (a x) /\ is_empty_range x = false) l2
   else l2 = []).
Proof.
  revert lo; induction l1 as [|x l1 IH]; intros lo V.
  - cbn [app] in V. split; [constructor|].
    pose proof (valid_from_tail_cases _ _ _ V) as T.
    apply valid_from_cons in V. destruct V as [_ [N _]].
    split; [exact N|].
    destruct (has_b r); [apply valid_from_Forall; exact T | exact T].
  - change ((x :: l1) ++ r :: l2) with (x :: (l1 ++ r :: l2)) in V.
    pose proof (valid_from_tail_cases _ _ _ V) as T.
    apply valid_from_cons in V. destruct V as [_ [N _]].
    destruct (has_b x) eqn:Hx; [|destruct l1; discriminate].
    destruct (IH _ T) as (F & Nr & R).
    split; [|split; auto].
    apply nonempty_iff in N. destruct N as [N|N]; [congruence|].
    constructor; [|exact F].
    split; [exact Hx|]. split; [|exact N].
    apply valid_from_Forall in T. rewrite Forall_forall in T.
    destruct (T r) as [T' _]; [apply in_elt | exact T'].
Qed.

(** ** [key_in_absent_set] *)

Lemma key_in_absent_set_correct l k :
  valid_range_set l = true ->
  key_in_absent_set l k = true <->
  exists r, In r l /\ key_in_range r k = true.
Proof.
  intros V. unfold key_in_absent_set.
  destruct (valid_from_partition _ l k V) as (l1 & l2 & E & F1 & F2).
  subst l.
  rewrite (upper_bound_partition key_range_search_less_cmp k l1 l2 F1 F2).
  assert (N1 : forall r, In r l1 -> key_in_range r k = true -> False).
  { intros r Hr K. rewrite Forall_forall in F1. apply F1 in Hr.
    apply below_iff in Hr. apply key_in_range_iff in K.
    destruct Hr as [Hb Hle]. destruct K as [_ [K|K]]; [congruence | key_order]. }
  destruct l2 as [|cur post].
  - rewrite app_nil_r. rewrite (nth_error_end l1 _ eq_refl).
    split; [discriminate|]. intros (r & Hr & K). exfalso; eauto.
  - rewrite (nth_error_mid l1 cur post _ eq_refl).
    split; [intros K; exists cur; split; [apply in_elt | exact K]|].
    intros (r & Hr & K).
    apply in_app_or in Hr. destruct Hr as [Hr|[Hr|Hr]].
    + exfalso; eauto.
    + subst r; exact K.
    + exfalso. unfold valid_range_set in V.
      destruct (valid_split _ _ _ _ V) as (_ & _ & R).
      inversion F2 as [|? ? A _]; subst. apply above_iff in A.
      destruct (has_b cur); [|subst post; destruct Hr].
      rewrite Forall_forall in R. destruct (R _ Hr) as [Hle _].
      apply key_in_range_iff in K. destruct K as [K _].
      destruct A as [A|A]; [discriminate | key_order].
Qed.

(** ** Containment *)

Lemma contains_iff r that :
  contains r that = true <->
  Key.le (a r) (a that) /\
  (has_b r = false \/ has_b that = true /\ Key.le (b that) (b r)).
Proof.
  unfold contains.
  destruct (Key.ltb (a that) (a r)) eqn:E1.
  { split; [discriminate|]. intros [H _]. key_order. }
  destruct (has_b r); cbn [negb].
  2:{ split; [intros _; split; [key_order | left; reflexivity] | reflexivity]. }
  destruct (has_b that); cbn [negb].
  - rewrite KeyFacts.leb_true. split.
    + intros H; split; [key_order | right; split; auto].
    + intros [_ [H|[_ H]]]; [discriminate | exact H].
  - split; [discriminate|]. intros [_ [H|[H _]]]; discriminate.
Qed.

Lemma contains_refl r : contains r r = true.
Proof.
  apply contains_iff. split; [apply KeyFacts.le_refl|].
  destruct (has_b r); [right; split; [reflexivity | apply KeyFacts.le_refl] | left; reflexivity].
Qed.

Lemma contains_key r that k :
  contains r that = true -> key_in_range that k = true ->
  key_in_range r k = true.
Proof.
  rewrite contains_iff, !key_in_range_iff.
  intros [H1 H2] [K1 K2]. split; [key_order|].
  destruct H2 as [H2|[H2 H3]]; [left; exact H2 | right].
  destruct K2 as [K2|K2]; [congruence | key_order].
Qed.

(** The candidate of [upper_bound] for the lower bound of a range is the
    one range of a valid set that can contain it. *)
Lemma contained_partition l1 q post range :
  valid_range_set (l1 ++ q :: post) = true ->
  is_empty_range range = false ->
  contains q range = true ->
  Forall (below (a range)) l1 /\ Forall (above (a range)) (q :: post).
Proof.
  intros V NE C. unfold valid_range_set in V.
  destruct (valid_split _ _ _ _ V) as (F & Nq & R).
  apply contains_iff in C. destruct C as [C1 C2].
  apply nonempty_iff in NE. apply nonempty_iff in Nq.
  assert (Aq : above (a range) q).
  { apply above_iff. destruct C2 as [C2|[C2 C3]]; [left; exact C2 | right].
    destruct NE as [NE|NE]; [congruence | key_order]. }
  split.
  - eapply Forall_impl; [|exact F]. cbn beta.
    intros x (Hx & Hle & _). apply below_iff. split; [exact Hx | key_order].
  - constructor; [exact Aq|].
    destruct (has_b q) eqn:Hq; [|subst post; constructor].
    eapply Forall_impl; [|exact R]. cbn beta.
    intros x [Hle Nx]. apply above_iff. apply nonempty_iff in Nx.
    apply above_iff in Aq.
    destruct Nx as [Nx|Nx]; [left; exact Nx | right].
    destruct Aq as [Aq|Aq]; [congruence | key_order].
Qed.

Lemma add_absent_range_contained l q range :
  valid_range_set l = true -> In q l -> contains q range = true ->
  add_absent_range range l = l.
Proof.
  intros V Hq C. unfold add_absent_range.
  destruct (is_empty_range range) eqn:NE; [reflexivity|].
  apply in_split in Hq. destruct Hq as (l1 & post & ->).
  destruct (contained_partition _ _ _ _ V NE C) as [F1 F2].
  cbv zeta.
  rewrite (upper_bound_partition key_range_search_less_cmp (a range) l1 _ F1 F2).
  rewrite (nth_error_mid l1 q post _ eq_refl). rewrite C. reflexivity.
Qed.

Lemma contains_build lk qh qb range :
  Key.le lk (a range) ->
  (qh = false \/ has_b range = true /\ Key.le (b range) qb) ->
  contains (mk_key_range lk qh qb) range = true.
Proof. intros H1 H2. apply contains_iff. cbn [a b has_b]. auto. Qed.

(** The range that is pushed reaches at least as far as [range]. *)
Lemma right_part_covers lo range cur l1 post qh qb post' :
  valid_from lo (l1 ++ cur :: post) = true ->
  right_part range cur post qh qb post' ->
  qh = false \/ has_b range = true /\ Key.le (b range) qb.
Proof.
  intros V HR.
  destruct (valid_split _ _ _ _ V) as (_ & Nc & R).
  destruct HR as [ Hr | Hr Hb Hlt | Hr Hb Hle | Hr Hcb Hlt Fs
                 | p1 r1 p2 Hr Hcb Hlt Ep Fs St Hle
                 | p1 r1 p2 Hr Hcb Hlt Ep Fs Hgt ].
  - left; reflexivity.
  - right; split; [exact Hr | apply KeyFacts.le_refl].
  - destruct Hb as [Hb|Hb]; [left; exact Hb | right; split; auto].
  - right; split; [exact Hr | apply KeyFacts.le_refl].
  - destruct (has_b r1) eqn:H1; [right | left; reflexivity].
    split; [exact Hr|].
    rewrite Hcb in R. subst post. apply Forall_app in R. destruct R as [_ R].
    inversion R as [|? ? [_ N1] _]; subst.
    apply nonempty_iff in N1. destruct N1 as [N1|N1]; [congruence|].
    destruct St as [St|[St|St]]; [key_order | congruence | exact St].
  - right; split; [exact Hr | apply KeyFacts.le_refl].
Qed.

Lemma extend_contains back range :
  Key.lt (a back) (b back) -> b back = a range ->
  contains (mk_key_range (a back) (has_b range) (b range)) range = true.
Proof.
  intros N E. apply contains_build; [key_order|].
  destruct (has_b range);
    [right; split; [reflexivity | apply KeyFacts.le_refl] | left; reflexivity].
Qed.

(** Whatever the branch, the range lands inside one range of the
    result. *)
Lemma add_cases_container range l l' :
  valid_range_set l = true -> is_empty_range range = false ->
  add_cases range l l' ->
  exists l1 q post, l' = l1 ++ q :: post /\ contains q range = true.
Proof.
  intros V NE H.
  destruct H as [ NE' | _ F HB | l0 back _ E F Eb | l1 cur post _ E F1 A C
                | l1 cur post new_set left_key qh qb post' _ E F1 A C HL HR ].
  - congruence.
  - exists l, range, []. split; [reflexivity | apply contains_refl].
  - exists l0, (mk_key_range (a back) (has_b range) (b range)), [].
    split; [reflexivity|]. subst l. unfold valid_range_set in V.
    destruct (valid_split _ _ _ _ V) as (_ & Nb & _).
    apply Forall_app in F. destruct F as [_ Fb].
    inversion Fb as [|? ? Bb _]; subst. apply below_iff in Bb.
    destruct Bb as [Bb _]. apply nonempty_iff in Nb.
    destruct Nb as [Nb|Nb]; [congruence|].
    apply extend_contains; auto.
  - exists l1, cur, post. auto.
  - exists new_set, (mk_key_range left_key qh qb), post'.
    split; [reflexivity|]. subst l.
    destruct (left_part_valid _ _ _ _ _ _ V F1 HL) as (_ & _ & _ & Hra & _).
    apply contains_build; [exact Hra|].
    eapply right_part_covers; eauto.
Qed.

Lemma add_absent_range_idempotent range l :
  valid_range_set l = true ->
  add_absent_range range (add_absent_range range l) = add_absent_range range l.
Proof.
  intros V.
  destruct (is_empty_range range) eqn:NE.
  { unfold add_absent_range. rewrite NE. reflexivity. }
  pose proof (add_absent_range_cases _ range l V) as H.
  pose proof (add_absent_range_valid range l V) as V'.
  destruct (add_cases_container _ _ _ V NE H) as (l1 & q & post & E & C).
  apply add_absent_range_contained with (q := q); auto.
  rewrite E. apply in_elt.
Qed.

(** ** Left-adjacent and overlapping ranges are merged *)

Lemma overlaps_iff r1 r2 :
  overlaps r1 r2 <->
  exists k, (Key.le (a r1) k /\ (has_b r1 = false \/ Key.lt k (b r1))) /\
            (Key.le (a r2) k /\ (has_b r2 = false \/ Key.lt k (b r2))).
Proof.
  unfold overlaps. split; intros (k & K1 & K2); exists k.
  - apply key_in_range_iff in K1. apply key_in_range_iff in K2. auto.
  - rewrite !key_in_range_iff. auto.
Qed.

Lemma below_no_overlap range x :
  below (a range) x -> ~ overlaps x range.
Proof.
  intros B O. apply below_iff in B. destruct B as [Hb Hle].
  apply overlaps_iff in O. destruct O as (k & [_ [K|K]] & [K' _]);
    [congruence | key_order].
Qed.

(** A range of the vector that meets [range], or ends where it starts. *)
Definition touches (l : absent_range_vec) (range q' : key_range_t) : Prop :=
  overlaps q' range \/
  (has_b q' = true /\ b q' = a range /\
   forall c, In c l -> contains c range = false).

Lemma add_cases_merged range l l' q' :
  valid_range_set l = true -> is_empty_range range = false ->
  add_cases range l l' ->
  In q' l -> touches l range q' ->
  exists q, In q l' /\ contains q range = true /\ contains q q' = true.
Proof.
  intros V NE H Hq T.
  unfold valid_range_set in V.
  destruct H as [ NE' | _ F HB | l0 back _ E F Eb | l1 cur post _ E F1 A C
                | l1 cur post new_set left_key qh qb post' _ E F1 A C HL HR ].
  - congruence.
  - (* push_back: nothing of the vector touches the range *)
    exfalso. rewrite Forall_forall in F.
    destruct T as [O|(Hb & Ea & _)];
      [exact (below_no_overlap _ _ (F _ Hq) O)|].
    destruct HB as [->|(l0 & back & -> & Nb)]; [destruct Hq|].
    destruct (valid_split _ _ _ _ V) as (F0 & Nback & _).
    pose proof (F back (in_elt _ _ _)) as Bb. apply below_iff in Bb.
    apply in_app_or in Hq. destruct Hq as [Hq|[<-|[]]]; [|congruence].
    rewrite Forall_forall in F0. destruct (F0 _ Hq) as (_ & Hle & _).
    apply nonempty_iff in Nback. destruct Bb as [Bb Bb'].
    destruct Nback as [Nback|Nback]; [congruence | key_order].
  - (* the last range is extended *)
    subst l. rewrite Forall_forall in F.
    destruct T as [O|(Hb & Ea & _)];
      [exfalso; exact (below_no_overlap _ _ (F _ Hq) O)|].
    destruct (valid_split _ _ _ _ V) as (F0 & Nback & _).
    pose proof (F back (in_elt _ _ _)) as Bb. apply below_iff in Bb.
    apply nonempty_iff in Nback. destruct Bb as [Bb Bb'].
    destruct Nback as [Nback|Nback]; [congruence|].
    apply in_app_or in Hq. destruct Hq as [Hq|[<-|[]]].
    + exfalso. rewrite Forall_forall in F0. destruct (F0 _ Hq) as (_ & Hle & _).
      key_order.
    + exists (mk_key_range (a back) (has_b range) (b range)).
      split; [apply in_elt|]. split; [apply extend_contains; auto|].
      apply contains_build; [apply KeyFacts.le_refl|].
      apply nonempty_iff in NE.
      destruct NE as [NE|NE]; [left; exact NE | right; split; [exact Bb | key_order]].
  - (* contained *)
    subst l.
    destruct T as [O|(_ & _ & Hn)];
      [|rewrite (Hn cur (in_elt _ _ _)) in C; discriminate].
    exists cur. split; [apply in_elt|]. split; [exact C|].
    destruct (valid_split _ _ _ _ V) as (_ & _ & R).
    apply in_app_or in Hq. destruct Hq as [Hq|[<-|Hq]].
    + exfalso. rewrite Forall_forall in F1.
      exact (below_no_overlap _ _ (F1 _ Hq) O).
    + apply contains_refl.
    + exfalso. destruct (has_b cur) eqn:Hc; [|subst post; destruct Hq].
      rewrite Forall_forall in R. destruct (R _ Hq) as [Hle _].
      destruct O as (k & K1 & K2).
      pose proof (contains_key _ _ _ C K2) as K3.
      apply key_in_range_iff in K1. apply key_in_range_iff in K3.
      destruct K1 as [K1 _]. destruct K3 as [_ [K3|K3]]; [congruence | key_order].
  - (* merge *)
    subst l.
    destruct (left_part_valid _ _ _ _ _ _ V F1 HL) as (_ & _ & _ & Hra & Hca).
    pose proof (right_part_covers _ _ _ _ _ _ _ _ V HR) as Cov.
    exists (mk_key_range left_key qh qb).
    split; [apply in_elt|].
    split; [apply contains_build; auto|].
    destruct (valid_split _ _ _ _ V) as (F & Nc & R).
    apply nonempty_iff in NE. apply nonempty_iff in Nc.
    apply above_iff in A.
    apply in_app_or in Hq. destruct Hq as [Hq|[<-|Hq]].
    + (* left of [cur]: only the left neighbour can touch *)
      rewrite Forall_forall in F1.
      destruct T as [O|(Hb & Ea & _)];
        [exfalso; exact (below_no_overlap _ _ (F1 _ Hq) O)|].
      destruct HL as [l0 p E Eb | HK].
      * subst l1. rewrite <- app_assoc in V. cbn [app] in V.
        destruct (valid_split _ _ _ _ V) as (F0 & Np & _).
        apply nonempty_iff in Np.
        pose proof (F1 p (in_elt _ _ _)) as Bp. apply below_iff in Bp.
        destruct Bp as [Bp _]. destruct Np as [Np|Np]; [congruence|].
        apply in_app_or in Hq. destruct Hq as [Hq|[<-|[]]].
        -- exfalso. rewrite Forall_forall in F0.
           destruct (F0 _ Hq) as (_ & Hle & _). key_order.
        -- apply contains_build; [apply KeyFacts.le_refl|].
           destruct Cov as [Cov|[Cov1 Cov2]]; [left; exact Cov | right].
           split; [exact Bp|].
           destruct NE as [NE|NE]; [congruence | key_order].
      * exfalso. destruct HK as [->|(l0 & p & -> & Np)]; [destruct Hq|].
        rewrite <- app_assoc in V. cbn [app] in V.
        destruct (valid_split _ _ _ _ V) as (F0 & Np' & _).
        apply nonempty_iff in Np'.
        pose proof (F1 p (in_elt _ _ _)) as Bp. apply below_iff in Bp.
        destruct Bp as [Bp Bp']. destruct Np' as [Np'|Np']; [congruence|].
        apply in_app_or in Hq. destruct Hq as [Hq|[<-|[]]]; [|congruence].
        rewrite Forall_forall in F0.
        destruct (F0 _ Hq) as (_ & Hle & _). key_order.
    + (* [cur] itself *)
      destruct T as [O|(Hb & Ea & _)].
      2:{ exfalso. destruct A as [A|A]; [congruence | key_order]. }
      apply overlaps_iff in O. destruct O as (k & [K1 K2] & [K3 K4]).
      apply contains_build; [exact Hca|].
      destruct HR as [ Hr | Hr Hb Hlt | Hr Hb Hle | Hr Hcb Hlt Fs
                     | p1 r1 p2 Hr Hcb Hlt Ep Fs St Hle
                     | p1 r1 p2 Hr Hcb Hlt Ep Fs Hgt ].
      * left; reflexivity.
      * exfalso. destruct K4 as [K4|K4]; [congruence | key_order].
      * destruct (has_b cur);
          [right; split; [reflexivity | apply KeyFacts.le_refl] | left; reflexivity].
      * right; split; [exact Hcb | key_order].
      * destruct (has_b r1) eqn:H1; [right | left; reflexivity].
        split; [exact Hcb|].
        destruct Cov as [Cov|[_ Cov]]; [discriminate | key_order].
      * right; split; [exact Hcb | key_order].
    + (* right of [cur] *)
      destruct (has_b cur) eqn:Hc; [|subst post; destruct Hq].
      destruct A as [A|A]; [discriminate|].
      destruct Nc as [Nc|Nc]; [discriminate|].
      pose proof R as R'. rewrite Forall_forall in R'.
      destruct (R' _ Hq) as [Hle Nq]. apply nonempty_iff in Nq.
      destruct T as [O|(Hb & Ea & _)].
      2:{ exfalso. destruct Nq as [Nq|Nq]; [congruence | key_order]. }
      apply overlaps_iff in O. destruct O as (k & [K1 K2] & [K3 K4]).
      apply contains_build; [key_order|].
      destruct HR as [ Hr | Hr Hb Hlt | Hr Hb Hle' | Hr Hcb Hlt Fs
                     | p1 r1 p2 Hr Hcb Hlt Ep Fs St Hle'
                     | p1 r1 p2 Hr Hcb Hlt Ep Fs Hgt ].
      * left; reflexivity.
      * exfalso. destruct K4 as [K4|K4]; [congruence | key_order].
      * exfalso. destruct Hb as [Hb|Hb]; [congruence|].
        destruct K4 as [K4|K4]; [congruence | key_order].
      * rewrite Forall_forall in Fs. destruct (Fs _ Hq) as (S1 & S2 & S3).
        right; split; [exact S2 | key_order].
      * subst post.
        replace (l1 ++ cur :: p1 ++ r1 :: p2) with ((l1 ++ cur :: p1) ++ r1 :: p2) in V
          by (rewrite <- app_assoc; reflexivity).
        destruct (valid_split _ _ _ _ V) as (_ & N1 & R1).
        apply nonempty_iff in N1.
        apply in_app_or in Hq. destruct Hq as [Hq|[<-|Hq]].
        -- rewrite Forall_forall in Fs. destruct (Fs _ Hq) as (S1 & S2 & S3).
           destruct (has_b r1) eqn:H1; [right | left; reflexivity].
           split; [exact S2|].
           destruct Cov as [Cov|[_ Cov]]; [discriminate | key_order].
        -- destruct (has_b r1);
             [right; split; [reflexivity | apply KeyFacts.le_refl] | left; reflexivity].
        -- exfalso. destruct (has_b r1) eqn:H1; [|subst p2; destruct Hq].
           rewrite Forall_forall in R1. destruct (R1 _ Hq) as [Hle1 _].
           destruct N1 as [N1|N1]; [discriminate|].
           destruct K4 as [K4|K4]; [congruence|].
           destruct St as [St|[St|St]]; [key_order | congruence | key_order].
      * subst post.
        replace (l1 ++ cur :: p1 ++ r1 :: p2) with ((l1 ++ cur :: p1) ++ r1 :: p2) in V
          by (rewrite <- app_assoc; reflexivity).
        destruct (valid_split _ _ _ _ V) as (_ & N1 & R1).
        apply nonempty_iff in N1.
        destruct K4 as [K4|K4]; [congruence|].
        apply in_app_or in Hq. destruct Hq as [Hq|[<-|Hq]].
        -- rewrite Forall_forall in Fs. destruct (Fs _ Hq) as (S1 & S2 & S3).
           right; split; [exact S2 | key_order].
        -- exfalso. key_order.
        -- exfalso. destruct (has_b r1) eqn:H1; [|subst p2; destruct Hq].
           rewrite Forall_forall in R1. destruct (R1 _ Hq) as [Hle1 _].
           destruct N1 as [N1|N1]; [discriminate | key_order].
Qed.

Lemma add_absent_range_merged range l q' :
  valid_range_set l = true -> is_empty_range range = false ->
  In q' l -> touches l range q' ->
  exists q, In q (add_absent_range range l) /\
            contains q range = true /\ contains q q' = true.
Proof.
  intros V NE Hq T. eapply add_cases_merged; eauto.
  eapply add_absent_range_cases; exact V.
Qed.

(** ** An open-ended range subsumes what lies to its right *)

Lemma contains_open lk qb x :
  Key.le lk (a x) -> contains (mk_key_range lk false qb) x = true.
Proof. intros H. apply contains_build; [exact H | left; reflexivity]. Qed.

Lemma add_cases_open range l l' :
  valid_range_set l = true -> has_b range = false ->
  add_cases range l l' ->
  exists pre rest q,
    l = pre ++ rest /\ l' = pre ++ [q] /\
    has_b q = false /\ Key.le (a q) (a range) /\
    Forall (fun x => contains q x = true) rest.
Proof.
  intros V Hr H. unfold valid_range_set in V.
  destruct H as [ NE' | _ F HB | l0 back _ E F Eb | l1 cur post _ E F1 A C
                | l1 cur post new_set left_key qh qb post' _ E F1 A C HL HR ].
  - unfold is_empty_range in NE'. rewrite Hr in NE'. discriminate.
  - exists l, [], range. rewrite app_nil_r.
    repeat split; auto using KeyFacts.le_refl.
  - exists l0, [back], (mk_key_range (a back) (has_b range) (b range)).
    rewrite Hr. cbn [a has_b]. subst l.
    destruct (valid_split _ _ _ _ V) as (_ & Nb & _).
    apply Forall_app in F. destruct F as [_ Fb].
    inversion Fb as [|? ? Bb _]; subst. apply below_iff in Bb.
    destruct Bb as [Bb _]. apply nonempty_iff in Nb.
    destruct Nb as [Nb|Nb]; [congruence|].
    repeat split; auto; [key_order|].
    constructor; [|constructor]. apply contains_open. apply KeyFacts.le_refl.
  - subst l. apply contains_iff in C. destruct C as [C1 [C2|[C2 _]]]; [|congruence].
    destruct (valid_split _ _ _ _ V) as (_ & _ & R).
    rewrite C2 in R. subst post.
    exists l1, [cur], cur. repeat split; auto.
    constructor; [apply contains_refl | constructor].
  - subst l.
    destruct (left_part_valid _ _ _ _ _ _ V F1 HL) as (_ & _ & _ & Hra & Hca).
    apply valid_from_app_iff in V. destruct V as (V1 & _ & V2).
    pose proof (valid_from_Forall _ _ (valid_from_tail _ _ _ V2)) as Fp.
    assert (Fc : Forall (fun x => Key.le (a cur) (a x)) (cur :: post)).
    { constructor; [apply KeyFacts.le_refl|].
      eapply Forall_impl; [|exact Fp]. cbn beta. tauto. }
    destruct HR as [ _ | Hr' _ _ | Hr' _ _ | Hr' _ _ _
                   | p1 r1 p2 Hr' _ _ _ _ _ _
                   | p1 r1 p2 Hr' _ _ _ _ _ ]; try congruence.
    destruct HL as [l0 p E Eb | HK].
    + subst l1. exists l0, (p :: cur :: post), (mk_key_range (a p) false EmptyString).
      cbn [a has_b]. rewrite <- app_assoc. repeat split; auto.
      constructor; [apply contains_open; apply KeyFacts.le_refl|].
      eapply Forall_impl; [|exact Fc]. cbn beta.
      intros x Hx. apply contains_open. key_order.
    + exists l1, (cur :: post),
        (mk_key_range (Key.min (a cur) (a range)) false EmptyString).
      cbn [a has_b]. repeat split; auto.
      eapply Forall_impl; [|exact Fc]. cbn beta.
      intros x Hx. apply contains_open. key_order.
Qed.

Lemma add_absent_range_empty range l :
  is_empty_range range = true -> add_absent_range range l = l.
Proof. intros H. unfold add_absent_range. rewrite H. reflexivity. Qed.

(** ** The claims on absent ranges *)

(** C10.  On a set that is sorted by lower bound and pairwise
    non-overlapping, [key_in_absent_set] answers true exactly when some
    range of the set holds the key, although it looks at the one range
    [upper_bound] points to. *)
Theorem key_in_absent_set_iff_some_range :
  forall (l : absent_range_vec) (k : Key.string_type),
    sorted_disjoint l ->
    key_in_absent_set l k = true <->
    exists q, In q l /\ key_in_range q k = true.
Proof.
  intros l k H. apply key_in_absent_set_correct.
  apply sorted_disjoint_iff. exact H.
Qed.

Lemma key_in_absent_set_iff_some_range_witness :
  sorted_disjoint
    [key_range_bounded (digit_key 0) (digit_key 3);
     key_range_bounded (digit_key 5) (digit_key 8)] /\
  (key_in_absent_set
     [key_range_bounded (digit_key 0) (digit_key 3);
      key_range_bounded (digit_key 5) (digit_key 8)] (digit_key 6) = true <->
   exists q,
     In q [key_range_bounded (digit_key 0) (digit_key 3);
           key_range_bounded (digit_key 5) (digit_key 8)] /\
     key_in_range q (digit_key 6) = true).
Proof.
  assert (H : sorted_disjoint
                [key_range_bounded (digit_key 0) (digit_key 3);
                 key_range_bounded (digit_key 5) (digit_key 8)])
    by (apply sorted_disjoint_iff; vm_compute; reflexivity).
  split; [exact H|].
  exact (key_in_absent_set_iff_some_range _ (digit_key 6) H).
Defined.


(** C7.  On a set that is sorted by lower bound and pairwise
    non-overlapping, adding a range a second time changes nothing; and
    adding [0,5) and then [3,8) to the empty set gives the one range
    [0,8). *)
Theorem add_absent_range_twice :
  (forall (l : absent_range_vec) (range : key_range_t),
     sorted_disjoint l ->
     add_absent_range range (add_absent_range range l) =
     add_absent_range range l) /\
  add_absent_range (key_range_bounded (digit_key 3) (digit_key 8))
    (add_absent_range (key_range_bounded (digit_key 0) (digit_key 5)) [])
  = [key_range_bounded (digit_key 0) (digit_key 8)].
Proof.
  split; [|vm_compute; reflexivity].
  intros l range H. apply add_absent_range_idempotent.
  apply sorted_disjoint_iff. exact H.
Qed.

Lemma add_absent_range_twice_witness :
  sorted_disjoint [key_range_bounded (digit_key 0) (digit_key 5)] /\
  add_absent_range (key_range_bounded (digit_key 3) (digit_key 8))
    (add_absent_range (key_range_bounded (digit_key 3) (digit_key 8))
       [key_range_bounded (digit_key 0) (digit_key 5)]) =
  add_absent_range (key_range_bounded (digit_key 3) (digit_key 8))
    [key_range_bounded (digit_key 0) (digit_key 5)].
Proof.
  assert (H : sorted_disjoint [key_range_bounded (digit_key 0) (digit_key 5)])
    by (apply sorted_disjoint_iff; vm_compute; reflexivity).
  split; [exact H|].
  exact (proj1 add_absent_range_twice _
           (key_range_bounded (digit_key 3) (digit_key 8)) H).
Defined.

(** ** The transaction state machine *)

(** C9.  [abort_impl] leaves an aborted transaction as it is, stored
    reason included; on a committed transaction it throws
    [transaction_unusable_exception]; an embryo or active transaction
    becomes aborted and records the reason given. *)
Theorem abort_impl_by_state :
  forall (why why0 : abort_reason) (fl : Z) (m : ctx_map_type),
    abort_impl why (mk_transaction TXN_ABRT why0 fl m)
      = inl (mk_transaction TXN_ABRT why0 fl m) /\
    abort_impl why (mk_transaction TXN_COMMITED why0 fl m)
      = inr transaction_unusable_exception /\
    abort_impl why (mk_transaction TXN_EMBRYO why0 fl m)
      = inl (mk_transaction TXN_ABRT why fl m) /\
    abort_impl why (mk_transaction TXN_ACTIVE why0 fl m)
      = inl (mk_transaction TXN_ABRT why fl m).
Proof. intros; repeat split; reflexivity. Qed.

Section CommitFacts.

Context {W : Type} {PR : Protocol W} {ST : Storage W}.

Notation "x <- m ;; k" := (bind m (fun x => k))
  (at level 61, m at next level, right associativity).
Notation "m ;;; k" := (bind m (fun _ => k))
  (at level 61, right associativity).

(** C8.  [commit] on a committed transaction returns true whatever
    [doThrow] is; on an aborted one it returns false, or throws the abort
    exception with the stored reason when [doThrow] is set.  Either way
    the transaction and the world are left as they were, and nothing is
    called. *)
Theorem commit_on_terminal_state :
  forall (fuel : nat) (doThrow : bool) (why : abort_reason) (fl : Z)
         (m : ctx_map_type) (w : W),
    commit fuel doThrow (mk_transaction TXN_COMMITED why fl m) w
      = (Returned true,
         mk_frame (mk_transaction TXN_COMMITED why fl m) [] (false, 0%Z) w []) /\
    commit fuel false (mk_transaction TXN_ABRT why fl m) w
      = (Returned false,
         mk_frame (mk_transaction TXN_ABRT why fl m) [] (false, 0%Z) w []) /\
    commit fuel true (mk_transaction TXN_ABRT why fl m) w
      = (Threw (transaction_abort_exception why),
         mk_frame (mk_transaction TXN_ABRT why fl m) [] (false, 0%Z) w []).
Proof. intros; repeat split; reflexivity. Qed.

(** *** Sequencing *)

Lemma bind_ok {A B : Type} (m : @M W A) (k : A -> @M W B) f x f1 :
  m f = (Ok x, f1) -> bind m k f = k x f1.
Proof. intros H; unfold bind; rewrite H; reflexivity. Qed.

Lemma bind_jump {A B : Type} (m : @M W A) (k : A -> @M W B) f f1 :
  m f = (Jump, f1) -> bind m k f = (Jump, f1).
Proof. intros H; unfold bind; rewrite H; reflexivity. Qed.

Lemma bind_cut {A B : Type} (m : @M W A) (k : A -> @M W B) f f1 :
  m f = (OutOfFuel, f1) -> bind m k f = (OutOfFuel, f1).
Proof. intros H; unfold bind; rewrite H; reflexivity. Qed.

Lemma for_each_app {A : Type} (l1 l2 : list A) (body : A -> @M W unit) :
  forall f, for_each (l1 ++ l2) body f
            = (for_each l1 body ;;; for_each l2 body) f.
Proof.
  induction l1 as [|x l1 IH]; intros f; cbn [for_each app].
  - reflexivity.
  - unfold bind in *. destruct (body x f) as [[[]| |] f1]; auto.
Qed.

(** *** The abort path *)

Lemma unlock_all_frame (l : dbtuple_vec) :
  forall f,
    fst (for_each l unlock_if_locked f) = Ok tt /\
    txn (snd (for_each l unlock_if_locked f)) = txn f /\
    dbtuples (snd (for_each l unlock_if_locked f)) = dbtuples f /\
    commit_tid (snd (for_each l unlock_if_locked f)) = commit_tid f /\
    trace (snd (for_each l unlock_if_locked f))
      = trace f ++ map (fun e => EvUnlock (fst e))
                     (filter (fun e => locked (snd e)) l).
Proof.
  induction l as [|e l IH]; intros f; cbn [for_each filter].
  - cbn. rewrite app_nil_r. auto.
  - unfold bind, unlock_if_locked at 1 3 5 7 9.
    destruct (locked (snd e)); cbn [call_ ret map].
    + destruct (IH (mk_frame (txn f) (dbtuples f) (commit_tid f)
                      (tuple_unlock (fst e) (world f))
                      (trace f ++ [EvUnlock (fst e)]))) as (H1 & H2 & H3 & H4 & H5).
      cbn [txn dbtuples commit_tid trace] in *.
      rewrite H5, <- app_assoc. auto.
    + apply IH.
Qed.

Lemma do_abort_frame (f : frame W) :
  state (txn (do_abort f)) = TXN_ABRT /\
  reason (txn (do_abort f)) = reason (txn f) /\
  flags (txn (do_abort f)) = flags (txn f) /\
  ctx_map (txn (do_abort f)) = ctx_map (txn f) /\
  trace (do_abort f)
    = trace f ++ map (fun e => EvUnlock (fst e))
                   (filter (fun e => locked (snd e)) (dbtuples f))
        ++ (if fst (commit_tid f) then [EvOnTidFinish (snd (commit_tid f))] else []).
Proof.
  unfold do_abort.
  destruct (unlock_all_frame (dbtuples f) f) as (_ & H2 & H3 & H4 & H5).
  cbv zeta. cbn [commit_tid]. rewrite H4.
  destruct (fst (commit_tid f)); cbn [call_ snd txn state reason flags ctx_map trace];
    rewrite ?H2, ?H5, ?H4, ?app_nil_r, <- ?app_assoc; auto.
Qed.

(** A jump anywhere in the body makes [commit] abort with the reason
    that was stored before the jump. *)
Lemma commit_jump fuel doThrow tx w f :
  state tx = TXN_EMBRYO \/ state tx = TXN_ACTIVE ->
  commit_body fuel (commit_begin tx w) = (Jump, f) ->
  commit fuel doThrow tx w = (aborted doThrow (reason (txn f)), do_abort f) /\
  state (txn (do_abort f)) = TXN_ABRT /\
  reason (txn (do_abort f)) = reason (txn f).
Proof.
  intros Hs Hb. destruct (do_abort_frame f) as (H1 & H2 & _).
  unfold commit. rewrite Hb, H2.
  destruct Hs as [-> | ->]; auto.
Qed.

End CommitFacts.

(** Running a piece of [commit] inside a hypothesis. *)
Ltac mrun_in H :=
  repeat (
    unfold bind, call, call_, ret, abort_goto, get_txn, get_dbtuples,
      set_dbtuples, set_commit_tid, set_ctx_map in H;
    cbv zeta in H;
    cbn [txn dbtuples commit_tid world trace fst snd] in H).

Ltac mdone H := injection H as <- <-; cbn [txn dbtuples commit_tid world trace state reason flags ctx_map].

(** ** Phase B: the write locks *)

Section LockPhase.

Context {W : Type} {PR : Protocol W} {ST : Storage W}.

Notation "x <- m ;; k" := (bind m (fun x => k))
  (at level 61, m at next level, right associativity).
Notation "m ;;; k" := (bind m (fun _ => k))
  (at level 61, right associativity).

Lemma lock_nodes_run (todo : dbtuple_vec) :
  forall (done : dbtuple_vec) (f : frame W) res f',
    dbtuples f = done ++ todo ->
    lock_nodes done todo f = (res, f') ->
    exists evs ab,
      lock_run (map fst (filter unlocked todo)) evs ab /\
      trace f' = trace f ++ evs /\
      flags (txn f') = flags (txn f) /\
      state (txn f') = state (txn f) /\
      ctx_map (txn f') = ctx_map (txn f) /\
      commit_tid f' = commit_tid f /\
      (if ab
       then res = Jump /\
            reason (txn f') = ABORT_REASON_WRITE_NODE_INTERFERENCE
       else res = Ok tt /\ txn f' = txn f /\
            dbtuples f' = done ++ lock_all todo).
Proof.
  induction todo as [|e rest IH]; intros done f res f' Hd H.
  - exists [], false. cbn in H. mdone H. rewrite app_nil_r.
    repeat split; auto using lock_run_nil.
  - cbn [lock_nodes filter lock_all map] in *. unfold unlocked at 1.
    destruct (locked (snd e)) eqn:L; cbn [negb].
    + destruct (IH (done ++ [e]) f res f') as (evs & ab & H').
      { rewrite Hd, <- app_assoc. reflexivity. }
      { exact H. }
      exists evs, ab. rewrite <- app_assoc in H'. exact H'.
    + unfold write_interference in H. mrun_in H.
      destruct (tuple_lock (fst e) true (world f)) as [v w1] eqn:E1.
      cbn [fst snd] in H.
      destruct (IsDeleting v || negb (IsLatest v)) eqn:Hh; mrun_in H.
      * mdone H. eexists; exists true.
        split; [apply lock_run_header; exact Hh|].
        repeat split; auto.
      * destruct (tuple_version (fst e) w1) as [tid w2] eqn:E2.
        cbn [fst snd] in H.
        destruct (can_read_tid tid w2) as [ok w3] eqn:E3.
        cbn [fst snd] in H.
        destruct ok; cbn [negb] in H.
        -- apply IH in H; [|cbn; rewrite <- app_assoc; reflexivity].
           destruct H as (evs & ab & H1 & H2 & H3 & H4 & H5 & H6 & H7).
           cbn [trace txn commit_tid] in *.
           eexists; exists ab.
           split; [apply lock_run_ok; [exact Hh | exact H1]|].
           split; [rewrite H2, <- !app_assoc; reflexivity|].
           repeat (split; [assumption|]).
           destruct ab; [exact H7|].
           destruct H7 as (H7 & H8 & H9). repeat split; auto.
           rewrite H9, <- app_assoc. reflexivity.
        -- mdone H. eexists; exists true.
           split; [apply lock_run_tid; exact Hh|].
           rewrite <- !app_assoc. repeat split; auto.
Qed.


Lemma lock_all_locked v : Forall (fun e => locked (snd e) = true) (lock_all v).
Proof.
  induction v as [|e v IH]; cbn [lock_all map]; constructor; auto.
  destruct (locked (snd e)) eqn:L; [exact L | reflexivity].
Qed.

Lemma std_sort_sorted v :
  StronglySorted (fun x y => (fst x <= fst y)%Z) (std_sort v) /\
  Permutation v (std_sort v).
Proof.
  split; [|apply LNodeSort.Permuted_sort].
  assert (T : Transitive (fun x y => is_true (LNodeComp.leb x y))).
  { intros x y z; unfold LNodeComp.leb, is_true.
    rewrite !Z.leb_le. lia. }
  pose proof (LNodeSort.StronglySorted_sort v T) as H.
  unfold std_sort. induction H as [|x l H IH F]; constructor; auto.
  eapply Forall_impl; [|exact F]. cbn beta.
  unfold LNodeComp.leb, is_true. intros y; rewrite Z.leb_le; auto.
Qed.

(** The body of [commit] once the snapshot is taken and the writes are
    resolved. *)
Lemma commit_body_after fuel f0 f :
  (call consistent_snapshot_tid EvConsistentSnapshotTid ;;;
   find_write_nodes fuel) f0 = (Ok tt, f) ->
  commit_body fuel f0
  = commit_after_find (fst (consistent_snapshot_tid (world f0))) f.
Proof.
  unfold commit_body, bind at 1 2 3, call. cbv zeta. cbn [fst snd].
  destruct (find_write_nodes fuel _) as [[[]| |] f1]; intros H;
    inversion H; subst; reflexivity.
Qed.

Lemma commit_after_find_locks snap f :
  dbtuples f <> [] ->
  commit_after_find snap f
  = (lock_write_nodes ;;; read_validation ;;;
     v' <- get_dbtuples ;;
     if negb (vec_empty v') then write_records else ret tt) f.
Proof.
  intros H. unfold commit_after_find, bind at 1, get_dbtuples at 1.
  destruct (dbtuples f) as [|e v]; [congruence|].
  cbn [vec_empty negb]. rewrite orb_true_r. reflexivity.
Qed.

(** C2.  When Phase A leaves tuples to write, the lock phase works on
    the vector sorted by tuple address: it locks the tuples Phase A has
    not locked, in that order, and stops with
    [ABORT_REASON_WRITE_NODE_INTERFERENCE] at the first tuple whose header
    word shows DELETING or lacks LATEST, or whose tid [can_read_tid]
    rejects; [commit] then aborts with that reason.  When no tuple
    interferes, every tuple ends up locked and the commit tid is
    generated. *)
Theorem lock_write_nodes_in_pointer_order :
  forall (f : frame W) (res : outcome unit) (f' : frame W),
    dbtuples f <> [] ->
    lock_write_nodes f = (res, f') ->
    StronglySorted (fun x y => (fst x <= fst y)%Z) (std_sort (dbtuples f)) /\
    Permutation (dbtuples f) (std_sort (dbtuples f)) /\
    exists evs ab,
      lock_run (map fst (filter unlocked (std_sort (dbtuples f)))) evs ab /\
      (if ab
       then res = Jump /\ trace f' = trace f ++ evs /\
            reason (txn f') = ABORT_REASON_WRITE_NODE_INTERFERENCE
       else res = Ok tt /\ txn f' = txn f /\
            dbtuples f' = lock_all (std_sort (dbtuples f)) /\
            Forall (fun e => locked (snd e) = true) (dbtuples f') /\
            exists tid,
              commit_tid f' = (true, tid) /\
              trace f' = trace f ++ evs ++ [EvGenCommitTid (dbtuples f') tid]) /\
      (ab = true ->
       forall fuel doThrow tx w,
         state tx = TXN_EMBRYO \/ state tx = TXN_ACTIVE ->
         (call consistent_snapshot_tid EvConsistentSnapshotTid ;;;
          find_write_nodes fuel) (commit_begin tx w) = (Ok tt, f) ->
         fst (commit fuel doThrow tx w)
           = aborted doThrow ABORT_REASON_WRITE_NODE_INTERFERENCE /\
         state (txn (snd (commit fuel doThrow tx w))) = TXN_ABRT /\
         reason (txn (snd (commit fuel doThrow tx w)))
           = ABORT_REASON_WRITE_NODE_INTERFERENCE).
Proof.
  intros f res f' Hne H.
  destruct (std_sort_sorted (dbtuples f)) as [Hs Hp].
  split; [exact Hs|]. split; [exact Hp|].
  pose proof H as H0.
  unfold lock_write_nodes in H.
  unfold bind at 1 2, get_dbtuples at 1, set_dbtuples at 1 in H.
  cbn [txn dbtuples commit_tid world trace] in H.
  unfold bind at 1 in H.
  destruct (lock_nodes [] (std_sort (dbtuples f)) _) as [r1 f1] eqn:E.
  apply lock_nodes_run in E; [|reflexivity].
  destruct E as (evs & ab & H1 & H2 & H3 & H4 & H5 & H6 & H7).
  cbn [txn dbtuples commit_tid world trace] in *.
  exists evs, ab. split; [exact H1|].
  destruct ab.
  - destruct H7 as [-> H7]. injection H as <- <-.
    split; [auto|]. intros _ fuel doThrow tx w Hst Hpre.
    pose proof (commit_body_after _ _ _ Hpre) as Hb.
    rewrite (commit_after_find_locks _ _ Hne) in Hb.
    rewrite (bind_jump _ _ _ _ H0) in Hb.
    destruct (commit_jump fuel doThrow tx w f1 Hst Hb) as (C1 & C2 & C3).
    rewrite C1. cbn [fst snd]. rewrite C2, C3, H7. auto.
  - destruct H7 as (-> & Ht & Hd).
    mrun_in H. injection H as <- <-.
    cbn [txn dbtuples commit_tid world trace].
    split; [|discriminate].
    split; [reflexivity|]. split; [exact Ht|]. split; [exact Hd|].
    split; [rewrite Hd; apply lock_all_locked|].
    eexists. split; [reflexivity|].
    rewrite H2, <- app_assoc. reflexivity.
Qed.

End LockPhase.

(** ** Phase C: the read set and the absent set *)

Section Validation.

Context {W : Type} {PR : Protocol W} {ST : Storage W}.

Notation "x <- m ;; k" := (bind m (fun x => k))
  (at level 61, m at next level, right associativity).
Notation "m ;;; k" := (bind m (fun _ => k))
  (at level 61, right associativity).

Lemma validate_read_set_run (rs : read_set_map) :
  forall (f : frame W) res f',
    validate_read_set rs f = (res, f') ->
    exists evs ab,
      read_run rs evs ab /\ trace f' = trace f ++ evs /\
      validated ABORT_REASON_READ_NODE_INTEREFERENCE ab f res f'.
Proof.
  unfold validate_read_set.
  induction rs as [|e rs IH]; intros f res f' H; cbn [for_each] in H.
  - mrun_in H. injection H as <- <-. exists [], false.
    rewrite app_nil_r. unfold validated. repeat split; auto using read_run_nil.
  - unfold bind at 1 2, read_check at 1 in H.
    assert (E : exists ok w,
               (if holds_lock (snd e)
                then call (is_latest_version (fst e) (t (snd e)))
                       (EvIsLatestVersion (fst e) (t (snd e)))
                else call (stable_is_latest_version (fst e) (t (snd e)))
                       (EvStableIsLatestVersion (fst e) (t (snd e)))) f
               = (Ok ok, mk_frame (txn f) (dbtuples f) (commit_tid f) w
                           (trace f ++ [read_check_event e ok]))).
    { unfold read_check_event. destruct (holds_lock (snd e)); unfold call;
        cbv zeta; eexists; eexists; reflexivity. }
    destruct E as (ok & w & E). rewrite E in H.
    destruct ok.
    + mrun_in H. apply IH in H.
      destruct H as (evs & ab & H1 & H2 & H3).
      cbn [txn dbtuples commit_tid world trace] in *.
      exists (read_check_event e true :: evs), ab.
      split; [apply read_run_ok; exact H1|].
      split; [rewrite H2, <- app_assoc; reflexivity | exact H3].
    + mrun_in H. injection H as <- <-.
      exists [read_check_event e false], true.
      split; [apply read_run_fail|].
      unfold validated. cbn. repeat split; auto.
Qed.

Lemma absent_check_run tree (e : Key.string_type * absent_record_t) :
  forall (f : frame W) res f',
    absent_check tree e f = (res, f') ->
    exists evs ab,
      trace f' = trace f ++ evs /\
      validated ABORT_REASON_READ_ABSENCE_INTEREFERENCE ab f res f' /\
      forall abs evs' ab',
        (ab = false -> absent_run tree abs evs' ab') ->
        absent_run tree (e :: abs) (evs ++ (if ab then [] else evs'))
          (if ab then true else ab').
Proof.
  intros f res f' H. unfold absent_check in H.
  destruct (type (snd e)) eqn:T.
  - (* READ *)
    mrun_in H.
    destruct (btree_search tree (fst e) (world f)) as [[v|] w1] eqn:E1;
      cbn [fst snd] in H; mrun_in H.
    + destruct (stable_latest_value_is_nil v w1) as [nil w2] eqn:E2.
      cbn [fst snd] in H. destruct nil; mrun_in H; injection H as <- <-.
      * eexists; exists false. cbn [trace]. rewrite <- app_assoc.
        split; [reflexivity|]. split; [unfold validated; cbn; repeat split; auto|].
        intros abs evs' ab' Hr. cbn [app]. apply absent_run_hit; auto.
      * eexists; exists true. cbn [trace]. rewrite <- app_assoc.
        split; [reflexivity|]. split; [unfold validated; cbn; repeat split; auto|].
        intros abs evs' ab' Hr. cbn [app]. apply absent_run_hit_fail; auto.
    + injection H as <- <-. eexists; exists false. cbn [trace].
      split; [reflexivity|]. split; [unfold validated; cbn; repeat split; auto|].
      intros abs evs' ab' Hr. cbn [app]. apply absent_run_miss; auto.
  - (* WRITE *)
    mrun_in H.
    destruct (latest_value_is_nil (tuple (snd e)) (world f)) as [nil w1] eqn:E1.
    cbn [fst snd] in H. destruct nil; mrun_in H; injection H as <- <-.
    + eexists; exists false. cbn [trace].
      split; [reflexivity|]. split; [unfold validated; cbn; repeat split; auto|].
      intros abs evs' ab' Hr. cbn [app]. apply absent_run_write; auto.
    + eexists; exists true. cbn [trace].
      split; [reflexivity|]. split; [unfold validated; cbn; repeat split; auto|].
      intros abs evs' ab' Hr. cbn [app]. apply absent_run_write_fail; auto.
  - (* INSERT *)
    mrun_in H. injection H as <- <-. exists [], false. rewrite app_nil_r.
    split; [reflexivity|]. split; [unfold validated; repeat split; auto|].
    intros abs evs' ab' Hr. cbn [app]. apply absent_run_insert; auto.
Qed.

Lemma validate_absent_set_run tree (abs : absent_set_map) :
  forall (f : frame W) res f',
    validate_absent_set tree abs f = (res, f') ->
    exists evs ab,
      absent_run tree abs evs ab /\ trace f' = trace f ++ evs /\
      validated ABORT_REASON_READ_ABSENCE_INTEREFERENCE ab f res f'.
Proof.
  unfold validate_absent_set.
  induction abs as [|e abs IH]; intros f res f' H; cbn [for_each] in H.
  - mrun_in H. injection H as <- <-. exists [], false.
    rewrite app_nil_r. unfold validated. repeat split; auto using absent_run_nil.
  - unfold bind at 1 in H.
    destruct (absent_check tree e f) as [r1 f1] eqn:E.
    apply absent_check_run in E.
    destruct E as (evs1 & ab1 & H1 & H2 & H3).
    destruct ab1.
    + destruct H2 as (D1 & D2 & D3 & D4 & D5 & -> & D6).
      injection H as <- <-.
      exists evs1, true. split.
      * specialize (H3 abs [] false). rewrite app_nil_r in H3.
        apply H3. discriminate.
      * split; [exact H1|]. unfold validated. repeat split; auto.
    + destruct H2 as (D1 & D2 & D3 & D4 & D5 & -> & D6).
      apply IH in H. destruct H as (evs & ab & R1 & R2 & R3).
      exists (evs1 ++ evs), ab. split.
      * specialize (H3 abs evs ab). apply H3. intros _; exact R1.
      * split; [rewrite R2, H1, <- app_assoc; reflexivity|].
        unfold validated in *.
        destruct R3 as (E1 & E2 & E3 & E4 & E5 & E6).
        rewrite E1, E2, E3, E4, E5, D1, D2, D6.
        repeat split; auto.
        destruct ab; [exact E6|]. destruct E6 as [E6 E7].
        split; [exact E6 | rewrite E7; exact D6].
Qed.

End Validation.

(** ** Which calls decide the abort reason *)

Section Tracking.

Context {W : Type} {PR : Protocol W} {ST : Storage W}.

Notation "x <- m ;; k" := (bind m (fun x => k))
  (at level 61, m at next level, right associativity).
Notation "m ;;; k" := (bind m (fun _ => k))
  (at level 61, right associativity).

Variable bad : event -> bool.
Variable why : abort_reason.

Hypothesis bad_checks : forall ev, bad ev = true -> validation_check ev = true.
Hypothesis why_not_write : why <> ABORT_REASON_WRITE_NODE_INTERFERENCE.
Hypothesis why_not_scan : why <> ABORT_REASON_NODE_SCAN_READ_VERSION_CHANGED.

Lemma bad_false ev : validation_check ev = false -> bad ev = false.
Proof.
  intros H. destruct (bad ev) eqn:E; [|reflexivity].
  apply bad_checks in E. congruence.
Qed.

Lemma quiet_tracks {A} (m : @M W A) : quiet bad why m -> tracks bad why m.
Proof.
  intros Q f res f' H. destruct (Q f res f' H) as (evs & H1 & H2 & H3).
  exists evs. split; [exact H1|].
  destruct res; auto. rewrite H2. split; [|discriminate].
  intros E. exfalso. exact (H3 eq_refl E).
Qed.

Lemma quiet_silent {A} (m : @M W A) :
  (forall f, exists x f', m f = (Ok x, f') /\ trace f' = trace f) ->
  quiet bad why m.
Proof.
  intros S f res f' H. destruct (S f) as (x & f1 & E & T).
  rewrite E in H. injection H as <- <-.
  exists []. rewrite app_nil_r. repeat split; auto. discriminate.
Qed.

Lemma quiet_ret {A} (x : A) : quiet bad why (ret x : @M W A).
Proof. apply quiet_silent. intros f; exists x, f; auto. Qed.

Lemma quiet_call {A} (op : W -> A * W) (ev : A -> event) :
  (forall x, validation_check (ev x) = false) -> quiet bad why (call op ev).
Proof.
  intros Hev f res f' H. unfold call in H. cbv zeta in H.
  injection H as <- <-. eexists. cbn [trace]. split; [reflexivity|].
  cbn [existsb]. rewrite (bad_false _ (Hev _)). split; [reflexivity | discriminate].
Qed.

Lemma quiet_call_ (op : W -> W) (ev : event) :
  validation_check ev = false -> quiet bad why (call_ op ev).
Proof.
  intros Hev f res f' H. unfold call_ in H.
  injection H as <- <-. eexists. cbn [trace]. split; [reflexivity|].
  cbn [existsb]. rewrite (bad_false _ Hev). split; [reflexivity | discriminate].
Qed.

Lemma quiet_abort_goto {A} (why' : abort_reason) :
  why <> why' -> quiet bad why (abort_goto why' : @M W A).
Proof.
  intros N f res f' H. unfold abort_goto in H. injection H as <- <-.
  exists []. rewrite app_nil_r. cbn. repeat split; auto.
Qed.

Lemma tracks_bind {A B} (m : @M W A) (k : A -> @M W B) :
  tracks bad why m -> (forall x, tracks bad why (k x)) ->
  tracks bad why (bind m k).
Proof.
  intros Tm Tk f res f' H. unfold bind in H.
  destruct (m f) as [r1 f1] eqn:E. destruct (Tm f r1 f1 E) as (evs1 & H1 & H2).
  destruct r1 as [x| |].
  - destruct (Tk x f1 res f' H) as (evs2 & H3 & H4).
    exists (evs1 ++ evs2). split; [rewrite H3, H1, app_assoc; reflexivity|].
    rewrite existsb_app, H2. exact H4.
  - injection H as <- <-. exists evs1. auto.
  - injection H as <- <-. exists evs1. auto.
Qed.

Lemma quiet_bind {A B} (m : @M W A) (k : A -> @M W B) :
  quiet bad why m -> (forall x, quiet bad why (k x)) ->
  quiet bad why (bind m k).
Proof.
  intros Tm Tk f res f' H. unfold bind in H.
  destruct (m f) as [r1 f1] eqn:E.
  destruct (Tm f r1 f1 E) as (evs1 & H1 & H2 & H2').
  destruct r1 as [x| |].
  - destruct (Tk x f1 res f' H) as (evs2 & H3 & H4 & H5).
    exists (evs1 ++ evs2). split; [rewrite H3, H1, app_assoc; reflexivity|].
    rewrite existsb_app, H2. auto.
  - injection H as <- <-. exists evs1. auto.
  - injection H as <- <-. exists evs1. repeat split; auto. discriminate.
Qed.

Lemma tracks_for_each {A} (l : list A) (body : A -> @M W unit) :
  (forall x, tracks bad why (body x)) -> tracks bad why (for_each l body).
Proof.
  intros Tb. induction l as [|x l IH]; cbn [for_each].
  - apply quiet_tracks, quiet_ret.
  - apply tracks_bind; auto.
Qed.

Lemma quiet_for_each {A} (l : list A) (body : A -> @M W unit) :
  (forall x, quiet bad why (body x)) -> quiet bad why (for_each l body).
Proof.
  intros Tb. induction l as [|x l IH]; cbn [for_each].
  - apply quiet_ret.
  - apply quiet_bind; auto.
Qed.

Lemma quiet_get_txn : quiet bad why (get_txn : @M W _).
Proof. apply quiet_silent. intros f; eexists; eexists; split; reflexivity. Qed.

Lemma quiet_get_dbtuples : quiet bad why (get_dbtuples : @M W _).
Proof. apply quiet_silent. intros f; eexists; eexists; split; reflexivity. Qed.

Lemma quiet_set_dbtuples v : quiet bad why (set_dbtuples v : @M W _).
Proof. apply quiet_silent. intros f; eexists; eexists; split; reflexivity. Qed.

Lemma quiet_set_commit_tid c : quiet bad why (set_commit_tid c : @M W _).
Proof. apply quiet_silent. intros f; eexists; eexists; split; reflexivity. Qed.

Lemma quiet_set_ctx_map c : quiet bad why (set_ctx_map c : @M W _).
Proof. apply quiet_silent. intros f; eexists; eexists; split; reflexivity. Qed.

Ltac quiet_step :=
  first
    [ apply quiet_ret
    | apply quiet_get_txn
    | apply quiet_get_dbtuples
    | apply quiet_set_dbtuples
    | apply quiet_set_commit_tid
    | apply quiet_set_ctx_map
    | apply quiet_abort_goto; assumption
    | apply quiet_call; intros; reflexivity
    | apply quiet_call_; reflexivity
    | apply quiet_bind; [|intros]
    | apply quiet_for_each; intros
    | match goal with
      | |- quiet _ _ (if ?c then _ else _) => destruct c
      | |- quiet _ _ (match ?x with _ => _ end) => destruct x
      | |- quiet _ _ (let '(_, _) := ?x in _) => destruct x
      end ].

Ltac quiet_auto := repeat quiet_step.

Lemma quiet_modify_ctx i g : quiet bad why (modify_ctx i g : @M W _).
Proof. unfold modify_ctx. quiet_auto. Qed.

Lemma quiet_mark_read_set i p : quiet bad why (mark_read_set i p : @M W _).
Proof. apply quiet_modify_ctx. Qed.

Lemma quiet_mark_absent_set i k ty p :
  quiet bad why (mark_absent_set i k ty p : @M W _).
Proof. apply quiet_modify_ctx. Qed.

Lemma quiet_emplace_back e : quiet bad why (emplace_back e : @M W _).
Proof. unfold emplace_back. quiet_auto. Qed.

Lemma quiet_update_node_scan i node version :
  quiet bad why (update_node_scan i node version : @M W _).
Proof. unfold update_node_scan. quiet_auto; apply quiet_modify_ctx. Qed.

Lemma quiet_search_succeeded i tree k wr v :
  quiet bad why (search_succeeded i tree k wr v : @M W _).
Proof.
  unfold search_succeeded.
  repeat first [ apply quiet_emplace_back
               | apply quiet_mark_read_set | apply quiet_mark_absent_set
               | apply quiet_bind; [|intros] ].
Qed.

Lemma quiet_insert_succeeded i tree k wr p node version :
  quiet bad why (insert_succeeded i tree k wr p node version : @M W _).
Proof.
  unfold insert_succeeded.
  repeat first [ apply quiet_emplace_back
               | apply quiet_update_node_scan
               | apply quiet_mark_read_set | apply quiet_mark_absent_set
               | apply quiet_bind; [|intros] ].
Qed.

Lemma quiet_find_write_node fuel :
  forall i tree k wr try_insert_path,
    quiet bad why (find_write_node fuel i tree k wr try_insert_path : @M W _).
Proof.
  induction fuel as [|fuel IH]; intros i tree k wr try_insert_path;
    cbn [find_write_node].
  - intros f res f' H. injection H as <- <-. exists [].
    rewrite app_nil_r. repeat split; auto. discriminate.
  - apply quiet_bind; [destruct try_insert_path; quiet_auto|].
    intros [v|]; [apply quiet_search_succeeded|].
    apply quiet_bind; [quiet_auto|]. intros p.
    apply quiet_bind; [quiet_auto|]. intros _.
    apply quiet_bind; [quiet_auto|]. intros [[node version]|].
    + apply quiet_insert_succeeded.
    + apply quiet_bind; [quiet_auto|]. intros _.
      apply quiet_bind; [quiet_auto|]. intros _. apply IH.
Qed.

Lemma quiet_find_write_nodes fuel :
  quiet bad why (find_write_nodes fuel : @M W _).
Proof.
  unfold find_write_nodes. apply quiet_bind; [quiet_auto|]. intros tx.
  apply quiet_for_each. intros [i [tree ctx]].
  apply quiet_for_each. intros w. apply quiet_find_write_node.
Qed.

Lemma quiet_lock_nodes todo :
  forall done, quiet bad why (lock_nodes done todo : @M W _).
Proof.
  induction todo as [|e rest IH]; intros done; cbn [lock_nodes].
  - apply quiet_ret.
  - destruct (locked (snd e)); [apply IH|].
    apply quiet_bind; [quiet_auto|]. intros v.
    apply quiet_bind; [quiet_auto|]. intros _.
    apply quiet_bind; [unfold write_interference; quiet_auto|].
    intros b0. destruct b0; [quiet_auto | apply IH].
Qed.

Lemma quiet_lock_write_nodes : quiet bad why (lock_write_nodes : @M W _).
Proof.
  unfold lock_write_nodes.
  apply quiet_bind; [quiet_auto|]. intros v.
  apply quiet_bind; [quiet_auto|]. intros _.
  apply quiet_bind; [apply quiet_lock_nodes|]. intros _.
  quiet_auto.
Qed.

Lemma quiet_validate_scans tree ctx :
  quiet bad why (validate_scans tree ctx : @M W _).
Proof. unfold validate_scans. quiet_auto. Qed.

Lemma quiet_write_records : quiet bad why (write_records : @M W _).
Proof.
  intros f res f' H. unfold write_records in H. revert f res f' H.
  intros f. generalize (snd (commit_tid f)) as tid. generalize (dbtuples f) as l.
  intros l tid.
  assert (Q : quiet bad why (for_each l (write_record tid) : @M W _)).
  { apply quiet_for_each. intros e. unfold write_record, lock_guard.
    cbv zeta. quiet_auto. }
  exact (Q f).
Qed.

Hypothesis tracks_read :
  forall rs, tracks bad why (validate_read_set rs : @M W _).
Hypothesis tracks_absent :
  forall tree abs, tracks bad why (validate_absent_set tree abs : @M W _).

Lemma tracks_read_validation : tracks bad why (read_validation : @M W _).
Proof.
  unfold read_validation.
  apply tracks_bind; [apply quiet_tracks, quiet_get_txn|]. intros tx.
  apply tracks_for_each. intros e.
  apply tracks_bind; [apply tracks_read|]. intros _.
  apply tracks_bind; [apply tracks_absent|]. intros _.
  apply quiet_tracks, quiet_validate_scans.
Qed.

Lemma tracks_commit_body fuel : tracks bad why (commit_body fuel : @M W _).
Proof.
  unfold commit_body.
  apply tracks_bind; [apply quiet_tracks; quiet_auto|]. intros snap.
  apply tracks_bind; [apply quiet_tracks, quiet_find_write_nodes|]. intros _.
  unfold commit_after_find.
  apply tracks_bind; [apply quiet_tracks, quiet_get_dbtuples|]. intros v.
  destruct (negb (fst snap) || negb (vec_empty v)); [|apply quiet_tracks, quiet_ret].
  apply tracks_bind.
  { destruct (negb (vec_empty v));
      [apply quiet_tracks, quiet_lock_write_nodes | apply quiet_tracks, quiet_ret]. }
  intros _. apply tracks_bind; [apply tracks_read_validation|]. intros _.
  apply tracks_bind; [apply quiet_tracks, quiet_get_dbtuples|]. intros v'.
  destruct (negb (vec_empty v'));
    [apply quiet_tracks, quiet_write_records | apply quiet_tracks, quiet_ret].
Qed.

End Tracking.

(** ** The abort reasons of [commit] *)

Section CommitReasons.

Context {W : Type} {PR : Protocol W} {ST : Storage W}.

Notation "x <- m ;; k" := (bind m (fun x => k))
  (at level 61, m at next level, right associativity).
Notation "m ;;; k" := (bind m (fun _ => k))
  (at level 61, right associativity).

Lemma commit_finish_frame (f : frame W) :
  state (txn (commit_finish f)) = TXN_COMMITED /\
  trace (commit_finish f)
    = trace f ++ (if fst (commit_tid f) then [EvOnTidFinish (snd (commit_tid f))] else []).
Proof.
  unfold commit_finish. cbv zeta.
  destruct (fst (commit_tid f)); cbn; rewrite ?app_nil_r; auto.
Qed.

Lemma existsb_unlocks (bad : event -> bool) (l : dbtuple_vec) :
  (forall ev, bad ev = true -> validation_check ev = true) ->
  existsb bad (map (fun e => EvUnlock (fst e)) l) = false.
Proof.
  intros Hb. induction l as [|e l IH]; cbn [map existsb]; auto.
  rewrite IH, orb_false_r.
  destruct (bad (EvUnlock (fst e))) eqn:E; auto.
  apply Hb in E. discriminate.
Qed.

Lemma aborted_not_cutoff doThrow why : CutOff <> aborted doThrow why.
Proof. unfold aborted; destruct doThrow; discriminate. Qed.

(** [commit] aborts with [why] exactly if its body made a [bad] call,
    for calls and a reason the body tracks. *)
Lemma commit_tracks (bad : event -> bool) (why : abort_reason)
      fuel doThrow tx w :
  (forall ev, bad ev = true -> validation_check ev = true) ->
  tracks bad why (commit_body fuel : @M W _) ->
  state tx = TXN_EMBRYO \/ state tx = TXN_ACTIVE ->
  (fst (commit fuel doThrow tx w) = aborted doThrow why /\
   state (txn (snd (commit fuel doThrow tx w))) = TXN_ABRT /\
   reason (txn (snd (commit fuel doThrow tx w))) = why) <->
  existsb bad (trace (snd (commit fuel doThrow tx w))) = true.
Proof.
  intros Hb T Hs.
  assert (E : commit fuel doThrow tx w
              = match commit_body fuel (commit_begin tx w) with
                | (Ok _, f) => (Returned true, commit_finish f)
                | (Jump, f) =>
                    (aborted doThrow (reason (txn (do_abort f))), do_abort f)
                | (OutOfFuel, f) => (CutOff, f)
                end).
  { unfold commit. destruct Hs as [-> | ->]; reflexivity. }
  rewrite E. clear E.
  destruct (commit_body fuel (commit_begin tx w)) as [res f] eqn:B.
  destruct (T _ _ _ B) as (evs & H1 & H2). cbn [commit_begin trace app] in H1.
  destruct res as [[]| |]; cbn [fst snd].
  - destruct (commit_finish_frame f) as [C1 C2]. rewrite C1, C2, H1.
    rewrite existsb_app, H2.
    assert (N : existsb bad
                  (if fst (commit_tid f)
                   then [EvOnTidFinish (snd (commit_tid f))] else []) = false).
    { destruct (fst (commit_tid f)); cbn; auto.
      destruct (bad (EvOnTidFinish _)) eqn:E; auto. apply Hb in E. discriminate. }
    rewrite N. split; [intros (_ & D & _); discriminate | discriminate].
  - destruct (do_abort_frame f) as (D1 & D2 & _ & _ & D5).
    rewrite D1, D2, D5, H1, !existsb_app, existsb_unlocks by exact Hb.
    assert (N : existsb bad
                  (if fst (commit_tid f)
                   then [EvOnTidFinish (snd (commit_tid f))] else []) = false).
    { destruct (fst (commit_tid f)); cbn; auto.
      destruct (bad (EvOnTidFinish _)) eqn:E; auto. apply Hb in E. discriminate. }
    rewrite N, !orb_false_r. rewrite <- H2.
    split; [tauto | intros ->; auto].
  - rewrite H1, H2. split; [|discriminate].
    intros (C & _). exfalso. exact (aborted_not_cutoff _ _ C).
Qed.

(** *** The read set *)

Lemma read_run_failed rs evs ab :
  read_run rs evs ab ->
  existsb failed_read_check evs = ab /\
  existsb failed_absent_check evs = false.
Proof.
  induction 1 as [|e rs evs ab R [IH1 IH2]|e rs]; auto.
  - split; cbn [existsb]; rewrite ?IH1, ?IH2;
      unfold read_check_event; destruct (holds_lock (snd e)); reflexivity.
  - split; unfold read_check_event; destruct (holds_lock (snd e)); reflexivity.
Qed.

Lemma absent_run_failed tree abs evs ab :
  absent_run tree abs evs ab ->
  existsb failed_absent_check evs = ab /\
  existsb failed_read_check evs = false.
Proof.
  induction 1 as [ | e abs evs ab T R [IH1 IH2] | e abs evs ab T R [IH1 IH2]
                   | e abs T | e abs evs ab T R [IH1 IH2]
                   | e v abs evs ab T R [IH1 IH2] | e v abs T ];
    cbn [existsb failed_absent_check failed_read_check orb]; auto.
Qed.

Lemma tracks_read_set_read rs :
  tracks failed_read_check ABORT_REASON_READ_NODE_INTEREFERENCE
    (validate_read_set rs : @M W _).
Proof.
  intros f res f' H. apply validate_read_set_run in H.
  destruct H as (evs & ab & R & T & V). exists evs. split; [exact T|].
  destruct (read_run_failed _ _ _ R) as [F _]. rewrite F.
  destruct V as (_ & _ & _ & _ & _ & V).
  destruct ab; destruct V as [-> V]; [tauto | reflexivity].
Qed.

Lemma tracks_read_set_absent rs :
  tracks failed_absent_check ABORT_REASON_READ_ABSENCE_INTEREFERENCE
    (validate_read_set rs : @M W _).
Proof.
  intros f res f' H. apply validate_read_set_run in H.
  destruct H as (evs & ab & R & T & V). exists evs. split; [exact T|].
  destruct (read_run_failed _ _ _ R) as [_ F]. rewrite F.
  destruct V as (_ & _ & _ & _ & _ & V).
  destruct ab; destruct V as [-> V]; [|reflexivity].
  rewrite V. split; discriminate.
Qed.

Lemma tracks_absent_set_absent tree abs :
  tracks failed_absent_check ABORT_REASON_READ_ABSENCE_INTEREFERENCE
    (validate_absent_set tree abs : @M W _).
Proof.
  intros f res f' H. apply validate_absent_set_run in H.
  destruct H as (evs & ab & R & T & V). exists evs. split; [exact T|].
  destruct (absent_run_failed _ _ _ _ R) as [F _]. rewrite F.
  destruct V as (_ & _ & _ & _ & _ & V).
  destruct ab; destruct V as [-> V]; [tauto | reflexivity].
Qed.

Lemma tracks_absent_set_read tree abs :
  tracks failed_read_check ABORT_REASON_READ_NODE_INTEREFERENCE
    (validate_absent_set tree abs : @M W _).
Proof.
  intros f res f' H. apply validate_absent_set_run in H.
  destruct H as (evs & ab & R & T & V). exists evs. split; [exact T|].
  destruct (absent_run_failed _ _ _ _ R) as [_ F]. rewrite F.
  destruct V as (_ & _ & _ & _ & _ & V).
  destruct ab; destruct V as [-> V]; [|reflexivity].
  rewrite V. split; discriminate.
Qed.

Lemma failed_read_check_is_check ev :
  failed_read_check ev = true -> validation_check ev = true.
Proof. destruct ev; cbn; auto; discriminate. Qed.

Lemma failed_absent_check_is_check ev :
  failed_absent_check ev = true -> validation_check ev = true.
Proof. destruct ev; cbn; auto; discriminate. Qed.

End CommitReasons.

(** ** Phase A: the node versions *)


Lemma nth_error_update_nth_other {A} (g : A -> A) (l : list A) i j :
  i <> j -> nth_error (update_nth i g l) j = nth_error l j.
Proof.
  revert i j; induction l as [|x l IH]; intros [|i] [|j] H; cbn; auto.
  congruence.
Qed.



Section WriteResolution.

Context {W : Type} {PR : Protocol W} {ST : Storage W}.

Notation "x <- m ;; k" := (bind m (fun x => k))
  (at level 61, m at next level, right associativity).
Notation "m ;;; k" := (bind m (fun _ => k))
  (at level 61, right associativity).

Lemma modify_ctx_run i g (f : frame W) :
  modify_ctx i g f
  = (Ok tt,
     mk_frame
       (mk_transaction (state (txn f)) (reason (txn f)) (flags (txn f))
          (update_nth i (fun e => (fst e, g (snd e))) (ctx_map (txn f))))
       (dbtuples f) (commit_tid f) (world f) (trace f)).
Proof. reflexivity. Qed.


Lemma uint64_wrap_succ v :
  (0 <= v < 2 ^ 64 - 1)%Z -> uint64_wrap (v + 1) = (v + 1)%Z.
Proof. intros H. unfold uint64_wrap. apply Z.mod_small. lia. Qed.

Lemma reason_cases (x : abort_reason) :
  x <> ABORT_REASON_USER ->
  x <> ABORT_REASON_NODE_SCAN_READ_VERSION_CHANGED ->
  x <> ABORT_REASON_READ_NODE_INTEREFERENCE ->
  x <> ABORT_REASON_READ_ABSENCE_INTEREFERENCE ->
  x = ABORT_REASON_WRITE_NODE_INTERFERENCE.
Proof. destruct x; congruence. Qed.

(** Phase A only ever jumps with the write interference reason. *)
Lemma find_write_nodes_jump fuel (f f' : frame W) :
  find_write_nodes fuel f = (Jump, f') ->
  reason (txn f') = ABORT_REASON_WRITE_NODE_INTERFERENCE.
Proof.
  intros H.
  assert (Q : forall why, why <> ABORT_REASON_WRITE_NODE_INTERFERENCE ->
                          reason (txn f') <> why).
  { intros why N.
    destruct (quiet_find_write_nodes (fun _ => false) why
                ltac:(discriminate) N fuel f Jump f' H) as (_ & _ & _ & Q).
    exact (Q eq_refl). }
  apply reason_cases; apply Q; discriminate.
Qed.


End WriteResolution.

(** ** The claims on [commit], on the example world *)

Section CommitExamples.

Local Open Scope Z_scope.

Lemma lock_write_nodes_in_pointer_order_witness :
  let f :=
    toy_frame
      [(8, mk_dbtuple_info 100 (digit_key 1) false (digit_key 5) false);
       (3, mk_dbtuple_info 100 (digit_key 2) false (digit_key 6) false)]
      (mk_toy_world 2 true true true None None 1000) in
  dbtuples f <> [] /\
  lock_write_nodes f = (Jump, snd (lock_write_nodes f)) /\
  map fst (std_sort (dbtuples f)) = [3; 8] /\
  StronglySorted (fun x y => fst x <= fst y) (std_sort (dbtuples f)).
Proof.
  intros f.
  assert (H1 : dbtuples f <> []) by discriminate.
  assert (H2 : lock_write_nodes f = (Jump, snd (lock_write_nodes f)))
    by (vm_compute; reflexivity).
  split; [exact H1|]. split; [exact H2|]. split; [vm_compute; reflexivity|].
  exact (proj1 (lock_write_nodes_in_pointer_order f _ _ H1 H2)).
Defined.



End CommitExamples.

(** ** More on absent ranges *)

Lemma covered_app l1 l2 k : covered (l1 ++ l2) k <-> covered l1 k \/ covered l2 k.
Proof.
  unfold covered. split.
  - intros (q & Hq & K). apply in_app_or in Hq. destruct Hq; eauto.
  - intros [(q & Hq & K)|(q & Hq & K)]; exists q; split; auto;
      apply in_or_app; auto.
Qed.

Lemma covered_cons x l k :
  covered (x :: l) k <-> key_in_range x k = true \/ covered l k.
Proof.
  unfold covered. split.
  - intros (q & [<-|Hq] & K); eauto.
  - intros [K|(q & Hq & K)]; [exists x | exists q]; split; auto;
      [left | right]; auto.
Qed.

Lemma covered_nil k : ~ covered [] k.
Proof. intros (q & [] & _). Qed.

Lemma empty_range_no_key range k :
  is_empty_range range = true -> key_in_range range k = false.
Proof.
  unfold is_empty_range. rewrite andb_true_iff. intros [Hb Hle].
  destruct (key_in_range range k) eqn:K; [|reflexivity].
  apply key_in_range_iff in K. destruct K as [K1 [K2|K2]]; [congruence|].
  exfalso. key_order.
Qed.

(** Every range of the set survives the insertion inside some range of
    the result. *)
Lemma add_cases_absorbs range l l' q0 :
  valid_range_set l = true -> add_cases range l l' -> In q0 l ->
  exists q, In q l' /\ contains q q0 = true.
Proof.
  intros V H Hq. unfold valid_range_set in V.
  assert (Keep : In q0 l' -> exists q, In q l' /\ contains q q0 = true).
  { intros Hk. exists q0. split; [exact Hk | apply contains_refl]. }
  destruct H as [ NE' | NE F HB | l0 back NE E F Eb | l1 cur post NE E F1 A C
                | l1 cur post new_set left_key qh qb post' NE E F1 A C HL HR ];
    auto.
  - apply Keep. apply in_or_app; auto.
  - subst l. destruct (valid_split _ _ _ _ V) as (F0 & Nback & _).
    apply in_app_or in Hq. destruct Hq as [Hq|[<-|[]]].
    + apply Keep. apply in_or_app; auto.
    + exists (mk_key_range (a back) (has_b range) (b range)).
      split; [apply in_elt|].
      rewrite Forall_forall in F.
      pose proof (F back (in_elt _ _ _)) as Bb. apply below_iff in Bb.
      destruct Bb as [Bb _].
      apply nonempty_iff in NE.
      apply contains_build; [apply KeyFacts.le_refl|].
      destruct NE as [NE|NE]; [left; exact NE | right; split; [exact Bb | key_order]].
  - subst l.
    destruct (left_part_valid _ _ _ _ _ _ V F1 HL) as (_ & _ & _ & Hra & Hca).
    pose proof (right_part_covers _ _ _ _ _ _ _ _ V HR) as Cov.
    destruct (valid_split _ _ _ _ V) as (F & Nc & R).
    apply nonempty_iff in NE. apply nonempty_iff in Nc. apply above_iff in A.
    assert (Q : forall x, Key.le left_key (a x) ->
                  (qh = false \/ has_b x = true /\ Key.le (b x) qb) ->
                  exists q, In q (new_set ++ mk_key_range left_key qh qb :: post')
                            /\ contains q x = true).
    { intros x H1 H2. exists (mk_key_range left_key qh qb).
      split; [apply in_elt | apply contains_build; auto]. }
    apply in_app_or in Hq. destruct Hq as [Hq|[<-|Hq]].
    + (* left of [cur] *)
      destruct HL as [l0 p E Eb | HK].
      * subst l1. apply in_app_or in Hq. destruct Hq as [Hq|[<-|[]]].
        -- apply Keep. apply in_or_app; auto.
        -- rewrite Forall_forall in F1.
           pose proof (F1 p (in_elt _ _ _)) as Bp. apply below_iff in Bp.
           destruct Bp as [Bp _].
           apply Q; [apply KeyFacts.le_refl|].
           destruct Cov as [Cov|[Cov1 Cov2]]; [left; exact Cov | right].
           split; [exact Bp|].
           destruct NE as [NE|NE]; [congruence | key_order].
      * apply Keep. apply in_or_app; auto.
    + (* [cur] *)
      destruct HR as [ Hr | Hr Hb Hlt | Hr Hb Hle | Hr Hcb Hlt Fs
                     | p1 r1 p2 Hr Hcb Hlt Ep Fs St Hle
                     | p1 r1 p2 Hr Hcb Hlt Ep Fs Hgt ].
      * apply Q; auto.
      * apply Keep. apply in_or_app; right; right; left; reflexivity.
      * apply Q; auto.
        destruct (has_b cur);
          [right; split; [reflexivity | apply KeyFacts.le_refl] | left; reflexivity].
      * apply Q; auto. right; split; [exact Hcb | key_order].
      * apply Q; auto.
        destruct (has_b r1) eqn:H1; [right | left; reflexivity].
        split; [exact Hcb|].
        destruct Cov as [Cov|[_ Cov]]; [discriminate | key_order].
      * apply Q; auto. right; split; [exact Hcb | key_order].
    + (* right of [cur] *)
      destruct (has_b cur) eqn:Hc; [|subst post; destruct Hq].
      destruct A as [A|A]; [discriminate|].
      destruct Nc as [Nc|Nc]; [discriminate|].
      pose proof R as R'. rewrite Forall_forall in R'.
      destruct (R' _ Hq) as [Hle Nq].
      destruct HR as [ Hr | Hr Hb Hlt | Hr Hb Hle' | Hr Hcb Hlt Fs
                     | p1 r1 p2 Hr Hcb Hlt Ep Fs St Hle'
                     | p1 r1 p2 Hr Hcb Hlt Ep Fs Hgt ].
      * apply Q; [key_order | left; reflexivity].
      * apply Keep. apply in_or_app; right; right; right; exact Hq.
      * apply Keep. apply in_or_app; right; right; exact Hq.
      * rewrite Forall_forall in Fs. destruct (Fs _ Hq) as (S1 & S2 & S3).
        apply Q; [key_order | right; split; [exact S2 | key_order]].
      * subst post. apply in_app_or in Hq. destruct Hq as [Hq|[<-|Hq]].
        -- rewrite Forall_forall in Fs. destruct (Fs _ Hq) as (S1 & S2 & S3).
           apply Q; [key_order|].
           destruct (has_b r1) eqn:H1; [right | left; reflexivity].
           split; [exact S2|].
           destruct Cov as [Cov|[_ Cov]]; [discriminate | key_order].
        -- apply Q; [key_order|].
           destruct (has_b r1);
             [right; split; [reflexivity | apply KeyFacts.le_refl] | left; reflexivity].
        -- apply Keep. apply in_or_app; right; right; exact Hq.
      * subst post. apply in_app_or in Hq. destruct Hq as [Hq|Hq].
        -- rewrite Forall_forall in Fs. destruct (Fs _ Hq) as (S1 & S2 & S3).
           apply Q; [key_order | right; split; [exact S2 | key_order]].
        -- apply Keep. apply in_or_app; right; right; exact Hq.
Qed.

(** A key of the result was in the set already, or lies in the range. *)
Lemma add_cases_no_more range l l' k :
  valid_range_set l = true -> add_cases range l l' ->
  covered l' k -> covered l k \/ key_in_range range k = true.
Proof.
  intros V H Hk. unfold valid_range_set in V.
  destruct H as [ NE' | NE F HB | l0 back NE E F Eb | l1 cur post NE E F1 A C
                | l1 cur post new_set left_key qh qb post' NE E F1 A C HL HR ];
    auto.
  - apply covered_app in Hk. destruct Hk as [Hk|Hk]; [left; exact Hk|].
    apply covered_cons in Hk. destruct Hk as [Hk|Hk]; [right; exact Hk|].
    destruct (covered_nil _ Hk).
  - subst l. apply covered_app in Hk. destruct Hk as [Hk|Hk].
    { left. apply covered_app. left; exact Hk. }
    apply covered_cons in Hk. destruct Hk as [Hk|Hk]; [|destruct (covered_nil _ Hk)].
    apply key_in_range_iff in Hk. cbn [a b has_b] in Hk.
    destruct Hk as [K1 K2].
    destruct (Key.ltb k (a range)) eqn:Ek.
    + left. apply covered_app. right. apply covered_cons. left.
      apply key_in_range_iff. split; [exact K1|]. right. key_order.
    + right. apply key_in_range_iff. split; [key_order | exact K2].
  - subst l.
    destruct (left_part_valid _ _ _ _ _ _ V F1 HL) as (_ & _ & _ & Hra & Hca).
    destruct (valid_split _ _ _ _ V) as (F & Nc & R).
    apply nonempty_iff in NE. apply nonempty_iff in Nc. apply above_iff in A.
    assert (InL1 : covered new_set k -> covered (l1 ++ cur :: post) k).
    { intros Hn. apply covered_app. left.
      destruct HL as [l0 p E Eb | HK]; [|exact Hn].
      subst l1. apply covered_app. left; exact Hn. }
    assert (InCur : key_in_range cur k = true -> covered (l1 ++ cur :: post) k).
    { intros Hn. apply covered_app. right. apply covered_cons. left; exact Hn. }
    assert (InPost : covered post k -> covered (l1 ++ cur :: post) k).
    { intros Hn. apply covered_app. right. apply covered_cons. right; exact Hn. }
    apply covered_app in Hk. destruct Hk as [Hk|Hk]; [left; auto|].
    apply covered_cons in Hk. destruct Hk as [Hk|Hk].
    + (* the key is in the range that was pushed *)
      apply key_in_range_iff in Hk. cbn [a b has_b] in Hk.
      destruct Hk as [K1 K2].
      destruct (key_in_range range k) eqn:Kr; [right; reflexivity | left].
      assert (Kr' : Key.lt k (a range) \/ has_b range = true /\ Key.le (b range) k).
      { destruct (Key.ltb k (a range)) eqn:E1; [left; key_order | right].
        destruct (has_b range) eqn:Hr.
        - split; [reflexivity|].
          destruct (Key.ltb k (b range)) eqn:E2; [|key_order].
          exfalso. assert (key_in_range range k = true); [|congruence].
          apply key_in_range_iff. split; [key_order | right; key_order].
        - exfalso. assert (key_in_range range k = true); [|congruence].
          apply key_in_range_iff. split; [key_order | left; exact Hr]. }
      clear Kr. destruct Kr' as [Kl|[Hr Kh]].
      * (* below the range: the left neighbour or [cur] *)
        destruct HL as [l0 p E Eb | HK].
        -- subst l1. apply covered_app. left. apply covered_app. right.
           apply covered_cons. left. apply key_in_range_iff.
           split; [exact K1 | right; key_order].
        -- apply InCur. apply key_in_range_iff.
           split; [key_order|].
           destruct A as [A|A]; [left; exact A | right; key_order].
      * (* above the range: [cur] or the range the loop stopped at *)
        destruct NE as [NE|NE]; [congruence|].
        destruct HR as [ Hr' | Hr' Hb Hlt | Hr' Hb Hle | Hr' Hcb Hlt Fs
                       | p1 r1 p2 Hr' Hcb Hlt Ep Fs St Hle
                       | p1 r1 p2 Hr' Hcb Hlt Ep Fs Hgt ].
        -- congruence.
        -- exfalso. destruct K2 as [K2|K2]; [discriminate | key_order].
        -- apply InCur. apply key_in_range_iff. split; [key_order | exact K2].
        -- exfalso. destruct K2 as [K2|K2]; [discriminate | key_order].
        -- apply InPost. subst post. apply covered_app. right.
           apply covered_cons. left. apply key_in_range_iff.
           split; [key_order | exact K2].
        -- exfalso. destruct K2 as [K2|K2]; [discriminate | key_order].
    + (* the key is in a range kept after it *)
      left.
      destruct HR as [ Hr' | Hr' Hb Hlt | Hr' Hb Hle | Hr' Hcb Hlt Fs
                     | p1 r1 p2 Hr' Hcb Hlt Ep Fs St Hle
                     | p1 r1 p2 Hr' Hcb Hlt Ep Fs Hgt ].
      * destruct (covered_nil _ Hk).
      * apply covered_app. right. exact Hk.
      * apply InPost. exact Hk.
      * destruct (covered_nil _ Hk).
      * apply InPost. subst post. apply covered_app. right.
        apply covered_cons. right. exact Hk.
      * apply InPost. subst post. apply covered_app. right. exact Hk.
Qed.

Lemma key_in_absent_set_covered l k :
  valid_range_set l = true -> key_in_absent_set l k = true <-> covered l k.
Proof. apply key_in_absent_set_correct. Qed.

Lemma key_in_absent_set_after_add l range k :
  valid_range_set l = true ->
  key_in_absent_set (add_absent_range range l) k
  = key_in_absent_set l k || key_in_range range k.
Proof.
  intros H.
  pose proof (add_absent_range_valid range l H) as V'.
  pose proof (add_absent_range_cases _ range l H) as C.
  apply eq_true_iff_eq.
  rewrite orb_true_iff, !key_in_absent_set_covered by assumption.
  split.
  - intros Hk. apply (add_cases_no_more _ _ _ _ H C Hk).
  - intros [(q0 & Hq & K)|K].
    + destruct (add_cases_absorbs _ _ _ _ H C Hq) as (q & Hq' & Cq).
      exists q. split; [exact Hq'|]. eapply contains_key; eauto.
    + destruct (is_empty_range range) eqn:NE.
      { rewrite (empty_range_no_key _ k NE) in K. discriminate. }
      destruct (add_cases_container _ _ _ H NE C) as (l1 & q & post & E & Cq).
      exists q. split; [rewrite E; apply in_elt|].
      eapply contains_key; eauto.
Qed.

(** X1.  On a valid set, the keys [key_in_absent_set] reports after an
    insertion are the keys it reported before together with the keys of
    the inserted range. *)
Theorem add_absent_range_adds_the_range :
  forall (l : absent_range_vec) (range : key_range_t) (k : Key.string_type),
    sorted_disjoint l ->
    key_in_absent_set (add_absent_range range l) k
    = key_in_absent_set l k || key_in_range range k.
Proof.
  intros l range k H. apply key_in_absent_set_after_add.
  apply sorted_disjoint_iff. exact H.
Qed.

Lemma add_absent_range_adds_the_range_witness :
  sorted_disjoint
    [key_range_bounded (digit_key 0) (digit_key 3);
     key_range_bounded (digit_key 5) (digit_key 8)] /\
  key_in_absent_set
    (add_absent_range (key_range_bounded (digit_key 2) (digit_key 6))
       [key_range_bounded (digit_key 0) (digit_key 3);
        key_range_bounded (digit_key 5) (digit_key 8)])
    (digit_key 4)
  = key_in_absent_set
      [key_range_bounded (digit_key 0) (digit_key 3);
       key_range_bounded (digit_key 5) (digit_key 8)] (digit_key 4)
    || key_in_range (key_range_bounded (digit_key 2) (digit_key 6))
         (digit_key 4).
Proof.
  assert (H : sorted_disjoint
                [key_range_bounded (digit_key 0) (digit_key 3);
                 key_range_bounded (digit_key 5) (digit_key 8)])
    by (apply sorted_disjoint_iff; vm_compute; reflexivity).
  split; [exact H|].
  exact (add_absent_range_adds_the_range _
           (key_range_bounded (digit_key 2) (digit_key 6)) (digit_key 4) H).
Defined.

Lemma add_absent_ranges_valid ranges :
  forall l, valid_range_set l = true ->
            valid_range_set (add_absent_ranges ranges l) = true.
Proof.
  induction ranges as [|r rs IH]; intros l V; cbn; auto.
  apply IH. apply add_absent_range_valid. exact V.
Qed.

Lemma key_in_absent_set_after_adds ranges k :
  forall l, valid_range_set l = true ->
            key_in_absent_set (add_absent_ranges ranges l) k
            = key_in_absent_set l k
              || existsb (fun range => key_in_range range k) ranges.
Proof.
  induction ranges as [|r rs IH]; intros l V;
    cbn [add_absent_ranges fold_left existsb].
  - rewrite orb_false_r. reflexivity.
  - change (fold_left (fun s range => add_absent_range range s) rs
              (add_absent_range r l))
      with (add_absent_ranges rs (add_absent_range r l)).
    rewrite IH by (apply add_absent_range_valid; exact V).
    rewrite key_in_absent_set_after_add by exact V.
    rewrite orb_assoc. reflexivity.
Qed.

(** X2.  Starting from the empty set, after any sequence of insertions
    the set is sorted and non-overlapping, and [key_in_absent_set]
    reports exactly the keys of the inserted ranges. *)
Theorem absent_ranges_hold_the_scanned_keys :
  forall (ranges : list key_range_t) (k : Key.string_type),
    sorted_disjoint (add_absent_ranges ranges []) /\
    key_in_absent_set (add_absent_ranges ranges []) k
    = existsb (fun range => key_in_range range k) ranges.
Proof.
  intros ranges k.
  split.
  { apply sorted_disjoint_iff. apply add_absent_ranges_valid. reflexivity. }
  rewrite key_in_absent_set_after_adds by reflexivity. reflexivity.
Qed.

Lemma gaps_app l1 x l2 :
  gaps (l1 ++ x :: l2) = gaps (l1 ++ [x]) && gaps (x :: l2).
Proof.
  induction l1 as [|y l1 IH]; cbn [app].
  - cbn [gaps]. reflexivity.
  - destruct l1 as [|z l1].
    + cbn [app gaps]. rewrite andb_true_r. reflexivity.
    + cbn [app] in *. cbn [gaps] in *. rewrite IH.
      rewrite andb_assoc. reflexivity.
Qed.

Lemma gaps_prefix l1 l2 : gaps (l1 ++ l2) = true -> gaps l1 = true.
Proof.
  destruct l2 as [|x l2]; [rewrite app_nil_r; auto|].
  rewrite gaps_app, andb_true_iff. intros [H _].
  clear l2. revert H. induction l1 as [|y l1 IH]; auto.
  destruct l1 as [|z l1]; [reflexivity|].
  cbn [app gaps] in *. rewrite !andb_true_iff. intros [H1 H2]. auto.
Qed.

Lemma gaps_suffix l1 l2 : gaps (l1 ++ l2) = true -> gaps l2 = true.
Proof.
  induction l1 as [|y l1 IH]; auto.
  destruct l1 as [|z l1].
  - cbn [app]. destruct l2; [reflexivity|].
    cbn [gaps]. rewrite andb_true_iff. tauto.
  - cbn [app gaps] in *. rewrite andb_true_iff. intros [_ H]. auto.
Qed.

Lemma gaps_snoc l x q :
  gaps (l ++ [x]) = true -> b x <> a q -> gaps ((l ++ [x]) ++ [q]) = true.
Proof.
  intros G N. rewrite <- app_assoc. cbn [app].
  rewrite gaps_app, G. cbn [gaps]. rewrite andb_true_r.
  apply negb_true_iff. apply KeyFacts.eqb_false. exact N.
Qed.

Lemma gaps_join l q post :
  gaps (l ++ [q]) = true -> gaps (q :: post) = true ->
  gaps (l ++ q :: post) = true.
Proof. intros G1 G2. rewrite gaps_app, G1, G2. reflexivity. Qed.

Lemma gaps_last_change l x q :
  gaps (l ++ [x]) = true -> a q = a x -> gaps (l ++ [q]) = true.
Proof.
  intros G E. induction l as [|y l IH]; [reflexivity|].
  destruct l as [|z l].
  - cbn [app gaps] in *. rewrite E. exact G.
  - cbn [app gaps] in *. rewrite andb_true_iff in *. destruct G; auto.
Qed.

Lemma gaps_head_change q q' post :
  gaps (q :: post) = true -> b q' = b q -> gaps (q' :: post) = true.
Proof. destruct post; cbn [gaps]; auto. intros G ->. exact G. Qed.

Lemma gaps_cons q x post :
  b q <> a x -> gaps (x :: post) = true -> gaps (q :: x :: post) = true.
Proof.
  intros N G. cbn [gaps] in *. rewrite G, andb_true_r.
  apply negb_true_iff. apply KeyFacts.eqb_false. exact N.
Qed.

Lemma gaps_two x y post :
  gaps (x :: y :: post) = true -> b x <> a y.
Proof.
  cbn [gaps]. rewrite andb_true_iff, negb_true_iff. intros [H _].
  apply KeyFacts.eqb_false. exact H.
Qed.

Lemma gaps_end l x y :
  gaps (l ++ [x; y]) = true -> b x <> a y.
Proof.
  intros G. apply gaps_suffix in G. eapply gaps_two; eauto.
Qed.

(** The left end of the pushed range does not touch what is kept before
    it. *)
Lemma left_part_gap range cur l1 post new_set left_key qh qb :
  valid_range_set (l1 ++ cur :: post) = true ->
  gaps (l1 ++ cur :: post) = true ->
  Forall (below (a range)) l1 ->
  left_part range cur l1 new_set left_key ->
  gaps (new_set ++ [mk_key_range left_key qh qb]) = true.
Proof.
  intros V G F1 HL. unfold valid_range_set in V.
  destruct HL as [l0 p E Eb | HK].
  - subst l1. apply gaps_last_change with (x := p); [|reflexivity].
    apply gaps_prefix with (l2 := cur :: post). exact G.
  - destruct HK as [->|(l0 & p & -> & Np)]; [reflexivity|].
    apply gaps_snoc.
    + apply gaps_prefix with (l2 := cur :: post). exact G.
    + rewrite <- app_assoc in V, G. cbn [app] in V, G.
      destruct (valid_split _ _ _ _ V) as (_ & _ & R).
      rewrite Forall_forall in F1.
      assert (Bp : below (a range) p)
        by (apply F1; apply in_or_app; right; left; reflexivity).
      apply below_iff in Bp. destruct Bp as [Bp Bp'].
      rewrite Bp in R. inversion R as [|? ? [Hle _] _]; subst.
      apply gaps_suffix in G. apply gaps_two in G.
      cbn [a]. intros E.
      unfold Key.min in E. destruct (Key.ltb (a range) (a cur)) eqn:E1;
        congruence.
Qed.

Lemma add_cases_gaps range l l' :
  valid_range_set l = true -> gaps l = true ->
  add_cases range l l' -> gaps l' = true.
Proof.
  intros V G H. pose proof V as V0. unfold valid_range_set in V.
  destruct H as [ NE' | NE F HB | l0 back NE E F Eb | l1 cur post NE E F1 A C
                | l1 cur post new_set left_key qh qb post' NE E F1 A C HL HR ];
    auto.
  - destruct HB as [->|(l0 & back & -> & Nb)]; [reflexivity|].
    apply gaps_snoc; auto.
  - subst l. apply gaps_last_change with (x := back); auto.
  - subst l.
    pose proof (left_part_gap _ _ _ _ _ _ qh qb V0 G F1 HL) as GL.
    destruct (valid_split _ _ _ _ V) as (F & Nc & R).
    apply nonempty_iff in NE. apply nonempty_iff in Nc. apply above_iff in A.
    pose proof (gaps_suffix _ _ G) as Gc.
    apply gaps_join; [exact GL|].
    destruct HR as [ Hr | Hr Hb Hlt | Hr Hb Hle | Hr Hcb Hlt Fs
                   | p1 r1 p2 Hr Hcb Hlt Ep Fs St Hle
                   | p1 r1 p2 Hr Hcb Hlt Ep Fs Hgt ].
    + reflexivity.
    + apply gaps_cons; [cbn [b]; intros E; key_order | exact Gc].
    + apply gaps_head_change with (q := cur); auto.
    + reflexivity.
    + subst post.
      apply gaps_head_change with (q := r1); [|reflexivity].
      change (cur :: p1 ++ r1 :: p2) with ((cur :: p1) ++ r1 :: p2) in Gc.
      apply gaps_suffix in Gc. exact Gc.
    + subst post.
      change (cur :: p1 ++ r1 :: p2) with ((cur :: p1) ++ r1 :: p2) in Gc.
      apply gaps_suffix in Gc.
      apply gaps_cons; [cbn [b]; intros E; key_order | exact Gc].
Qed.

(** X3.  Starting from the empty set, no sequence of insertions leaves
    two neighbours that touch: a range never ends where the next one
    starts. *)
Theorem absent_ranges_never_touch :
  forall (ranges : list key_range_t),
    gaps (add_absent_ranges ranges []) = true.
Proof.
  intros ranges.
  assert (G : forall l, valid_range_set l = true -> gaps l = true ->
                gaps (add_absent_ranges ranges l) = true).
  { induction ranges as [|r rs IH]; intros l V G; cbn; auto.
    apply IH; [apply add_absent_range_valid; exact V|].
    eapply add_cases_gaps; eauto. eapply add_absent_range_cases; exact V. }
  apply G; reflexivity.
Qed.

(** ** The insertion replaces a block of the set by one range *)

Lemma left_part_split range cur l1 new_set left_key :
  left_part range cur l1 new_set left_key ->
  exists midl, l1 = new_set ++ midl.
Proof.
  intros [l0 p E _ | _]; [exists [p]; exact E | exists []].
  rewrite app_nil_r. reflexivity.
Qed.

Lemma right_part_split range cur post qh qb post' :
  right_part range cur post qh qb post' ->
  exists midr, cur :: post = midr ++ post'.
Proof.
  intros [ Hr | Hr Hb Hlt | Hr Hb Hle | Hr Hcb Hlt Fs
         | p1 r1 p2 Hr Hcb Hlt Ep Fs St Hle
         | p1 r1 p2 Hr Hcb Hlt Ep Fs Hgt ].
  - exists (cur :: post). rewrite app_nil_r. reflexivity.
  - exists []. reflexivity.
  - exists [cur]. reflexivity.
  - exists (cur :: post). rewrite app_nil_r. reflexivity.
  - exists (cur :: p1 ++ [r1]). subst post. cbn [app].
    rewrite <- app_assoc. reflexivity.
  - exists (cur :: p1). subst post. reflexivity.
Qed.

(** The block [mid] of the set gives way to the one range [q]. *)
Lemma add_cases_shape range l l' :
  valid_range_set l = true -> is_empty_range range = false ->
  add_cases range l l' ->
  exists pre mid post q,
    l = pre ++ mid ++ post /\ l' = pre ++ q :: post /\
    contains q range = true.
Proof.
  intros V NE H.
  destruct H as [ NE' | _ F HB | l0 back _ E F Eb | l1 cur post _ E F1 A C
                | l1 cur post new_set left_key qh qb post' _ E F1 A C HL HR ].
  - congruence.
  - exists l, [], [], range. rewrite app_nil_r.
    split; [reflexivity|]. split; [reflexivity | apply contains_refl].
  - exists l0, [back], [], (mk_key_range (a back) (has_b range) (b range)).
    split; [exact E|]. split; [reflexivity|].
    subst l. unfold valid_range_set in V.
    destruct (valid_split _ _ _ _ V) as (_ & Nb & _).
    apply Forall_app in F. destruct F as [_ Fb].
    inversion Fb as [|? ? Bb _]; subst. apply below_iff in Bb.
    destruct Bb as [Bb _]. apply nonempty_iff in Nb.
    destruct Nb as [Nb|Nb]; [congruence|].
    apply extend_contains; auto.
  - exists l1, [cur], post, cur. auto.
  - destruct (left_part_split _ _ _ _ _ HL) as (midl & El).
    destruct (right_part_split _ _ _ _ _ _ HR) as (midr & Er).
    exists new_set, (midl ++ midr), post', (mk_key_range left_key qh qb).
    split.
    { rewrite E, El, <- !app_assoc. rewrite <- Er. reflexivity. }
    split; [reflexivity|]. subst l.
    destruct (left_part_valid _ _ _ _ _ _ V F1 HL) as (_ & _ & _ & Hra & _).
    apply contains_build; [exact Hra|].
    eapply right_part_covers; eauto.
Qed.

Lemma ordpairs_app {A} (R : A -> A -> Prop) l1 l2 x y :
  ForallOrdPairs R (l1 ++ l2) -> In x l1 -> In y l2 -> R x y.
Proof.
  induction l1 as [|z l1 IH]; intros H Hx Hy; [destruct Hx|].
  cbn [app] in H. inversion H as [|? ? F P]; subst.
  destruct Hx as [<-|Hx]; [|apply IH; auto].
  rewrite Forall_forall in F. apply F. apply in_or_app. right. exact Hy.
Qed.

Lemma contains_overlaps q x :
  is_empty_range x = false -> contains q x = true -> overlaps q x.
Proof.
  intros N C. exists (a x).
  assert (K : key_in_range x (a x) = true).
  { apply key_in_range_iff. split; [apply KeyFacts.le_refl|].
    apply nonempty_iff in N. destruct N; auto. }
  split; [eapply contains_key; eauto | exact K].
Qed.

Lemma overlaps_sym r1 r2 : overlaps r1 r2 -> overlaps r2 r1.
Proof. intros (k & K1 & K2). exists k. auto. Qed.

(** In a sorted, non-overlapping set a range at one place overlaps no
    range at another place. *)
Lemma sorted_disjoint_apart pre x post y :
  sorted_disjoint (pre ++ x :: post) -> In y pre \/ In y post ->
  ~ overlaps x y.
Proof.
  intros (_ & _ & P) [Hy|Hy] O.
  - apply (ordpairs_app _ pre (x :: post) y x P Hy (or_introl eq_refl)).
    apply overlaps_sym. exact O.
  - revert P. clear -Hy O. induction pre as [|z pre IH]; cbn [app]; intros P.
    + inversion P as [|? ? F _]; subst. rewrite Forall_forall in F.
      exact (F _ Hy O).
    + inversion P; subst. auto.
Qed.

Lemma add_cases_union range l l' :
  valid_range_set l = true -> is_empty_range range = false ->
  add_cases range l l' ->
  exists pre mid post q,
    l = pre ++ mid ++ post /\ l' = pre ++ q :: post /\
    contains q range = true /\
    Forall (fun x => contains q x = true) mid /\
    forall k, key_in_range q k = true <->
              key_in_range range k = true \/ covered mid k.
Proof.
  intros V NE H.
  pose proof (add_cases_valid _ _ _ V H) as V'.
  destruct (add_cases_shape _ _ _ V NE H) as (pre & mid & post & q & El & El' & Cq).
  exists pre, mid, post, q.
  split; [exact El|]. split; [exact El'|]. split; [exact Cq|].
  pose proof (proj2 (sorted_disjoint_iff _) V) as SD.
  pose proof (proj2 (sorted_disjoint_iff _) V') as SD'.
  assert (Fm : Forall (fun x => contains q x = true) mid).
  { apply Forall_forall. intros x Hx.
    assert (Hl : In x l).
    { rewrite El. apply in_or_app. right. apply in_or_app. left. exact Hx. }
    destruct (add_cases_absorbs _ _ _ _ V H Hl) as (q' & Hq' & C').
    assert (Nx : is_empty_range x = false).
    { destruct SD as (N & _). rewrite Forall_forall in N. auto. }
    rewrite El' in Hq'. apply in_app_or in Hq'.
    destruct Hq' as [Hq'|[<-|Hq']]; [exfalso| exact C' |exfalso].
    - (* a range of [pre] cannot hold a range of [mid] *)
      destruct SD as (_ & _ & P). rewrite El in P.
      apply (ordpairs_app _ pre (mid ++ post) q' x P Hq').
      + apply in_or_app. left. exact Hx.
      + apply contains_overlaps; assumption.
    - destruct SD as (_ & _ & P). rewrite El, app_assoc in P.
      apply (ordpairs_app _ (pre ++ mid) post x q' P).
      + apply in_or_app. right. exact Hx.
      + exact Hq'.
      + apply overlaps_sym. apply contains_overlaps; assumption. }
  split; [exact Fm|].
  intros k. split.
  - intros K.
    assert (Ck : covered l' k).
    { exists q. split; [rewrite El'; apply in_elt | exact K]. }
    destruct (add_cases_no_more _ _ _ _ V H Ck) as [(x & Hx & Kx)|Kr];
      [|left; exact Kr].
    right. rewrite El in Hx. apply in_app_or in Hx.
    destruct Hx as [Hx|Hx]; [exfalso|].
    { rewrite El' in SD'.
      apply (sorted_disjoint_apart pre q post x SD' (or_introl Hx)).
      exists k. auto. }
    apply in_app_or in Hx. destruct Hx as [Hx|Hx]; [exists x; auto | exfalso].
    rewrite El' in SD'.
    apply (sorted_disjoint_apart pre q post x SD' (or_intror Hx)).
    exists k. auto.
  - intros [K|(x & Hx & K)]; [eapply contains_key; eauto|].
    rewrite Forall_forall in Fm. eapply contains_key; [apply Fm|]; eauto.
Qed.

(** C6.  [add_absent_range] keeps a set sorted by lower bound and
    pairwise non-overlapping, whatever the range.  An empty range
    ([lo == hi] with an upper bound) and a range contained in a range of
    the set leave the set as it is.  Otherwise every range of the set
    that overlaps the new range, and the range that ends where the new
    one starts, end up with it inside one range of the result.  An
    open-ended range becomes the last range of the result, and that range
    contains every range of the set that it replaces.  The result holds
    exactly the keys of the set and of the range; it is the set with one
    block of neighbours replaced by a single range, whose keys are those
    of the block and of the new range; and where no two neighbours of the
    set touched, none of the result do. *)
Theorem add_absent_range_sorted_disjoint :
  forall (l : absent_range_vec) (range : key_range_t),
    sorted_disjoint l ->
    sorted_disjoint (add_absent_range range l) /\
    (has_b range = true -> a range = b range ->
     add_absent_range range l = l) /\
    (forall q, In q l -> contains q range = true ->
               add_absent_range range l = l) /\
    (is_empty_range range = false ->
     forall q', In q' l -> touches l range q' ->
       exists q, In q (add_absent_range range l) /\
                 contains q range = true /\ contains q q' = true) /\
    (has_b range = false ->
     exists pre rest q,
       l = pre ++ rest /\ add_absent_range range l = pre ++ [q] /\
       has_b q = false /\ Key.le (a q) (a range) /\
       Forall (fun x => contains q x = true) rest) /\
    (forall k, covered (add_absent_range range l) k <->
               covered l k \/ key_in_range range k = true) /\
    (is_empty_range range = false ->
     exists pre mid post q,
       l = pre ++ mid ++ post /\
       add_absent_range range l = pre ++ q :: post /\
       contains q range = true /\
       Forall (fun x => contains q x = true) mid /\
       forall k, key_in_range q k = true <->
                 key_in_range range k = true \/ covered mid k) /\
    (gaps l = true -> gaps (add_absent_range range l) = true).
Proof.
  intros l range H. apply sorted_disjoint_iff in H.
  pose proof (add_absent_range_cases _ range l H) as C.
  split; [apply sorted_disjoint_iff; apply add_absent_range_valid; exact H|].
  split.
  { intros Hb E. apply add_absent_range_empty.
    unfold is_empty_range. rewrite Hb, E. cbn [andb].
    apply KeyFacts.leb_true. apply KeyFacts.le_refl. }
  split; [intros q Hq Cq; eapply add_absent_range_contained; eauto|].
  split; [intros NE q' Hq T; apply add_absent_range_merged; auto|].
  split; [intros Hb; eapply add_cases_open; eauto|].
  split.
  { intros k. split.
    - apply add_cases_no_more; assumption.
    - intros [(q0 & Hq & K)|K].
      + destruct (add_cases_absorbs _ _ _ _ H C Hq) as (q & Hq' & Cq).
        exists q. split; [exact Hq'|]. eapply contains_key; eauto.
      + destruct (is_empty_range range) eqn:NE.
        { rewrite (empty_range_no_key _ k NE) in K. discriminate. }
        destruct (add_cases_container _ _ _ H NE C) as (l1 & q & post & E & Cq).
        exists q. split; [rewrite E; apply in_elt|].
        eapply contains_key; eauto. }
  split; [intros NE; apply add_cases_union; assumption|].
  intros G. eapply add_cases_gaps; eauto.
Qed.

Lemma add_absent_range_sorted_disjoint_witness :
  sorted_disjoint [key_range_bounded (digit_key 0) (digit_key 3)] /\
  sorted_disjoint
    (add_absent_range (key_range_bounded (digit_key 3) (digit_key 5))
       [key_range_bounded (digit_key 0) (digit_key 3)]) /\
  add_absent_range (key_range_bounded (digit_key 3) (digit_key 5))
    [key_range_bounded (digit_key 0) (digit_key 3)]
  = [key_range_bounded (digit_key 0) (digit_key 5)] /\
  (covered
     (add_absent_range (key_range_bounded (digit_key 3) (digit_key 5))
        [key_range_bounded (digit_key 0) (digit_key 3)]) (digit_key 7) <->
   covered [key_range_bounded (digit_key 0) (digit_key 3)] (digit_key 7) \/
   key_in_range (key_range_bounded (digit_key 3) (digit_key 5)) (digit_key 7)
   = true).
Proof.
  assert (H : sorted_disjoint [key_range_bounded (digit_key 0) (digit_key 3)])
    by (apply sorted_disjoint_iff; vm_compute; reflexivity).
  split; [exact H|].
  split.
  { exact (proj1 (add_absent_range_sorted_disjoint _
                    (key_range_bounded (digit_key 3) (digit_key 5)) H)). }
  split; [vm_compute; reflexivity|].
  exact (proj1 (proj2 (proj2 (proj2 (proj2 (proj2
           (add_absent_range_sorted_disjoint _
              (key_range_bounded (digit_key 3) (digit_key 5)) H))))))
           (digit_key 7)).
Defined.

(** X4.  An insertion into a valid set adds at most one range to the
    vector. *)
Theorem add_absent_range_grows_by_one :
  forall (l : absent_range_vec) (range : key_range_t),
    sorted_disjoint l ->
    length (add_absent_range range l) <= S (length l).
Proof.
  intros l range H. apply sorted_disjoint_iff in H.
  pose proof (add_absent_range_cases _ range l H) as C.
  destruct C as [ NE' | NE F HB | l0 back NE E F Eb | l1 cur post NE E F1 A C
                | l1 cur post new_set left_key qh qb post' NE E F1 A C HL HR ];
    auto.
  - rewrite length_app. cbn. lia.
  - subst l. rewrite !length_app. cbn. lia.
  - subst l. rewrite !length_app. cbn [length].
    assert (L1 : length new_set <= length l1).
    { destruct HL as [l0 p E Eb | HK]; [subst l1; rewrite length_app|]; lia. }
    assert (L2 : length post' <= S (length post)).
    { destruct HR as [ Hr | Hr Hb Hlt | Hr Hb Hle | Hr Hcb Hlt Fs
                     | p1 r1 p2 Hr Hcb Hlt Ep Fs St Hle
                     | p1 r1 p2 Hr Hcb Hlt Ep Fs Hgt ];
        try subst post; rewrite ?length_app; cbn [length]; lia. }
    lia.
Qed.

Lemma add_absent_range_grows_by_one_witness :
  sorted_disjoint
    [key_range_bounded (digit_key 0) (digit_key 3);
     key_range_bounded (digit_key 5) (digit_key 8)] /\
  length (add_absent_range (key_range_bounded (digit_key 3) (digit_key 4))
            [key_range_bounded (digit_key 0) (digit_key 3);
             key_range_bounded (digit_key 5) (digit_key 8)])
  <= S (length [key_range_bounded (digit_key 0) (digit_key 3);
                key_range_bounded (digit_key 5) (digit_key 8)]).
Proof.
  assert (H : sorted_disjoint
                [key_range_bounded (digit_key 0) (digit_key 3);
                 key_range_bounded (digit_key 5) (digit_key 8)])
    by (apply sorted_disjoint_iff; vm_compute; reflexivity).
  split; [exact H|].
  exact (add_absent_range_grows_by_one _
           (key_range_bounded (digit_key 3) (digit_key 4)) H).
Defined.

(** X5.  On a valid set, [upper_bound] with [key_range_search_less_cmp]
    returns what a scan from the left finds: the offset of the first
    range whose upper bound is above the key; every range before it ends
    at or below the key, and every range from it on reaches above. *)
Theorem upper_bound_first_range_above :
  forall (l : absent_range_vec) (k : Key.string_type),
    sorted_disjoint l ->
    upper_bound key_range_search_less_cmp l k
    = first_true key_range_search_less_cmp l k /\
    upper_bound key_range_search_less_cmp l k <= length l /\
    (forall i q, i < upper_bound key_range_search_less_cmp l k ->
                 nth_error l i = Some q ->
                 has_b q = true /\ Key.le (b q) k) /\
    (forall i q, upper_bound key_range_search_less_cmp l k <= i ->
                 nth_error l i = Some q ->
                 has_b q = false \/ Key.lt k (b q)).
Proof.
  intros l k H. apply sorted_disjoint_iff in H.
  destruct (valid_from_partition _ l k H) as (l1 & l2 & E & F1 & F2).
  subst l.
  rewrite (upper_bound_partition key_range_search_less_cmp k l1 l2 F1 F2).
  split.
  { symmetry. apply first_true_partition; [exact F1|].
    destruct l2; [exact I|]. inversion F2; auto. }
  split; [rewrite length_app; lia|].
  split.
  - intros i q Hi Hn. rewrite nth_error_app1 in Hn by exact Hi.
    apply nth_error_In in Hn. rewrite Forall_forall in F1.
    apply below_iff. apply F1. exact Hn.
  - intros i q Hi Hn. rewrite nth_error_app2 in Hn by exact Hi.
    apply nth_error_In in Hn. rewrite Forall_forall in F2.
    apply above_iff. apply F2. exact Hn.
Qed.

Lemma upper_bound_first_range_above_witness :
  sorted_disjoint
    [key_range_bounded (digit_key 0) (digit_key 3);
     key_range_bounded (digit_key 5) (digit_key 8);
     key_range_open (digit_key 9)] /\
  upper_bound key_range_search_less_cmp
    [key_range_bounded (digit_key 0) (digit_key 3);
     key_range_bounded (digit_key 5) (digit_key 8);
     key_range_open (digit_key 9)] (digit_key 4)
  = first_true key_range_search_less_cmp
      [key_range_bounded (digit_key 0) (digit_key 3);
       key_range_bounded (digit_key 5) (digit_key 8);
       key_range_open (digit_key 9)] (digit_key 4).
Proof.
  assert (H : sorted_disjoint
                [key_range_bounded (digit_key 0) (digit_key 3);
                 key_range_bounded (digit_key 5) (digit_key 8);
                 key_range_open (digit_key 9)])
    by (apply sorted_disjoint_iff; vm_compute; reflexivity).
  split; [exact H|].
  exact (proj1 (upper_bound_first_range_above _ (digit_key 4) H)).
Defined.

(** ** Local lookups *)

Lemma alist_find_nil_guard {V} (l : list (Key.string_type * V)) k :
  match l with [] => None | _ :: _ => alist_find Key.eqb k l end
  = alist_find Key.eqb k l.
Proof. destruct l; reflexivity. Qed.

(** X6.  With a sorted, non-overlapping absent-range set,
    [local_search_str] answers from the transaction's own state exactly
    when the key is in the write set, in the absent set, or (without
    [TXN_FLAG_LOW_LEVEL_SCAN]) inside an absent range; a write-set hit
    yields the pending payload, any other hit the empty value, and a
    miss leaves [v] as it was. *)
Theorem local_search_str_finds_local_state :
  forall (ctx : txn_context) (tx : transaction) (k v : Key.string_type),
    sorted_disjoint (absent_range_set ctx) ->
    (fst (local_search_str ctx tx k v) = true <->
     (exists w, alist_find Key.eqb k (write_set ctx) = Some w) \/
     (exists ar, alist_find Key.eqb k (absent_set ctx) = Some ar) \/
     (has_flag (flags tx) TXN_FLAG_LOW_LEVEL_SCAN = false /\
      covered (absent_range_set ctx) k)) /\
    (forall w, alist_find Key.eqb k (write_set ctx) = Some w ->
               local_search_str ctx tx k v = (true, r w)) /\
    (alist_find Key.eqb k (write_set ctx) = None ->
     fst (local_search_str ctx tx k v) = true ->
     snd (local_search_str ctx tx k v) = EmptyString) /\
    (fst (local_search_str ctx tx k v) = false ->
     snd (local_search_str ctx tx k v) = v).
Proof.
  intros ctx tx k v H. apply sorted_disjoint_iff in H.
  pose proof (key_in_absent_set_covered (absent_range_set ctx) k H) as K.
  unfold local_search_str. rewrite !alist_find_nil_guard.
  destruct (alist_find Key.eqb k (write_set ctx)) as [w|] eqn:Ew.
  { cbn. repeat split; eauto; try congruence. }
  destruct (alist_find Key.eqb k (absent_set ctx)) as [ar|] eqn:Ea.
  { cbn. repeat split; eauto; try congruence. }
  destruct (has_flag (flags tx) TXN_FLAG_LOW_LEVEL_SCAN) eqn:Ef; cbn [negb andb].
  { cbn. repeat split; auto; try congruence.
    intros [(w & E)|[(ar & E)|(E & _)]]; congruence. }
  destruct (key_in_absent_set (absent_range_set ctx) k) eqn:Ek; cbn [fst snd].
  - repeat split; auto; try congruence.
    intros _. right; right. split; [reflexivity | apply K; reflexivity].
  - repeat split; auto; try congruence.
    intros [(w & E)|[(ar & E)|(_ & C)]]; try congruence.
    apply K in C. congruence.
Qed.

Lemma local_search_str_finds_local_state_witness :
  let ctx :=
    mk_txn_context [] [] [(digit_key 7, mk_write_record (digit_key 1) false)] []
      [key_range_bounded (digit_key 0) (digit_key 3)] in
  let tx := toy_txn 0%Z ctx in
  sorted_disjoint (absent_range_set ctx) /\
  local_search_str ctx tx (digit_key 7) (digit_key 9) = (true, digit_key 1) /\
  (fst (local_search_str ctx tx (digit_key 5) (digit_key 9)) = false ->
   snd (local_search_str ctx tx (digit_key 5) (digit_key 9)) = digit_key 9).
Proof.
  intros ctx tx.
  assert (H : sorted_disjoint (absent_range_set ctx))
    by (apply sorted_disjoint_iff; vm_compute; reflexivity).
  split; [exact H|]. split.
  - exact (proj1 (proj2 (local_search_str_finds_local_state
                           ctx tx (digit_key 7) (digit_key 9) H))
             (mk_write_record (digit_key 1) false) eq_refl).
  - exact (proj2 (proj2 (proj2 (local_search_str_finds_local_state
                                  ctx tx (digit_key 5) (digit_key 9) H)))).
Defined.

(** X7.  In a transaction without [TXN_FLAG_LOW_LEVEL_SCAN] whose
    context has no pending writes and no absent keys, after the ranges
    of its scans were added one by one, [local_search_str] reports
    exactly the keys inside one of the scanned ranges, with the empty
    value. *)
Theorem local_search_str_after_scans :
  forall (ranges : list key_range_t) (rs : read_set_map) (ns : node_scan_map)
         (tx : transaction) (k v : Key.string_type),
    has_flag (flags tx) TXN_FLAG_LOW_LEVEL_SCAN = false ->
    local_search_str
      (mk_txn_context rs [] [] ns (add_absent_ranges ranges [])) tx k v
    = if existsb (fun range => key_in_range range k) ranges
      then (true, EmptyString) else (false, v).
Proof.
  intros ranges rs ns tx k v Hf. unfold local_search_str.
  cbn [write_set absent_set absent_range_set]. rewrite Hf. cbn [negb andb].
  rewrite key_in_absent_set_after_adds by reflexivity.
  reflexivity.
Qed.

Lemma local_search_str_after_scans_witness :
  let ranges := [key_range_bounded (digit_key 5) (digit_key 8);
                 key_range_bounded (digit_key 0) (digit_key 3)] in
  let tx := toy_txn TXN_FLAG_READ_ONLY (toy_context [] [] [] []) in
  has_flag (flags tx) TXN_FLAG_LOW_LEVEL_SCAN = false /\
  local_search_str (mk_txn_context [] [] [] [] (add_absent_ranges ranges []))
    tx (digit_key 2) (digit_key 9)
  = if existsb (fun range => key_in_range range (digit_key 2)) ranges
    then (true, EmptyString) else (false, digit_key 9).
Proof.
  intros ranges tx.
  assert (H : has_flag (flags tx) TXN_FLAG_LOW_LEVEL_SCAN = false)
    by reflexivity.
  split; [exact H|].
  exact (local_search_str_after_scans ranges [] [] tx (digit_key 2)
           (digit_key 9) H).
Defined.

(** ** Debugging output *)

(** X8.  [transaction_state_to_cstr] gives different states different
    names. *)
Theorem transaction_state_to_cstr_injective :
  forall s1 s2 : txn_state,
    transaction_state_to_cstr s1 = transaction_state_to_cstr s2 <-> s1 = s2.
Proof.
  intros s1 s2. split; [|intros ->; reflexivity].
  destruct s1, s2; cbn; intros H; try reflexivity; discriminate H.
Qed.

(** X9.  The string of [transaction_flags_to_str] tells exactly whether
    [TXN_FLAG_LOW_LEVEL_SCAN] and [TXN_FLAG_READ_ONLY] are set: two flag
    words print alike if and only if they agree on both bits. *)
Theorem transaction_flags_to_str_shows_both_flags :
  forall f1 f2 : Z,
    transaction_flags_to_str f1 = transaction_flags_to_str f2 <->
    has_flag f1 TXN_FLAG_LOW_LEVEL_SCAN = has_flag f2 TXN_FLAG_LOW_LEVEL_SCAN /\
    has_flag f1 TXN_FLAG_READ_ONLY = has_flag f2 TXN_FLAG_READ_ONLY.
Proof.
  intros f1 f2. unfold transaction_flags_to_str.
  destruct (has_flag f1 TXN_FLAG_LOW_LEVEL_SCAN),
    (has_flag f1 TXN_FLAG_READ_ONLY),
    (has_flag f2 TXN_FLAG_LOW_LEVEL_SCAN),
    (has_flag f2 TXN_FLAG_READ_ONLY); cbn;
    split; try (intros H; discriminate H); try (intros [H1 H2]; discriminate);
    auto.
Qed.

(** ** The outcome of [commit] *)

Section CommitOutcomes.

Context {W : Type} {PR : Protocol W} {ST : Storage W}.

Notation "x <- m ;; k" := (bind m (fun x => k))
  (at level 61, m at next level, right associativity).
Notation "m ;;; k" := (bind m (fun _ => k))
  (at level 61, right associativity).

Lemma commit_active fuel doThrow tx w :
  state tx = TXN_EMBRYO \/ state tx = TXN_ACTIVE ->
  commit fuel doThrow tx w
  = match commit_body fuel (commit_begin tx w) with
    | (Ok _, f) => (Returned true, commit_finish f)
    | (Jump, f) => (aborted doThrow (reason (txn (do_abort f))), do_abort f)
    | (OutOfFuel, f) => (CutOff, f)
    end.
Proof. intros [H|H]; unfold commit; rewrite H; reflexivity. Qed.

(** X10.  What [commit] returns agrees with the state it leaves: [true]
    only in state [TXN_COMMITED]; [false] only without [doThrow] and in
    state [TXN_ABRT]; and an exception only with [doThrow], in state
    [TXN_ABRT], carrying the stored abort reason. *)
Theorem commit_outcome_matches_state :
  forall (fuel : nat) (doThrow : bool) (tx : transaction) (w : W),
    state tx = TXN_EMBRYO \/ state tx = TXN_ACTIVE ->
    match fst (commit fuel doThrow tx w) with
    | Returned true =>
        state (txn (snd (commit fuel doThrow tx w))) = TXN_COMMITED
    | Returned false =>
        doThrow = false /\
        state (txn (snd (commit fuel doThrow tx w))) = TXN_ABRT
    | Threw e =>
        doThrow = true /\
        state (txn (snd (commit fuel doThrow tx w))) = TXN_ABRT /\
        e = transaction_abort_exception
              (reason (txn (snd (commit fuel doThrow tx w))))
    | CutOff => True
    end.
Proof.
  intros fuel doThrow tx w Hs. rewrite (commit_active _ _ _ _ Hs).
  destruct (commit_body fuel (commit_begin tx w)) as [[[]| |] f]; cbn [fst snd].
  - apply commit_finish_frame.
  - destruct (do_abort_frame f) as (D1 & D2 & _).
    unfold aborted. destruct doThrow; auto.
  - exact I.
Qed.

(** X11.  A second [commit] on the transaction a first [commit] left
    gives the same answer and calls nothing. *)
Theorem commit_again_gives_the_same :
  forall (fuel fuel' : nat) (doThrow : bool) (tx : transaction) (w w' : W),
    fst (commit fuel doThrow tx w) <> CutOff ->
    commit fuel' doThrow (txn (snd (commit fuel doThrow tx w))) w'
    = (fst (commit fuel doThrow tx w),
       commit_begin (txn (snd (commit fuel doThrow tx w))) w').
Proof.
  intros fuel fuel' doThrow tx w w' Hc.
  destruct (state tx) eqn:Hs.
  1, 2:
    pose proof (commit_outcome_matches_state fuel doThrow tx w
                  ltac:(rewrite Hs; auto)) as H;
    destruct (commit fuel doThrow tx w) as [res f]; cbn [fst snd] in *;
    destruct res as [[|]|e|];
      [ unfold commit; rewrite H; reflexivity
      | destruct H as [-> H]; unfold commit; rewrite H; reflexivity
      | destruct H as (-> & H & ->); unfold commit; rewrite H; reflexivity
      | congruence ].
  - unfold commit at 2 3 4. rewrite Hs. cbn [fst snd commit_begin txn].
    unfold commit. rewrite Hs. reflexivity.
  - unfold commit at 2 3 4. rewrite Hs. cbn [fst snd commit_begin txn].
    unfold commit. rewrite Hs. reflexivity.
Qed.

(** X12.  After an [abort_impl] that does not throw, the transaction
    is in state [TXN_ABRT] with the given reason (or the earlier one, if
    it had aborted before); a further [abort_impl] changes nothing, and
    [commit] reports that reason without calling anything. *)
Theorem abort_then_commit_reports_the_reason :
  forall (why why' : abort_reason) (tx tx' : transaction)
         (fuel : nat) (doThrow : bool) (w : W),
    abort_impl why tx = inl tx' ->
    state tx' = TXN_ABRT /\
    reason tx' = (match state tx with TXN_ABRT => reason tx | _ => why end) /\
    abort_impl why' tx' = inl tx' /\
    commit fuel doThrow tx' w = (aborted doThrow (reason tx'), commit_begin tx' w).
Proof.
  intros why why' tx tx' fuel doThrow w H. unfold abort_impl in H.
  destruct (state tx) eqn:Hs; try discriminate; injection H as <-;
    cbn [state reason]; rewrite ?Hs; repeat split; auto;
    unfold abort_impl, commit; cbn [state]; rewrite ?Hs; reflexivity.
Qed.

(** X13.  Once [commit] has returned [true], [abort_impl] throws
    [transaction_unusable_exception]. *)
Theorem abort_after_commit_is_unusable :
  forall (why : abort_reason) (fuel : nat) (doThrow : bool)
         (tx : transaction) (w : W),
    fst (commit fuel doThrow tx w) = Returned true ->
    abort_impl why (txn (snd (commit fuel doThrow tx w)))
    = inr transaction_unusable_exception.
Proof.
  intros why fuel doThrow tx w H.
  assert (S : state (txn (snd (commit fuel doThrow tx w))) = TXN_COMMITED).
  { destruct (state tx) eqn:Hs.
    1, 2: pose proof (commit_outcome_matches_state fuel doThrow tx w
                        ltac:(rewrite Hs; auto)) as C;
          rewrite H in C; exact C.
    - unfold commit in H. rewrite Hs in H. unfold aborted in H.
      destruct doThrow; discriminate.
    - unfold commit. rewrite Hs. exact Hs. }
  unfold abort_impl. rewrite S. reflexivity.
Qed.

(** *** Read-only transactions *)

Lemma find_write_nodes_no_writes fuel (f : frame W) :
  Forall (fun e => write_set (snd e) = []) (ctx_map (txn f)) ->
  find_write_nodes fuel f = (Ok tt, f).
Proof.
  intros H. unfold find_write_nodes, bind at 1, get_txn at 1.
  generalize 0%nat as n. revert H. generalize (ctx_map (txn f)) as l.
  induction l as [|[tree ctx] l IH]; intros H n; cbn [length seq combine for_each].
  - reflexivity.
  - inversion H as [|? ? H1 H2]; subst. cbn [snd] in H1.
    unfold bind at 1. rewrite H1. cbn [for_each ret].
    apply IH. exact H2.
Qed.

(** X14.  A transaction without pending writes that gets a consistent
    snapshot commits at once: [commit] returns [true] after the single
    call [consistent_snapshot_tid], validates nothing, and changes
    nothing but the state. *)
Theorem commit_read_only_on_snapshot :
  forall (fuel : nat) (doThrow : bool) (tx : transaction) (w : W),
    state tx = TXN_EMBRYO \/ state tx = TXN_ACTIVE ->
    Forall (fun e => write_set (snd e) = []) (ctx_map tx) ->
    fst (fst (consistent_snapshot_tid w)) = true ->
    commit fuel doThrow tx w
    = (Returned true,
       mk_frame
         (mk_transaction TXN_COMMITED (reason tx) (flags tx) (ctx_map tx))
         [] (false, 0%Z) (snd (consistent_snapshot_tid w))
         [EvConsistentSnapshotTid (fst (consistent_snapshot_tid w))]).
Proof.
  intros fuel doThrow tx w Hs Hw Hc. rewrite (commit_active _ _ _ _ Hs).
  unfold commit_body. unfold bind at 1, call at 1. cbv zeta.
  cbn [commit_begin world txn dbtuples commit_tid trace app].
  unfold bind at 1. rewrite find_write_nodes_no_writes by exact Hw.
  unfold commit_after_find, bind at 1, get_dbtuples at 1.
  cbn [dbtuples vec_empty negb]. rewrite Hc. cbn [negb orb ret].
  reflexivity.
Qed.

(** *** One write tuple per write-set entry *)

Lemma for_each_collect {A B : Type} (g : frame W -> list B) (h : A -> list B)
      (body : A -> @M W unit) (l : list A) :
  (forall x f1 f2, body x f1 = (Ok tt, f2) -> g f2 = g f1 ++ h x) ->
  forall f f', for_each l body f = (Ok tt, f') ->
               g f' = g f ++ flat_map h l.
Proof.
  intros Hb. induction l as [|x l IH]; intros f f' H; cbn [for_each flat_map] in *.
  - injection H as <-. rewrite app_nil_r. reflexivity.
  - unfold bind in H. destruct (body x f) as [[[]| |] f1] eqn:E; try discriminate.
    rewrite (IH _ _ H), (Hb _ _ _ E), app_assoc. reflexivity.
Qed.

Lemma modify_ctx_dbtuples i g (f : frame W) res f' :
  modify_ctx i g f = (res, f') -> res = Ok tt /\ dbtuples f' = dbtuples f.
Proof. rewrite modify_ctx_run. intros H; injection H as <- <-. auto. Qed.

Lemma update_node_scan_dbtuples i node version (f : frame W) f' :
  update_node_scan i node version f = (Ok tt, f') -> dbtuples f' = dbtuples f.
Proof.
  unfold update_node_scan, bind, get_txn.
  destruct (has_flag _ _); [|intros H; injection H as <-; reflexivity].
  destruct (nth_error _ _) as [[? ctx]|]; [|intros H; injection H as <-; reflexivity].
  destruct (alist_find _ _ _) as [v|]; [|intros H; injection H as <-; reflexivity].
  destruct (negb _); [discriminate|].
  intros H. apply modify_ctx_dbtuples in H. tauto.
Qed.

Lemma emplace_then_marks e i p k ty (f f' : frame W) res :
  (emplace_back e ;;; mark_read_set i p ;;; mark_absent_set i k ty p) f
  = (res, f') ->
  res = Ok tt /\ dbtuples f' = dbtuples f ++ [e].
Proof.
  unfold emplace_back, mark_read_set, mark_absent_set.
  unfold bind, get_dbtuples, set_dbtuples. rewrite !modify_ctx_run.
  intros H; injection H as <- <-. auto.
Qed.

Lemma find_write_node_adds_one fuel :
  forall i tree k wr try_insert_path (f f' : frame W),
    find_write_node fuel i tree k wr try_insert_path f = (Ok tt, f') ->
    exists p ins,
      dbtuples f' = dbtuples f ++ [(p, mk_dbtuple_info tree k ins (r wr) ins)].
Proof.
  induction fuel as [|fuel IH]; intros i tree k wr tip f f' H;
    cbn [find_write_node] in H; [discriminate|].
  unfold bind at 1 in H.
  destruct ((if tip then ret None
             else call (btree_search tree k) (EvSearch tree k)) f)
    as [[found| |] f0] eqn:E0; try discriminate.
  assert (D0 : dbtuples f0 = dbtuples f).
  { destruct tip; unfold ret, call in E0; cbv zeta in E0;
      injection E0 as <- <-; reflexivity. }
  destruct found as [v|].
  - unfold search_succeeded in H. apply emplace_then_marks in H.
    destruct H as [_ H]. rewrite D0 in H. eauto.
  - unfold bind at 1 2 3, call at 1 2 3 in H. cbv zeta in H.
    cbn [txn dbtuples commit_tid world trace fst snd] in H.
    destruct (fst (btree_insert_if_absent tree k _ _)) as [[node version]|].
    + unfold insert_succeeded in H. unfold bind at 1 in H.
      destruct (update_node_scan i node version _) as [[[]| |] f1] eqn:E1;
        try discriminate.
      apply update_node_scan_dbtuples in E1. cbn [dbtuples] in E1.
      apply emplace_then_marks in H. destruct H as [_ H].
      rewrite E1, D0 in H. eauto.
    + unfold bind at 1 2, call_ at 1 2 in H.
      cbn [txn dbtuples commit_tid world trace fst snd] in H.
      apply IH in H. cbn [dbtuples] in H. rewrite D0 in H. exact H.
Qed.

(** X15.  When Phase A goes through, it has appended one write tuple
    per write-set entry, in the order of the contexts and their write
    sets, each with the index, the key and the payload of its entry. *)
Theorem find_write_nodes_one_tuple_per_write :
  forall (fuel : nat) (f f' : frame W),
    find_write_nodes fuel f = (Ok tt, f') ->
    written (dbtuples f') = written (dbtuples f) ++ to_write (ctx_map (txn f)) /\
    length (dbtuples f')
    = length (dbtuples f) + length (to_write (ctx_map (txn f))).
Proof.
  intros fuel f f' H.
  assert (E : written (dbtuples f')
              = written (dbtuples f) ++ to_write (ctx_map (txn f))).
  { unfold find_write_nodes, bind at 1, get_txn at 1 in H.
    unfold to_write.
    assert (G : forall (l : ctx_map_type) n g g',
               for_each (combine (seq n (length l)) l)
                 (fun e : nat * (pointer * txn_context) =>
                    let '(i, (tree, ctx)) := e in
                    for_each (write_set ctx)
                      (fun w => find_write_node fuel i tree (fst w) (snd w)
                                  (insert (snd w)))) g = (Ok tt, g') ->
               written (dbtuples g')
               = written (dbtuples g)
                 ++ flat_map
                      (fun e => map (fun w => (fst e, fst w, r (snd w)))
                                  (write_set (snd e))) l).
    { induction l as [|[tree ctx] l IHl]; intros n g g' Hg;
        cbn [length seq combine for_each flat_map] in *.
      - injection Hg as <-. rewrite app_nil_r. reflexivity.
      - unfold bind at 1 in Hg.
        destruct (for_each (write_set ctx) _ g) as [[[]| |] g1] eqn:E1;
          try discriminate.
        rewrite (IHl _ _ _ Hg). rewrite app_assoc. f_equal.
        cbn [fst snd].
        rewrite <- (flat_map_concat_map
                      (fun w => [(tree, fst w, r (snd w))]) (write_set ctx))
          || idtac.
        revert E1.
        apply (for_each_collect (fun h => written (dbtuples h))
                 (fun w : Key.string_type * write_record_t =>
                    [(tree, fst w, r (snd w))])).
        intros w f1 f2 Hw. apply find_write_node_adds_one in Hw.
        destruct Hw as (p & ins & Hw). rewrite Hw. unfold written.
        rewrite map_app. reflexivity. }
    exact (G _ _ _ _ H). }
  split; [exact E|].
  apply (f_equal (@length _)) in E. unfold written in E.
  rewrite length_app, !length_map in E. exact E.
Qed.

End CommitOutcomes.

Section CommitOutcomeExamples.

Local Open Scope Z_scope.

Lemma commit_outcome_matches_state_witness :
  let tx := toy_txn 0 (toy_context [(5, mk_read_record 7 false)] [] [] []) in
  let w := mk_toy_world 4 true false true None None 1000 in
  (state tx = TXN_EMBRYO \/ state tx = TXN_ACTIVE) /\
  fst (commit 1 true tx w)
  = Threw (transaction_abort_exception ABORT_REASON_READ_NODE_INTEREFERENCE) /\
  match fst (commit 1 true tx w) with
  | Returned true => state (txn (snd (commit 1 true tx w))) = TXN_COMMITED
  | Returned false =>
      true = false /\ state (txn (snd (commit 1 true tx w))) = TXN_ABRT
  | Threw e =>
      true = true /\
      state (txn (snd (commit 1 true tx w))) = TXN_ABRT /\
      e = transaction_abort_exception (reason (txn (snd (commit 1 true tx w))))
  | CutOff => True
  end.
Proof.
  intros tx w.
  assert (H : state tx = TXN_EMBRYO \/ state tx = TXN_ACTIVE)
    by (right; reflexivity).
  split; [exact H|]. split; [vm_compute; reflexivity|].
  exact (commit_outcome_matches_state 1%nat true tx w H).
Defined.

Lemma commit_again_gives_the_same_witness :
  let wr := mk_write_record (digit_key 5) false in
  let tx := toy_txn 0 (toy_context [] [] [(digit_key 1, wr)] []) in
  let w := mk_toy_world 4 true true true (Some 64) None 1000 in
  fst (commit 1 false tx w) <> CutOff /\
  fst (commit 1 false tx w) = Returned true /\
  commit 0 false (txn (snd (commit 1 false tx w))) toy_calm
  = (fst (commit 1 false tx w),
     commit_begin (txn (snd (commit 1 false tx w))) toy_calm).
Proof.
  intros wr tx w.
  assert (H : fst (commit 1 false tx w) <> CutOff)
    by (vm_compute; discriminate).
  split; [exact H|]. split; [vm_compute; reflexivity|].
  exact (commit_again_gives_the_same 1%nat 0%nat false tx w toy_calm H).
Defined.

Lemma abort_then_commit_reports_the_reason_witness :
  let tx := toy_txn 0 (toy_context [] [] [] []) in
  let tx' := mk_transaction TXN_ABRT ABORT_REASON_USER 0 (ctx_map tx) in
  abort_impl ABORT_REASON_USER tx = inl tx' /\
  commit 1 true tx' toy_calm
  = (aborted true (reason tx'), commit_begin tx' toy_calm).
Proof.
  intros tx tx'.
  assert (H : abort_impl ABORT_REASON_USER tx = inl tx') by reflexivity.
  split; [exact H|].
  exact (proj2 (proj2 (proj2
           (abort_then_commit_reports_the_reason ABORT_REASON_USER
              ABORT_REASON_USER tx tx' 1%nat true toy_calm H)))).
Defined.

Lemma abort_after_commit_is_unusable_witness :
  let tx := toy_txn 0 (toy_context [(5, mk_read_record 7 false)] [] [] []) in
  fst (commit 1 false tx toy_calm) = Returned true /\
  abort_impl ABORT_REASON_USER (txn (snd (commit 1 false tx toy_calm)))
  = inr transaction_unusable_exception.
Proof.
  intros tx.
  assert (H : fst (commit 1 false tx toy_calm) = Returned true)
    by (vm_compute; reflexivity).
  split; [exact H|].
  exact (abort_after_commit_is_unusable ABORT_REASON_USER 1%nat false tx
           toy_calm H).
Defined.

Lemma commit_read_only_on_snapshot_witness :
  let tx := toy_txn TXN_FLAG_READ_ONLY
              (toy_context [(5, mk_read_record 7 false)] [] [] []) in
  let w := mk_toy_world 4 true false true None None 1000 in
  (state tx = TXN_EMBRYO \/ state tx = TXN_ACTIVE) /\
  Forall (fun e => write_set (snd e) = []) (ctx_map tx) /\
  fst (fst (@consistent_snapshot_tid _ snapshot_protocol w)) = true /\
  fst (@commit _ snapshot_protocol toy_storage 0 false tx w) = Returned true /\
  fst (@commit _ toy_protocol toy_storage 0 false tx w) = Returned false.
Proof.
  intros tx w.
  assert (H1 : state tx = TXN_EMBRYO \/ state tx = TXN_ACTIVE)
    by (right; reflexivity).
  assert (H2 : Forall (fun e => write_set (snd e) = []) (ctx_map tx))
    by (repeat constructor).
  assert (H3 : fst (fst (@consistent_snapshot_tid _ snapshot_protocol w)) = true)
    by reflexivity.
  split; [exact H1|]. split; [exact H2|]. split; [exact H3|].
  split; [|vm_compute; reflexivity].
  exact (f_equal fst
           (@commit_read_only_on_snapshot _ snapshot_protocol toy_storage
              0%nat false tx w H1 H2 H3)).
Defined.

Lemma find_write_nodes_one_tuple_per_write_witness :
  let ctx := toy_context [] []
               [(digit_key 1, mk_write_record (digit_key 5) false);
                (digit_key 2, mk_write_record (digit_key 6) true)] [] in
  let w := mk_toy_world 4 true true true (Some 64) (Some (200, 6)) 1000 in
  let f := mk_frame (toy_txn 0 ctx) [] (false, 0) w [] in
  find_write_nodes 1 f = (Ok tt, snd (find_write_nodes 1 f)) /\
  written (dbtuples (snd (find_write_nodes 1 f)))
  = [(100, digit_key 1, digit_key 5); (100, digit_key 2, digit_key 6)].
Proof.
  intros ctx w f.
  assert (H : find_write_nodes 1 f = (Ok tt, snd (find_write_nodes 1 f)))
    by (vm_compute; reflexivity).
  split; [exact H|].
  exact (proj1 (find_write_nodes_one_tuple_per_write 1%nat f _ H)).
Defined.

End CommitOutcomeExamples.

(** ** The locks [commit] takes and releases *)

Section LockBalance.

Local Open Scope Z_scope.

Context {W : Type} {PR : Protocol W} {ST : Storage W}.

Notation "x <- m ;; k" := (bind m (fun x => k))
  (at level 61, m at next level, right associativity).
Notation "m ;;; k" := (bind m (fun _ => k))
  (at level 61, right associativity).

Lemma locks_held_app p a b :
  locks_held p (a ++ b) = locks_held p a + locks_held p b.
Proof. unfold locks_held. induction a as [|x a IH]; cbn [app fold_right]; lia. Qed.

Lemma marked_locked_app p a b :
  marked_locked p (a ++ b) = marked_locked p a + marked_locked p b.
Proof. unfold marked_locked. induction a as [|x a IH]; cbn [app fold_right]; lia. Qed.

Lemma marked_locked_perm p v v' :
  Permutation v v' -> marked_locked p v = marked_locked p v'.
Proof.
  unfold marked_locked. induction 1; cbn [fold_right]; lia.
Qed.

Lemma marked_locked_cons p e v :
  marked_locked p (e :: v)
  = (if (fst e =? p) && locked (snd e) then 1 else 0) + marked_locked p v.
Proof. reflexivity. Qed.

Lemma locks_held_unlocks p v :
  locks_held p (map (fun e => EvUnlock (fst e)) (filter (fun e => locked (snd e)) v))
  = - marked_locked p v.
Proof.
  induction v as [|e v IH]; cbn [filter map]; [reflexivity|].
  rewrite marked_locked_cons.
  destruct (locked (snd e)); cbn [map].
  - change (locks_held p (EvUnlock (fst e) :: ?l))
      with (lock_delta p (EvUnlock (fst e)) + locks_held p l).
    cbn [lock_delta]. rewrite IH, andb_true_r. destruct (fst e =? p); lia.
  - rewrite IH, andb_false_r. lia.
Qed.

Ltac still_done :=
  split; [intros; eauto | split; [discriminate | repeat split; auto]].

Lemma still_ret {A} s (x : A) : still s (@ret W A x).
Proof. intros f res f' H. injection H as <- <-. still_done. Qed.

Lemma still_bind {A B} s (m : @M W A) (k : A -> @M W B) :
  still s m -> (forall x, still s (k x)) -> still s (bind m k).
Proof.
  intros Hm Hk f res f' H. unfold bind in H.
  destruct (m f) as [[x| |] f1] eqn:E;
    destruct (Hm _ _ _ E) as (S1 & N1 & D1 & F1 & L1).
  - destruct (Hk x _ _ _ H) as (S2 & N2 & D2 & F2 & L2).
    split; [exact S2|]. split; [exact N2|].
    split; [congruence|]. split; [congruence|].
    intros p. rewrite L2. apply L1.
  - injection H as <- <-.
    split; [intros Hs; destruct (S1 Hs) as (x & Q); discriminate Q|].
    split; [discriminate|]. repeat split; auto.
  - congruence.
Qed.

Lemma still_call {A} s (op : W -> A * W) (ev : A -> event) :
  (forall x p, lock_delta p (ev x) = 0) -> still s (call op ev).
Proof.
  intros Hev f res f' H. unfold call in H. cbv zeta in H.
  injection H as <- <-. cbn [dbtuples txn trace]. still_done.
  intros p. rewrite locks_held_app. cbn. rewrite Hev. lia.
Qed.

Lemma still_call_ s (op : W -> W) (ev : event) :
  (forall p, lock_delta p ev = 0) -> still s (call_ op ev).
Proof.
  intros Hev f res f' H. unfold call_ in H.
  injection H as <- <-. cbn [dbtuples txn trace]. still_done.
  intros p. rewrite locks_held_app. cbn. rewrite Hev. lia.
Qed.

Lemma still_abort_goto {A} why : still false (@abort_goto W A why).
Proof.
  intros f res f' H. unfold abort_goto in H. injection H as <- <-.
  cbn. repeat split; auto; discriminate.
Qed.

Lemma still_get_txn s : still s (@get_txn W).
Proof. intros f res f' H. injection H as <- <-. still_done. Qed.

Lemma still_get_dbtuples s : still s (@get_dbtuples W).
Proof. intros f res f' H. injection H as <- <-. still_done. Qed.

Lemma still_set_commit_tid s c : still s (@set_commit_tid W c).
Proof. intros f res f' H. injection H as <- <-. cbn. still_done. Qed.

Lemma still_modify_ctx s i g : still s (@modify_ctx W i g).
Proof.
  intros f res f' H. rewrite modify_ctx_run in H. injection H as <- <-.
  cbn. still_done.
Qed.

Lemma still_for_each {A} s (l : list A) (body : A -> @M W unit) :
  (forall x, still s (body x)) -> still s (for_each l body).
Proof.
  intros Hb. induction l as [|x l IH]; cbn [for_each].
  - apply still_ret.
  - apply still_bind; auto.
Qed.

Ltac still_calls :=
  first [ apply still_ret | apply still_get_txn | apply still_get_dbtuples
        | apply still_set_commit_tid | apply still_modify_ctx
        | apply still_abort_goto
        | apply still_call; intros; reflexivity
        | apply still_call_; intros; reflexivity ].

(** *** Phase C *)

Lemma still_read_validation : still (W:=W) false read_validation.
Proof.
  unfold read_validation. apply still_bind; [still_calls|]. intros tx.
  apply still_for_each. intros [tree ctx]. cbn [fst snd].
  apply still_bind; [|intros _; apply still_bind; [|intros _]].
  - unfold validate_read_set. apply still_for_each. intros e.
    apply still_bind.
    + unfold read_check. destruct (holds_lock (snd e)); still_calls.
    + intros []; still_calls.
  - unfold validate_absent_set. apply still_for_each. intros e.
    unfold absent_check. destruct (type (snd e)).
    + apply still_bind; [still_calls|]. intros [v|]; [|still_calls].
      apply still_bind; [still_calls|]. intros []; still_calls.
    + apply still_bind; [still_calls|]. intros []; still_calls.
    + still_calls.
  - unfold validate_scans. apply still_bind; [still_calls|]. intros tx'.
    destruct (has_flag _ _); apply still_for_each; intros e;
      (apply still_bind; [still_calls|]); intros x.
    + destruct (negb _); still_calls.
    + destruct x; still_calls.
Qed.

(** *** Phase D *)

Lemma lock_guard_still p (body : @M W unit) :
  still true body -> still true (lock_guard p body).
Proof.
  intros Hb f res f' H. unfold lock_guard in H.
  destruct (p =? 0) eqn:E.
  - revert f res f' H.
    change (still true (ret tt ;;; body ;;; ret tt)).
    repeat (apply still_bind; [|intros _]); auto; still_calls.
  - unfold bind at 1 2, call at 1 in H. cbv zeta in H. cbn [ret] in H.
    unfold bind at 1 in H.
    match type of H with
    | context [body ?g] => destruct (body g) as [r1 f1] eqn:E1
    end.
    destruct (Hb _ _ _ E1) as (S1 & N1 & D1 & F1 & L1).
    destruct (S1 eq_refl) as ([] & ->).
    unfold call_ in H. injection H as <- <-.
    cbn [dbtuples txn trace] in *. still_done.
    intros q. rewrite locks_held_app, L1, locks_held_app. cbn.
    destruct (p =? q); lia.
Qed.

Lemma write_record_unlocks tid e (f : frame W) res f' :
  write_record tid e f = (res, f') ->
  res = Ok tt /\ dbtuples f' = dbtuples f /\
  forall p, locks_held p (trace f')
            = locks_held p (trace f) - (if fst e =? p then 1 else 0).
Proof.
  unfold write_record. cbv zeta. intros H.
  unfold bind at 1 in H.
  match type of H with
  | context [match ?m f with _ => _ end] =>
      assert (S : still true m); [|destruct (m f) as [r1 f1] eqn:E1]
  end.
  { destruct (info_insert (snd e)).
    - apply still_bind; [still_calls | intros _; still_calls].
    - apply still_bind; [still_calls|]. intros r.
      apply lock_guard_still.
      apply still_bind; [|intros _; apply still_bind; [|intros _]].
      + destruct (negb _); [apply still_bind; [still_calls|intros; still_calls]|still_calls].
      + destruct (fst r); still_calls.
      + destruct (is_empty_string _); still_calls. }
  destruct (S _ _ _ E1) as (S1 & N1 & D1 & F1 & L1).
  destruct (S1 eq_refl) as ([] & ->).
  unfold call_ in H. injection H as <- <-. cbn [dbtuples trace].
  repeat split; auto. intros p. rewrite locks_held_app, L1. cbn.
  destruct (fst e =? p); lia.
Qed.

Lemma write_records_unlock tid (l : dbtuple_vec) :
  Forall (fun e => locked (snd e) = true) l ->
  forall (f : frame W) res f',
    for_each l (write_record tid) f = (res, f') ->
    res = Ok tt /\ dbtuples f' = dbtuples f /\
    forall p, locks_held p (trace f')
              = locks_held p (trace f) - marked_locked p l.
Proof.
  induction 1 as [|e l L F IH]; intros f res f' H; cbn [for_each] in *.
  - injection H as <- <-. repeat split; auto. intros p. cbn. lia.
  - unfold bind in H. destruct (write_record tid e f) as [r1 f1] eqn:E1.
    destruct (write_record_unlocks _ _ _ _ _ E1) as (-> & D1 & L1).
    destruct (IH _ _ _ H) as (-> & D2 & L2).
    repeat split; try congruence. intros p.
    rewrite L2, L1, marked_locked_cons, L, andb_true_r. lia.
Qed.

(** *** Phase B *)

Lemma lock_nodes_owed (todo : dbtuple_vec) :
  forall (done : dbtuple_vec) (f : frame W) res f',
    dbtuples f = done ++ todo ->
    lock_nodes done todo f = (res, f') ->
    res <> OutOfFuel /\
    flags (txn f') = flags (txn f) /\
    (forall p, owed p f' = owed p f) /\
    (res = Ok tt -> dbtuples f' = done ++ lock_all todo).
Proof.
  induction todo as [|e rest IH]; intros done f res f' Hd H.
  - cbn in H. injection H as <- <-. repeat split; auto. discriminate.
  - cbn [lock_nodes lock_all map] in *.
    destruct (locked (snd e)) eqn:L.
    + destruct (IH (done ++ [e]) f res f') as (H1 & H2 & H3 & H4); auto.
      { rewrite Hd, <- app_assoc. reflexivity. }
      repeat split; auto. intros R. rewrite (H4 R), <- app_assoc. reflexivity.
    + unfold bind at 1 2, call at 1, set_dbtuples at 1 in H. cbv zeta in H.
      cbn [txn dbtuples commit_tid world trace fst snd] in H.
      unfold bind at 1 in H.
      match type of H with
      | context [write_interference ?a ?b ?g] =>
          destruct (write_interference a b g) as [r1 f1] eqn:E1;
          set (g0 := g) in *
      end.
      assert (S : still false (write_interference (fst e)
                                 (fst (tuple_lock (fst e) true (world f))))).
      { unfold write_interference. destruct (_ || _); [still_calls|].
        apply still_bind; [still_calls|]. intros tid.
        apply still_bind; [still_calls|]. intros ok. still_calls. }
      destruct (S _ _ _ E1) as (_ & N1 & D1 & F1 & L1).
      assert (O0 : forall p, owed p g0 = owed p f).
      { intros p. unfold owed. subst g0. cbn [trace dbtuples].
        rewrite Hd, locks_held_app, !marked_locked_app. cbn [locks_held fold_right lock_delta].
        rewrite !marked_locked_cons.
        cbn [set_locked fst snd locked]. rewrite L, andb_true_r, andb_false_r.
        destruct (fst e =? p); lia. }
      assert (O1 : forall p, owed p f1 = owed p f).
      { intros p. rewrite <- O0. unfold owed. rewrite D1, L1. reflexivity. }
      destruct r1 as [bad| |].
      * destruct bad.
        -- unfold abort_goto in H. injection H as <- <-.
           repeat split; auto; try discriminate.
        -- apply IH in H.
           ++ destruct H as (H1 & H2 & H3 & H4).
              split; [exact H1|]. split; [rewrite H2, F1; reflexivity|].
              split.
              ** intros p. rewrite H3. apply O1.
              ** intros R. rewrite (H4 R), <- app_assoc.
                 unfold lock_all. cbn [app]. reflexivity.
           ++ rewrite D1. subst g0. cbn [dbtuples]. rewrite <- app_assoc.
              reflexivity.
      * injection H as <- <-. repeat split; auto; try discriminate.
      * congruence.
Qed.

Lemma lock_write_nodes_owed (f : frame W) res f' :
  lock_write_nodes f = (res, f') ->
  res <> OutOfFuel /\
  flags (txn f') = flags (txn f) /\
  (forall p, owed p f' = owed p f) /\
  (res = Ok tt -> Forall (fun e => locked (snd e) = true) (dbtuples f')).
Proof.
  unfold lock_write_nodes. intros H.
  unfold bind at 1 2, get_dbtuples at 1, set_dbtuples at 1 in H.
  unfold bind at 1 in H.
  match type of H with
  | context [lock_nodes [] ?v ?g] =>
      destruct (lock_nodes [] v g) as [r1 f1] eqn:E1; set (g0 := g) in *
  end.
  apply lock_nodes_owed in E1; [|reflexivity].
  destruct E1 as (N1 & F1 & O1 & D1).
  assert (O0 : forall p, owed p g0 = owed p f).
  { intros p. unfold owed. subst g0. cbn [trace dbtuples].
    rewrite (marked_locked_perm p _ _ (LNodeSort.Permuted_sort (dbtuples f))).
    reflexivity. }
  destruct r1 as [[]| |]; [|injection H as <- <-|congruence].
  - unfold bind, get_dbtuples, call, set_commit_tid in H. cbv zeta in H.
    injection H as <- <-. cbn [txn dbtuples trace].
    repeat split; auto; try discriminate.
    + intros p. rewrite <- O0, <- O1. unfold owed. cbn [trace dbtuples].
      rewrite locks_held_app. cbn. lia.
    + intros _. rewrite (D1 eq_refl). cbn [app]. apply lock_all_locked.
  - repeat split; auto; try discriminate.
    intros p. rewrite <- O0. apply O1.
Qed.

(** Phases B, C and D together. *)
Lemma commit_after_find_owed snap (f : frame W) res f' :
  commit_after_find snap f = (res, f') ->
  match res with
  | Ok _ => forall p, locks_held p (trace f') = owed p f
  | Jump => forall p, owed p f' = owed p f
  | OutOfFuel => False
  end.
Proof.
  unfold commit_after_find. unfold bind at 1, get_dbtuples at 1.
  destruct (dbtuples f) as [|e0 v0] eqn:Dv; cbn [vec_empty negb].
  - rewrite orb_false_r. destruct (negb (fst snap)).
    + intros H. unfold bind at 1, ret at 1 in H. unfold bind at 1 in H.
      destruct (read_validation f) as [r1 f1] eqn:E1.
      destruct (still_read_validation _ _ _ E1) as (_ & N1 & D1 & F1 & L1).
      destruct r1 as [[]| |].
      * unfold bind, get_dbtuples in H. rewrite D1, Dv in H. cbn in H.
        injection H as <- <-. intros p. unfold owed. rewrite L1, Dv. cbn. lia.
      * injection H as <- <-. intros p. unfold owed. rewrite L1, D1. reflexivity.
      * congruence.
    + intros H. injection H as <- <-. intros p. unfold owed. rewrite Dv. cbn. lia.
  - rewrite orb_true_r. intros H. unfold bind at 1 in H.
    destruct (lock_write_nodes f) as [r0 f0] eqn:E0.
    destruct (lock_write_nodes_owed _ _ _ E0) as (N0 & F0 & O0 & A0).
    destruct r0 as [[]| |]; [|injection H as <- <-; exact O0|congruence].
    specialize (A0 eq_refl).
    unfold bind at 1 in H.
    destruct (read_validation f0) as [r1 f1] eqn:E1.
    destruct (still_read_validation _ _ _ E1) as (_ & N1 & D1 & F1 & L1).
    destruct r1 as [[]| |].
    + unfold bind at 1, get_dbtuples at 1 in H.
      destruct (negb (vec_empty (dbtuples f1))) eqn:V.
      * unfold write_records in H.
        rewrite D1 in H.
        destruct (write_records_unlock _ _ A0 _ _ _ H) as (-> & D2 & L2).
        intros p. rewrite L2, <- O0. unfold owed.
        rewrite L1. reflexivity.
      * injection H as <- <-. intros p. rewrite <- O0. unfold owed.
        rewrite L1. destruct (dbtuples f1) as [|] eqn:D1'; [|discriminate V].
        rewrite <- D1. cbn. lia.
    + injection H as <- <-. intros p. rewrite <- O0. unfold owed.
      rewrite L1, D1. reflexivity.
    + congruence.
Qed.

(** *** Phase A *)

Lemma lock_kept_refl (f : frame W) : lock_kept f f.
Proof. split; auto. Qed.

Lemma lock_kept_trans (f1 f2 f3 : frame W) :
  lock_kept f1 f2 -> lock_kept f2 f3 -> lock_kept f1 f3.
Proof.
  intros [A1 B1] [A2 B2]. split; [congruence|].
  intros p. rewrite B2. apply B1.
Qed.

Lemma lock_kept_left (f1 f2 f3 : frame W) :
  lock_kept f1 f2 -> lock_left f2 f3 -> lock_left f1 f3.
Proof.
  intros [A1 B1] (A2 & q & tree & k & info & I & B2).
  split; [rewrite <- A1; exact A2|].
  exists q, tree, k, info. split; [exact I|].
  intros p. rewrite B2, B1. reflexivity.
Qed.

Lemma for_each_lock_phase {A} (body : A -> @M W unit) (l : list A) :
  (forall x f res f', body x f = (res, f') -> lock_phase f res f') ->
  forall f res f', for_each l body f = (res, f') -> lock_phase f res f'.
Proof.
  intros Hb. induction l as [|x l IH]; intros f res f' H; cbn [for_each] in H.
  - injection H as <- <-. apply lock_kept_refl.
  - unfold bind in H. destruct (body x f) as [[[]| |] f1] eqn:E.
    + pose proof (Hb _ _ _ _ E) as K1. pose proof (IH _ _ _ H) as K2.
      cbn [lock_phase] in K1. destruct res as [[]| |]; cbn [lock_phase] in *.
      * eapply lock_kept_trans; eauto.
      * eapply lock_kept_left; eauto.
      * exact I.
    + injection H as <- <-. exact (Hb _ _ _ _ E).
    + injection H as <- <-. exact I.
Qed.

Lemma emplace_then_marks_frame e i p k ty (f f' : frame W) res :
  (emplace_back e ;;; mark_read_set i p ;;; mark_absent_set i k ty p) f
  = (res, f') ->
  res = Ok tt /\ dbtuples f' = dbtuples f ++ [e] /\
  trace f' = trace f /\ flags (txn f') = flags (txn f).
Proof.
  unfold emplace_back, mark_read_set, mark_absent_set.
  unfold bind, get_dbtuples, set_dbtuples. rewrite !modify_ctx_run.
  intros H; injection H as <- <-. cbn. auto.
Qed.

Lemma update_node_scan_frame i node version (f f' : frame W) res :
  update_node_scan i node version f = (res, f') ->
  dbtuples f' = dbtuples f /\ trace f' = trace f /\
  flags (txn f') = flags (txn f) /\
  match res with
  | Ok _ => True
  | Jump => has_flag (flags (txn f)) TXN_FLAG_LOW_LEVEL_SCAN = true
  | OutOfFuel => False
  end.
Proof.
  unfold update_node_scan, bind, get_txn.
  destruct (has_flag _ _) eqn:Hf;
    [|intros H; injection H as <- <-; auto].
  destruct (nth_error _ _) as [[? ctx]|];
    [|intros H; injection H as <- <-; auto].
  destruct (alist_find _ _ _) as [v|];
    [|intros H; injection H as <- <-; auto].
  destruct (negb _).
  - unfold abort_goto. intros H; injection H as <- <-. cbn. auto.
  - rewrite modify_ctx_run. intros H; injection H as <- <-. cbn. auto.
Qed.

Lemma find_write_node_owed fuel :
  forall i tree k wr try_insert_path (f f' : frame W) res,
    find_write_node fuel i tree k wr try_insert_path f = (res, f') ->
    lock_phase f res f'.
Proof.
  induction fuel as [|fuel IH]; intros i tree k wr tip f f' res H;
    cbn [find_write_node] in H.
  { injection H as <- <-. exact I. }
  unfold bind at 1 in H.
  destruct ((if tip then ret None
             else call (btree_search tree k) (EvSearch tree k)) f)
    as [[found| |] f0] eqn:E0.
  2, 3: destruct tip; unfold ret, call in E0; cbv zeta in E0; discriminate E0.
  assert (K0 : lock_kept f f0).
  { destruct tip; unfold ret, call in E0; cbv zeta in E0;
      injection E0 as <- <-; split; auto.
    intros p. unfold owed. cbn [trace dbtuples]. rewrite locks_held_app.
    cbn. lia. }
  destruct found as [v|].
  - unfold search_succeeded in H. apply emplace_then_marks_frame in H.
    destruct H as (-> & D & T & F). cbn [lock_phase].
    eapply lock_kept_trans; [exact K0|]. split; [exact F|].
    intros p. unfold owed.
    rewrite D, T, marked_locked_app, marked_locked_cons.
    cbn [fst snd locked marked_locked fold_right]. rewrite andb_false_r. lia.
  - unfold bind at 1 2 3, call at 1 2 3 in H. cbv zeta in H.
    cbn [txn dbtuples commit_tid world trace fst snd] in H.
    match type of H with
    | context [btree_insert_if_absent tree k ?t _] => set (tuple := t) in *
    end.
    match type of H with
    | context [btree_insert_if_absent tree k tuple ?w] =>
        destruct (btree_insert_if_absent tree k tuple w) as [ins w3] eqn:E3
    end.
    cbn [fst snd] in H.
    destruct ins as [[node version]|].
    + unfold insert_succeeded in H. unfold bind at 1 in H.
      match type of H with
      | context [update_node_scan i node version ?g] =>
          destruct (update_node_scan i node version g) as [r1 f1] eqn:E1;
          set (g0 := g) in *
      end.
      apply update_node_scan_frame in E1.
      destruct E1 as (D1 & T1 & F1 & R1).
      assert (G0 : forall p, owed p g0 = owed p f0 + (if tuple =? p then 1 else 0)).
      { intros p. unfold owed. subst g0. cbn [trace dbtuples].
        rewrite !locks_held_app. cbn. destruct (tuple =? p); lia. }
      destruct r1 as [[]| |]; [| |contradiction].
      * apply emplace_then_marks_frame in H.
        destruct H as (-> & D & T & F). cbn [lock_phase].
        eapply lock_kept_trans; [exact K0|]. split.
        { rewrite F, F1. reflexivity. }
        intros p. specialize (G0 p). unfold owed in *.
        rewrite D, T, D1, T1, marked_locked_app. 
        rewrite marked_locked_cons. cbn [fst snd locked marked_locked fold_right].
        rewrite andb_true_r. lia.
      * injection H as <- <-. cbn [lock_phase].
        eapply lock_kept_left; [exact K0|]. split.
        { exact R1. }
        exists tuple, tree, k, (node, version). split.
        -- rewrite T1. subst g0. cbn [trace]. apply in_or_app. right.
           left. reflexivity.
        -- intros p. rewrite <- G0. unfold owed. rewrite D1, T1. reflexivity.
    + unfold bind at 1 2, call_ at 1 2 in H.
      cbn [txn dbtuples commit_tid world trace fst snd] in H.
      apply IH in H.
      match type of H with
      | lock_phase ?g _ _ => assert (G : lock_kept f g)
      end.
      { eapply lock_kept_trans; [exact K0|]. split; [reflexivity|].
        intros p. unfold owed. cbn [trace dbtuples].
        rewrite !locks_held_app. cbn. destruct (tuple =? p); lia. }
      destruct res as [[]| |]; cbn [lock_phase] in *.
      * eapply lock_kept_trans; eauto.
      * eapply lock_kept_left; eauto.
      * exact I.
Qed.

Lemma find_write_nodes_owed fuel (f f' : frame W) res :
  find_write_nodes fuel f = (res, f') -> lock_phase f res f'.
Proof.
  unfold find_write_nodes, bind at 1, get_txn at 1.
  apply for_each_lock_phase. intros [i [tree ctx]] g r g'.
  apply for_each_lock_phase. intros w h r' h'.
  apply find_write_node_owed.
Qed.

(** What [commit_body] leaves, from the frame [commit] starts with. *)
Lemma commit_body_owed fuel tx w res (f : frame W) :
  commit_body fuel (commit_begin tx w) = (res, f) ->
  match res with
  | Ok _ => forall p, locks_held p (trace f) = 0
  | Jump =>
      (fst (find_write_nodes fuel
              (snd (call consistent_snapshot_tid EvConsistentSnapshotTid
                      (commit_begin tx w)))) = Jump /\
       has_flag (flags tx) TXN_FLAG_LOW_LEVEL_SCAN = true /\
       exists q tree k info,
         In (EvInsertIfAbsent tree k q (Some info)) (trace f) /\
         forall p, owed p f = if q =? p then 1 else 0) \/
      (fst (find_write_nodes fuel
              (snd (call consistent_snapshot_tid EvConsistentSnapshotTid
                      (commit_begin tx w)))) <> Jump /\
       forall p, owed p f = 0)
  | OutOfFuel => True
  end.
Proof.
  unfold commit_body. unfold bind at 1. 
  destruct (call consistent_snapshot_tid EvConsistentSnapshotTid
              (commit_begin tx w)) as [r0 f0] eqn:E0.
  assert (O0 : flags (txn f0) = flags tx /\ forall p, owed p f0 = 0).
  { unfold call in E0. cbv zeta in E0. injection E0 as <- <-. split; auto. }
  destruct O0 as [F0 O0].
  assert (R0 : exists x, r0 = Ok x).
  { unfold call in E0. cbv zeta in E0. injection E0 as <- _. eauto. }
  destruct R0 as (snap & ->). cbn [snd].
  unfold bind at 1.
  destruct (find_write_nodes fuel f0) as [r1 f1] eqn:E1.
  pose proof (find_write_nodes_owed _ _ _ _ E1) as K. cbn [fst].
  destruct r1 as [[]| |]; cbn [lock_phase] in K.
  - destruct K as [F1 O1]. intros H.
    pose proof (commit_after_find_owed _ _ _ _ H) as C.
    destruct res as [[]| |]; [| |exact I].
    + intros p. rewrite C, O1. apply O0.
    + right. split; [discriminate|]. intros p. rewrite C, O1. apply O0.
  - intros H. injection H as <- <-. left. split; [reflexivity|].
    destruct K as (Hf & q & tree & k & info & In1 & O1).
    split; [rewrite <- F0; exact Hf|].
    exists q, tree, k, info. split; [exact In1|].
    intros p. rewrite O1, O0. lia.
  - intros H. injection H as <- <-. exact I.
Qed.

Lemma do_abort_locks (f : frame W) p :
  locks_held p (trace (do_abort f)) = owed p f.
Proof.
  destruct (do_abort_frame f) as (_ & _ & _ & _ & T). rewrite T.
  rewrite !locks_held_app, locks_held_unlocks. unfold owed.
  destruct (fst (commit_tid f)); cbn; lia.
Qed.

Lemma commit_finish_locks (f : frame W) p :
  locks_held p (trace (commit_finish f)) = locks_held p (trace f).
Proof.
  destruct (commit_finish_frame f) as (_ & T). rewrite T.
  rewrite locks_held_app. destruct (fst (commit_tid f)); cbn; lia.
Qed.

(** X16.  A [commit] that returns [true] has released every lock it
    took: in its calls, each tuple is unlocked as often as it is
    locked. *)
Theorem commit_success_releases_every_lock :
  forall (fuel : nat) (doThrow : bool) (tx : transaction) (w : W),
    state tx = TXN_EMBRYO \/ state tx = TXN_ACTIVE ->
    fst (commit fuel doThrow tx w) = Returned true ->
    forall p, locks_held p (trace (snd (commit fuel doThrow tx w))) = 0.
Proof.
  intros fuel doThrow tx w Hs. rewrite (commit_active _ _ _ _ Hs).
  destruct (commit_body fuel (commit_begin tx w)) as [[[]| |] f] eqn:E;
    cbn [fst snd]; intros H p.
  - rewrite commit_finish_locks.
    exact (commit_body_owed _ _ _ _ _ E p).
  - unfold aborted in H. destruct doThrow; discriminate.
  - discriminate.
Qed.

(** X17.  Without [TXN_FLAG_LOW_LEVEL_SCAN], [commit] releases every
    lock it took however it ends, on [do_abort] as well as on
    success. *)
Theorem commit_abort_releases_every_lock :
  forall (fuel : nat) (doThrow : bool) (tx : transaction) (w : W),
    state tx = TXN_EMBRYO \/ state tx = TXN_ACTIVE ->
    has_flag (flags tx) TXN_FLAG_LOW_LEVEL_SCAN = false ->
    fst (commit fuel doThrow tx w) <> CutOff ->
    forall p, locks_held p (trace (snd (commit fuel doThrow tx w))) = 0.
Proof.
  intros fuel doThrow tx w Hs Hf. rewrite (commit_active _ _ _ _ Hs).
  destruct (commit_body fuel (commit_begin tx w)) as [[[]| |] f] eqn:E;
    cbn [fst snd]; intros H p.
  - rewrite commit_finish_locks.
    exact (commit_body_owed _ _ _ _ _ E p).
  - rewrite do_abort_locks.
    destruct (commit_body_owed _ _ _ _ _ E) as [(_ & Hf' & _)|(_ & O)].
    + congruence.
    + apply O.
  - congruence.
Qed.

(** X18.  When Phase A jumps to [do_abort] (the node version of a
    successful [insert_if_absent] differs from the one in [node_scan]),
    [commit] aborts with [ABORT_REASON_WRITE_NODE_INTERFERENCE] and
    leaves exactly one lock: the tuple it had just inserted is not yet
    among the write tuples, which are all that [do_abort] unlocks. *)
Theorem node_scan_abort_leaves_the_tuple_locked :
  forall (fuel : nat) (doThrow : bool) (tx : transaction) (w : W),
    state tx = TXN_EMBRYO \/ state tx = TXN_ACTIVE ->
    fst (find_write_nodes fuel
           (snd (call consistent_snapshot_tid EvConsistentSnapshotTid
                   (commit_begin tx w)))) = Jump ->
    has_flag (flags tx) TXN_FLAG_LOW_LEVEL_SCAN = true /\
    fst (commit fuel doThrow tx w)
    = aborted doThrow ABORT_REASON_WRITE_NODE_INTERFERENCE /\
    exists q tree k info,
      In (EvInsertIfAbsent tree k q (Some info))
         (trace (snd (commit fuel doThrow tx w))) /\
      forall p, locks_held p (trace (snd (commit fuel doThrow tx w)))
                = if q =? p then 1 else 0.
Proof.
  intros fuel doThrow tx w Hs HJ.
  assert (E : exists f, commit_body fuel (commit_begin tx w) = (Jump, f) /\
                        reason (txn f) = ABORT_REASON_WRITE_NODE_INTERFERENCE).
  { unfold commit_body, bind at 1.
    destruct (call consistent_snapshot_tid EvConsistentSnapshotTid
                (commit_begin tx w)) as [r0 f0] eqn:E0.
    assert (R0 : exists x, r0 = Ok x).
    { unfold call in E0. cbv zeta in E0. injection E0 as <- _. eauto. }
    destruct R0 as (snap & ->). cbn [snd] in HJ. unfold bind at 1.
    destruct (find_write_nodes fuel f0) as [r1 f1] eqn:E1.
    cbn [fst] in HJ. subst r1. exists f1. split; [reflexivity|].
    eapply find_write_nodes_jump; eauto. }
  destruct E as (f & E & R).
  pose proof (commit_body_owed _ _ _ _ _ E) as C. cbv beta iota in C.
  destruct C as [(_ & Hf & q & tree & k & info & In1 & O)|(N & _)];
    [|congruence].
  rewrite (commit_active _ _ _ _ Hs), E. cbn [fst snd].
  split; [exact Hf|]. split.
  { destruct (do_abort_frame f) as (_ & -> & _). rewrite R. reflexivity. }
  exists q, tree, k, info. split.
  - destruct (do_abort_frame f) as (_ & _ & _ & _ & T). rewrite T.
    apply in_or_app. left. exact In1.
  - intros p. rewrite do_abort_locks. apply O.
Qed.

End LockBalance.

Section LockBalanceExamples.

Local Open Scope Z_scope.

Lemma commit_success_releases_every_lock_witness :
  let wr := mk_write_record (digit_key 5) false in
  let tx := toy_txn 0 (toy_context [] [] [(digit_key 1, wr)] []) in
  let w := mk_toy_world 4 true true true (Some 64) None 1000 in
  (state tx = TXN_EMBRYO \/ state tx = TXN_ACTIVE) /\
  fst (commit 1 false tx w) = Returned true /\
  In (EvLock 64 4) (trace (snd (commit 1 false tx w))) /\
  locks_held 64 (trace (snd (commit 1 false tx w))) = 0.
Proof.
  intros wr tx w.
  assert (H1 : state tx = TXN_EMBRYO \/ state tx = TXN_ACTIVE)
    by (right; reflexivity).
  assert (H2 : fst (commit 1 false tx w) = Returned true)
    by (vm_compute; reflexivity).
  split; [exact H1|]. split; [exact H2|].
  split; [vm_compute; auto|].
  exact (commit_success_releases_every_lock 1%nat false tx w H1 H2 64).
Defined.

Lemma commit_abort_releases_every_lock_witness :
  let wr := mk_write_record (digit_key 5) false in
  let tx := toy_txn 0 (toy_context [(5, mk_read_record 7 false)] []
                         [(digit_key 1, wr)] []) in
  let w := mk_toy_world 4 true false true (Some 64) None 1000 in
  (state tx = TXN_EMBRYO \/ state tx = TXN_ACTIVE) /\
  has_flag (flags tx) TXN_FLAG_LOW_LEVEL_SCAN = false /\
  fst (commit 1 false tx w) = Returned false /\
  In (EvLock 64 4) (trace (snd (commit 1 false tx w))) /\
  locks_held 64 (trace (snd (commit 1 false tx w))) = 0.
Proof.
  intros wr tx w.
  assert (H1 : state tx = TXN_EMBRYO \/ state tx = TXN_ACTIVE)
    by (right; reflexivity).
  assert (H2 : has_flag (flags tx) TXN_FLAG_LOW_LEVEL_SCAN = false)
    by reflexivity.
  assert (H3 : fst (commit 1 false tx w) <> CutOff)
    by (vm_compute; discriminate).
  split; [exact H1|]. split; [exact H2|].
  split; [vm_compute; reflexivity|].
  split; [vm_compute; auto|].
  exact (commit_abort_releases_every_lock 1%nat false tx w H1 H2 H3 64).
Defined.

Lemma node_scan_abort_leaves_the_tuple_locked_witness :
  let wr := mk_write_record (digit_key 5) true in
  let ctx := toy_context [] [] [(digit_key 1, wr)] [(200, 5)] in
  let tx := toy_txn TXN_FLAG_LOW_LEVEL_SCAN ctx in
  let w := mk_toy_world 4 true true true None (Some (200, 6)) 1000 in
  (state tx = TXN_EMBRYO \/ state tx = TXN_ACTIVE) /\
  fst (find_write_nodes 1
         (snd (call consistent_snapshot_tid EvConsistentSnapshotTid
                 (commit_begin tx w)))) = Jump /\
  locks_held 1000 (trace (snd (commit 1 false tx w))) = 1 /\
  exists q tree k info,
    In (EvInsertIfAbsent tree k q (Some info))
       (trace (snd (commit 1 false tx w))) /\
    forall p, locks_held p (trace (snd (commit 1 false tx w)))
              = if q =? p then 1 else 0.
Proof.
  intros wr ctx tx w.
  assert (H1 : state tx = TXN_EMBRYO \/ state tx = TXN_ACTIVE)
    by (right; reflexivity).
  assert (H2 : fst (find_write_nodes 1
                      (snd (call consistent_snapshot_tid EvConsistentSnapshotTid
                              (commit_begin tx w)))) = Jump)
    by (vm_compute; reflexivity).
  split; [exact H1|]. split; [exact H2|].
  split; [vm_compute; reflexivity|].
  exact (proj2 (proj2
           (node_scan_abort_leaves_the_tuple_locked 1%nat false tx w H1 H2))).
Defined.

End LockBalanceExamples.

(** ** The scan callbacks of the benchmarks *)

Section ScanCallbacks.

Local Open Scope Z_scope.

Lemma size_t_small x : 0 <= x < 2 ^ 64 -> size_t x = x.
Proof. intros H. unfold size_t, uint64_wrap. apply Z.mod_small. exact H. Qed.

Lemma limit_callback_scan_from (items : list kv_pair) :
  forall cb : limit_callback.t,
    limit_callback.limit cb = -1 \/
    0 <= limit_callback.n cb < limit_callback.limit cb /\
    limit_callback.limit cb < 2 ^ 63 ->
    limit_callback.values (scan cb items)
    = limit_callback.values cb
      ++ firstn (if limit_callback.limit cb =? -1 then length items
                 else Z.to_nat (limit_callback.limit cb - limit_callback.n cb))
           items /\
    scan_keeps limit_callback.invariant cb items = true.
Proof.
  induction items as [|[k v] rest IH]; intros cb Hc; cbn [scan scan_keeps].
  - rewrite firstn_nil, app_nil_r. auto.
  - cbn [invoke limit_callback_scan fst snd]. unfold limit_callback.invoke.
    cbv zeta. unfold limit_callback.invariant.
    destruct (limit_callback.limit cb =? -1) eqn:E; cbn [fst snd orb andb].
    + destruct (IH (limit_callback.mk (limit_callback.values cb ++ [(k, v)])
                      (limit_callback.limit cb) (limit_callback.n cb)))
        as [V K].
      { left. cbn. apply Z.eqb_eq. exact E. }
      unfold limit_callback.invariant in K.
      cbn [limit_callback.values limit_callback.limit limit_callback.n] in *.
      rewrite E in V. rewrite V, K, <- app_assoc. cbn [length firstn app]. auto.
    + destruct Hc as [Hc|[Hn Hl]]; [apply Z.eqb_eq in Hc; congruence|].
      rewrite uint64_wrap_succ by lia.
      rewrite !size_t_small by lia.
      assert (I0 : (limit_callback.n cb <? limit_callback.limit cb) = true)
        by (apply Z.ltb_lt; lia).
      rewrite I0.
      replace (Z.to_nat (limit_callback.limit cb - limit_callback.n cb))
        with (S (Z.to_nat (limit_callback.limit cb - (limit_callback.n cb + 1))))
        by lia.
      cbn [firstn andb].
      destruct (limit_callback.n cb + 1 <? limit_callback.limit cb) eqn:G.
      * apply Z.ltb_lt in G.
        destruct (IH (limit_callback.mk (limit_callback.values cb ++ [(k, v)])
                        (limit_callback.limit cb) (limit_callback.n cb + 1)))
          as [V K].
        { right. cbn. lia. }
        unfold limit_callback.invariant in K.
        cbn [limit_callback.values limit_callback.limit limit_callback.n] in *.
        rewrite E in V. rewrite V, K, <- app_assoc. auto.
      * apply Z.ltb_ge in G.
        replace (limit_callback.limit cb - (limit_callback.n cb + 1)) with 0
          by lia.
        cbn. auto.
Qed.

(** X19.  A scan that stops when told to leaves in a fresh
    [limit_callback] the first [limit] pairs it found, or all of them
    when [limit] is [-1]; the [INVARIANT] of [invoke] holds at every
    call. *)
Theorem limit_callback_collects_up_to_the_limit :
  forall (limit : Z) (cb : limit_callback.t) (items : list kv_pair),
    limit < 2 ^ 63 ->
    limit_callback.new limit = Some cb ->
    limit_callback.values (scan cb items)
    = firstn (if limit =? -1 then length items else Z.to_nat limit) items /\
    scan_keeps limit_callback.invariant cb items = true.
Proof.
  intros limit cb items Hl Hn. unfold limit_callback.new in Hn.
  destruct ((limit =? -1) || (0 <? limit)) eqn:E; [|discriminate].
  injection Hn as <-.
  destruct (limit_callback_scan_from items (limit_callback.mk [] limit 0))
    as [V K].
  { cbn. apply orb_true_iff in E. destruct E as [E|E].
    - left. apply Z.eqb_eq. exact E.
    - right. apply Z.ltb_lt in E. lia. }
  cbn [limit_callback.values limit_callback.limit limit_callback.n app] in V.
  rewrite Z.sub_0_r in V. auto.
Qed.

Lemma store_length i x l : length (static_limit_callback.store i x l) = length l.
Proof.
  revert i. induction l as [|y l IH]; intros [|i]; cbn; auto.
Qed.

Lemma store_at (done : list kv_pair) x y rest :
  static_limit_callback.store (length done) x (done ++ y :: rest)
  = done ++ x :: rest.
Proof. induction done as [|d done IH]; cbn; [reflexivity | rewrite IH; reflexivity]. Qed.

Lemma static_limit_callback_scan_from (N : Z) (items : list kv_pair) :
  forall (done : list kv_pair) (free : nat),
    Z.of_nat (length done) + Z.of_nat (S free) = N ->
    N < 2 ^ 64 ->
    let cb := static_limit_callback.mk (N := N)
                (done ++ repeat (EmptyString, EmptyString) (S free))
                (Z.of_nat (length done)) in
    static_limit_callback.values (scan cb items)
    = done ++ firstn (S free) items
        ++ repeat (EmptyString, EmptyString) (S free - length items) /\
    static_limit_callback.size (scan cb items)
    = Z.of_nat (length done + Nat.min (S free) (length items)) /\
    scan_keeps static_limit_callback.invariant cb items = true.
Proof.
  induction items as [|[k v] rest IH]; intros done free HN Hlt cb; subst cb;
    cbn [scan scan_keeps].
  - cbn [static_limit_callback.values static_limit_callback.size
           static_limit_callback.n firstn length app].
    rewrite Nat.sub_0_r, Nat.min_0_r, Nat.add_0_r. auto.
  - cbn [invoke static_limit_callback_scan fst snd].
    unfold static_limit_callback.invoke, static_limit_callback.invariant.
    cbv zeta. cbn [static_limit_callback.values static_limit_callback.n fst snd].
    rewrite Nat2Z.id. cbn [repeat]. rewrite store_at.
    rewrite uint64_wrap_succ by lia.
    assert (I0 : (Z.of_nat (length done) <? N) = true) by (apply Z.ltb_lt; lia).
    rewrite I0. cbn [andb firstn length].
    destruct (Z.of_nat (length done) + 1 <? N) eqn:G.
    + apply Z.ltb_lt in G. destruct free as [|free]; [lia|].
      specialize (IH (done ++ [(k, v)]) free).
      rewrite length_app in IH. cbn [length] in IH.
      specialize (IH ltac:(lia) Hlt). cbv zeta in IH.
      rewrite <- app_assoc in IH. cbn [app] in IH.
      replace (Z.of_nat (length done + 1)) with (Z.of_nat (length done) + 1)
        in IH by lia.
      destruct IH as (V & Sz & K).
      unfold static_limit_callback.invariant in K. rewrite V, Sz, K.
      rewrite <- app_assoc. cbn [app].
      replace (S (S free) - S (length rest))%nat
        with (S free - length rest)%nat by lia.
      repeat split; auto. f_equal. lia.
    + apply Z.ltb_ge in G. assert (free = 0%nat) by lia. subst free.
      cbn [static_limit_callback.values static_limit_callback.size
             static_limit_callback.n repeat firstn].
      replace (1 - S (length rest))%nat with 0%nat by lia.
      cbn [repeat app]. repeat split; auto. lia.
Qed.

(** X20.  A scan that stops when told to leaves in a fresh
    [static_limit_callback<N>] the first [N] pairs it found, in the
    first [size()] slots of the array; it never writes past the end of
    the array, and the [INVARIANT] of [invoke] holds at every call. *)
Theorem static_limit_callback_collects_up_to_N :
  forall (N : Z) (items : list kv_pair),
    0 < N < 2 ^ 64 ->
    let cb := scan (static_limit_callback.new N) items in
    static_limit_callback.size cb
    = Z.of_nat (Nat.min (Z.to_nat N) (length items)) /\
    firstn (Z.to_nat (static_limit_callback.size cb))
      (static_limit_callback.values cb)
    = firstn (Z.to_nat N) items /\
    length (static_limit_callback.values cb) = Z.to_nat N /\
    scan_keeps static_limit_callback.invariant
      (static_limit_callback.new N) items = true.
Proof.
  intros N items HN cb. subst cb. unfold static_limit_callback.new.
  destruct (Z.to_nat N) as [|free] eqn:E; [lia|].
  destruct (static_limit_callback_scan_from N items [] free) as (V & Sz & K);
    [cbn; lia | lia |].
  cbn [app length Nat.add Z.of_nat] in V, Sz, K.
  rewrite V, Sz, K. split; [reflexivity|]. split; [|split; [|reflexivity]].
  - rewrite Nat2Z.id.
    destruct (Nat.le_ge_cases (S free) (length items)) as [L|L].
    + rewrite Nat.min_l by exact L.
      rewrite firstn_app, length_firstn, Nat.min_l by exact L.
      rewrite Nat.sub_diag, firstn_O, app_nil_r.
      apply firstn_all2. rewrite length_firstn. lia.
    + rewrite Nat.min_r by exact L.
      rewrite (firstn_all2 (n := S free)) by exact L.
      rewrite firstn_app, Nat.sub_diag, firstn_O, app_nil_r.
      apply firstn_all.
  - rewrite length_app, length_firstn, repeat_length. lia.
Qed.

Lemma limit_callback_collects_up_to_the_limit_witness :
  let items := [(digit_key 1, digit_key 5); (digit_key 2, digit_key 6);
                (digit_key 3, digit_key 7)] in
  let cb := limit_callback.mk [] 2 0 in
  2 < 2 ^ 63 /\
  limit_callback.new 2 = Some cb /\
  limit_callback.values (scan cb items)
  = [(digit_key 1, digit_key 5); (digit_key 2, digit_key 6)].
Proof.
  intros items cb.
  assert (H1 : 2 < 2 ^ 63) by reflexivity.
  assert (H2 : limit_callback.new 2 = Some cb) by reflexivity.
  split; [exact H1|]. split; [exact H2|].
  exact (proj1 (limit_callback_collects_up_to_the_limit 2 cb items H1 H2)).
Defined.

Lemma static_limit_callback_collects_up_to_N_witness :
  let items := [(digit_key 1, digit_key 5); (digit_key 2, digit_key 6);
                (digit_key 3, digit_key 7)] in
  0 < 2 < 2 ^ 64 /\
  static_limit_callback.size (scan (static_limit_callback.new 2) items) = 2 /\
  static_limit_callback.values (scan (static_limit_callback.new 2) items)
  = [(digit_key 1, digit_key 5); (digit_key 2, digit_key 6)].
Proof.
  intros items.
  assert (H : 0 < 2 < 2 ^ 64) by (split; reflexivity).
  split; [exact H|].
  split; [exact (proj1 (static_limit_callback_collects_up_to_N 2 items H))|].
  reflexivity.
Defined.

End ScanCallbacks.

(** ** [get_txn_counters] *)

Section TxnCountersFacts.

Variable read_set_is_small_type : read_set_map -> bool.
Variable absent_set_is_small_type : absent_set_map -> bool.
Variable write_set_is_small_type : write_set_map -> bool.
Variable node_scan_is_small_type : node_scan_map -> bool.

Local Open Scope Z_scope.

Local Notation "'count_context''" :=
  (count_context read_set_is_small_type absent_set_is_small_type
     write_set_is_small_type node_scan_is_small_type).
Local Notation "'max_key''" :=
  (max_key read_set_is_small_type absent_set_is_small_type
     write_set_is_small_type node_scan_is_small_type).
Local Notation "'large_key''" :=
  (large_key read_set_is_small_type absent_set_is_small_type
     write_set_is_small_type node_scan_is_small_type).

Lemma counter_at_some ret k v : ret k = Some v -> counter_at ret k = v.
Proof. intros H. unfold counter_at. rewrite H. reflexivity. Qed.

Lemma counter_assign_same k v ret : counter_assign k v ret k = Some v.
Proof. unfold counter_assign. rewrite String.eqb_refl. reflexivity. Qed.

Lemma counter_assign_other k k' v ret :
  String.eqb k' k = false -> counter_assign k v ret k' = ret k'.
Proof. intros H. unfold counter_assign. rewrite H. reflexivity. Qed.

Lemma counter_max_other k k' size ret :
  String.eqb k' k = false -> counter_max k size ret k' = ret k'.
Proof. apply counter_assign_other. Qed.

Lemma counter_incr_other k k' ret :
  String.eqb k' k = false -> counter_incr k ret k' = ret k'.
Proof. apply counter_assign_other. Qed.

Lemma counter_max_same k size ret :
  counter_max k size ret k = Some (Z.max (counter_at ret k) (Z.of_nat size)).
Proof. apply counter_assign_same. Qed.

Lemma counter_incr_same k ret :
  counter_incr k ret k = Some (uint64_wrap (counter_at ret k + 1)).
Proof. apply counter_assign_same. Qed.

Lemma counter_if_other (c : bool) k k' ret :
  String.eqb k' k = false ->
  (if c then counter_incr k ret else ret) k' = ret k'.
Proof. intros H. destruct c; [apply counter_incr_other; exact H | reflexivity]. Qed.

Lemma counter_if_same (c : bool) k ret :
  (if c then counter_incr k ret else ret) k
  = if c then Some (uint64_wrap (counter_at ret k + 1)) else ret k.
Proof. destruct c; [apply counter_incr_same | reflexivity]. Qed.

Ltac counters_step :=
  repeat first
    [ rewrite counter_max_other by reflexivity
    | rewrite counter_if_other by reflexivity ].

Lemma max_key_fold k size :
  max_key' k size ->
  forall (m : ctx_map_type) ret,
    0 <= counter_at ret k ->
    fold_left (fun ret e => count_context' ret (snd e)) m ret k
    = match m with
      | [] => ret k
      | _ :: _ => Some (Z.max (counter_at ret k) (Z.of_nat (largest size m)))
      end.
Proof.
  intros Hk. induction m as [|e m IH]; intros ret H0; [reflexivity|].
  cbn [fold_left]. rewrite IH.
  - rewrite (counter_at_some _ _ _ (Hk ret (snd e))).
    destruct m as [|e' m]; [rewrite Hk; cbn [largest fold_right]; f_equal; lia|].
    f_equal.
    change (largest size (e :: e' :: m))
      with (Nat.max (size (snd e)) (largest size (e' :: m))).
    lia.
  - rewrite (counter_at_some _ _ _ (Hk ret (snd e))). lia.
Qed.

Lemma large_key_fold k large :
  large_key' k large ->
  forall (m : ctx_map_type) ret,
    fold_left (fun ret e => count_context' ret (snd e)) m ret k
    = match large_instances large m with
      | O => ret k
      | S _ => Some (uint64_wrap
                       (counter_at ret k + Z.of_nat (large_instances large m)))
      end.
Proof.
  intros Hk. induction m as [|e m IH]; intros ret; [reflexivity|].
  cbn [fold_left]. rewrite IH. unfold large_instances. cbn [filter].
  pose proof (Hk ret (snd e)) as H1.
  destruct (large (snd e)); cbn [length].
  - fold (large_instances large m).
    rewrite (counter_at_some _ _ _ H1).
    destruct (large_instances large m) as [|c] eqn:E.
    + rewrite H1. reflexivity.
    + f_equal. unfold uint64_wrap.
      rewrite Zplus_mod_idemp_l. f_equal. lia.
  - fold (large_instances large m). unfold counter_at. rewrite H1.
    reflexivity.
Qed.

(** X22.  [get_txn_counters] reports the number of contexts; under
    each [max_] key the largest size of that set over the contexts;
    and under each [n_] key the number of contexts whose set is not of
    the small type.  With no context only [num_txn_contexts] is there,
    and an [n_] key is only there when it counts something. *)
Theorem get_txn_counters_reports :
  forall tx : transaction,
    let ret := get_txn_counters read_set_is_small_type
                 absent_set_is_small_type write_set_is_small_type
                 node_scan_is_small_type tx in
    let m := ctx_map tx in
    let shown (n : nat) := if vec_empty m then None else Some (Z.of_nat n) in
    let counted (n : nat) :=
      match n with O => None | S _ => Some (uint64_wrap (Z.of_nat n)) end in
    ret "num_txn_contexts"%string = Some (Z.of_nat (length m)) /\
    ret "max_read_set_size"%string
    = shown (largest (fun ctx => length (read_set ctx)) m) /\
    ret "max_absent_set_size"%string
    = shown (largest (fun ctx => length (absent_set ctx)) m) /\
    ret "max_write_set_size"%string
    = shown (largest (fun ctx => length (write_set ctx)) m) /\
    ret "max_absent_range_set_size"%string
    = shown (largest (fun ctx => length (absent_range_set ctx)) m) /\
    ret "max_node_scan_size"%string
    = shown (largest (fun ctx => length (node_scan ctx)) m) /\
    ret "n_read_set_large_instances"%string
    = counted (large_instances
                 (fun ctx => negb (read_set_is_small_type (read_set ctx))) m) /\
    ret "n_absent_set_large_instances"%string
    = counted (large_instances
                 (fun ctx => negb (absent_set_is_small_type (absent_set ctx))) m) /\
    ret "n_write_set_large_instances"%string
    = counted (large_instances
                 (fun ctx => negb (write_set_is_small_type (write_set ctx))) m) /\
    ret "n_node_scan_large_instances"%string
    = counted (large_instances
                 (fun ctx => negb (node_scan_is_small_type (node_scan ctx))) m).
Proof.
  intros tx ret m shown counted. subst ret. unfold get_txn_counters.
  fold m. set (ret0 := counter_assign _ _ _).
  assert (Hmax : forall k size,
             max_key' k size -> String.eqb k "num_txn_contexts" = false ->
             fold_left (fun ret e => count_context' ret (snd e)) m ret0 k
             = shown (largest size m)).
  { intros k size Hk Hn. rewrite (max_key_fold k size Hk).
    - subst shown. cbv beta. unfold counter_at, ret0.
      rewrite counter_assign_other by exact Hn.
      destruct m; cbn [vec_empty]; [reflexivity|]. f_equal. lia.
    - unfold counter_at, ret0. rewrite counter_assign_other by exact Hn.
      lia. }
  assert (Hlarge : forall k large,
             large_key' k large -> String.eqb k "num_txn_contexts" = false ->
             fold_left (fun ret e => count_context' ret (snd e)) m ret0 k
             = counted (large_instances large m)).
  { intros k large Hk Hn. rewrite (large_key_fold k large Hk).
    unfold counter_at, ret0. rewrite counter_assign_other by exact Hn.
    reflexivity. }
  split.
  { clear Hmax Hlarge. 
    assert (G : forall (l : ctx_map_type) r,
                r "num_txn_contexts"%string = Some (Z.of_nat (length m)) ->
                fold_left (fun ret e => count_context' ret (snd e)) l r
                  "num_txn_contexts"%string = Some (Z.of_nat (length m))).
    { induction l as [|e l IH]; intros r Hr; [exact Hr|].
      cbn [fold_left]. apply IH. unfold count_context. cbv zeta.
      counters_step. exact Hr. }
    apply G. apply counter_assign_same. }
  repeat split.
  - apply Hmax; [|reflexivity]. intros r ctx. unfold count_context. cbv zeta.
    counters_step. apply counter_max_same.
  - apply Hmax; [|reflexivity]. intros r ctx. unfold count_context. cbv zeta.
    counters_step. rewrite counter_max_same. unfold counter_at.
    counters_step. reflexivity.
  - apply Hmax; [|reflexivity]. intros r ctx. unfold count_context. cbv zeta.
    counters_step. rewrite counter_max_same. unfold counter_at.
    counters_step. reflexivity.
  - apply Hmax; [|reflexivity]. intros r ctx. unfold count_context. cbv zeta.
    counters_step. rewrite counter_max_same. unfold counter_at.
    counters_step. reflexivity.
  - apply Hmax; [|reflexivity]. intros r ctx. unfold count_context. cbv zeta.
    counters_step. rewrite counter_max_same. unfold counter_at.
    counters_step. reflexivity.
  - apply Hlarge; [|reflexivity]. intros r ctx. unfold count_context. cbv zeta.
    counters_step. rewrite counter_if_same. unfold counter_at.
    counters_step. reflexivity.
  - apply Hlarge; [|reflexivity]. intros r ctx. unfold count_context. cbv zeta.
    counters_step. rewrite counter_if_same. unfold counter_at.
    counters_step. reflexivity.
  - apply Hlarge; [|reflexivity]. intros r ctx. unfold count_context. cbv zeta.
    counters_step. rewrite counter_if_same. unfold counter_at.
    counters_step. reflexivity.
  - apply Hlarge; [|reflexivity]. intros r ctx. unfold count_context. cbv zeta.
    counters_step. rewrite counter_if_same. unfold counter_at.
    counters_step. reflexivity.
Qed.

End TxnCountersFacts.

(** ** The commit tid and the writes *)

Section TidFacts.

Context {W : Type} {PR : Protocol W} {ST : Storage W}.

Notation "x <- m ;; k" := (bind m (fun x => k))
  (at level 61, m at next level, right associativity).
Notation "m ;;; k" := (bind m (fun _ => k))
  (at level 61, right associativity).

Lemma emits_silent {A} P (m : @M W A) :
  (forall f res f', m f = (res, f') ->
                    commit_tid f' = commit_tid f /\ trace f' = trace f) ->
  emits P m.
Proof.
  intros H f res f' E. destruct (H _ _ _ E) as [C T]. split; [exact C|].
  exists []. rewrite app_nil_r. auto.
Qed.

Lemma emits_ret {A} P (x : A) : emits P (@ret W A x).
Proof. apply emits_silent. intros f res f' H. injection H as <- <-. auto. Qed.

Lemma emits_bind {A B} P (m : @M W A) (k : A -> @M W B) :
  emits P m -> (forall x, emits P (k x)) -> emits P (bind m k).
Proof.
  intros Hm Hk f res f' H. unfold bind in H.
  destruct (m f) as [[x| |] f1] eqn:E;
    destruct (Hm _ _ _ E) as (C1 & evs1 & T1 & A1).
  - destruct (Hk x _ _ _ H) as (C2 & evs2 & T2 & A2).
    split; [congruence|]. exists (evs1 ++ evs2).
    rewrite T2, T1, app_assoc, forallb_app, A1, A2. auto.
  - injection H as <- <-. eauto.
  - injection H as <- <-. eauto.
Qed.

Lemma emits_call {A} P (op : W -> A * W) (ev : A -> event) :
  (forall x, P (ev x) = true) -> emits P (call op ev).
Proof.
  intros Hev f res f' H. unfold call in H. cbv zeta in H.
  injection H as <- <-. cbn [commit_tid trace]. split; [reflexivity|].
  eexists. split; [reflexivity|]. cbn. rewrite Hev. reflexivity.
Qed.

Lemma emits_call_ P (op : W -> W) (ev : event) :
  P ev = true -> emits P (call_ op ev).
Proof.
  intros Hev f res f' H. unfold call_ in H.
  injection H as <- <-. cbn [commit_tid trace]. split; [reflexivity|].
  eexists. split; [reflexivity|]. cbn. rewrite Hev. reflexivity.
Qed.

Lemma emits_abort_goto {A} P why : emits P (@abort_goto W A why).
Proof. apply emits_silent. intros f res f' H. injection H as <- <-. auto. Qed.

Lemma emits_get_txn P : emits P (@get_txn W).
Proof. apply emits_silent. intros f res f' H. injection H as <- <-. auto. Qed.

Lemma emits_get_dbtuples P : emits P (@get_dbtuples W).
Proof. apply emits_silent. intros f res f' H. injection H as <- <-. auto. Qed.

Lemma emits_set_dbtuples P v : emits P (@set_dbtuples W v).
Proof. apply emits_silent. intros f res f' H. injection H as <- <-. auto. Qed.

Lemma emits_modify_ctx P i g : emits P (@modify_ctx W i g).
Proof.
  apply emits_silent. intros f res f' H. rewrite modify_ctx_run in H.
  injection H as <- <-. auto.
Qed.

Lemma emits_for_each {A} P (l : list A) (body : A -> @M W unit) :
  (forall x, emits P (body x)) -> emits P (for_each l body).
Proof.
  intros Hb. induction l as [|x l IH]; cbn [for_each].
  - apply emits_ret.
  - apply emits_bind; auto.
Qed.

Ltac emits_calls :=
  first [ apply emits_ret | apply emits_get_txn | apply emits_get_dbtuples
        | apply emits_set_dbtuples | apply emits_modify_ctx
        | apply emits_abort_goto
        | apply emits_call; intros; reflexivity
        | apply emits_call_; reflexivity ].

Ltac emits_seq :=
  repeat first [ emits_calls | apply emits_bind; [|intros ?] ].

Lemma emits_find_write_nodes fuel :
  emits (W := W) plain_event (find_write_nodes fuel).
Proof.
  assert (N : forall n i tree k wr tip,
             emits (W := W) plain_event (find_write_node n i tree k wr tip)).
  { induction n as [|n IH]; intros i tree k wr tip; cbn [find_write_node].
    - apply emits_silent. intros f res f' H. injection H as <- <-. auto.
    - apply emits_bind; [destruct tip; emits_calls|]. intros [v|].
      + unfold search_succeeded, emplace_back, mark_read_set, mark_absent_set.
        emits_seq.
      + apply emits_bind; [emits_calls|]. intros tuple.
        apply emits_bind; [emits_calls|]. intros _.
        apply emits_bind; [emits_calls|]. intros [[node version]|].
        * unfold insert_succeeded, emplace_back, mark_read_set, mark_absent_set.
          apply emits_bind; [|intros _; emits_seq].
          unfold update_node_scan. apply emits_bind; [emits_calls|]. intros tx.
          destruct (has_flag _ _); [|emits_calls].
          destruct (nth_error _ _) as [[? ctx]|]; [|emits_calls].
          destruct (alist_find _ _ _); [|emits_calls].
          destruct (negb _); emits_calls.
        * apply emits_bind; [emits_calls|]. intros _.
          apply emits_bind; [emits_calls|]. intros _. apply IH. }
  unfold find_write_nodes. apply emits_bind; [emits_calls|]. intros tx.
  apply emits_for_each. intros [i [tree ctx]].
  apply emits_for_each. intros w. apply N.
Qed.

Lemma emits_lock_nodes todo :
  forall done, emits (W := W) plain_event (lock_nodes done todo).
Proof.
  induction todo as [|e rest IH]; intros done; cbn [lock_nodes].
  - emits_calls.
  - destruct (locked (snd e)); [apply IH|].
    apply emits_bind; [emits_calls|]. intros v.
    apply emits_bind; [emits_calls|]. intros _.
    apply emits_bind.
    + unfold write_interference. destruct (_ || _); emits_seq.
    + intros []; [emits_calls | apply IH].
Qed.

Lemma emits_read_validation : emits (W := W) plain_event read_validation.
Proof.
  unfold read_validation. apply emits_bind; [emits_calls|]. intros tx.
  apply emits_for_each. intros [tree ctx]. cbn [fst snd].
  apply emits_bind; [|intros _; apply emits_bind; [|intros _]].
  - unfold validate_read_set. apply emits_for_each. intros e.
    apply emits_bind.
    + unfold read_check. destruct (holds_lock (snd e)); emits_calls.
    + intros []; emits_calls.
  - unfold validate_absent_set. apply emits_for_each. intros e.
    unfold absent_check. destruct (type (snd e)).
    + apply emits_bind; [emits_calls|]. intros [v|]; [|emits_calls].
      apply emits_bind; [emits_calls|]. intros []; emits_calls.
    + apply emits_bind; [emits_calls|]. intros []; emits_calls.
    + emits_calls.
  - unfold validate_scans. apply emits_bind; [emits_calls|]. intros tx'.
    destruct (has_flag _ _); apply emits_for_each; intros e;
      (apply emits_bind; [emits_calls|]); intros x.
    + destruct (negb _); emits_calls.
    + destruct x; emits_calls.
Qed.

Lemma emits_write_record tid e :
  emits (W := W) (written_with tid) (write_record tid e).
Proof.
  unfold write_record. cbv zeta.
  apply emits_bind; [|intros _; emits_calls].
  destruct (info_insert (snd e)).
  - apply emits_bind; [emits_calls|]. intros _.
    apply emits_call_. cbn. apply Z.eqb_refl.
  - apply emits_bind.
    { apply emits_call. intros x. cbn. apply Z.eqb_refl. }
    intros res. unfold lock_guard.
    apply emits_bind; [destruct (_ =? _)%Z; emits_seq|]. intros _.
    apply emits_bind; [|intros _; destruct (_ =? _)%Z; emits_calls].
    apply emits_bind; [destruct (negb _); emits_seq|]. intros _.
    apply emits_bind; [destruct (fst res); emits_calls|]. intros _.
    destruct (is_empty_string _); emits_calls.
Qed.

Lemma write_records_ok tid (l : dbtuple_vec) :
  forall (f : frame W) res f',
    for_each l (write_record tid) f = (res, f') -> res = Ok tt.
Proof.
  induction l as [|e l IH]; intros f res f' H; cbn [for_each] in H.
  - injection H as <- _. reflexivity.
  - unfold bind in H. destruct (write_record tid e f) as [r1 f1] eqn:E1.
    destruct (write_record_unlocks _ _ _ _ _ E1) as (-> & _).
    eapply IH; eauto.
Qed.

Lemma forallb_weaken (P Q : event -> bool) evs :
  (forall ev, P ev = true -> Q ev = true) ->
  forallb P evs = true -> forallb Q evs = true.
Proof.
  intros H. rewrite !forallb_forall. auto.
Qed.

Lemma plain_no_tid evs :
  forallb plain_event evs = true ->
  existsb tid_event evs = false /\ existsb write_event evs = false.
Proof.
  induction evs as [|ev evs IH]; cbn [forallb existsb]; [auto|].
  rewrite andb_true_iff. unfold plain_event at 1. rewrite andb_true_iff.
  rewrite !negb_true_iff. intros [[-> ->] H]. apply IH. exact H.
Qed.

Lemma written_with_no_tid tid evs :
  forallb (written_with tid) evs = true -> existsb tid_event evs = false.
Proof.
  induction evs as [|ev evs IH]; cbn [forallb existsb]; [auto|].
  rewrite andb_true_iff. unfold written_with at 1. rewrite andb_true_iff.
  rewrite !negb_true_iff. intros [[-> _] H]. apply IH. exact H.
Qed.

Lemma plain_written_with tid ev :
  plain_event ev = true -> written_with tid ev = true.
Proof.
  unfold plain_event, written_with.
  destruct ev; cbn; intros H; try reflexivity; discriminate H.
Qed.

Lemma commit_body_trace fuel tx w res (f : frame W) :
  commit_body fuel (commit_begin tx w) = (res, f) ->
  body_trace (trace f) (commit_tid f)
    (match res with Ok _ => true | _ => false end).
Proof.
  unfold commit_body. intros H. unfold bind at 1, call at 1 in H.
  cbv zeta in H. cbn [commit_begin world txn dbtuples commit_tid trace app] in H.
  unfold bind at 1 in H.
  match type of H with
  | context [find_write_nodes fuel ?g] =>
      destruct (find_write_nodes fuel g) as [r1 f1] eqn:E1
  end.
  destruct (emits_find_write_nodes fuel _ _ _ E1) as (C1 & evs1 & T1 & A1).
  cbn [commit_tid trace] in C1, T1.
  assert (P1 : forallb plain_event (trace f1) = true).
  { rewrite T1. cbn [app forallb]. rewrite A1. reflexivity. }
  destruct r1 as [[]| |];
    [|injection H as <- <-; apply body_plain; auto
     |injection H as <- <-; apply body_plain; auto].
  unfold commit_after_find in H. unfold bind at 1, get_dbtuples at 1 in H.
  destruct (negb (fst _) || negb (vec_empty (dbtuples f1))) eqn:G;
    [|injection H as <- <-; apply body_plain; auto].
  unfold bind at 1 in H.
  destruct (vec_empty (dbtuples f1)) eqn:V; cbn [negb] in H.
  - (* no writes *)
    cbn [ret] in H. unfold bind at 1 in H.
    destruct (read_validation f1) as [r3 f3] eqn:E3.
    destruct (emits_read_validation _ _ _ E3) as (C3 & evs3 & T3 & A3).
    assert (P3 : forallb plain_event (trace f3) = true).
    { rewrite T3, forallb_app, P1, A3. reflexivity. }
    destruct r3 as [[]| |];
      [|injection H as <- <-; apply body_plain; congruence
       |injection H as <- <-; apply body_plain; congruence].
    unfold bind at 1, get_dbtuples at 1 in H.
    destruct (negb (vec_empty (dbtuples f3))) eqn:V3.
    + unfold write_records in H. rewrite C3, C1 in H. cbn [snd] in H.
      pose proof (write_records_ok _ _ _ _ _ H) as ->.
      destruct (emits_for_each (written_with 0%Z) (dbtuples f3)
                  (write_record 0%Z) (emits_write_record 0%Z) _ _ _ H)
        as (C4 & evs4 & T4 & A4).
      (* cannot happen: validation keeps the vector empty *)
      exfalso.
      destruct (still_read_validation _ _ _ E3) as (_ & _ & D3 & _).
      rewrite D3 in V3. rewrite V in V3. discriminate.
    + injection H as <- <-. apply body_plain; congruence.
  - (* writes *)
    unfold lock_write_nodes in H.
    unfold bind at 1 2 3, get_dbtuples at 1, set_dbtuples at 1 in H.
    match type of H with
    | context [lock_nodes [] ?v ?g] =>
        destruct (lock_nodes [] v g) as [r2 f2] eqn:E2
    end.
    destruct (emits_lock_nodes _ _ _ _ _ E2) as (C2 & evs2 & T2 & A2).
    cbn [commit_tid trace] in C2, T2.
    assert (P2 : forallb plain_event (trace f2) = true).
    { rewrite T2, forallb_app, P1, A2. reflexivity. }
    destruct r2 as [[]| |];
      [|injection H as <- <-; apply body_plain; congruence
       |injection H as <- <-; apply body_plain; congruence].
    unfold bind at 1 2, get_dbtuples at 1, call at 1, set_commit_tid at 1 in H.
    cbv zeta in H. cbn [txn dbtuples commit_tid world trace fst snd] in H.
    unfold bind at 1 in H.
    match type of H with
    | context [read_validation ?g] =>
        destruct (read_validation g) as [r3 f3] eqn:E3
    end.
    destruct (emits_read_validation _ _ _ E3) as (C3 & evs3 & T3 & A3).
    cbn [commit_tid trace] in C3, T3.
    destruct r3 as [[]| |].
    + unfold bind at 1, get_dbtuples at 1 in H.
      destruct (negb (vec_empty (dbtuples f3))) eqn:V3.
      * unfold write_records in H. rewrite C3 in H. cbn [snd] in H.
        match type of H with
        | for_each _ (write_record ?t) _ = _ => set (tid := t) in *
        end.
        pose proof (write_records_ok _ _ _ _ _ H) as ->.
        destruct (emits_for_each (written_with tid) (dbtuples f3)
                    (write_record tid) (emits_write_record tid) _ _ _ H)
          as (C4 & evs4 & T4 & A4).
        eapply body_tid with (evs1 := trace f2) (evs2 := evs3 ++ evs4) (tid := tid).
        -- rewrite T4, T3, <- !app_assoc. reflexivity.
        -- exact P2.
        -- rewrite forallb_app, A4, andb_true_r.
           eapply forallb_weaken; [|exact A3]. apply plain_written_with.
        -- discriminate.
        -- rewrite C4, C3. reflexivity.
      * injection H as <- <-.
        eapply body_tid with (evs1 := trace f2) (evs2 := evs3).
        -- rewrite T3, <- !app_assoc. reflexivity.
        -- exact P2.
        -- eapply forallb_weaken; [|exact A3]. apply plain_written_with.
        -- discriminate.
        -- exact C3.
    + injection H as <- <-.
      eapply body_tid with (evs1 := trace f2) (evs2 := evs3).
      * rewrite T3, <- !app_assoc. reflexivity.
      * exact P2.
      * eapply forallb_weaken; [|exact A3]. apply plain_written_with.
      * intros _. exact A3.
      * exact C3.
    + injection H as <- <-.
      eapply body_tid with (evs1 := trace f2) (evs2 := evs3).
      * rewrite T3, <- !app_assoc. reflexivity.
      * exact P2.
      * eapply forallb_weaken; [|exact A3]. apply plain_written_with.
      * intros _. exact A3.
      * exact C3.
Qed.

Lemma unlocks_plain (v : dbtuple_vec) :
  forallb plain_event
    (map (fun e => EvUnlock (fst e)) (filter (fun e => locked (snd e)) v))
  = true.
Proof.
  induction v as [|e v IH]; cbn [filter map forallb]; [reflexivity|].
  destruct (locked (snd e)); cbn [map forallb]; auto.
Qed.

(** X23.  A [commit] that does not return [true] has made none of the
    six calls of Phase D: no [mark_modifying], no version store, no
    [write_record_at], no [insert], no [on_dbtuple_spill] and no
    [on_logical_delete].  (The calls of Phase A are not among them: a
    tuple that Phase A allocated and put into the index with
    [insert_if_absent] stays there when the commit aborts.) *)
Theorem aborted_commit_writes_nothing :
  forall (fuel : nat) (doThrow : bool) (tx : transaction) (w : W),
    state tx = TXN_EMBRYO \/ state tx = TXN_ACTIVE ->
    fst (commit fuel doThrow tx w) <> Returned true ->
    existsb write_event (trace (snd (commit fuel doThrow tx w))) = false.
Proof.
  intros fuel doThrow tx w Hs. rewrite (commit_active _ _ _ _ Hs).
  destruct (commit_body fuel (commit_begin tx w)) as [r f] eqn:E.
  pose proof (commit_body_trace _ _ _ _ _ E) as B.
  destruct r as [[]| |]; cbn [fst snd]; intros H; [congruence| |].
  - destruct (do_abort_frame f) as (_ & _ & _ & _ & T). rewrite T.
    rewrite !existsb_app.
    rewrite (proj2 (plain_no_tid _ (unlocks_plain (dbtuples f)))).
    assert (F : existsb write_event
                  (if fst (commit_tid f)
                   then [EvOnTidFinish (snd (commit_tid f))] else []) = false)
      by (destruct (fst (commit_tid f)); reflexivity).
    rewrite F, !orb_false_r.
    destruct B as [P _|evs1 v tid evs2 T' P1 P2 P3 _].
    + apply plain_no_tid. exact P.
    + rewrite T'. rewrite existsb_app. cbn [existsb write_event].
      rewrite (proj2 (plain_no_tid _ P1)).
      rewrite (proj2 (plain_no_tid _ (P3 eq_refl))). reflexivity.
  - destruct B as [P _|evs1 v tid evs2 T' P1 P2 P3 _].
    + apply plain_no_tid. exact P.
    + rewrite T'. rewrite existsb_app. cbn [existsb write_event].
      rewrite (proj2 (plain_no_tid _ P1)).
      rewrite (proj2 (plain_no_tid _ (P3 eq_refl))). reflexivity.
Qed.

End TidFacts.

Section TidExamples.

Local Open Scope Z_scope.

Lemma aborted_commit_writes_nothing_witness :
  let wr := mk_write_record (digit_key 5) false in
  let tx := toy_txn 0 (toy_context [(5, mk_read_record 7 false)] []
                         [(digit_key 1, wr)] []) in
  let w := mk_toy_world 4 true false true (Some 64) None 1000 in
  (state tx = TXN_EMBRYO \/ state tx = TXN_ACTIVE) /\
  fst (commit 1 false tx w) <> Returned true /\
  In (EvGenCommitTid [(64, mk_dbtuple_info 100 (digit_key 1) true (digit_key 5) false)] 42)
     (trace (snd (commit 1 false tx w))) /\
  existsb write_event (trace (snd (commit 1 false tx w))) = false.
Proof.
  intros wr tx w.
  assert (H1 : state tx = TXN_EMBRYO \/ state tx = TXN_ACTIVE)
    by (right; reflexivity).
  assert (H2 : fst (commit 1 false tx w) <> Returned true)
    by (vm_compute; discriminate).
  split; [exact H1|]. split; [exact H2|].
  split; [vm_compute; auto 10|].
  exact (aborted_commit_writes_nothing 1%nat false tx w H1 H2).
Defined.


End TidExamples.

(** ** The validation of the scans *)

Section ScanValidation.

Context {W : Type} {PR : Protocol W} {ST : Storage W}.

Notation "x <- m ;; k" := (bind m (fun x => k))
  (at level 61, m at next level, right associativity).
Notation "m ;;; k" := (bind m (fun _ => k))
  (at level 61, right associativity).

Lemma node_scan_loop_run (ns : node_scan_map) :
  forall (f : frame W) res f',
    for_each ns (fun e =>
      v <- call (ExtractVersionNumber (fst e)) (EvExtractVersionNumber (fst e)) ;;
      if negb (v =? snd e)%Z
      then abort_goto ABORT_REASON_NODE_SCAN_READ_VERSION_CHANGED
      else ret tt) f = (res, f') ->
    exists evs ab,
      scan_run ns evs ab /\ trace f' = trace f ++ evs /\
      validated ABORT_REASON_NODE_SCAN_READ_VERSION_CHANGED ab f res f'.
Proof.
  induction ns as [|e ns IH]; intros f res f' H; cbn [for_each] in H.
  - mrun_in H. injection H as <- <-. exists [], false.
    rewrite app_nil_r. unfold validated. repeat split; auto using scan_run_nil.
  - unfold bind at 1 2, call at 1 in H. cbv zeta in H.
    destruct (ExtractVersionNumber (fst e) (world f)) as [v w1] eqn:E1.
    cbn [fst snd] in H.
    destruct (Z.eqb_spec v (snd e)) as [Ev|Ev]; cbn [negb] in H.
    + mrun_in H. apply IH in H.
      destruct H as (evs & ab & H1 & H2 & H3).
      cbn [txn dbtuples commit_tid world trace] in *.
      exists (EvExtractVersionNumber (fst e) (snd e) :: evs), ab.
      split; [apply scan_run_ok; exact H1|].
      split; [rewrite H2, <- app_assoc, Ev; reflexivity | exact H3].
    + mrun_in H. injection H as <- <-.
      exists [EvExtractVersionNumber (fst e) v], true.
      split; [apply scan_run_fail; exact Ev|].
      unfold validated. cbn. repeat split; auto.
Qed.

Lemma absent_range_loop_run tree ctx (l : absent_range_vec) :
  forall (f : frame W) res f',
    for_each l (fun range =>
      failed <- call (absent_range_validation tree ctx range)
                  (EvAbsentRangeValidation tree range) ;;
      if failed then abort_goto ABORT_REASON_WRITE_NODE_INTERFERENCE
      else ret tt) f = (res, f') ->
    exists evs ab,
      range_run tree l evs ab /\ trace f' = trace f ++ evs /\
      validated ABORT_REASON_WRITE_NODE_INTERFERENCE ab f res f'.
Proof.
  induction l as [|range l IH]; intros f res f' H; cbn [for_each] in H.
  - mrun_in H. injection H as <- <-. exists [], false.
    rewrite app_nil_r. unfold validated. repeat split; auto using range_run_nil.
  - unfold bind at 1 2, call at 1 in H. cbv zeta in H.
    destruct (absent_range_validation tree ctx range (world f))
      as [failed w1] eqn:E1.
    cbn [fst snd] in H. destruct failed.
    + mrun_in H. injection H as <- <-.
      exists [EvAbsentRangeValidation tree range true], true.
      split; [apply range_run_fail|].
      unfold validated. cbn. repeat split; auto.
    + mrun_in H. apply IH in H.
      destruct H as (evs & ab & H1 & H2 & H3).
      cbn [txn dbtuples commit_tid world trace] in *.
      exists (EvAbsentRangeValidation tree range false :: evs), ab.
      split; [apply range_run_ok; exact H1|].
      split; [rewrite H2, <- app_assoc; reflexivity | exact H3].
Qed.

(** X25.  The last check of Phase C on a context.  With
    [TXN_FLAG_LOW_LEVEL_SCAN] it reads the version of every scanned
    node, in order, and stops at the first that differs from the one
    recorded, with [ABORT_REASON_NODE_SCAN_READ_VERSION_CHANGED];
    without the flag it validates every absent range, in order, and
    stops at the first that fails, with
    [ABORT_REASON_WRITE_NODE_INTERFERENCE].  Either way it changes
    nothing else. *)
Theorem scans_validated_entry_by_entry :
  forall (tree : pointer) (ctx : txn_context) (f : frame W)
         (res : outcome unit) (f' : frame W),
    validate_scans tree ctx f = (res, f') ->
    exists evs ab,
      trace f' = trace f ++ evs /\
      if has_flag (flags (txn f)) TXN_FLAG_LOW_LEVEL_SCAN
      then scan_run (node_scan ctx) evs ab /\
           validated ABORT_REASON_NODE_SCAN_READ_VERSION_CHANGED ab f res f'
      else range_run tree (absent_range_set ctx) evs ab /\
           validated ABORT_REASON_WRITE_NODE_INTERFERENCE ab f res f'.
Proof.
  intros tree ctx f res f' H. unfold validate_scans in H.
  unfold bind at 1, get_txn at 1 in H.
  destruct (has_flag (flags (txn f)) TXN_FLAG_LOW_LEVEL_SCAN).
  - apply node_scan_loop_run in H. destruct H as (evs & ab & H1 & H2 & H3).
    exists evs, ab. auto.
  - apply absent_range_loop_run in H. destruct H as (evs & ab & H1 & H2 & H3).
    exists evs, ab. auto.
Qed.

End ScanValidation.

Lemma scans_validated_entry_by_entry_witness :
  let ctx := toy_context [] [] [] [(200, 0); (300, 5)]%Z in
  let f := mk_frame (toy_txn TXN_FLAG_LOW_LEVEL_SCAN ctx) [] (false, 0%Z)
             toy_calm [] in
  validate_scans 100%Z ctx f = (Jump, snd (validate_scans 100%Z ctx f)) /\
  reason (txn (snd (validate_scans 100%Z ctx f)))
  = ABORT_REASON_NODE_SCAN_READ_VERSION_CHANGED /\
  exists evs ab,
    trace (snd (validate_scans 100%Z ctx f)) = trace f ++ evs /\
    if has_flag (flags (txn f)) TXN_FLAG_LOW_LEVEL_SCAN
    then scan_run (node_scan ctx) evs ab /\
         validated ABORT_REASON_NODE_SCAN_READ_VERSION_CHANGED ab f Jump
           (snd (validate_scans 100%Z ctx f))
    else range_run 100%Z (absent_range_set ctx) evs ab /\
         validated ABORT_REASON_WRITE_NODE_INTERFERENCE ab f Jump
           (snd (validate_scans 100%Z ctx f)).
Proof.
  intros ctx f.
  assert (H : validate_scans 100%Z ctx f
              = (Jump, snd (validate_scans 100%Z ctx f)))
    by (vm_compute; reflexivity).
  split; [exact H|]. split; [vm_compute; reflexivity|].
  exact (scans_validated_entry_by_entry 100%Z ctx f Jump _ H).
Defined.

Section CommitShapeFacts.

Context {W : Type} {PR : Protocol W} {ST : Storage W}.

Notation "x <- m ;; k" := (bind m (fun x => k))
  (at level 61, m at next level, right associativity).
Notation "m ;;; k" := (bind m (fun _ => k))
  (at level 61, right associativity).

(** *** Phase C as a whole *)

Lemma validate_scans_run tree ctx (f : frame W) res f' :
  validate_scans tree ctx f = (res, f') ->
  exists evs ab,
    (if has_flag (flags (txn f)) TXN_FLAG_LOW_LEVEL_SCAN
     then scan_run (node_scan ctx) evs ab
     else range_run tree (absent_range_set ctx) evs ab) /\
    trace f' = trace f ++ evs /\
    validated
      (if has_flag (flags (txn f)) TXN_FLAG_LOW_LEVEL_SCAN
       then ABORT_REASON_NODE_SCAN_READ_VERSION_CHANGED
       else ABORT_REASON_WRITE_NODE_INTERFERENCE) ab f res f'.
Proof.
  intros H. unfold validate_scans in H.
  unfold bind at 1, get_txn at 1 in H.
  destruct (has_flag (flags (txn f)) TXN_FLAG_LOW_LEVEL_SCAN).
  - apply node_scan_loop_run in H. destruct H as (evs & ab & H1 & H2 & H3).
    exists evs, ab. auto.
  - apply absent_range_loop_run in H. destruct H as (evs & ab & H1 & H2 & H3).
    exists evs, ab. auto.
Qed.

Lemma context_validation_run tree ctx (f : frame W) res f' :
  (validate_read_set (read_set ctx) ;;;
   validate_absent_set tree (absent_set ctx) ;;;
   validate_scans tree ctx) f = (res, f') ->
  exists evs r,
    context_run (has_flag (flags (txn f)) TXN_FLAG_LOW_LEVEL_SCAN)
      tree ctx evs r /\
    trace f' = trace f ++ evs /\ checked r f res f'.
Proof.
  intros H. unfold bind at 1 in H.
  destruct (validate_read_set (read_set ctx) f) as [r1 f1] eqn:E1.
  destruct (validate_read_set_run _ _ _ _ E1)
    as (evs1 & ab1 & R1 & T1 & D1 & C1 & S1 & F1 & M1 & V1).
  destruct ab1.
  { destruct V1 as [-> V1]. injection H as <- <-.
    exists evs1, (Some ABORT_REASON_READ_NODE_INTEREFERENCE).
    split; [apply context_run_read; exact R1|].
    unfold checked. auto 10. }
  destruct V1 as [-> V1]. unfold bind at 1 in H.
  destruct (validate_absent_set tree (absent_set ctx) f1) as [r2 f2] eqn:E2.
  destruct (validate_absent_set_run _ _ _ _ _ E2)
    as (evs2 & ab2 & R2 & T2 & D2 & C2 & S2 & F2 & M2 & V2).
  destruct ab2.
  { destruct V2 as [-> V2]. injection H as <- <-.
    exists (evs1 ++ evs2), (Some ABORT_REASON_READ_ABSENCE_INTEREFERENCE).
    split; [apply context_run_absent; assumption|].
    split; [rewrite T2, T1, app_assoc; reflexivity|].
    unfold checked. repeat split; congruence. }
  destruct V2 as [-> V2].
  destruct (validate_scans_run _ _ _ _ _ H)
    as (evs3 & ab3 & R3 & T3 & D3 & C3 & S3 & F3 & M3 & V3).
  assert (Ff : flags (txn f2) = flags (txn f)) by congruence.
  rewrite Ff in R3, V3.
  exists (evs1 ++ evs2 ++ evs3).
  eexists. split; [apply context_run_scan with (ab := ab3); eassumption|].
  split; [rewrite T3, T2, T1, !app_assoc; reflexivity|].
  unfold checked.
  split; [congruence|]. split; [congruence|]. split; [congruence|].
  split; [congruence|]. split; [congruence|].
  destruct ab3.
  - destruct V3 as [-> V3]. split; [reflexivity|].
    destruct (has_flag _ _); exact V3.
  - destruct V3 as [-> V3]. split; [reflexivity | congruence].
Qed.

Lemma read_validation_run (f : frame W) res f' :
  read_validation f = (res, f') ->
  exists evs r,
    validation_run (has_flag (flags (txn f)) TXN_FLAG_LOW_LEVEL_SCAN)
      (ctx_map (txn f)) evs r /\
    trace f' = trace f ++ evs /\ checked r f res f'.
Proof.
  unfold read_validation, bind at 1, get_txn at 1.
  generalize (ctx_map (txn f)) as l. intros l. revert f res f'.
  induction l as [|e l IH]; intros f res f' H; cbn [for_each] in H.
  - injection H as <- <-. exists [], None.
    split; [apply validation_run_nil|]. rewrite app_nil_r.
    unfold checked. auto 10.
  - unfold bind at 1 in H.
    match type of H with
    | context [match ?m f with _ => _ end] =>
        destruct (m f) as [r1 f1] eqn:E1
    end.
    destruct (context_validation_run _ _ _ _ _ E1)
      as (evs1 & r & R1 & T1 & D1 & C1 & S1 & F1 & M1 & V1).
    destruct r as [why|].
    + destruct V1 as [-> V1]. injection H as <- <-.
      exists evs1, (Some why).
      split; [apply validation_run_fail; exact R1|].
      unfold checked. auto 10.
    + destruct V1 as [-> V1].
      destruct (IH _ _ _ H) as (evs2 & r & R2 & T2 & D2 & C2 & S2 & F2 & M2 & V2).
      rewrite F1 in R2.
      exists (evs1 ++ evs2), r.
      split; [apply validation_run_ok; assumption|].
      split; [rewrite T2, T1, app_assoc; reflexivity|].
      unfold checked.
      split; [congruence|]. split; [congruence|]. split; [congruence|].
      split; [congruence|]. split; [congruence|].
      destruct r as [why|]; destruct V2 as [-> V2];
        (split; [reflexivity | congruence]).
Qed.

(** *** The phases by the calls they make *)

Ltac emits_by HP :=
  first [ apply emits_ret | apply emits_get_txn | apply emits_get_dbtuples
        | apply emits_set_dbtuples | apply emits_modify_ctx
        | apply emits_abort_goto
        | apply emits_call; intros; apply HP; reflexivity
        | apply emits_call_; apply HP; reflexivity ].

Ltac emits_chain HP :=
  repeat first [ emits_by HP | apply emits_bind; [|intros ?] ].

Lemma emits_find_write_nodes_of (P : event -> bool) fuel :
  (forall ev, resolve_event ev = true -> P ev = true) ->
  emits (W := W) P (find_write_nodes fuel).
Proof.
  intros HP.
  assert (N : forall n i tree k wr tip,
             emits (W := W) P (find_write_node n i tree k wr tip)).
  { induction n as [|n IH]; intros i tree k wr tip; cbn [find_write_node].
    - apply emits_silent. intros f res f' H. injection H as <- <-. auto.
    - apply emits_bind; [destruct tip; emits_by HP|]. intros [v|].
      + unfold search_succeeded, emplace_back, mark_read_set, mark_absent_set.
        emits_chain HP.
      + apply emits_bind; [emits_by HP|]. intros tuple.
        apply emits_bind; [emits_by HP|]. intros _.
        apply emits_bind; [emits_by HP|]. intros [[node version]|].
        * unfold insert_succeeded, emplace_back, mark_read_set, mark_absent_set.
          apply emits_bind; [|intros _; emits_chain HP].
          unfold update_node_scan. apply emits_bind; [emits_by HP|]. intros tx.
          destruct (has_flag _ _); [|emits_by HP].
          destruct (nth_error _ _) as [[? ctx]|]; [|emits_by HP].
          destruct (alist_find _ _ _); [|emits_by HP].
          destruct (negb _); emits_by HP.
        * apply emits_bind; [emits_by HP|]. intros _.
          apply emits_bind; [emits_by HP|]. intros _. apply IH. }
  unfold find_write_nodes. apply emits_bind; [emits_by HP|]. intros tx.
  apply emits_for_each. intros [i [tree ctx]].
  apply emits_for_each. intros w. apply N.
Qed.

Lemma emits_write_record_of (P : event -> bool) tid e :
  (forall ev, finish_event tid ev = true -> P ev = true) ->
  emits (W := W) P (write_record tid e).
Proof.
  intros HP. unfold write_record. cbv zeta.
  apply emits_bind; [|intros _; emits_by HP].
  destruct (info_insert (snd e)).
  - apply emits_bind; [emits_by HP|]. intros _.
    apply emits_call_. apply HP. cbn. apply Z.eqb_refl.
  - apply emits_bind.
    { apply emits_call. intros x. apply HP. cbn. apply Z.eqb_refl. }
    intros res. unfold lock_guard.
    apply emits_bind; [destruct (_ =? _)%Z; emits_chain HP|]. intros _.
    apply emits_bind; [|intros _; destruct (_ =? _)%Z; emits_by HP].
    apply emits_bind; [destruct (negb _); emits_chain HP|]. intros _.
    apply emits_bind; [destruct (fst res); emits_by HP|]. intros _.
    destruct (is_empty_string _); emits_by HP.
Qed.

Lemma write_record_txn tid e (f : frame W) :
  txn (snd (write_record tid e f)) = txn f.
Proof.
  unfold write_record, lock_guard, bind, call, call_, ret. cbv zeta.
  repeat match goal with
         | |- context [if ?c then _ else _] => destruct c
         end; reflexivity.
Qed.

Lemma write_records_txn tid (l : dbtuple_vec) :
  forall (f : frame W), txn (snd (for_each l (write_record tid) f)) = txn f.
Proof.
  induction l as [|e l IH]; intros f; cbn [for_each]; [reflexivity|].
  unfold bind.
  destruct (write_record tid e f) as [r1 f1] eqn:E1.
  pose proof (write_record_txn tid e f) as T. rewrite E1 in T. cbn [snd] in T.
  destruct (write_record_unlocks _ _ _ _ _ E1) as (-> & _).
  rewrite IH. exact T.
Qed.

Lemma filter_locked_all v :
  filter (fun e : dbtuple_pair => locked (snd e)) (lock_all v) = lock_all v.
Proof.
  pose proof (lock_all_locked v) as H.
  induction H as [|e l L F IH]; cbn [filter]; [reflexivity|].
  rewrite L, IH. reflexivity.
Qed.

Lemma unlocks_are_unlocks (v : dbtuple_vec) :
  forallb unlock_event (map (fun e => EvUnlock (fst e)) v) = true.
Proof. induction v as [|e v IH]; cbn; auto. Qed.

Lemma find_write_nodes_written fuel (f f' : frame W) :
  find_write_nodes fuel f = (Ok tt, f') ->
  written (dbtuples f') = written (dbtuples f) ++ to_write (ctx_map (txn f)).
Proof.
  intros H. unfold find_write_nodes, bind at 1, get_txn at 1 in H.
  unfold to_write.
  assert (G : forall (l : ctx_map_type) n g g',
             for_each (combine (seq n (length l)) l)
               (fun e : nat * (pointer * txn_context) =>
                  let '(i, (tree, ctx)) := e in
                  for_each (write_set ctx)
                    (fun w => find_write_node fuel i tree (fst w) (snd w)
                                (insert (snd w)))) g = (Ok tt, g') ->
             written (dbtuples g')
             = written (dbtuples g)
               ++ flat_map
                    (fun e => map (fun w => (fst e, fst w, r (snd w)))
                                (write_set (snd e))) l).
  { induction l as [|[tree ctx] l IHl]; intros n g g' Hg;
      cbn [length seq combine for_each flat_map] in *.
    - injection Hg as <-. rewrite app_nil_r. reflexivity.
    - unfold bind at 1 in Hg.
      destruct (for_each (write_set ctx) _ g) as [[[]| |] g1] eqn:E1;
        try discriminate.
      rewrite (IHl _ _ _ Hg). rewrite app_assoc. f_equal.
      cbn [fst snd]. revert E1.
      rewrite <- (flat_map_concat_map
                    (fun w => [(tree, fst w, r (snd w))]) (write_set ctx))
        || idtac.
      apply (for_each_collect (fun h => written (dbtuples h))
               (fun w : Key.string_type * write_record_t =>
                  [(tree, fst w, r (snd w))])).
      intros w f1 f2 Hw. apply find_write_node_adds_one in Hw.
      destruct Hw as (p & ins & Hw). rewrite Hw. unfold written.
      rewrite map_app. reflexivity. }
  exact (G _ _ _ _ H).
Qed.

End CommitShapeFacts.

Section CommitShapeProof.

Context {W : Type} {PR : Protocol W} {ST : Storage W}.

Notation "x <- m ;; k" := (bind m (fun x => k))
  (at level 61, m at next level, right associativity).
Notation "m ;;; k" := (bind m (fun _ => k))
  (at level 61, right associativity).

Lemma commit_finish_txn (f : frame W) :
  ctx_map (txn (commit_finish f)) = ctx_map (txn f) /\
  reason (txn (commit_finish f)) = reason (txn f).
Proof.
  unfold commit_finish. cbv zeta.
  destruct (fst (commit_tid f)); cbn; auto.
Qed.

(** The end of [commit] after a jump and after the last write. *)
Lemma do_abort_ends (f : frame W) :
  ctx_map (txn (do_abort f)) = ctx_map (txn f) /\
  reason (txn (do_abort f)) = reason (txn f) /\
  trace (do_abort f)
  = trace f ++ map (fun e => EvUnlock (fst e))
                 (filter (fun e => locked (snd e)) (dbtuples f))
      ++ (if fst (commit_tid f) then [EvOnTidFinish (snd (commit_tid f))]
          else []).
Proof. destruct (do_abort_frame f) as (_ & R & _ & M & T). auto. Qed.

Lemma std_sort_nonempty (v : dbtuple_vec) : v <> [] -> lock_all (std_sort v) <> [].
Proof.
  intros N E. apply N.
  assert (L : length (lock_all (std_sort v)) = length v).
  { unfold lock_all. rewrite length_map.
    symmetry. apply Permutation_length. apply LNodeSort.Permuted_sort. }
  rewrite E in L. destruct v; [reflexivity | discriminate L].
Qed.

Lemma commit_ends_eq low doThrow s m0 m why res (tr tr' : list event) :
  @commit_ends W ST low doThrow s m0 m why res tr -> tr = tr' ->
  @commit_ends W ST low doThrow s m0 m why res tr'.
Proof. intros H <-. exact H. Qed.

Ltac trace_eq :=
  cbn [gen_events fin_events locked_tuples map app fst snd];
  rewrite ?app_nil_r, <- ?app_assoc; cbn [app];
  rewrite ?app_nil_r; reflexivity.

Lemma commit_shape fuel doThrow tx w :
  state tx = TXN_EMBRYO \/ state tx = TXN_ACTIVE ->
  fst (commit fuel doThrow tx w) <> CutOff ->
  commit_ends (has_flag (flags tx) TXN_FLAG_LOW_LEVEL_SCAN) doThrow
    (fst (consistent_snapshot_tid w)) (ctx_map tx)
    (ctx_map (txn (snd (commit fuel doThrow tx w))))
    (reason (txn (snd (commit fuel doThrow tx w))))
    (fst (commit fuel doThrow tx w))
    (trace (snd (commit fuel doThrow tx w))).
Proof.
  intros Hs. rewrite (commit_active _ _ _ _ Hs).
  destruct (commit_body fuel (commit_begin tx w)) as [r f] eqn:E.
  unfold commit_body in E. unfold bind at 1, call at 1 in E.
  cbv zeta in E.
  cbn [commit_begin world txn dbtuples commit_tid trace app] in E.
  set (s := fst (consistent_snapshot_tid w)) in *.
  unfold bind at 1 in E.
  match type of E with
  | context [find_write_nodes fuel ?g] =>
      set (f0 := g) in *;
      destruct (find_write_nodes fuel f0) as [rA fA] eqn:EA
  end.
  destruct (emits_find_write_nodes_of resolve_event fuel (fun ev H => H)
              _ _ _ EA) as (CA & evsA & TA & PA).
  subst f0. cbn [commit_tid trace] in CA, TA.
  pose proof (find_write_nodes_owed _ _ _ _ EA) as KA.
  destruct rA as [[]| |]; cbn [lock_phase] in KA.
  2:{ (* Phase A jumps *)
    injection E as <- <-. cbn [fst snd]. intros _.
    destruct (do_abort_ends fA) as (M & R & T).
    rewrite M, R, T, CA, TA. cbn [fst].
    apply find_write_nodes_jump in EA. rewrite EA.
    eapply commit_ends_eq;
      [ apply (commit_ends_abort_resolve _ _ _ _ _ _ evsA);
        [exact PA | apply unlocks_are_unlocks | reflexivity]
      | trace_eq ]. }
  2:{ injection E as <- <-. cbn [fst]. congruence. }
  destruct KA as [FA _]. cbn [txn] in FA.
  pose proof (find_write_nodes_written _ _ _ EA) as WA.
  cbn [dbtuples written map app txn] in WA.
  unfold commit_after_find in E. unfold bind at 1, get_dbtuples at 1 in E.
  destruct (dbtuples fA) as [|e0 v0] eqn:DA.
  - (* no tuple to write *)
    cbn [vec_empty negb] in E. rewrite orb_false_r in E.
    destruct (fst s) eqn:Sf; cbn [negb] in E.
    + (* the fast path *)
      injection E as <- <-. cbn [fst snd]. intros _.
      destruct (commit_finish_frame fA) as (_ & T). rewrite T, CA, TA.
      cbn [fst].
      eapply commit_ends_eq;
        [ apply (commit_ends_fast _ _ _ _ _ _ evsA);
          [exact Sf | symmetry; exact WA | exact PA]
        | trace_eq ].
    + unfold bind at 1 in E. cbn [ret] in E. unfold bind at 1 in E.
      destruct (read_validation fA) as [rC fC] eqn:EC.
      destruct (read_validation_run _ _ _ EC)
        as (evsC & rr & RC & TC & DC & CC & SC & FC & MC & VC).
      rewrite FA in RC.
      destruct rr as [why|]; destruct VC as [-> VC].
      * injection E as <- <-. cbn [fst snd]. intros _.
        destruct (do_abort_ends fC) as (M & R & T).
        rewrite M, R, T, DC, DA, CC, CA, TC, TA, VC, MC.
        cbn [fst filter map].
        eapply commit_ends_eq;
          [ apply (commit_ends_abort_validation _ _ _ _ _ _ evsA [] [] None evsC);
            [ exact PA | exact WA | apply lock_phase_none; reflexivity
            | reflexivity | exact RC ]
          | trace_eq ].
      * unfold bind at 1, get_dbtuples at 1 in E. rewrite DC, DA in E.
        cbn [vec_empty negb] in E.
        injection E as <- <-. cbn [fst snd]. intros _.
        destruct (commit_finish_frame fC) as (_ & T).
        destruct (commit_finish_txn fC) as (M & R).
        rewrite M, T, CC, CA, TC, TA, MC. cbn [fst].
        eapply commit_ends_eq;
          [ apply (commit_ends_done _ _ _ _ _ _ evsA [] [] None evsC []);
            [ exact PA | exact WA | apply lock_phase_none; reflexivity
            | reflexivity | exact RC | reflexivity ]
          | trace_eq ].
  - (* tuples to write *)
    cbn [vec_empty negb] in E. rewrite orb_true_r in E.
    unfold bind at 1 in E. unfold lock_write_nodes in E.
    unfold bind at 1 2 3, get_dbtuples at 1, set_dbtuples at 1 in E.
    rewrite DA in E.
    match type of E with
    | context [lock_nodes [] ?v ?g] =>
        destruct (lock_nodes [] v g) as [rB f2] eqn:EB
    end.
    apply lock_nodes_run in EB; [|reflexivity].
    destruct EB as (evsB & ab & LB & TB & FB & SB & MB & CB & VB).
    cbn [trace txn commit_tid app] in TB, FB, SB, MB, CB, VB.
    assert (NA : e0 :: v0 <> []) by discriminate.
    destruct ab.
    + (* Phase B jumps *)
      destruct VB as [-> RB]. injection E as <- <-. cbn [fst snd]. intros _.
      destruct (do_abort_ends f2) as (M & R & T).
      rewrite M, R, T, CB, CA, TB, TA, RB. cbn [fst].
      eapply commit_ends_eq;
        [ apply (commit_ends_abort_lock _ _ _ _ _ _ evsA (e0 :: v0) evsB);
          [ exact PA | exact WA | apply lock_phase_some; assumption
          | apply unlocks_are_unlocks | reflexivity ]
        | trace_eq ].
    + destruct VB as (-> & XB & DB). cbn [app] in DB.
      unfold bind at 1 2, get_dbtuples at 1, call at 1, set_commit_tid at 1 in E.
      cbv zeta in E. cbn [txn dbtuples commit_tid world trace fst snd] in E.
      unfold bind at 1 in E.
      match type of E with
      | context [read_validation ?g] =>
          set (fB := g) in *;
          destruct (read_validation fB) as [rC fC] eqn:EC
      end.
      destruct (read_validation_run _ _ _ EC)
        as (evsC & rr & RC & TC & DC & CC & SC & FC & MC & VC).
      subst fB. cbn [txn dbtuples commit_tid trace] in RC, TC, DC, CC, MC.
      rewrite XB, FA in RC. rewrite XB in MC.
      match type of CC with
      | _ = (true, ?t) => set (tid := t) in *
      end.
      rewrite DB in TC.
      set (o := Some (lock_all (std_sort (e0 :: v0)), tid)).
      assert (Ho : tid_for (e0 :: v0) o) by (split; [exact NA | reflexivity]).
      destruct rr as [why|]; destruct VC as [-> VC].
      * injection E as <- <-. cbn [fst snd]. intros _.
        destruct (do_abort_ends fC) as (M & R & T).
        rewrite M, R, T, DC, DB, CC, TC, TB, TA, VC, MC.
        rewrite filter_locked_all. cbn [fst snd].
        eapply commit_ends_eq;
          [ apply (commit_ends_abort_validation _ _ _ _ _ _ evsA (e0 :: v0)
                     evsB o evsC);
            [ exact PA | exact WA | apply lock_phase_some; assumption
            | exact Ho | exact RC ]
          | subst o; trace_eq ].
      * unfold bind at 1, get_dbtuples at 1 in E.
        assert (NE : negb (vec_empty (dbtuples fC)) = true).
        { rewrite DC, DB.
          pose proof (std_sort_nonempty _ NA) as N.
          destruct (lock_all (std_sort (e0 :: v0))); [congruence | reflexivity]. }
        rewrite NE in E. unfold write_records in E. rewrite CC in E.
        cbn [snd] in E.
        pose proof (write_records_ok _ _ _ _ _ E) as ->.
        destruct (emits_for_each (finish_event tid) (dbtuples fC)
                    (write_record tid)
                    (fun e => emits_write_record_of _ tid e (fun ev H => H))
                    _ _ _ E) as (CD & evsD & TD & PD).
        pose proof (write_records_txn tid (dbtuples fC) fC) as XD.
        rewrite E in XD. cbn [snd] in XD.
        cbn [fst snd]. intros _.
        destruct (commit_finish_frame f) as (_ & T).
        destruct (commit_finish_txn f) as (M & R).
        rewrite M, T, CD, CC, TD, TC, TB, TA, XD, MC.
        cbn [fst snd].
        eapply commit_ends_eq;
          [ apply (commit_ends_done _ _ _ _ _ _ evsA (e0 :: v0) evsB o evsC
                     evsD);
            [ exact PA | exact WA | apply lock_phase_some; assumption
            | exact Ho | exact RC | exact PD ]
          | subst o; trace_eq ].
Qed.

End CommitShapeProof.

(** ** What Phase A leaves of the contexts *)

Section PhaseAMarks.

Context {W : Type} {PR : Protocol W} {ST : Storage W}.

Notation "x <- m ;; k" := (bind m (fun x => k))
  (at level 61, m at next level, right associativity).
Notation "m ;;; k" := (bind m (fun _ => k))
  (at level 61, right associativity).

Lemma Forall2_same {A} (R : A -> A -> Prop) (l : list A) :
  (forall x, R x x) -> Forall2 R l l.
Proof. intros H. induction l; constructor; auto. Qed.

Lemma Forall2_chain {A} (R : A -> A -> Prop) (l1 l2 l3 : list A) :
  (forall x y z, R x y -> R y z -> R x z) ->
  Forall2 R l1 l2 -> Forall2 R l2 l3 -> Forall2 R l1 l3.
Proof.
  intros T H. revert l3.
  induction H as [|x y l1 l2 Rxy H IH]; intros l3 H3; inversion H3; subst;
    constructor; eauto.
Qed.

Lemma Forall2_in_left {A} (R : A -> A -> Prop) (l l' : list A) x :
  Forall2 R l l' -> In x l -> exists y, In y l' /\ R x y.
Proof.
  induction 1 as [|a b l l' Rab H IH]; cbn [In]; [tauto|].
  intros [<-|I]; [exists b; auto|].
  destruct (IH I) as (y & Iy & Ry). exists y; auto.
Qed.

Lemma marked_read_refl e : marked_read e e.
Proof. split; reflexivity. Qed.

Lemma marked_read_trans e1 e2 e3 :
  marked_read e1 e2 -> marked_read e2 e3 -> marked_read e1 e3.
Proof. intros [A1 B1] [A2 B2]; split; congruence. Qed.

Lemma marked_absent_refl e : marked_absent e e.
Proof. split; auto. Qed.

Lemma marked_absent_trans e1 e2 e3 :
  marked_absent e1 e2 -> marked_absent e2 e3 -> marked_absent e1 e3.
Proof.
  intros [A1 B1] [A2 B2]; split; [congruence|].
  destruct B2 as [B2|B2]; [|auto].
  destruct B1 as [B1|B1]; [left; congruence|right; congruence].
Qed.

Lemma marked_context_refl c : marked_context c c.
Proof.
  repeat split; auto; apply Forall2_same;
    [exact marked_read_refl | exact marked_absent_refl].
Qed.

Lemma marked_context_trans c1 c2 c3 :
  marked_context c1 c2 -> marked_context c2 c3 -> marked_context c1 c3.
Proof.
  intros (A1 & B1 & C1 & D1) (A2 & B2 & C2 & D2).
  repeat split; try congruence.
  - eapply Forall2_chain; eauto using marked_read_trans.
  - eapply Forall2_chain; eauto using marked_absent_trans.
Qed.

Lemma marked_refl m : marked m m.
Proof.
  apply Forall2_same. intros x. split; [reflexivity|apply marked_context_refl].
Qed.

Lemma marked_trans m1 m2 m3 : marked m1 m2 -> marked m2 m3 -> marked m1 m3.
Proof.
  apply Forall2_chain. intros x y z [A1 B1] [A2 B2].
  split; [congruence | eapply marked_context_trans; eauto].
Qed.

Lemma marked_update_nth i g m :
  (forall c, marked_context c (g c)) ->
  marked m (update_nth i (fun e => (fst e, g (snd e))) m).
Proof.
  intros H. revert i. induction m as [|e m IH]; intros [|i];
    cbn [update_nth]; try constructor.
  - split; [reflexivity | apply H].
  - apply marked_refl.
  - split; [reflexivity | apply marked_context_refl].
  - apply IH.
Qed.

Lemma marked_read_update p l :
  Forall2 marked_read l
    (alist_update Z.eqb p (fun rr => mk_read_record (t rr) true) l).
Proof.
  induction l as [|[k v] l IH]; cbn [alist_update]; [constructor|].
  destruct (Z.eqb p k); constructor; auto.
  - split; reflexivity.
  - apply Forall2_same. exact marked_read_refl.
  - apply marked_read_refl.
Qed.

Lemma marked_absent_update k ty p l :
  ty <> ABSENT_REC_READ ->
  Forall2 marked_absent l
    (alist_update Key.eqb k (fun _ => mk_absent_record ty p) l).
Proof.
  intros N. induction l as [|[k' v] l IH]; cbn [alist_update]; [constructor|].
  destruct (Key.eqb k k'); constructor; auto.
  - split; [reflexivity | right; exact N].
  - apply Forall2_same. exact marked_absent_refl.
  - apply marked_absent_refl.
Qed.

(** *** The commands *)

Lemma only_marks_same {A} (m : @M W A) :
  (forall f res f', m f = (res, f') -> ctx_map (txn f') = ctx_map (txn f)) ->
  only_marks m.
Proof. intros H f res f' E. rewrite (H _ _ _ E). apply marked_refl. Qed.

Lemma only_marks_ret {A} (x : A) : only_marks (@ret W A x).
Proof. apply only_marks_same. intros f res f' H. injection H as <- <-. auto. Qed.

Lemma only_marks_bind {A B} (m : @M W A) (k : A -> @M W B) :
  only_marks m -> (forall x, only_marks (k x)) -> only_marks (bind m k).
Proof.
  intros Hm Hk f res f' H. unfold bind in H.
  destruct (m f) as [[x| |] f1] eqn:E; pose proof (Hm _ _ _ E) as M1.
  - eapply marked_trans; [exact M1|]. eapply Hk; eauto.
  - injection H as <- <-. exact M1.
  - injection H as <- <-. exact M1.
Qed.

Lemma only_marks_call {A} (op : W -> A * W) (ev : A -> event) :
  only_marks (call op ev).
Proof.
  apply only_marks_same. intros f res f' H. unfold call in H. cbv zeta in H.
  injection H as <- <-. reflexivity.
Qed.

Lemma only_marks_call_ (op : W -> W) (ev : event) : only_marks (call_ op ev).
Proof.
  apply only_marks_same. intros f res f' H. unfold call_ in H.
  injection H as <- <-. reflexivity.
Qed.

Lemma only_marks_abort_goto {A} why : only_marks (@abort_goto W A why).
Proof.
  apply only_marks_same. intros f res f' H. injection H as <- <-. reflexivity.
Qed.

Lemma only_marks_get_txn : only_marks (@get_txn W).
Proof. apply only_marks_same. intros f res f' H. injection H as <- <-. auto. Qed.

Lemma only_marks_get_dbtuples : only_marks (@get_dbtuples W).
Proof. apply only_marks_same. intros f res f' H. injection H as <- <-. auto. Qed.

Lemma only_marks_set_dbtuples v : only_marks (@set_dbtuples W v).
Proof. apply only_marks_same. intros f res f' H. injection H as <- <-. auto. Qed.

Lemma only_marks_set_commit_tid c : only_marks (@set_commit_tid W c).
Proof. apply only_marks_same. intros f res f' H. injection H as <- <-. auto. Qed.

Lemma only_marks_modify_ctx i g :
  (forall c, marked_context c (g c)) -> only_marks (@modify_ctx W i g).
Proof.
  intros H f res f' E. rewrite modify_ctx_run in E. injection E as <- <-.
  cbn [txn ctx_map]. apply marked_update_nth. exact H.
Qed.

Lemma only_marks_for_each {A} (l : list A) (body : A -> @M W unit) :
  (forall x, only_marks (body x)) -> only_marks (for_each l body).
Proof.
  intros Hb. induction l as [|x l IH]; cbn [for_each].
  - apply only_marks_ret.
  - apply only_marks_bind; auto.
Qed.

Lemma only_marks_mark_read_set i p : only_marks (@mark_read_set W i p).
Proof.
  apply only_marks_modify_ctx. intros c. repeat split; cbn.
  - apply marked_read_update.
  - apply Forall2_same. exact marked_absent_refl.
Qed.

Lemma only_marks_mark_absent_set i k ty p :
  ty <> ABSENT_REC_READ -> only_marks (@mark_absent_set W i k ty p).
Proof.
  intros N. apply only_marks_modify_ctx. intros c.
  destruct (absent_set c) as [|e l] eqn:E; [apply marked_context_refl|].
  repeat split; cbn [read_set absent_set write_set absent_range_set].
  - apply Forall2_same. exact marked_read_refl.
  - rewrite E. apply marked_absent_update. exact N.
Qed.

Lemma only_marks_update_node_scan i node version :
  only_marks (@update_node_scan W i node version).
Proof.
  unfold update_node_scan. apply only_marks_bind; [apply only_marks_get_txn|].
  intros tx. destruct (has_flag _ _); [|apply only_marks_ret].
  destruct (nth_error _ _) as [[? ctx]|]; [|apply only_marks_ret].
  destruct (alist_find _ _ _); [|apply only_marks_ret].
  destruct (negb _); [apply only_marks_abort_goto|].
  apply only_marks_modify_ctx. intros c. repeat split; cbn.
  - apply Forall2_same. exact marked_read_refl.
  - apply Forall2_same. exact marked_absent_refl.
Qed.

Ltac marks_calls :=
  first [ apply only_marks_ret | apply only_marks_get_txn
        | apply only_marks_get_dbtuples | apply only_marks_set_dbtuples
        | apply only_marks_set_commit_tid | apply only_marks_abort_goto
        | apply only_marks_call | apply only_marks_call_
        | apply only_marks_mark_read_set
        | apply only_marks_mark_absent_set; discriminate
        | apply only_marks_update_node_scan ].

Ltac marks_seq :=
  repeat first [ marks_calls | apply only_marks_bind; [|intros ?] ].

Lemma only_marks_find_write_nodes fuel :
  only_marks (W := W) (find_write_nodes fuel).
Proof.
  assert (N : forall n i tree k wr tip,
             only_marks (W := W) (find_write_node n i tree k wr tip)).
  { induction n as [|n IH]; intros i tree k wr tip; cbn [find_write_node].
    - apply only_marks_same. intros f res f' H. injection H as <- <-. auto.
    - apply only_marks_bind; [destruct tip; marks_calls|]. intros [v|].
      + unfold search_succeeded, emplace_back. marks_seq.
      + apply only_marks_bind; [marks_calls|]. intros tuple.
        apply only_marks_bind; [marks_calls|]. intros _.
        apply only_marks_bind; [marks_calls|]. intros [[node version]|].
        * unfold insert_succeeded, emplace_back. marks_seq.
        * apply only_marks_bind; [marks_calls|]. intros _.
          apply only_marks_bind; [marks_calls|]. intros _. apply IH. }
  unfold find_write_nodes. apply only_marks_bind; [marks_calls|]. intros tx.
  apply only_marks_for_each. intros [i [tree ctx]].
  apply only_marks_for_each. intros w. apply N.
Qed.

Lemma only_marks_lock_nodes todo :
  forall done, only_marks (W := W) (lock_nodes done todo).
Proof.
  induction todo as [|e rest IH]; intros done; cbn [lock_nodes].
  - marks_calls.
  - destruct (locked (snd e)); [apply IH|].
    apply only_marks_bind; [marks_calls|]. intros v.
    apply only_marks_bind; [marks_calls|]. intros _.
    apply only_marks_bind.
    + unfold write_interference. destruct (_ || _); marks_seq.
    + intros []; [marks_calls | apply IH].
Qed.

Lemma only_marks_read_validation : only_marks (W := W) read_validation.
Proof.
  unfold read_validation. apply only_marks_bind; [marks_calls|]. intros tx.
  apply only_marks_for_each. intros [tree ctx]. cbn [fst snd].
  apply only_marks_bind; [|intros _; apply only_marks_bind; [|intros _]].
  - unfold validate_read_set. apply only_marks_for_each. intros e.
    apply only_marks_bind.
    + unfold read_check. destruct (holds_lock (snd e)); marks_calls.
    + intros []; marks_calls.
  - unfold validate_absent_set. apply only_marks_for_each. intros e.
    unfold absent_check. destruct (type (snd e)).
    + apply only_marks_bind; [marks_calls|]. intros [v|]; [|marks_calls].
      apply only_marks_bind; [marks_calls|]. intros []; marks_calls.
    + apply only_marks_bind; [marks_calls|]. intros []; marks_calls.
    + marks_calls.
  - unfold validate_scans. apply only_marks_bind; [marks_calls|]. intros tx'.
    destruct (has_flag _ _); apply only_marks_for_each; intros e;
      (apply only_marks_bind; [marks_calls|]); intros x.
    + destruct (negb _); marks_calls.
    + destruct x; marks_calls.
Qed.

Lemma only_marks_write_record tid e :
  only_marks (W := W) (write_record tid e).
Proof.
  unfold write_record. cbv zeta.
  apply only_marks_bind; [|intros _; marks_calls].
  destruct (info_insert (snd e)); [marks_seq|].
  apply only_marks_bind; [marks_calls|].
  intros res. unfold lock_guard.
  apply only_marks_bind; [destruct (_ =? _)%Z; marks_seq|]. intros _.
  apply only_marks_bind; [|intros _; destruct (_ =? _)%Z; marks_calls].
  apply only_marks_bind; [destruct (negb _); marks_seq|]. intros _.
  apply only_marks_bind; [destruct (fst res); marks_calls|]. intros _.
  destruct (is_empty_string _); marks_calls.
Qed.

Lemma only_marks_commit_body fuel : only_marks (W := W) (commit_body fuel).
Proof.
  unfold commit_body. apply only_marks_bind; [marks_calls|]. intros s.
  apply only_marks_bind; [apply only_marks_find_write_nodes|]. intros _.
  unfold commit_after_find. apply only_marks_bind; [marks_calls|]. intros v.
  destruct (_ || _); [|marks_calls].
  apply only_marks_bind.
  { destruct (negb _); [|marks_calls]. unfold lock_write_nodes.
    apply only_marks_bind; [marks_calls|]. intros v0.
    apply only_marks_bind; [marks_calls|]. intros _.
    apply only_marks_bind; [apply only_marks_lock_nodes|]. intros _.
    marks_seq. }
  intros _. apply only_marks_bind; [apply only_marks_read_validation|].
  intros _. apply only_marks_bind; [marks_calls|]. intros v'.
  destruct (negb _); [|marks_calls].
  unfold write_records. intros f res f' H.
  exact (only_marks_for_each _ _ (only_marks_write_record _) _ _ _ H).
Qed.

(** Whatever [commit] does, it leaves the contexts of the transaction as
    they were up to the marks of Phase A. *)
Lemma commit_marks fuel doThrow tx (w : W) :
  marked (ctx_map tx) (ctx_map (txn (snd (commit fuel doThrow tx w)))).
Proof.
  unfold commit.
  destruct (state tx); try apply marked_refl.
  all: destruct (commit_body fuel (commit_begin tx w)) as [[[]| |] f] eqn:E;
    pose proof (only_marks_commit_body fuel _ _ _ E) as H;
    cbn [commit_begin txn] in H; cbn [snd];
    rewrite ?(proj1 (commit_finish_txn f)), ?(proj1 (do_abort_ends f));
    exact H.
Qed.

(** An entry of a context of the transaction is an entry of the same
    context after the marks. *)
Lemma marked_read_entry m m' tree ctx e :
  marked m m' -> In (tree, ctx) m -> In e (read_set ctx) ->
  exists ctx' e',
    In (tree, ctx') m' /\ In e' (read_set ctx') /\ marked_read e e'.
Proof.
  intros H I Ie.
  destruct (Forall2_in_left _ _ _ _ H I) as ([tree' ctx'] & I' & Ef & Mc).
  cbn [fst snd] in Ef, Mc. subst tree'.
  destruct Mc as (Mr & _).
  destruct (Forall2_in_left _ _ _ _ Mr Ie) as (e' & Ie' & Me).
  exists ctx', e'. auto.
Qed.

Lemma marked_absent_entry m m' tree ctx e :
  marked m m' -> In (tree, ctx) m -> In e (absent_set ctx) ->
  exists ctx' e',
    In (tree, ctx') m' /\ In e' (absent_set ctx') /\ marked_absent e e'.
Proof.
  intros H I Ie.
  destruct (Forall2_in_left _ _ _ _ H I) as ([tree' ctx'] & I' & Ef & Mc).
  cbn [fst snd] in Ef, Mc. subst tree'.
  destruct Mc as (_ & Ma & _).
  destruct (Forall2_in_left _ _ _ _ Ma Ie) as (e' & Ie' & Me).
  exists ctx', e'. auto.
Qed.

End PhaseAMarks.

Section WholeValidation.

Context {W : Type} {PR : Protocol W} {ST : Storage W}.

Lemma read_run_all rs evs :
  read_run rs evs false ->
  forall e, In e rs -> In (read_check_event e true) evs.
Proof.
  intros H. remember false as ab eqn:Eab.
  induction H as [|e0 rs evs ab R IH|e0 rs]; intros e He.
  - destruct He.
  - destruct He as [<-|He]; [left; reflexivity | right; auto].
  - discriminate.
Qed.

Lemma absent_entry_passed_more tree e evs1 evs2 :
  absent_entry_passed tree e evs2 ->
  absent_entry_passed tree e (evs1 ++ evs2).
Proof.
  unfold absent_entry_passed. destruct (type (snd e)); auto.
  - intros [H|(v & H1 & H2)]; [left | right; exists v];
      repeat split; apply in_or_app; auto.
  - intros H. apply in_or_app; auto.
Qed.

Lemma absent_entry_passed_first tree e evs1 evs2 :
  absent_entry_passed tree e evs1 ->
  absent_entry_passed tree e (evs1 ++ evs2).
Proof.
  unfold absent_entry_passed. destruct (type (snd e)); auto.
  - intros [H|(v & H1 & H2)]; [left | right; exists v];
      repeat split; apply in_or_app; auto.
  - intros H. apply in_or_app; auto.
Qed.

Lemma absent_run_all tree abs evs :
  absent_run tree abs evs false ->
  forall e, In e abs -> absent_entry_passed tree e evs.
Proof.
  intros H. remember false as ab eqn:Eab.
  induction H as [ | e0 abs evs ab T R IH | e0 abs evs ab T R IH
                 | e0 abs T | e0 abs evs ab T R IH
                 | e0 v abs evs ab T R IH | e0 v abs T ];
    intros e He; try discriminate.
  - destruct He.
  - destruct He as [<-|He]; [|auto].
    unfold absent_entry_passed. rewrite T. exact I.
  - destruct He as [<-|He].
    + unfold absent_entry_passed. rewrite T. left. reflexivity.
    + apply (absent_entry_passed_more tree e [_]). auto.
  - destruct He as [<-|He].
    + unfold absent_entry_passed. rewrite T. left. left. reflexivity.
    + apply (absent_entry_passed_more tree e [_]). auto.
  - destruct He as [<-|He].
    + unfold absent_entry_passed. rewrite T. right. exists v.
      split; [left; reflexivity | right; left; reflexivity].
    + apply (absent_entry_passed_more tree e [_; _]). auto.
Qed.

Lemma context_run_all low tree ctx evs :
  context_run low tree ctx evs None ->
  (forall e, In e (read_set ctx) -> In (read_check_event e true) evs) /\
  (forall e, In e (absent_set ctx) -> absent_entry_passed tree e evs).
Proof.
  intros H. inversion H as [ | | evs1 evs2 evs3 ab R1 R2 R3 E1 E2 ]; subst.
  split.
  - intros e He. apply in_or_app. left. eapply read_run_all; eauto.
  - intros e He. apply absent_entry_passed_more.
    apply absent_entry_passed_first. eapply absent_run_all; eauto.
Qed.

Lemma validation_run_all low m evs :
  validation_run low m evs None ->
  forall tree ctx, In (tree, ctx) m ->
    (forall e, In e (read_set ctx) -> In (read_check_event e true) evs) /\
    (forall e, In e (absent_set ctx) -> absent_entry_passed tree e evs).
Proof.
  intros H. remember None as r eqn:Er.
  induction H as [|e0 m evs1 evs2 r C V IH|e0 m evs why C];
    intros tree ctx Hin; try discriminate.
  - destruct Hin.
  - destruct Hin as [->|Hin].
    + destruct (context_run_all _ _ _ _ C) as [A B]. cbn [fst snd] in *.
      split.
      * intros e He. apply in_or_app. left. auto.
      * intros e He. apply absent_entry_passed_first. auto.
    + destruct (IH Er _ _ Hin) as [A B]. split.
      * intros e He. apply in_or_app. right. auto.
      * intros e He. apply absent_entry_passed_more. auto.
Qed.

Lemma aborted_not_true doThrow why : aborted doThrow why <> Returned true.
Proof. unfold aborted. destruct doThrow; discriminate. Qed.

(** A [commit] that returns [true] has validated every context, unless
    it took the fast path of a consistent snapshot without writes. *)
Lemma commit_validates fuel doThrow tx (w : W) :
  state tx = TXN_EMBRYO \/ state tx = TXN_ACTIVE ->
  fst (commit fuel doThrow tx w) = Returned true ->
  fst (fst (consistent_snapshot_tid w)) = false \/ to_write (ctx_map tx) <> [] ->
  exists before evs after,
    trace (snd (commit fuel doThrow tx w)) = before ++ evs ++ after /\
    validation_run (has_flag (flags tx) TXN_FLAG_LOW_LEVEL_SCAN)
      (ctx_map (txn (snd (commit fuel doThrow tx w)))) evs None.
Proof.
  intros Hs Hr Hn.
  assert (Hc : fst (commit fuel doThrow tx w) <> CutOff) by congruence.
  pose proof (commit_shape fuel doThrow tx w Hs Hc) as H.
  rewrite Hr in H.
  inversion H as [ evsA Sf Wn PA E1 E2
                 | evsA unl PA PU Ew E1 E2
                 | evsA vA evsB unl PA WA LB PU Ew E1 E2
                 | evsA vA evsB o evsC PA WA LB Ho RC E1 E2
                 | evsA vA evsB o evsC evsD PA WA LB Ho RC PD E1 E2 ].
  - exfalso. destruct Hn as [Hn|Hn]; congruence.
  - exfalso. eapply aborted_not_true; eauto.
  - exfalso. eapply aborted_not_true; eauto.
  - exfalso. eapply aborted_not_true; eauto.
  - exists (EvConsistentSnapshotTid (fst (consistent_snapshot_tid w))
              :: evsA ++ evsB ++ gen_events o), evsC, (evsD ++ fin_events o).
    split; [|exact RC].
    cbn [app]. rewrite <- !app_assoc. reflexivity.
Qed.

(** A [commit] that aborts with a reason of the validation has run the
    validation up to the check that failed. *)
Lemma commit_validation_fails fuel doThrow tx (w : W) why :
  state tx = TXN_EMBRYO \/ state tx = TXN_ACTIVE ->
  fst (commit fuel doThrow tx w) <> CutOff ->
  fst (commit fuel doThrow tx w) <> Returned true ->
  reason (txn (snd (commit fuel doThrow tx w))) = why ->
  why <> ABORT_REASON_WRITE_NODE_INTERFERENCE ->
  exists before evs after,
    trace (snd (commit fuel doThrow tx w)) = before ++ evs ++ after /\
    validation_run (has_flag (flags tx) TXN_FLAG_LOW_LEVEL_SCAN)
      (ctx_map (txn (snd (commit fuel doThrow tx w)))) evs (Some why).
Proof.
  intros Hs Hc Hr Hw Hn.
  pose proof (commit_shape fuel doThrow tx w Hs Hc) as H.
  rewrite Hw in H.
  inversion H as [ evsA Sf Wn PA E1 E2
                 | evsA unl PA PU Ew E1 E2
                 | evsA vA evsB unl PA WA LB PU Ew E1 E2
                 | evsA vA evsB o evsC PA WA LB Ho RC E1 E2
                 | evsA vA evsB o evsC evsD PA WA LB Ho RC PD E1 E2 ];
    try congruence.
  exists (EvConsistentSnapshotTid (fst (consistent_snapshot_tid w))
            :: evsA ++ evsB ++ gen_events o), evsC,
         (map (fun e => EvUnlock (fst e)) (locked_tuples o) ++ fin_events o).
  split; [|exact RC].
  cbn [app]. rewrite <- !app_assoc. reflexivity.
Qed.

(** C3.  The validation of a read set checks its entries one by one, in
    order: an entry whose [holds_lock] flag is set is checked with
    [is_latest_version], any other with [stable_is_latest_version], at
    the tid the entry records; the first check that fails ends the
    validation with [ABORT_REASON_READ_NODE_INTEREFERENCE].  [commit]
    aborts with that reason exactly when one of these checks has
    failed.  Phase C validates the contexts one after the other, the
    read set of each first, up to the first check that fails.  A
    [commit] that returns [true] has run Phase C over every context,
    and so has checked every entry of every read set, unless it took
    the fast path (a consistent snapshot and no writes); this holds of
    the read sets as Phase C finds them and of the read sets the
    transaction came with, whose entries Phase A leaves in place and
    changes only in their [holds_lock] flag.  A [commit] that aborts
    with that reason has run Phase C up to the failed check. *)
Theorem read_set_validated_entry_by_entry :
  (forall (rs : read_set_map) (f : frame W) (res : outcome unit) (f' : frame W),
     validate_read_set rs f = (res, f') ->
     exists evs ab,
       read_run rs evs ab /\ trace f' = trace f ++ evs /\
       validated ABORT_REASON_READ_NODE_INTEREFERENCE ab f res f') /\
  (forall (fuel : nat) (doThrow : bool) (tx : transaction) (w : W),
     state tx = TXN_EMBRYO \/ state tx = TXN_ACTIVE ->
     (fst (commit fuel doThrow tx w)
        = aborted doThrow ABORT_REASON_READ_NODE_INTEREFERENCE /\
      state (txn (snd (commit fuel doThrow tx w))) = TXN_ABRT /\
      reason (txn (snd (commit fuel doThrow tx w)))
        = ABORT_REASON_READ_NODE_INTEREFERENCE) <->
     existsb failed_read_check (trace (snd (commit fuel doThrow tx w))) = true) /\
  (forall (f : frame W) (res : outcome unit) (f' : frame W),
     read_validation f = (res, f') ->
     exists evs r,
       validation_run (has_flag (flags (txn f)) TXN_FLAG_LOW_LEVEL_SCAN)
         (ctx_map (txn f)) evs r /\
       trace f' = trace f ++ evs /\ checked r f res f') /\
  (forall (fuel : nat) (doThrow : bool) (tx : transaction) (w : W),
     state tx = TXN_EMBRYO \/ state tx = TXN_ACTIVE ->
     fst (commit fuel doThrow tx w) = Returned true ->
     fst (fst (consistent_snapshot_tid w)) = false \/
     to_write (ctx_map tx) <> [] ->
     (exists before evs after,
        trace (snd (commit fuel doThrow tx w)) = before ++ evs ++ after /\
        validation_run (has_flag (flags tx) TXN_FLAG_LOW_LEVEL_SCAN)
          (ctx_map (txn (snd (commit fuel doThrow tx w)))) evs None) /\
     (forall tree ctx e,
        In (tree, ctx) (ctx_map (txn (snd (commit fuel doThrow tx w)))) ->
        In e (read_set ctx) ->
        In (read_check_event e true) (trace (snd (commit fuel doThrow tx w)))) /\
     (forall tree ctx e,
        In (tree, ctx) (ctx_map tx) -> In e (read_set ctx) ->
        exists held,
          In (read_check_event (fst e, mk_read_record (t (snd e)) held) true)
             (trace (snd (commit fuel doThrow tx w))))) /\
  (forall (fuel : nat) (doThrow : bool) (tx : transaction) (w : W),
     state tx = TXN_EMBRYO \/ state tx = TXN_ACTIVE ->
     fst (commit fuel doThrow tx w) <> CutOff ->
     fst (commit fuel doThrow tx w) <> Returned true ->
     reason (txn (snd (commit fuel doThrow tx w)))
     = ABORT_REASON_READ_NODE_INTEREFERENCE ->
     exists before evs after,
       trace (snd (commit fuel doThrow tx w)) = before ++ evs ++ after /\
       validation_run (has_flag (flags tx) TXN_FLAG_LOW_LEVEL_SCAN)
         (ctx_map (txn (snd (commit fuel doThrow tx w)))) evs
         (Some ABORT_REASON_READ_NODE_INTEREFERENCE)).
Proof.
  split; [intros rs f res f' H; apply validate_read_set_run; exact H|].
  split.
  { intros fuel doThrow tx w Hs.
    apply commit_tracks; [exact failed_read_check_is_check | | exact Hs].
    apply tracks_commit_body;
      [ exact failed_read_check_is_check | discriminate | discriminate
      | exact tracks_read_set_read | exact tracks_absent_set_read ]. }
  split; [intros f res f' H; apply read_validation_run; exact H|].
  split.
  { intros fuel doThrow tx w Hs Hr Hn.
    destruct (commit_validates fuel doThrow tx w Hs Hr Hn)
      as (before & evs & after & T & V).
    split; [exists before, evs, after; auto|].
    assert (All : forall tree ctx e,
               In (tree, ctx) (ctx_map (txn (snd (commit fuel doThrow tx w)))) ->
               In e (read_set ctx) ->
               In (read_check_event e true)
                  (trace (snd (commit fuel doThrow tx w)))).
    { intros tree ctx e Hin He. rewrite T.
      apply in_or_app. right. apply in_or_app. left.
      destruct (validation_run_all _ _ _ V _ _ Hin) as [A _]. auto. }
    split; [exact All|].
    intros tree ctx e Hin He.
    destruct (marked_read_entry _ _ _ _ _ (commit_marks fuel doThrow tx w)
                Hin He) as (ctx' & e' & I' & Ie' & Ef & Et).
    exists (holds_lock (snd e')). rewrite Ef, Et.
    specialize (All _ _ _ I' Ie'). destruct e' as [p [t' held]]. exact All. }
  intros fuel doThrow tx w Hs Hc Hr Hw.
  apply commit_validation_fails; auto. discriminate.
Qed.

(** C4.  The validation of an absent set goes through its entries in
    order: an INSERT entry is skipped; for a WRITE entry the saved tuple
    is asked [latest_value_is_nil]; for a READ entry the key is searched
    again, a miss passes, and a hit is asked
    [stable_latest_value_is_nil].  The first answer that is not nil ends
    the validation with [ABORT_REASON_READ_ABSENCE_INTEREFERENCE].
    [commit] aborts with that reason exactly when one of these checks has
    failed.  Phase C validates the contexts one after the other, the
    absent set of each after its read set, up to the first check that
    fails.  A [commit] that returns [true] has run Phase C over every
    context, and so has let every entry of every absent set pass in the
    way of its kind, unless it took the fast path (a consistent snapshot
    and no writes); this holds of the absent sets as Phase C finds them,
    and every entry the transaction came with is still there, as it was
    or re-marked by Phase A as WRITE or INSERT.  A [commit] that aborts
    with that reason has run Phase C up to the failed check. *)
Theorem absent_set_validated_entry_by_entry :
  (forall (tree : pointer) (abs : absent_set_map) (f : frame W)
          (res : outcome unit) (f' : frame W),
     validate_absent_set tree abs f = (res, f') ->
     exists evs ab,
       absent_run tree abs evs ab /\ trace f' = trace f ++ evs /\
       validated ABORT_REASON_READ_ABSENCE_INTEREFERENCE ab f res f') /\
  (forall (fuel : nat) (doThrow : bool) (tx : transaction) (w : W),
     state tx = TXN_EMBRYO \/ state tx = TXN_ACTIVE ->
     (fst (commit fuel doThrow tx w)
        = aborted doThrow ABORT_REASON_READ_ABSENCE_INTEREFERENCE /\
      state (txn (snd (commit fuel doThrow tx w))) = TXN_ABRT /\
      reason (txn (snd (commit fuel doThrow tx w)))
        = ABORT_REASON_READ_ABSENCE_INTEREFERENCE) <->
     existsb failed_absent_check (trace (snd (commit fuel doThrow tx w))) = true) /\
  (forall (f : frame W) (res : outcome unit) (f' : frame W),
     read_validation f = (res, f') ->
     exists evs r,
       validation_run (has_flag (flags (txn f)) TXN_FLAG_LOW_LEVEL_SCAN)
         (ctx_map (txn f)) evs r /\
       trace f' = trace f ++ evs /\ checked r f res f') /\
  (forall (fuel : nat) (doThrow : bool) (tx : transaction) (w : W),
     state tx = TXN_EMBRYO \/ state tx = TXN_ACTIVE ->
     fst (commit fuel doThrow tx w) = Returned true ->
     fst (fst (consistent_snapshot_tid w)) = false \/
     to_write (ctx_map tx) <> [] ->
     (exists before evs after,
        trace (snd (commit fuel doThrow tx w)) = before ++ evs ++ after /\
        validation_run (has_flag (flags tx) TXN_FLAG_LOW_LEVEL_SCAN)
          (ctx_map (txn (snd (commit fuel doThrow tx w)))) evs None) /\
     (forall tree ctx e,
        In (tree, ctx) (ctx_map (txn (snd (commit fuel doThrow tx w)))) ->
        In e (absent_set ctx) ->
        absent_entry_passed tree e (trace (snd (commit fuel doThrow tx w)))) /\
     (forall tree ctx e,
        In (tree, ctx) (ctx_map tx) -> In e (absent_set ctx) ->
        exists e',
          marked_absent e e' /\
          absent_entry_passed tree e' (trace (snd (commit fuel doThrow tx w))))) /\
  (forall (fuel : nat) (doThrow : bool) (tx : transaction) (w : W),
     state tx = TXN_EMBRYO \/ state tx = TXN_ACTIVE ->
     fst (commit fuel doThrow tx w) <> CutOff ->
     fst (commit fuel doThrow tx w) <> Returned true ->
     reason (txn (snd (commit fuel doThrow tx w)))
     = ABORT_REASON_READ_ABSENCE_INTEREFERENCE ->
     exists before evs after,
       trace (snd (commit fuel doThrow tx w)) = before ++ evs ++ after /\
       validation_run (has_flag (flags tx) TXN_FLAG_LOW_LEVEL_SCAN)
         (ctx_map (txn (snd (commit fuel doThrow tx w)))) evs
         (Some ABORT_REASON_READ_ABSENCE_INTEREFERENCE)).
Proof.
  split; [intros tree abs f res f' H; apply validate_absent_set_run; exact H|].
  split.
  { intros fuel doThrow tx w Hs.
    apply commit_tracks; [exact failed_absent_check_is_check | | exact Hs].
    apply tracks_commit_body;
      [ exact failed_absent_check_is_check | discriminate | discriminate
      | exact tracks_read_set_absent | exact tracks_absent_set_absent ]. }
  split; [intros f res f' H; apply read_validation_run; exact H|].
  split.
  { intros fuel doThrow tx w Hs Hr Hn.
    destruct (commit_validates fuel doThrow tx w Hs Hr Hn)
      as (before & evs & after & T & V).
    split; [exists before, evs, after; auto|].
    assert (All : forall tree ctx e,
               In (tree, ctx) (ctx_map (txn (snd (commit fuel doThrow tx w)))) ->
               In e (absent_set ctx) ->
               absent_entry_passed tree e
                 (trace (snd (commit fuel doThrow tx w)))).
    { intros tree ctx e Hin He. rewrite T.
      apply absent_entry_passed_more. apply absent_entry_passed_first.
      destruct (validation_run_all _ _ _ V _ _ Hin) as [_ B]. auto. }
    split; [exact All|].
    intros tree ctx e Hin He.
    destruct (marked_absent_entry _ _ _ _ _ (commit_marks fuel doThrow tx w)
                Hin He) as (ctx' & e' & I' & Ie' & Me).
    exists e'. split; [exact Me | exact (All _ _ _ I' Ie')]. }
  intros fuel doThrow tx w Hs Hc Hr Hw.
  apply commit_validation_fails; auto. discriminate.
Qed.

End WholeValidation.

Section TidOrder.

Context {W : Type} {PR : Protocol W} {ST : Storage W}.

Lemma resolve_plain evs :
  forallb resolve_event evs = true -> forallb plain_event evs = true.
Proof.
  apply forallb_weaken. intros ev. destruct ev; cbn; auto.
Qed.

Lemma unlock_plain evs :
  forallb unlock_event evs = true -> forallb plain_event evs = true.
Proof.
  apply forallb_weaken. intros ev. destruct ev; cbn; auto.
Qed.

Lemma lock_run_plain ps evs ab :
  lock_run (W := W) ps evs ab -> forallb plain_event evs = true.
Proof. induction 1; cbn; auto. Qed.

Lemma lock_phase_run_plain vA evs ab :
  lock_phase_run (W := W) vA evs ab -> forallb plain_event evs = true.
Proof. intros [_|evs' ab' _ L]; [reflexivity | eapply lock_run_plain; eauto]. Qed.

Lemma read_run_plain rs evs ab :
  read_run rs evs ab -> forallb plain_event evs = true.
Proof.
  induction 1 as [|e rs evs ab R IH|e rs]; cbn [forallb]; auto;
    unfold read_check_event; destruct (holds_lock (snd e)); cbn; auto.
Qed.

Lemma absent_run_plain tree abs evs ab :
  absent_run tree abs evs ab -> forallb plain_event evs = true.
Proof. induction 1; cbn; auto. Qed.

Lemma scan_run_plain ns evs ab :
  scan_run ns evs ab -> forallb plain_event evs = true.
Proof. induction 1; cbn; auto. Qed.

Lemma range_run_plain tree l evs ab :
  range_run tree l evs ab -> forallb plain_event evs = true.
Proof. induction 1; cbn; auto. Qed.

Lemma context_run_plain low tree ctx evs r :
  context_run low tree ctx evs r -> forallb plain_event evs = true.
Proof.
  intros [evs' R | evs1 evs2 R1 R2 | evs1 evs2 evs3 ab R1 R2 R3];
    rewrite ?forallb_app.
  - eapply read_run_plain; eauto.
  - rewrite (read_run_plain _ _ _ R1), (absent_run_plain _ _ _ _ R2).
    reflexivity.
  - rewrite (read_run_plain _ _ _ R1), (absent_run_plain _ _ _ _ R2).
    destruct low; [eapply scan_run_plain | eapply range_run_plain]; eauto.
Qed.

Lemma validation_run_plain low m evs r :
  validation_run low m evs r -> forallb plain_event evs = true.
Proof.
  induction 1 as [|e m evs1 evs2 r C V IH|e m evs why C];
    rewrite ?forallb_app.
  - reflexivity.
  - rewrite (context_run_plain _ _ _ _ _ C), IH. reflexivity.
  - eapply context_run_plain; eauto.
Qed.

(** X24.  Either [commit] calls neither [gen_commit_tid] nor
    [on_tid_finish] nor any of the six calls of Phase D
    ([mark_modifying], the version store, [write_record_at], [insert],
    [on_dbtuple_spill], [on_logical_delete]); or its calls are, in this
    order: the snapshot, the calls of Phase A (searches, allocations,
    locks, [insert_if_absent], and the unlock and release after a failed
    insert), the lock run of Phase B over the sorted tuples not yet
    locked, all of which it locks, [gen_commit_tid] on the tuples of
    Phase A sorted and all locked, the validation of Phase C, then,
    when the validation passed, the calls of Phase D, every version
    they write being the tid that was generated, and [commit] returns
    [true]; or, when it failed, the unlocks of [do_abort] over all
    these tuples, and [commit] aborts with the reason of the
    validation; and last [on_tid_finish] of that tid. *)
Theorem commit_tid_is_generated_then_finished :
  forall (fuel : nat) (doThrow : bool) (tx : transaction) (w : W),
    state tx = TXN_EMBRYO \/ state tx = TXN_ACTIVE ->
    fst (commit fuel doThrow tx w) <> CutOff ->
    forallb plain_event (trace (snd (commit fuel doThrow tx w))) = true \/
    exists evsA vA evsB tid evsC r evsD,
      trace (snd (commit fuel doThrow tx w))
      = EvConsistentSnapshotTid (fst (consistent_snapshot_tid w))
          :: evsA ++ evsB
          ++ EvGenCommitTid (lock_all (std_sort vA)) tid
          :: evsC ++ evsD ++ [EvOnTidFinish tid] /\
      forallb resolve_event evsA = true /\
      written vA = to_write (ctx_map tx) /\ vA <> [] /\
      lock_run (map fst (filter unlocked (std_sort vA))) evsB false /\
      validation_run (has_flag (flags tx) TXN_FLAG_LOW_LEVEL_SCAN)
        (ctx_map (txn (snd (commit fuel doThrow tx w)))) evsC r /\
      match r with
      | None =>
          fst (commit fuel doThrow tx w) = Returned true /\
          forallb (finish_event tid) evsD = true
      | Some why =>
          fst (commit fuel doThrow tx w) = aborted doThrow why /\
          evsD = map (fun e => EvUnlock (fst e)) (lock_all (std_sort vA))
      end.
Proof.
  intros fuel doThrow tx w Hs Hc.
  pose proof (commit_shape fuel doThrow tx w Hs Hc) as H.
  remember (trace (snd (commit fuel doThrow tx w))) as tr eqn:Et.
  remember (fst (commit fuel doThrow tx w)) as res eqn:Er.
  clear Et Er Hc.
  destruct H as [ evsA Sf Wn PA
                | evsA unl PA PU Ew
                | evsA vA evsB unl PA WA LB PU Ew
                | evsA vA evsB o evsC PA WA LB Ho RC
                | evsA vA evsB o evsC evsD PA WA LB Ho RC PD ].
  - left. cbn [forallb plain_event tid_event write_event negb andb].
    apply resolve_plain. exact PA.
  - left. cbn [forallb plain_event tid_event write_event negb andb].
    rewrite forallb_app, (resolve_plain _ PA), (unlock_plain _ PU).
    reflexivity.
  - left. cbn [forallb plain_event tid_event write_event negb andb].
    rewrite !forallb_app, (resolve_plain _ PA), (unlock_plain _ PU),
      (lock_phase_run_plain _ _ _ LB). reflexivity.
  - destruct o as [[v tid]|]; cbn [gen_events fin_events locked_tuples].
    + right. destruct Ho as [Hn ->].
      exists evsA, vA, evsB, tid, evsC,
        (Some (reason (txn (snd (commit fuel doThrow tx w))))),
        (map (fun e => EvUnlock (fst e)) (lock_all (std_sort vA))).
      split; [cbn [app]; reflexivity|].
      split; [exact PA|]. split; [exact WA|]. split; [exact Hn|].
      split.
      { destruct LB as [E|evs ab N L]; [congruence | exact L]. }
      split; [exact RC|]. split; reflexivity.
    + left. cbn [forallb plain_event tid_event write_event negb andb map app].
      rewrite !forallb_app, (resolve_plain _ PA),
        (lock_phase_run_plain _ _ _ LB), (validation_run_plain _ _ _ _ RC).
      reflexivity.
  - destruct o as [[v tid]|]; cbn [gen_events fin_events writes_for] in *.
    + right. destruct Ho as [Hn ->].
      exists evsA, vA, evsB, tid, evsC, None, evsD.
      split; [cbn [app]; reflexivity|].
      split; [exact PA|]. split; [exact WA|]. split; [exact Hn|].
      split.
      { destruct LB as [E|evs ab N L]; [congruence | exact L]. }
      split; [exact RC|]. split; [reflexivity | exact PD].
    + left. subst evsD.
      cbn [forallb plain_event tid_event write_event negb andb map app].
      rewrite !forallb_app, (resolve_plain _ PA),
        (lock_phase_run_plain _ _ _ LB), (validation_run_plain _ _ _ _ RC).
      reflexivity.
Qed.

End TidOrder.

Section Retry.

Context {W : Type} {PR : Protocol W} {ST : Storage W}.

Notation "x <- m ;; k" := (bind m (fun x => k))
  (at level 61, m at next level, right associativity).
Notation "m ;;; k" := (bind m (fun _ => k))
  (at level 61, right associativity).

Lemma update_node_scan_jumps i node version (f f' : frame W) :
  update_node_scan i node version f = (Jump, f') ->
  reason (txn f') = ABORT_REASON_WRITE_NODE_INTERFERENCE.
Proof.
  unfold update_node_scan, bind, get_txn.
  destruct (has_flag _ _); [|discriminate].
  destruct (nth_error _ _) as [[t ctx]|]; [|discriminate].
  destruct (alist_find _ _ _) as [v|]; [|discriminate].
  destruct (negb _).
  - unfold abort_goto. intros H; injection H as <-; reflexivity.
  - unfold modify_ctx, set_ctx_map, bind, get_txn. discriminate.
Qed.

(** X21.  The rounds of the [retry] loop of Phase A for one write: a
    round that finds the key takes the tuple found as the write tuple,
    not locked and not inserted; a round whose [insert_if_absent]
    succeeds takes the fresh tuple, locked and inserted, unless the
    check of the node version jumps to [do_abort]; and a round whose
    [insert_if_absent] fails unlocks and releases its tuple and goes
    round again with a search. *)
Theorem find_write_node_retries_by_search :
  forall (fuel i : nat) (tree : pointer) (k : Key.string_type)
         (wr : write_record_t) (try_insert_path : bool)
         (f : frame W) (res : outcome unit) (f' : frame W),
    find_write_node fuel i tree k wr try_insert_path f = (res, f') ->
    res <> OutOfFuel ->
    exists evs how,
      write_run tree k try_insert_path evs how /\
      trace f' = trace f ++ evs /\
      match how with
      | Found v =>
          res = Ok tt /\
          dbtuples f'
          = dbtuples f ++ [(v, mk_dbtuple_info tree k false (r wr) false)]
      | Inserted p node version =>
          (res = Ok tt /\
           dbtuples f'
           = dbtuples f ++ [(p, mk_dbtuple_info tree k true (r wr) true)]) \/
          (res = Jump /\ dbtuples f' = dbtuples f /\
           reason (txn f') = ABORT_REASON_WRITE_NODE_INTERFERENCE)
      end.
Proof.
  induction fuel as [|fuel IH]; intros i tree k wr tip f res f' H N;
    cbn [find_write_node] in H.
  { injection H as <- <-. congruence. }
  unfold bind at 1 in H.
  destruct ((if tip then ret None
             else call (btree_search tree k) (EvSearch tree k)) f)
    as [r0 f0] eqn:E0.
  assert (S0 : exists found,
             r0 = Ok found /\ dbtuples f0 = dbtuples f /\
             trace f0
             = trace f ++ (if tip then [] else [EvSearch tree k found]) /\
             (tip = true -> found = None)).
  { destruct tip; unfold ret, call in E0; cbv zeta in E0;
      injection E0 as <- <-; eexists; cbn [dbtuples trace];
      rewrite ?app_nil_r; repeat split; auto; discriminate. }
  destruct S0 as (found & -> & D0 & T0 & Tip).
  destruct found as [v|].
  - destruct tip; [specialize (Tip eq_refl); discriminate|].
    unfold search_succeeded in H. apply emplace_then_marks_frame in H.
    destruct H as (-> & D & T & F).
    exists [EvSearch tree k (Some v)], (Found v).
    split; [apply write_run_found|].
    split; [rewrite T, T0; reflexivity|].
    split; [reflexivity | rewrite D, D0; reflexivity].
  - unfold bind at 1 2 3, call at 1 2 3 in H. cbv zeta in H.
    cbn [txn dbtuples commit_tid world trace fst snd] in H.
    match type of H with
    | context [btree_insert_if_absent tree k ?t _] => set (tuple := t) in *
    end.
    match type of H with
    | context [EvLock tuple ?h] => set (hdr := h) in *
    end.
    match type of H with
    | context [btree_insert_if_absent tree k tuple ?w] =>
        destruct (btree_insert_if_absent tree k tuple w) as [ins w3] eqn:E3
    end.
    cbn [fst snd] in H.
    destruct ins as [[node version]|].
    + unfold insert_succeeded in H. unfold bind at 1 in H.
      match type of H with
      | context [update_node_scan i node version ?g] =>
          destruct (update_node_scan i node version g) as [r1 f1] eqn:E1
      end.
      assert (J1 : r1 = Jump ->
                   reason (txn f1) = ABORT_REASON_WRITE_NODE_INTERFERENCE).
      { intros ->. exact (update_node_scan_jumps _ _ _ _ _ E1). }
      apply update_node_scan_frame in E1.
      destruct E1 as (D1 & T1 & F1 & R1).
      cbn [dbtuples trace] in D1, T1.
      exists ((if tip then [] else [EvSearch tree k None])
                ++ [EvAllocFirst tuple; EvLock tuple hdr;
                    EvInsertIfAbsent tree k tuple (Some (node, version))]),
        (Inserted tuple node version).
      split; [apply write_run_insert|].
      destruct r1 as [[]| |]; [| |contradiction].
      * apply emplace_then_marks_frame in H.
        destruct H as (-> & D & T & F).
        split; [rewrite T, T1, T0, <- !app_assoc; reflexivity|].
        left. split; [reflexivity | rewrite D, D1, D0; reflexivity].
      * injection H as <- <-.
        split; [rewrite T1, T0, <- !app_assoc; reflexivity|].
        right. split; [reflexivity|]. split; [rewrite D1, D0; reflexivity|].
        exact (J1 eq_refl).
    + unfold bind at 1 2, call_ at 1 2 in H.
      cbn [txn dbtuples commit_tid world trace fst snd] in H.
      destruct (IH _ _ _ _ _ _ _ _ H N) as (evs & how & R & T & Hh).
      cbn [trace dbtuples] in T, Hh.
      exists ((if tip then [] else [EvSearch tree k None])
                ++ [EvAllocFirst tuple; EvLock tuple hdr;
                    EvInsertIfAbsent tree k tuple None;
                    EvUnlock tuple; EvReleaseNoRcu tuple] ++ evs), how.
      split; [apply write_run_retry; exact R|].
      split; [rewrite T, T0, <- !app_assoc; reflexivity|].
      rewrite D0 in Hh. exact Hh.
Qed.

End Retry.

(** ** Examples of whole commits *)

Section WholeCommitExamples.

Local Open Scope Z_scope.

Lemma read_set_validated_entry_by_entry_witness :
  let rs := [(5, mk_read_record 7 true); (6, mk_read_record 9 false)] in
  let w := mk_toy_world 4 true false true None None 1000 in
  let tx := toy_txn 0 (toy_context rs [] [] []) in
  let w2 := mk_toy_world 4 true true true (Some 55) None 1000 in
  let ctx1 :=
    toy_context [(55, mk_read_record 7 false); (6, mk_read_record 9 false)] []
      [(digit_key 1, mk_write_record (digit_key 5) false)] [] in
  let ctx2 :=
    toy_context [(8, mk_read_record 3 false); (9, mk_read_record 4 true)]
      [] [] [] in
  let tx2 :=
    mk_transaction TXN_ACTIVE ABORT_REASON_USER 0 [(100, ctx1); (200, ctx2)] in
  (validate_read_set rs (toy_frame [] w)
     = (Jump, snd (validate_read_set rs (toy_frame [] w))) /\
   exists evs ab,
     read_run rs evs ab /\
     trace (snd (validate_read_set rs (toy_frame [] w)))
       = trace (toy_frame [] w) ++ evs /\
     validated ABORT_REASON_READ_NODE_INTEREFERENCE ab (toy_frame [] w) Jump
       (snd (validate_read_set rs (toy_frame [] w)))) /\
  ((state tx = TXN_EMBRYO \/ state tx = TXN_ACTIVE) /\
   fst (commit 1 false tx w) = Returned false /\
   reason (txn (snd (commit 1 false tx w)))
     = ABORT_REASON_READ_NODE_INTEREFERENCE) /\
  ((state tx2 = TXN_EMBRYO \/ state tx2 = TXN_ACTIVE) /\
   fst (commit 1 false tx2 w2) = Returned true /\
   (fst (fst (consistent_snapshot_tid w2)) = false \/
    to_write (ctx_map tx2) <> []) /\
   In (EvIsLatestVersion 9 4 true) (trace (snd (commit 1 false tx2 w2))) /\
   In (EvIsLatestVersion 55 7 true) (trace (snd (commit 1 false tx2 w2))) /\
   exists held,
     In (read_check_event (55, mk_read_record 7 held) true)
        (trace (snd (commit 1 false tx2 w2)))).
Proof.
  intros rs w tx w2 ctx1 ctx2 tx2.
  assert (H1 : validate_read_set rs (toy_frame [] w)
               = (Jump, snd (validate_read_set rs (toy_frame [] w))))
    by (vm_compute; reflexivity).
  assert (H2 : state tx = TXN_EMBRYO \/ state tx = TXN_ACTIVE)
    by (right; reflexivity).
  assert (H3 : state tx2 = TXN_EMBRYO \/ state tx2 = TXN_ACTIVE)
    by (right; reflexivity).
  assert (H4 : fst (commit 1 false tx2 w2) = Returned true)
    by (vm_compute; reflexivity).
  assert (H5 : fst (fst (consistent_snapshot_tid w2)) = false \/
               to_write (ctx_map tx2) <> [])
    by (left; reflexivity).
  split; [|split].
  - split; [exact H1|].
    exact (proj1 read_set_validated_entry_by_entry rs _ _ _ H1).
  - split; [exact H2|].
    destruct (proj2 (proj1 (proj2 read_set_validated_entry_by_entry)
                       1%nat false tx w H2))
      as (A & _ & B); [vm_compute; reflexivity|].
    split; [exact A | exact B].
  - split; [exact H3|]. split; [exact H4|]. split; [exact H5|].
    destruct (proj1 (proj2 (proj2 (proj2 read_set_validated_entry_by_entry)))
                1%nat false tx2 w2 H3 H4 H5) as (_ & A & B).
    split; [|split].
    + refine (A 200 ctx2 (9, mk_read_record 4 true) _ _).
      * vm_compute. right. left. reflexivity.
      * right. left. reflexivity.
    + vm_compute. auto 20.
    + refine (B 100 ctx1 (55, mk_read_record 7 false) _ _).
      * left. reflexivity.
      * left. reflexivity.
Defined.

Lemma absent_set_validated_entry_by_entry_witness :
  let abs :=
    [(digit_key 1, mk_absent_record ABSENT_REC_INSERT 9);
     (digit_key 2, mk_absent_record ABSENT_REC_READ 0);
     (digit_key 3, mk_absent_record ABSENT_REC_WRITE 6)] in
  let w := mk_toy_world 4 true true false (Some 55) None 1000 in
  let tx := toy_txn 0 (toy_context [] abs [] []) in
  let w2 := mk_toy_world 4 true true true (Some 55) None 1000 in
  let ctx1 :=
    toy_context [] abs [(digit_key 2, mk_write_record (digit_key 5) false)] [] in
  let ctx2 :=
    toy_context []
      [(digit_key 4, mk_absent_record ABSENT_REC_READ 0);
       (digit_key 5, mk_absent_record ABSENT_REC_WRITE 7)] [] [] in
  let tx2 :=
    mk_transaction TXN_ACTIVE ABORT_REASON_USER 0 [(100, ctx1); (200, ctx2)] in
  (validate_absent_set 100 abs (toy_frame [] w)
     = (Jump, snd (validate_absent_set 100 abs (toy_frame [] w))) /\
   exists evs ab,
     absent_run 100 abs evs ab /\
     trace (snd (validate_absent_set 100 abs (toy_frame [] w)))
       = trace (toy_frame [] w) ++ evs /\
     validated ABORT_REASON_READ_ABSENCE_INTEREFERENCE ab (toy_frame [] w) Jump
       (snd (validate_absent_set 100 abs (toy_frame [] w)))) /\
  ((state tx = TXN_EMBRYO \/ state tx = TXN_ACTIVE) /\
   fst (commit 1 true tx w)
     = Threw (transaction_abort_exception ABORT_REASON_READ_ABSENCE_INTEREFERENCE)) /\
  ((state tx2 = TXN_EMBRYO \/ state tx2 = TXN_ACTIVE) /\
   fst (commit 1 false tx2 w2) = Returned true /\
   (fst (fst (consistent_snapshot_tid w2)) = false \/
    to_write (ctx_map tx2) <> []) /\
   In (EvLatestValueIsNil 7 true) (trace (snd (commit 1 false tx2 w2))) /\
   In (EvLatestValueIsNil 55 true) (trace (snd (commit 1 false tx2 w2))) /\
   exists e',
     marked_absent (digit_key 2, mk_absent_record ABSENT_REC_READ 0) e' /\
     absent_entry_passed 100 e' (trace (snd (commit 1 false tx2 w2)))).
Proof.
  intros abs w tx w2 ctx1 ctx2 tx2.
  assert (H1 : validate_absent_set 100 abs (toy_frame [] w)
               = (Jump, snd (validate_absent_set 100 abs (toy_frame [] w))))
    by (vm_compute; reflexivity).
  assert (H2 : state tx = TXN_EMBRYO \/ state tx = TXN_ACTIVE)
    by (right; reflexivity).
  assert (H3 : state tx2 = TXN_EMBRYO \/ state tx2 = TXN_ACTIVE)
    by (right; reflexivity).
  assert (H4 : fst (commit 1 false tx2 w2) = Returned true)
    by (vm_compute; reflexivity).
  assert (H5 : fst (fst (consistent_snapshot_tid w2)) = false \/
               to_write (ctx_map tx2) <> [])
    by (left; reflexivity).
  split; [|split].
  - split; [exact H1|].
    exact (proj1 absent_set_validated_entry_by_entry 100 abs _ _ _ H1).
  - split; [exact H2|].
    destruct (proj2 (proj1 (proj2 absent_set_validated_entry_by_entry)
                       1%nat true tx w H2))
      as (A & _ & B); [vm_compute; reflexivity|].
    exact A.
  - split; [exact H3|]. split; [exact H4|]. split; [exact H5|].
    destruct (proj1 (proj2 (proj2 (proj2 absent_set_validated_entry_by_entry)))
                1%nat false tx2 w2 H3 H4 H5) as (_ & A & B).
    split; [|split].
    + refine (A 200 ctx2 (digit_key 5, mk_absent_record ABSENT_REC_WRITE 7) _ _).
      * vm_compute. right. left. reflexivity.
      * right. left. reflexivity.
    + vm_compute. auto 20.
    + refine (B 100 ctx1 (digit_key 2, mk_absent_record ABSENT_REC_READ 0) _ _).
      * left. reflexivity.
      * right. left. reflexivity.
Defined.

Lemma commit_tid_is_generated_then_finished_witness :
  let ws := [(digit_key 1, mk_write_record (digit_key 5) false)] in
  let w := mk_toy_world 4 true true true (Some 55) None 1000 in
  let tx := toy_txn 0 (toy_context [(5, mk_read_record 7 false)] [] ws []) in
  (state tx = TXN_EMBRYO \/ state tx = TXN_ACTIVE) /\
  fst (commit 1 false tx w) <> CutOff /\
  fst (commit 1 false tx w) = Returned true /\
  forallb plain_event (trace (snd (commit 1 false tx w))) = false /\
  (forallb plain_event (trace (snd (commit 1 false tx w))) = true \/
   exists evsA vA evsB tid evsC r evsD,
     trace (snd (commit 1 false tx w))
     = EvConsistentSnapshotTid (fst (consistent_snapshot_tid w))
         :: evsA ++ evsB ++ EvGenCommitTid (lock_all (std_sort vA)) tid
         :: evsC ++ evsD ++ [EvOnTidFinish tid] /\
     forallb resolve_event evsA = true /\
     written vA = to_write (ctx_map tx) /\ vA <> [] /\
     lock_run (map fst (filter unlocked (std_sort vA))) evsB false /\
     validation_run (has_flag (flags tx) TXN_FLAG_LOW_LEVEL_SCAN)
       (ctx_map (txn (snd (commit 1 false tx w)))) evsC r /\
     match r with
     | None =>
         fst (commit 1 false tx w) = Returned true /\
         forallb (finish_event tid) evsD = true
     | Some why =>
         fst (commit 1 false tx w) = aborted false why /\
         evsD = map (fun e => EvUnlock (fst e)) (lock_all (std_sort vA))
     end).
Proof.
  intros ws w tx.
  assert (H1 : state tx = TXN_EMBRYO \/ state tx = TXN_ACTIVE)
    by (right; reflexivity).
  assert (H2 : fst (commit 1 false tx w) <> CutOff)
    by (vm_compute; discriminate).
  split; [exact H1|]. split; [exact H2|].
  split; [vm_compute; reflexivity|]. split; [vm_compute; reflexivity|].
  exact (commit_tid_is_generated_then_finished 1%nat false tx w H1 H2).
Defined.

Lemma find_write_node_retries_by_search_witness :
  let k := digit_key 1 in
  let wr := mk_write_record (digit_key 5) false in
  let f := toy_frame [] toy_calm in
  let run := find_write_node (ST := racing_storage)
               2 0 100 k wr false f in
  fst run = Ok tt /\
  trace (snd run)
  = [EvSearch 100 k None; EvAllocFirst 1000; EvLock 1000 4;
     EvInsertIfAbsent 100 k 1000 None; EvUnlock 1000; EvReleaseNoRcu 1000;
     EvSearch 100 k (Some 55)] /\
  exists evs how,
    write_run 100 k false evs how /\
    trace (snd run) = trace f ++ evs /\
    match how with
    | Found v =>
        fst run = Ok tt /\
        dbtuples (snd run)
        = dbtuples f ++ [(v, mk_dbtuple_info 100 k false (r wr) false)]
    | Inserted p node version =>
        (fst run = Ok tt /\
         dbtuples (snd run)
         = dbtuples f ++ [(p, mk_dbtuple_info 100 k true (r wr) true)]) \/
        (fst run = Jump /\ dbtuples (snd run) = dbtuples f /\
         reason (txn (snd run)) = ABORT_REASON_WRITE_NODE_INTERFERENCE)
    end.
Proof.
  intros k wr f run.
  assert (H1 : run = (fst run, snd run)) by (destruct run; reflexivity).
  assert (H2 : fst run <> OutOfFuel) by (vm_compute; discriminate).
  split; [vm_compute; reflexivity|]. split; [vm_compute; reflexivity|].
  exact (find_write_node_retries_by_search (ST := racing_storage)
           2%nat 0%nat 100 k wr false f _ _ H1 H2).
Defined.

End WholeCommitExamples.
